(** * advanced-vector: [RawMemory<T>] and [Vector<T>] of vector.h

    A shallow embedding of the two class templates of
    [src/advanced-vector/vector.h] and the properties of its specification.

    Modelling decisions.
    - [size_t] is a 64-bit unsigned integer: a [Z] in [0, 2^64), every
      arithmetic operation of the source on it is followed by [wrap].
    - A [T*] is a block identifier (or null) and an offset in elements.
      [operator new] is asked for [n * sizeof(T)] bytes, a product of
      [size_t] that wraps around.  Whether a call returns a block or throws
      [std::bad_alloc] is up to the free store ([FreeStore]); the block it
      returns is fresh and has as many cells as objects of type [T] fit
      into the bytes that were asked for.
    - A cell of a block either holds an object ([Live v]) or not ([Raw]).
      Reading, copying from, moving from or destroying a cell without an
      object, and any access outside an allocated block, is undefined
      behaviour ([Undefined]); so is assigning to a cell without an
      object.  Constructing into a cell inside a block overwrites the cell
      whatever it holds (the storage is reused, no destructor runs): the
      lifetime events are recorded in the [trace].
    - The element type is a parameter ([Element]): copying yields an equal
      value, moving transfers the value and leaves [moved_from v] in the
      source; each of the four operations may throw on a source value;
      destructors never throw.
    - [Vector] objects live in an object store and are addressed by their
      identity ([this]), so that [this != &rhs] is a comparison of
      identities.  Local [RawMemory] objects are values; their destructor
      runs at the end of their scope, and during stack unwinding when an
      exception passes through it ([unwinding]).
    - [assert] depends on the build: with [NDEBUG = false] a failed
      assertion ends the program ([AssertFail]), otherwise it is skipped. *)

From Stdlib Require Import ZArith List Lia Bool.
From stdpp Require Import base list numbers.

Open Scope Z_scope.

(** ** The element type and the build mode *)

Class Element := {
  T : Type;
  (** state a move constructor or move assignment leaves in its source *)
  moved_from : T -> T;
  (** [T(const T&)] throws on this source value *)
  copy_throws : T -> bool;
  (** [T(T&&)] throws on this source value *)
  move_throws : T -> bool;
  (** [operator=(const T&)] throws on this source value *)
  copy_assign_throws : T -> bool;
  (** [operator=(T&&)] throws on this source value *)
  move_assign_throws : T -> bool;
  (** [T()]: the value-initialised object, or [None] when [T()] throws *)
  value_init : option T;
  is_nothrow_move_constructible : bool;
  is_copy_constructible : bool;
  (** [sizeof(T)] *)
  sizeof_T : positive
}.

Class Build := { NDEBUG : bool }.

(** The free store: whether [operator new] returns a block when it is
    asked for [size] bytes after [k] blocks were allocated; it throws
    [std::bad_alloc] otherwise. *)
Class FreeStore := { new_succeeds : nat -> Z -> bool }.

Definition wrap (z : Z) : Z := z mod 2 ^ 64.

Section Model.
Context {E : Element} {B : Build} {F : FreeStore}.

(** ** Memory, objects and events *)

Record ptr := mkptr { base : option nat; off : Z }.

Definition ptr_add (p : ptr) (k : Z) : ptr := mkptr (base p) (off p + k).

Definition ptr_eqb (p q : ptr) : bool :=
  match base p, base q with
  | Some a, Some b => Nat.eqb a b && (off p =? off q)
  | None, None => off p =? off q
  | _, _ => false
  end.

Inductive slot := Raw | Live (v : T).

(** A reference [const T&] or [T&&]: to an object outside the modelled
    blocks, or to a cell. *)
Inductive ref := Ext (v : T) | At (p : ptr).

(** Constructor arguments [Args&&...]: the copy constructor, the move
    constructor, or another constructor that yields [v] or throws. *)
Inductive ctor_args :=
| CopyOf (r : ref)
| MoveOf (r : ref)
| Other (res : option T).

Inductive event :=
| EvAllocate (b : nat) (n : Z)
| EvDeallocate (b : nat)
| EvCopyConstruct (p : ptr) (v : T)
| EvMoveConstruct (p : ptr) (v : T)
| EvConstruct (p : ptr) (v : T)
| EvCopyAssign (p : ptr) (v : T)
| EvMoveAssign (p : ptr) (v : T)
| EvDestroy (p : ptr) (v : T)
| EvTempConstruct (v : T)
| EvTempDestroy.

Record RawMemory := mkRawMemory { buffer_ : option nat; capacity_ : Z }.

Record Vector := mkVector { data_ : RawMemory; size_ : Z }.

Record world := mkworld {
  objs : list (option Vector);
  heap : list (option (list slot));
  trace : list event
}.

Definition set_objs (o : list (option Vector)) (w : world) : world :=
  mkworld o (heap w) (trace w).
Definition set_heap (h : list (option (list slot))) (w : world) : world :=
  mkworld (objs w) h (trace w).
Definition add_trace (evs : list event) (w : world) : world :=
  mkworld (objs w) (heap w) (trace w ++ evs).

(** ** The monad: state, exceptions, failed assertions, undefined behaviour *)

Inductive result (A : Type) :=
| Ok (a : A) (w : world)
| Throw (w : world)
| AssertFail
| Undefined.
Arguments Ok {A} a w.
Arguments Throw {A} w.
Arguments AssertFail {A}.
Arguments Undefined {A}.

Definition M (A : Type) : Type := world -> result A.

Definition ret {A} (a : A) : M A := fun w => Ok a w.

Definition bind {A C} (m : M A) (f : A -> M C) : M C := fun w =>
  match m w with
  | Ok a w' => f a w'
  | Throw w' => Throw w'
  | AssertFail => AssertFail
  | Undefined => Undefined
  end.

Definition throw {A} : M A := fun w => Throw w.
Definition undefined {A} : M A := fun _ => Undefined.

(** [cleanup] runs when an exception leaves [body], which is then thrown
    again: a [catch (...) { cleanup; throw; }], or the destructor of a
    local object during stack unwinding. *)
Definition unwinding {A} (cleanup : M unit) (body : M A) : M A := fun w =>
  match body w with
  | Throw w' =>
      match cleanup w' with
      | Ok _ w'' => Throw w''
      | Throw w'' => Throw w''
      | AssertFail => AssertFail
      | Undefined => Undefined
      end
  | r => r
  end.

Definition assert_ (c : bool) : M unit := fun w =>
  if NDEBUG then Ok tt w else if c then Ok tt w else AssertFail.

Definition emit (e : event) : M unit := fun w => Ok tt (add_trace [e] w).

End Model.

Arguments Ok {E A} a w.
Arguments Throw {E A} w.
Arguments AssertFail {E A}.
Arguments Undefined {E A}.

Declare Scope vec_scope.
Delimit Scope vec_scope with vec.
Notation "x <- m ;; k" := (bind m (fun x => k))
  (at level 100, m at next level, right associativity) : vec_scope.
Notation "m ;; k" := (bind m (fun _ => k))
  (at level 100, right associativity) : vec_scope.
Open Scope vec_scope.

Section Primitives.
Context {E : Element} {B : Build} {F : FreeStore}.

(** ** Cells *)

(** The cells of an allocated block. *)
Definition block (w : world) (b : nat) : option (list slot) :=
  match (heap w !! b : option (option (list slot))) with
  | Some (Some cells) => Some cells
  | _ => None
  end.

Definition set_block (b : nat) (cells : list slot) (w : world) : world :=
  set_heap (<[b := Some cells]> (heap w)) w.

Definition load (p : ptr) : M slot := fun w =>
  match base p with
  | Some b =>
      match block w b with
      | Some cells =>
          if 0 <=? off p then
            match (cells !! Z.to_nat (off p) : option slot) with
            | Some s => Ok s w
            | None => Undefined
            end
          else Undefined
      | None => Undefined
      end
  | None => Undefined
  end.

Definition store (p : ptr) (s : slot) : M unit := fun w =>
  match base p with
  | Some b =>
      match block w b with
      | Some cells =>
          if (0 <=? off p) && (off p <? Z.of_nat (length cells)) then
            Ok tt (set_block b (<[Z.to_nat (off p) := s]> cells) w)
          else Undefined
      | None => Undefined
      end
  | None => Undefined
  end.

(** The value of the object in a cell. *)
Definition read (p : ptr) : M T :=
  s <- load p ;;
  match s with
  | Live v => ret v
  | Raw => undefined
  end.

Definition read_ref (r : ref) : M T :=
  match r with
  | Ext v => ret v
  | At p => read p
  end.

(** What a move leaves behind in its source. *)
Definition moved_out (r : ref) (v : T) : M unit :=
  match r with
  | Ext _ => ret tt
  | At p => store p (Live (moved_from v))
  end.

(** ** The operations of an element *)

(** [new (p) T(args...)] *)
Definition construct_at (p : ptr) (args : ctor_args) : M unit :=
  match args with
  | CopyOf r =>
      v <- read_ref r ;;
      if copy_throws v then throw
      else store p (Live v) ;; emit (EvCopyConstruct p v)
  | MoveOf r =>
      v <- read_ref r ;;
      if move_throws v then throw
      else store p (Live v) ;; moved_out r v ;; emit (EvMoveConstruct p v)
  | Other (Some v) => store p (Live v) ;; emit (EvConstruct p v)
  | Other None => throw
  end.

(** [new (p) T()] *)
Definition value_construct_at (p : ptr) : M unit :=
  construct_at p (Other value_init).

(** [*p = src]: copy assignment to the object at [p]; there has to be an
    object at [p]. *)
Definition copy_assign (p : ptr) (src : ref) : M unit :=
  v <- read_ref src ;;
  read p ;;
  if copy_assign_throws v then throw
  else store p (Live v) ;; emit (EvCopyAssign p v).

(** [*p = std::move(src)]: move assignment to the object at [p]; there has
    to be an object at [p]. *)
Definition move_assign (p : ptr) (src : ref) : M unit :=
  v <- read_ref src ;;
  read p ;;
  if move_assign_throws v then throw
  else store p (Live v) ;; moved_out src v ;; emit (EvMoveAssign p v).

(** [std::destroy_at(p)], [p->~T()] *)
Definition destroy_at (p : ptr) : M unit :=
  v <- read p ;;
  store p Raw ;; emit (EvDestroy p v).

(** [T tmp(args...)]: an automatic object; the value it holds. *)
Definition construct_temp (args : ctor_args) : M T :=
  match args with
  | CopyOf r =>
      v <- read_ref r ;;
      if copy_throws v then throw else emit (EvTempConstruct v) ;; ret v
  | MoveOf r =>
      v <- read_ref r ;;
      if move_throws v then throw
      else moved_out r v ;; emit (EvTempConstruct v) ;; ret v
  | Other (Some v) => emit (EvTempConstruct v) ;; ret v
  | Other None => throw
  end.

Definition destroy_temp : M unit := emit EvTempDestroy.

(** ** The algorithms of <memory> and <algorithm> *)

(** [std::destroy_n(first, n)] and the [std::destroy(first, first + n)] of
    the clean-up handlers, from [first + i] on. *)
Fixpoint destroy_loop (first : ptr) (i : Z) (n : nat) : M unit :=
  match n with
  | O => ret tt
  | S n' => destroy_at (ptr_add first i) ;; destroy_loop first (i + 1) n'
  end.

Definition destroy_n (first : ptr) (n : Z) : M unit :=
  destroy_loop first 0 (Z.to_nat n).

(** The loops of the uninitialized algorithms: element [i] is constructed
    at [d_first + i]; when that throws, the elements [d_first, d_first + i)
    constructed so far are destroyed and the exception is thrown again. *)
Fixpoint uninitialized_copy_loop (first d_first : ptr) (i : Z) (n : nat) : M unit :=
  match n with
  | O => ret tt
  | S n' =>
      unwinding (destroy_n d_first i)
        (construct_at (ptr_add d_first i) (CopyOf (At (ptr_add first i)))) ;;
      uninitialized_copy_loop first d_first (i + 1) n'
  end.

Definition uninitialized_copy_n (first : ptr) (n : Z) (d_first : ptr) : M unit :=
  uninitialized_copy_loop first d_first 0 (Z.to_nat n).

Fixpoint uninitialized_move_loop (first d_first : ptr) (i : Z) (n : nat) : M unit :=
  match n with
  | O => ret tt
  | S n' =>
      unwinding (destroy_n d_first i)
        (construct_at (ptr_add d_first i) (MoveOf (At (ptr_add first i)))) ;;
      uninitialized_move_loop first d_first (i + 1) n'
  end.

Definition uninitialized_move_n (first : ptr) (n : Z) (d_first : ptr) : M unit :=
  uninitialized_move_loop first d_first 0 (Z.to_nat n).

Fixpoint uninitialized_value_construct_loop (first : ptr) (i : Z) (n : nat) : M unit :=
  match n with
  | O => ret tt
  | S n' =>
      unwinding (destroy_n first i) (value_construct_at (ptr_add first i)) ;;
      uninitialized_value_construct_loop first (i + 1) n'
  end.

Definition uninitialized_value_construct_n (first : ptr) (n : Z) : M unit :=
  uninitialized_value_construct_loop first 0 (Z.to_nat n).

(** The distance [last - first] of a range of one block; an invalid range
    is undefined behaviour. *)
Definition range_length (first last : ptr) : M Z :=
  match base first, base last with
  | Some a, Some b =>
      if Nat.eqb a b && (off first <=? off last)
      then ret (off last - off first) else undefined
  | None, None =>
      if off first =? off last then ret 0 else undefined
  | _, _ => undefined
  end.

(** [std::move(first, last, d_first)]: forwards, the object at [first + i]
    is move-assigned to the one at [d_first + i]. *)
Fixpoint move_loop (first d_first : ptr) (i : Z) (n : nat) : M unit :=
  match n with
  | O => ret tt
  | S n' =>
      move_assign (ptr_add d_first i) (At (ptr_add first i)) ;;
      move_loop first d_first (i + 1) n'
  end.

Definition std_move (first last d_first : ptr) : M ptr :=
  n <- range_length first last ;;
  move_loop first d_first 0 (Z.to_nat n) ;;
  ret (ptr_add d_first n).

(** [std::move_backward(first, last, d_last)]: backwards, the object at
    [last - i - 1] is move-assigned to the one at [d_last - i - 1]. *)
Fixpoint move_backward_loop (last d_last : ptr) (i : Z) (n : nat) : M unit :=
  match n with
  | O => ret tt
  | S n' =>
      move_assign (ptr_add d_last (- (i + 1))) (At (ptr_add last (- (i + 1)))) ;;
      move_backward_loop last d_last (i + 1) n'
  end.

Definition std_move_backward (first last d_last : ptr) : M ptr :=
  n <- range_length first last ;;
  move_backward_loop last d_last 0 (Z.to_nat n) ;;
  ret (ptr_add d_last (- n)).

(** ** The allocation functions *)

(** [operator new(size)]: a fresh block of [size] bytes, which has room for
    [size / sizeof(T)] objects, or [std::bad_alloc]. *)
Definition operator_new (size : Z) : M (option nat) := fun w =>
  let b := length (heap w) in
  if new_succeeds b size then
    let n := size / Z.pos sizeof_T in
    Ok (Some b)
       (add_trace [EvAllocate b n]
          (set_heap (heap w ++ [Some (replicate (Z.to_nat n) Raw)]) w))
  else Throw w.

(** [operator delete(buf)]: nothing on a null pointer. *)
Definition operator_delete (buf : option nat) : M unit := fun w =>
  match buf with
  | None => Ok tt w
  | Some b =>
      match block w b with
      | Some _ =>
          Ok tt (add_trace [EvDeallocate b] (set_heap (<[b := None]> (heap w)) w))
      | None => Undefined
      end
  end.

End Primitives.

Section Classes.
Context {E : Element} {B : Build} {F : FreeStore}.

(** ** [RawMemory<T>] *)

(** [n != 0 ? static_cast<T*>(operator new(n * sizeof(T))) : nullptr] *)
Definition Allocate (n : Z) : M (option nat) :=
  if n =? 0 then ret None else operator_new (wrap (n * Z.pos sizeof_T)).

Definition Deallocate (buf : option nat) : M unit := operator_delete buf.

(** [RawMemory() = default] *)
Definition RawMemory_default : RawMemory := mkRawMemory None 0.

(** [explicit RawMemory(size_t capacity)] *)
Definition RawMemory_new (capacity : Z) : M RawMemory :=
  buf <- Allocate capacity ;;
  ret (mkRawMemory buf capacity).

(** [~RawMemory()] *)
Definition RawMemory_delete (m : RawMemory) : M unit := Deallocate (buffer_ m).

(** [RawMemory(RawMemory&& other)]: the new object and [other] afterwards. *)
Definition RawMemory_move (other : RawMemory) : RawMemory * RawMemory :=
  (mkRawMemory (buffer_ other) (capacity_ other), mkRawMemory None 0).

(** [T* operator+(size_t offset)] *)
Definition RawMemory_plus (m : RawMemory) (offset : Z) : M ptr :=
  assert_ (offset <=? capacity_ m) ;;
  ret (mkptr (buffer_ m) offset).

(** [T& operator[](size_t index)] *)
Definition RawMemory_index (m : RawMemory) (index : Z) : M ptr :=
  assert_ (index <? capacity_ m) ;;
  ret (mkptr (buffer_ m) index).

Definition GetAddress (m : RawMemory) : ptr := mkptr (buffer_ m) 0.

Definition RawMemory_Capacity (m : RawMemory) : Z := capacity_ m.

(** ** The object store *)

Definition get_obj (this : nat) : M Vector := fun w =>
  match (objs w !! this : option (option Vector)) with
  | Some (Some v) => Ok v w
  | _ => Undefined
  end.

Definition put_obj (this : nat) (v : Vector) : M unit := fun w =>
  match (objs w !! this : option (option Vector)) with
  | Some (Some _) => Ok tt (set_objs (<[this := Some v]> (objs w)) w)
  | _ => Undefined
  end.

(** The lifetime of a [Vector] object begins and ends. *)
Definition new_obj (v : Vector) : M nat := fun w =>
  Ok (length (objs w)) (set_objs (objs w ++ [Some v]) w).

Definition end_obj (this : nat) : M unit := fun w =>
  match (objs w !! this : option (option Vector)) with
  | Some (Some _) => Ok tt (set_objs (<[this := None]> (objs w)) w)
  | _ => Undefined
  end.

Definition get_data_ (this : nat) : M RawMemory :=
  v <- get_obj this ;; ret (data_ v).
Definition get_size_ (this : nat) : M Z :=
  v <- get_obj this ;; ret (size_ v).
Definition set_data_ (this : nat) (d : RawMemory) : M unit :=
  v <- get_obj this ;; put_obj this (mkVector d (size_ v)).
Definition set_size_ (this : nat) (s : Z) : M unit :=
  v <- get_obj this ;; put_obj this (mkVector (data_ v) s).

(** [data_.Swap(new_data)] with a local [new_data]: its value afterwards. *)
Definition Swap_local (this : nat) (new_data : RawMemory) : M RawMemory :=
  d <- get_data_ this ;;
  set_data_ this new_data ;;
  ret d.

(** [data_.Swap(other.data_)] *)
Definition Swap_data_ (this other : nat) : M unit :=
  d <- get_data_ this ;;
  od <- get_data_ other ;;
  set_data_ this od ;;
  set_data_ other d.

(** ** [Vector<T>] *)

Definition begin_ (this : nat) : M ptr :=
  d <- get_data_ this ;; ret (GetAddress d).

Definition end_ (this : nat) : M ptr :=
  d <- get_data_ this ;; s <- get_size_ this ;; ret (ptr_add (GetAddress d) s).

Definition Size (this : nat) : M Z := get_size_ this.

Definition Capacity (this : nat) : M Z :=
  d <- get_data_ this ;; ret (RawMemory_Capacity d).

(** [Vector() = default] *)
Definition Vector_default : M nat :=
  new_obj (mkVector RawMemory_default 0).

(** [Vector(const Vector& other)] *)
Definition Vector_copy (other : nat) : M nat :=
  o <- get_obj other ;;
  d <- RawMemory_new (size_ o) ;;
  unwinding (RawMemory_delete d)
    (uninitialized_copy_n (GetAddress (data_ o)) (size_ o) (GetAddress d)) ;;
  new_obj (mkVector d (size_ o)).

(** [explicit Vector(size_t size)] *)
Definition Vector_sized (size : Z) : M nat :=
  d <- RawMemory_new size ;;
  unwinding (RawMemory_delete d)
    (uninitialized_value_construct_n (GetAddress d) size) ;;
  new_obj (mkVector d size).

(** [Vector(Vector&& other) noexcept] *)
Definition Vector_move (other : nat) : M nat :=
  o <- get_obj other ;;
  let (d, od) := RawMemory_move (data_ o) in
  put_obj other (mkVector od 0) ;;
  new_obj (mkVector d (size_ o)).

(** [~Vector()], followed by the destructor of the member [data_]. *)
Definition Vector_delete (this : nat) : M unit :=
  v <- get_obj this ;;
  destroy_n (GetAddress (data_ v)) (size_ v) ;;
  RawMemory_delete (data_ v) ;;
  end_obj this.

(** [void Swap(Vector& other) noexcept] *)
Definition Swap (this other : nat) : M unit :=
  Swap_data_ this other ;;
  s <- get_size_ this ;;
  os <- get_size_ other ;;
  set_size_ this os ;;
  set_size_ other s.

(** [Vector& operator=(Vector&& rhs) noexcept] *)
Definition move_assignment (this rhs : nat) : M unit :=
  if negb (Nat.eqb this rhs) then
    Swap_data_ this rhs ;;
    rs <- get_size_ rhs ;;
    set_size_ rhs 0 ;;
    set_size_ this rs
  else ret tt.

(** The loop [for (; i < size_ && i < rhs.size_; ++i) data_[i] = rhs.data_[i];]
    from [i] on; it returns the final [i].  It runs at most [size_] times,
    which is the fuel given to it. *)
Fixpoint copy_assignment_loop (d rd : RawMemory) (size rsize i : Z) (fuel : nat) : M Z :=
  if (i <? size) && (i <? rsize) then
    match fuel with
    | O => undefined
    | S fuel' =>
        p <- RawMemory_index d i ;;
        q <- RawMemory_index rd i ;;
        copy_assign p (At q) ;;
        copy_assignment_loop d rd size rsize (wrap (i + 1)) fuel'
    end
  else ret i.

(** [Vector& operator=(const Vector& rhs)] *)
Definition copy_assignment (this rhs : nat) : M unit :=
  if negb (Nat.eqb this rhs) then
    r <- get_obj rhs ;;
    v <- get_obj this ;;
    if size_ r >? RawMemory_Capacity (data_ v) then
      tmp <- Vector_copy rhs ;;
      Swap this tmp ;;
      Vector_delete tmp
    else
      i <- copy_assignment_loop (data_ v) (data_ r) (size_ v) (size_ r) 0
             (Z.to_nat (size_ v)) ;;
      (if i <? size_ r then
         uninitialized_copy_n (ptr_add (GetAddress (data_ r)) i)
           (wrap (size_ r - i)) (ptr_add (GetAddress (data_ v)) i)
       else
         destroy_n (ptr_add (GetAddress (data_ v)) i) (wrap (size_ v - i))) ;;
      set_size_ this (size_ r)
  else ret tt.

(** [std::is_nothrow_move_constructible_v<T> || !std::is_copy_constructible_v<T>] *)
Definition relocate_by_move : bool :=
  is_nothrow_move_constructible || negb is_copy_constructible.

(** [void Reserve(size_t new_capacity)] *)
Definition Reserve (this : nat) (new_capacity : Z) : M unit :=
  v <- get_obj this ;;
  if new_capacity <=? RawMemory_Capacity (data_ v) then ret tt
  else
    new_data <- RawMemory_new new_capacity ;;
    unwinding (RawMemory_delete new_data)
      (if relocate_by_move then
         uninitialized_move_n (GetAddress (data_ v)) (size_ v) (GetAddress new_data) ;;
         destroy_n (GetAddress (data_ v)) (size_ v)
       else
         uninitialized_copy_n (GetAddress (data_ v)) (size_ v) (GetAddress new_data) ;;
         destroy_n (GetAddress (data_ v)) (size_ v)) ;;
    new_data' <- Swap_local this new_data ;;
    RawMemory_delete new_data'.

(** [void Resize(size_t new_size)] *)
Definition Resize (this : nat) (new_size : Z) : M unit :=
  size <- get_size_ this ;;
  (if new_size >? size then
     Reserve this new_size ;;
     d <- get_data_ this ;;
     uninitialized_value_construct_n (ptr_add (GetAddress d) size)
       (wrap (new_size - size))
   else if new_size <? size then
     d <- get_data_ this ;;
     destroy_n (ptr_add (GetAddress d) new_size) (wrap (size - new_size))
   else ret tt) ;;
  set_size_ this new_size.

(** The relocation [if constexpr] of the growth paths. *)
Definition relocate (first : ptr) (n : Z) (d_first : ptr) : M unit :=
  if relocate_by_move then uninitialized_move_n first n d_first
  else uninitialized_copy_n first n d_first.

(** [size_ == 0 ? 1 : size_ * 2] *)
Definition grown_capacity (size : Z) : Z :=
  if size =? 0 then 1 else wrap (size * 2).

(** [void PushBack(const T& value)] *)
Definition PushBack (this : nat) (value : ref) : M unit :=
  v <- get_obj this ;;
  (if size_ v =? RawMemory_Capacity (data_ v) then
     let new_capacity := grown_capacity (size_ v) in
     new_data <- RawMemory_new new_capacity ;;
     let new_buffer := GetAddress new_data in
     unwinding (RawMemory_delete new_data)
       (relocate (GetAddress (data_ v)) (size_ v) new_buffer ;;
        construct_at (ptr_add new_buffer (size_ v)) (CopyOf value) ;;
        destroy_n (GetAddress (data_ v)) (size_ v)) ;;
     new_data' <- Swap_local this new_data ;;
     RawMemory_delete new_data'
   else
     p <- RawMemory_plus (data_ v) (size_ v) ;;
     construct_at p (CopyOf value)) ;;
  set_size_ this (wrap (size_ v + 1)).

(** [void PushBack(T&& value)] *)
Definition PushBack_rv (this : nat) (value : ref) : M unit :=
  v <- get_obj this ;;
  (if size_ v =? RawMemory_Capacity (data_ v) then
     let new_capacity := grown_capacity (size_ v) in
     new_data <- RawMemory_new new_capacity ;;
     let new_buffer := GetAddress new_data in
     unwinding (RawMemory_delete new_data)
       (relocate (GetAddress (data_ v)) (size_ v) new_buffer ;;
        construct_at (ptr_add new_buffer (size_ v)) (MoveOf value) ;;
        destroy_n (GetAddress (data_ v)) (size_ v)) ;;
     new_data' <- Swap_local this new_data ;;
     RawMemory_delete new_data'
   else
     p <- RawMemory_plus (data_ v) (size_ v) ;;
     construct_at p (MoveOf value)) ;;
  set_size_ this (wrap (size_ v + 1)).

(** [T& EmplaceBack(Args&&... args)]: the reference to the new element. *)
Definition EmplaceBack (this : nat) (args : ctor_args) : M ptr :=
  v <- get_obj this ;;
  if size_ v =? RawMemory_Capacity (data_ v) then
    let new_capacity := grown_capacity (size_ v) in
    new_data <- RawMemory_new new_capacity ;;
    let new_buffer := GetAddress new_data in
    let new_elem := ptr_add new_buffer (size_ v) in
    unwinding (RawMemory_delete new_data)
      (relocate (GetAddress (data_ v)) (size_ v) new_buffer ;;
       construct_at new_elem args ;;
       destroy_n (GetAddress (data_ v)) (size_ v)) ;;
    new_data' <- Swap_local this new_data ;;
    set_size_ this (wrap (size_ v + 1)) ;;
    RawMemory_delete new_data' ;;
    ret new_elem
  else
    new_elem <- RawMemory_plus (data_ v) (size_ v) ;;
    construct_at new_elem args ;;
    set_size_ this (wrap (size_ v + 1)) ;;
    ret new_elem.

(** [void PopBack() noexcept] *)
Definition PopBack (this : nat) : M unit :=
  v <- get_obj this ;;
  assert_ (size_ v >? 0) ;;
  p <- RawMemory_plus (data_ v) (size_ v) ;;
  destroy_at (ptr_add p (-1)) ;;
  set_size_ this (wrap (size_ v - 1)).

(** [pos - begin()], converted to [size_t]; the difference of two pointers
    into different blocks is undefined. *)
Definition index_of (pos first : ptr) : M Z :=
  match base pos, base first with
  | Some a, Some b =>
      if Nat.eqb a b then ret (wrap (off pos - off first)) else undefined
  | None, None => ret (wrap (off pos - off first))
  | _, _ => undefined
  end.

(** [static void DestroyN(T* buf, size_t n) noexcept] with [Destroy(buf + i)] *)
Fixpoint DestroyN_loop (buf : ptr) (i : Z) (n : nat) : M unit :=
  match n with
  | O => ret tt
  | S n' => destroy_at (ptr_add buf i) ;; DestroyN_loop buf (i + 1) n'
  end.

Definition DestroyN (buf : ptr) (n : Z) : M unit :=
  DestroyN_loop buf 0 (Z.to_nat n).

(** [iterator Emplace(const_iterator pos, Args&&... args)] *)
Definition Emplace (this : nat) (pos : ptr) (args : ctor_args) : M ptr :=
  first <- begin_ this ;;
  index <- index_of pos first ;;
  v <- get_obj this ;;
  last <- end_ this ;;
  if size_ v =? RawMemory_Capacity (data_ v) then
    if ptr_eqb pos last then
      EmplaceBack this args ;;
      b <- begin_ this ;;
      ret (ptr_add b index)
    else
      let new_capacity := grown_capacity (size_ v) in
      new_data <- RawMemory_new new_capacity ;;
      let new_buffer := GetAddress new_data in
      let new_elem := ptr_add new_buffer index in
      unwinding (RawMemory_delete new_data)
        (relocate (GetAddress (data_ v)) index new_buffer ;;
         construct_at new_elem args ;;
         relocate (ptr_add (GetAddress (data_ v)) index) (wrap (size_ v - index))
           (ptr_add (ptr_add new_buffer index) 1) ;;
         DestroyN (GetAddress (data_ v)) (size_ v)) ;;
      new_data' <- Swap_local this new_data ;;
      set_size_ this (wrap (size_ v + 1)) ;;
      RawMemory_delete new_data' ;;
      ret new_elem
  else
    if ptr_eqb pos last then
      EmplaceBack this args ;;
      b <- begin_ this ;;
      ret (ptr_add b index)
    else
      tmp_copy <- construct_temp args ;;
      r <- unwinding destroy_temp
        ((if index <? size_ v then
            p <- RawMemory_plus (data_ v) (size_ v) ;;
            q <- RawMemory_index (data_ v) (wrap (size_ v - 1)) ;;
            construct_at p (MoveOf (At q)) ;;
            from <- RawMemory_plus (data_ v) index ;;
            to <- RawMemory_plus (data_ v) (size_ v) ;;
            d_last <- RawMemory_plus (data_ v) (size_ v) ;;
            std_move_backward from (ptr_add to (-1)) d_last ;;
            ret tt
          else ret tt) ;;
         p <- RawMemory_index (data_ v) index ;;
         move_assign p (Ext tmp_copy) ;;
         set_size_ this (wrap (size_ v + 1)) ;;
         RawMemory_plus (data_ v) index) ;;
      destroy_temp ;;
      ret r.

(** [iterator Erase(const_iterator pos)] *)
Definition Erase (this : nat) (pos : ptr) : M ptr :=
  first <- begin_ this ;;
  index <- index_of pos first ;;
  v <- get_obj this ;;
  p <- RawMemory_plus (data_ v) index ;;
  destroy_at p ;;
  (if index <? wrap (size_ v - 1) then
     from <- RawMemory_plus (data_ v) index ;;
     to <- RawMemory_plus (data_ v) (size_ v) ;;
     d_first <- RawMemory_plus (data_ v) index ;;
     std_move (ptr_add from 1) to d_first ;;
     ret tt
   else ret tt) ;;
  set_size_ this (wrap (size_ v - 1)) ;;
  b <- begin_ this ;;
  ret (ptr_add b index).

(** [iterator Insert(const_iterator pos, const T& value)] *)
Definition Insert (this : nat) (pos : ptr) (value : ref) : M ptr :=
  Emplace this pos (CopyOf value).

(** [iterator Insert(const_iterator pos, T&& value)] *)
Definition Insert_rv (this : nat) (pos : ptr) (value : ref) : M ptr :=
  Emplace this pos (MoveOf value).

(** [T& operator[](size_t index) noexcept] *)
Definition index_op (this : nat) (index : Z) : M ptr :=
  v <- get_obj this ;;
  assert_ (index <? size_ v) ;;
  RawMemory_index (data_ v) index.

End Classes.

(** * The vocabulary of the specification *)

Section Vocabulary.
Context {E : Element} {B : Build} {F : FreeStore}.

Implicit Types (o : list (option Vector)) (h : list (option (list slot)))
  (t : list event) (cs cd rest : list slot) (b : nat) (k i cap : Z) (v x : T)
  (vs l : list T) (buf : option nat).

(** Constructor arguments that refer to no cell: the value they build
    and the event of the construction. *)
Inductive builds : ctor_args -> T -> (ptr -> T -> event) -> Prop :=
| builds_copy v : copy_throws v = false -> builds (CopyOf (Ext v)) v EvCopyConstruct
| builds_move v : move_throws v = false -> builds (MoveOf (Ext v)) v EvMoveConstruct
| builds_other v : builds (Other (Some v)) v EvConstruct.

(** Constructor arguments that refer to no cell and on which the
    constructor throws. *)
Inductive fails : ctor_args -> Prop :=
| fails_copy v : copy_throws v = true -> fails (CopyOf (Ext v))
| fails_move v : move_throws v = true -> fails (MoveOf (Ext v))
| fails_other : fails (Other None).

(** The cells from [k] on hold the objects [vs], in order. *)
Definition live_at cs (k : nat) vs : Prop :=
  forall (j : nat) v, vs !! j = Some v -> cs !! (k + j)%nat = Some (Live v).

(** The events [ev (d + i) v0; ev (d + i + 1) v1; ...] of a loop over [vs]. *)
Fixpoint events_from (ev : ptr -> T -> event) (d : ptr) (i : Z) vs : list event :=
  match vs with
  | [] => []
  | v :: vs' => ev (ptr_add d i) v :: events_from ev d (i + 1) vs'
  end.

(** The events of a loop that runs backwards from [d - 1] over [rvs]. *)
Fixpoint events_back (ev : ptr -> T -> event) (d : ptr) (i : Z) (rvs : list T)
  : list event :=
  match rvs with
  | [] => []
  | v :: rvs' => ev (ptr_add d (- (i + 1))) v :: events_back ev d (i + 1) rvs'
  end.

(** The cells [vs ++ [d]] after the objects [vs] were moved one cell to
    the right, onto the object [d]: a moved-from object stays in the cell
    that was vacated. *)
Definition shifted_right vs (d : T) : list slot :=
  match vs with
  | v0 :: _ => Live (moved_from v0) :: (Live <$> vs)
  | [] => [Live d]
  end.

(** What a relocation leaves in the cells it relocated from, the event it
    records for an element, and the values it does not throw on. *)
Definition relocated_from vs : list T :=
  if relocate_by_move then moved_from <$> vs else vs.

Definition relocate_event : ptr -> T -> event :=
  if relocate_by_move then EvMoveConstruct else EvCopyConstruct.

Definition relocate_nothrow v : Prop :=
  (if relocate_by_move then move_throws v else copy_throws v) = false.

(** The vector object [this] of the world [w] owns the block [buf] of [cap]
    cells; it holds the elements [l], in order, in the first cells and
    [rest] are the spare cells after them. *)
Record repr (w : world) (this : nat) buf cap l rest : Prop := {
  repr_obj :
    objs w !! this
    = Some (Some (mkVector (mkRawMemory buf cap) (Z.of_nat (length l))));
  repr_cap : cap = Z.of_nat (length l + length rest);
  repr_max : cap < 2 ^ 64;
  repr_block :
    match buf with
    | Some b => heap w !! b = Some (Some ((Live <$> l) ++ rest))
    | None => cap = 0
    end
}.

(** In the world [w], [operator new] returns a block for [n] elements:
    their size in bytes is a [size_t] and the free store serves it. *)
Definition allocates (w : world) (n : Z) : Prop :=
  n * Z.pos sizeof_T < 2 ^ 64
  /\ new_succeeds (length (heap w)) (n * Z.pos sizeof_T) = true.

(** The free store serves every request for up to [limit] elements,
    whenever it is made. *)
Definition serves (limit : Z) : Prop :=
  limit * Z.pos sizeof_T < 2 ^ 64
  /\ forall (blocks : nat) (n : Z), 0 <= n <= limit ->
       new_succeeds blocks (n * Z.pos sizeof_T) = true.

(** The capacity after a push onto [n] elements in [cap] cells. *)
Definition pushed_capacity (n cap : Z) : Z :=
  if n =? cap then grown_capacity n else cap.

(** No constructor and no assignment of the element type throws on [v]. *)
Definition nothrow v : Prop :=
  copy_throws v = false /\ move_throws v = false
  /\ copy_assign_throws v = false /\ move_assign_throws v = false.

(** [operator[](j)] on the vector [this] refers to an object of value [y]. *)
Definition element_is (w : world) (this : nat) (j : nat) (y : T) : Prop :=
  (p <- index_op this (Z.of_nat j) ;; read p) w = Ok y w.

(** A call that inserts an element before a position: [Insert(pos, x)] with
    an lvalue or with an rvalue, or [Emplace(pos, args...)] with arguments
    that construct [x].  The object referred to is no element of a vector. *)
Inductive insert_call :=
| Call_Insert (x : T)
| Call_Insert_rv (x : T)
| Call_Emplace (x : T).

Definition inserted (c : insert_call) : T :=
  match c with
  | Call_Insert x | Call_Insert_rv x | Call_Emplace x => x
  end.

Definition run_insert_call (this : nat) (pos : ptr) (c : insert_call) : M ptr :=
  match c with
  | Call_Insert x => Insert this pos (Ext x)
  | Call_Insert_rv x => Insert_rv this pos (Ext x)
  | Call_Emplace x => Emplace this pos (Other (Some x))
  end.

(** A call that appends an element: [PushBack(x)] with an lvalue or with
    an rvalue, or [EmplaceBack(args...)] with arguments that construct [x].
    The object referred to is no element of a vector. *)
Inductive push_call :=
| Call_PushBack (x : T)
| Call_PushBack_rv (x : T)
| Call_EmplaceBack (x : T).

Definition pushed (c : push_call) : T :=
  match c with
  | Call_PushBack x | Call_PushBack_rv x | Call_EmplaceBack x => x
  end.

Definition run_push_call (this : nat) (c : push_call) : M unit :=
  match c with
  | Call_PushBack x => PushBack this (Ext x)
  | Call_PushBack_rv x => PushBack_rv this (Ext x)
  | Call_EmplaceBack x => EmplaceBack this (Other (Some x)) ;; ret tt
  end.

Fixpoint run_push_calls (this : nat) (calls : list push_call) : M unit :=
  match calls with
  | [] => ret tt
  | c :: calls' => run_push_call this c ;; run_push_calls this calls'
  end.

(** No constructor throws on the value of the call: neither the one that
    constructs the new element nor a later relocation of it. *)
Definition call_nothrow (c : push_call) : Prop :=
  relocate_nothrow (pushed c)
  /\ match c with
     | Call_PushBack x => copy_throws x = false
     | Call_PushBack_rv x => move_throws x = false
     | Call_EmplaceBack _ => True
     end.

(** ** What an operation may do, whatever its outcome *)

(** [m], run in [w], returns into [Q] or throws into [X], unless an
    assertion fails or its behaviour is undefined. *)
Definition wp {A} (m : M A) (w : world) (Q : A -> world -> Prop)
    (X : world -> Prop) : Prop :=
  match m w with
  | Ok a w' => Q a w'
  | Throw w' => X w'
  | AssertFail => True
  | Undefined => True
  end.

(** Every run of [m] that ends with a world relates the worlds by [R]. *)
Definition steps (R : world -> world -> Prop) {A} (m : M A) : Prop :=
  forall w, wp m w (fun _ w' => R w w') (fun w' => R w w').

(** The object an event destroys, the cell an event constructs an object
    in, the block an event releases. *)
Definition destroys (e : event) : option ptr :=
  match e with
  | EvDestroy p _ => Some p
  | _ => None
  end.

Definition constructs (e : event) : option ptr :=
  match e with
  | EvCopyConstruct p _ | EvMoveConstruct p _ | EvConstruct p _ => Some p
  | _ => None
  end.

Definition constructed (p : ptr) (evs : list event) : Prop :=
  exists e, In e evs /\ constructs e = Some p.

(** The common shape of the loops of the uninitialized algorithms. *)
Fixpoint uninit_loop (args_at : Z -> ctor_args) (d_first : ptr) (i : Z) (n : nat)
  : M unit :=
  match n with
  | O => ret tt
  | S n' =>
      unwinding (destroy_n d_first i)
        (construct_at (ptr_add d_first i) (args_at i)) ;;
      uninit_loop args_at d_first (i + 1) n'
  end.

(** From [w] to [w']: the objects are the same, no block identifier is
    reused, and the events recorded in between satisfy [Phi]. *)
Definition evolves (Phi : list event -> Prop) (w w' : world) : Prop :=
  objs w' = objs w
  /\ (length (heap w) <= length (heap w'))%nat
  /\ exists evs, trace w' = trace w ++ evs /\ Phi evs.

(** The same with the objects given, and with what else is known of the
    events: the state of a run that started in [w0]. *)
Definition accum (Phi : list event -> Prop) (w0 : world) o
    (P : list event -> Prop) (w : world) : Prop :=
  objs w = o
  /\ (length (heap w0) <= length (heap w))%nat
  /\ exists evs, trace w = trace w0 ++ evs /\ Phi evs /\ P evs.

(** What is known of events stays known when more events surround them. *)
Definition stable (P : list event -> Prop) : Prop :=
  forall evs1 evs evs2, P evs -> P (evs1 ++ evs ++ evs2).

(** [m] leaves the objects alone; when it returns [a], its events satisfy
    [G a]. *)
Definition does (Phi : list event -> Prop) {A} (m : M A)
    (G : A -> list event -> Prop) : Prop :=
  forall w, wp m w (fun a w' => accum Phi w (objs w) (G a) w')
                   (fun w' => evolves Phi w w').

(** No assertion fails in [m]. *)
Definition quiet {A} (m : M A) : Prop := forall w, m w <> AssertFail.

(** No exception leaves [m]. *)
Definition nothrows {A} (m : M A) : Prop := forall w w', m w <> Throw w'.

(** The block [buf] was released. *)
Definition released buf (evs : list event) : Prop :=
  match buf with
  | Some b => In (EvDeallocate b) evs
  | None => True
  end.

(** The vector kept its block, and every cell that its size grew over had
    an object constructed in it. *)
Definition kept (u u' : Vector) (evs : list event) : Prop :=
  data_ u' = data_ u
  /\ forall j, size_ u <= j < size_ u' ->
       constructed (mkptr (buffer_ (data_ u)) j) evs.

Definition size_ok (u : Vector) : Prop := 0 <= size_ u < 2 ^ 64.

(** The destructor calls [Phi] has to allow for an operation on [u]: those
    on the elements of [u]. *)
Definition own_destroys (Phi : list event -> Prop) (u : Vector) : Prop :=
  forall j x, 0 <= j < size_ u -> Phi [EvDestroy (mkptr (buffer_ (data_ u)) j) x].

(** What an operation on the vector [this], which was [u] in [w], has done
    when it ends in [w']: its events satisfy [Phi]; the vector kept its
    block or released it; its capacity did not decrease. *)
Definition footprint (Phi : list event -> Prop) (this : nat) (u : Vector)
    (w w' : world) : Prop :=
  exists o' u',
    accum Phi w o'
      (fun evs => kept u u' evs \/ released (buffer_ (data_ u)) evs) w'
    /\ o' !! this = Some (Some u')
    /\ size_ok u'
    /\ (size_ u < 2 ^ 63 -> capacity_ (data_ u) <= capacity_ (data_ u')).

(** ** The operations of a vector *)

(** The public operations on a vector that leave its block to it or
    release it; positions are given by their index. *)
Inductive vector_op :=
| Op_Size
| Op_Capacity
| Op_begin
| Op_end
| Op_index (index : Z)
| Op_Reserve (new_capacity : Z)
| Op_Resize (new_size : Z)
| Op_PushBack (value : ref)
| Op_PushBack_rv (value : ref)
| Op_EmplaceBack (args : ctor_args)
| Op_PopBack
| Op_Emplace (index : Z) (args : ctor_args)
| Op_Insert (index : Z) (value : ref)
| Op_Insert_rv (index : Z) (value : ref)
| Op_Erase (index : Z)
| Op_copy_assignment (rhs : nat).

Definition run_op (this : nat) (op : vector_op) : M unit :=
  match op with
  | Op_Size => Size this ;; ret tt
  | Op_Capacity => Capacity this ;; ret tt
  | Op_begin => begin_ this ;; ret tt
  | Op_end => end_ this ;; ret tt
  | Op_index index => index_op this index ;; ret tt
  | Op_Reserve new_capacity => Reserve this new_capacity
  | Op_Resize new_size => Resize this new_size
  | Op_PushBack value => PushBack this value
  | Op_PushBack_rv value => PushBack_rv this value
  | Op_EmplaceBack args => EmplaceBack this args ;; ret tt
  | Op_PopBack => PopBack this
  | Op_Emplace index args =>
      first <- begin_ this ;; Emplace this (ptr_add first index) args ;; ret tt
  | Op_Insert index value =>
      first <- begin_ this ;; Insert this (ptr_add first index) value ;; ret tt
  | Op_Insert_rv index value =>
      first <- begin_ this ;; Insert_rv this (ptr_add first index) value ;; ret tt
  | Op_Erase index =>
      first <- begin_ this ;; Erase this (ptr_add first index) ;; ret tt
  | Op_copy_assignment rhs => copy_assignment this rhs
  end.

(** The preconditions of a call on the vector [u] in [w]: sizes are values
    of [size_t], [PopBack] needs an element, [Emplace] and [Insert] a
    position in [[begin(), end()]], [Erase] one in [[begin(), end())]. *)
Definition valid_op (w : world) (u : Vector) (op : vector_op) : Prop :=
  match op with
  | Op_Reserve n | Op_Resize n => 0 <= n < 2 ^ 64
  | Op_PopBack => 0 < size_ u
  | Op_Emplace index _ | Op_Insert index _ | Op_Insert_rv index _ =>
      0 <= index <= size_ u
  | Op_Erase index => 0 <= index < size_ u
  | Op_copy_assignment rhs =>
      forall r, objs w !! rhs = Some (Some r) -> size_ok r
  | _ => True
  end.

(** The calls that insert an element. *)
Definition inserts (op : vector_op) : Prop :=
  match op with
  | Op_PushBack _ | Op_PushBack_rv _ | Op_EmplaceBack _
  | Op_Emplace _ _ | Op_Insert _ _ | Op_Insert_rv _ _ => True
  | _ => False
  end.

(** There is no object in the cell [p]. *)
Definition no_object (p : ptr) (w : world) : Prop :=
  forall v, load p w <> Ok (Live v) w.

(** A client calls operations on the vector [this], one after the other;
    it goes on when one of them throws. *)
Inductive calls (this : nat) : world -> list vector_op -> world -> Prop :=
| calls_nil w : calls this w [] w
| calls_returns w op ops u w1 w2 :
    objs w !! this = Some (Some u) -> valid_op w u op ->
    run_op this op w = Ok tt w1 -> calls this w1 ops w2 ->
    calls this w (op :: ops) w2
| calls_throws w op ops u w1 w2 :
    objs w !! this = Some (Some u) -> valid_op w u op ->
    run_op this op w = Throw w1 -> calls this w1 ops w2 ->
    calls this w (op :: ops) w2.

(** No destructor runs on the object that is in the cell [p] when the
    events [evs] begin: one that runs on the cell runs after another
    object was constructed in it, or after its block was released. *)
Definition spared (p : ptr) (evs : list event) : Prop :=
  forall evs1 x evs2, evs = evs1 ++ EvDestroy p x :: evs2 ->
    constructed p evs1
    \/ exists b, base p = Some b /\ In (EvDeallocate b) evs1.

(** An object was constructed in the cell [p], or the block of [p] was
    released. *)
Definition settled (p : ptr) (evs : list event) : Prop :=
  constructed p evs
  \/ exists b, base p = Some b /\ In (EvDeallocate b) evs.

(** The cell [p] is in the block of the vector [this], at or after the
    end of its elements. *)
Definition after_the_elements (w : world) (this : nat) (p : ptr) : Prop :=
  exists u,
    objs w !! this = Some (Some u) /\ size_ok u
    /\ (exists b, base p = Some b /\ buffer_ (data_ u) = Some b)
    /\ size_ u <= off p.

(** The capacity of a vector after [n] pushes onto a default-constructed
    vector. *)
Fixpoint capacity_after (n : nat) : Z :=
  match n with
  | O => 0
  | S n' => pushed_capacity (Z.of_nat n') (capacity_after n')
  end.

End Vocabulary.

(** * Element types and worlds of the examples *)

(** An element that holds a number.  Its copy constructor throws on the
    number 13; its move constructor is not [noexcept] although it never
    throws, so that relocations copy.  A moved-from element holds 0. *)
Definition Copied : Element := {|
  T := Z;
  moved_from := fun _ => 0;
  copy_throws := fun v => v =? 13;
  move_throws := fun _ => false;
  copy_assign_throws := fun v => v =? 13;
  move_assign_throws := fun _ => false;
  value_init := Some 0;
  is_nothrow_move_constructible := false;
  is_copy_constructible := true;
  sizeof_T := 4
|}.

(** The same element with a [noexcept] move constructor: relocations move. *)
Definition Moved : Element := {|
  T := Z;
  moved_from := fun _ => 0;
  copy_throws := fun v => v =? 13;
  move_throws := fun _ => false;
  copy_assign_throws := fun v => v =? 13;
  move_assign_throws := fun _ => false;
  value_init := Some 0;
  is_nothrow_move_constructible := true;
  is_copy_constructible := true;
  sizeof_T := 4
|}.

(** The same element when its default constructor throws. *)
Definition NoDefault : Element := {|
  T := Z;
  moved_from := fun _ => 0;
  copy_throws := fun v => v =? 13;
  move_throws := fun _ => false;
  copy_assign_throws := fun v => v =? 13;
  move_assign_throws := fun _ => false;
  value_init := None;
  is_nothrow_move_constructible := true;
  is_copy_constructible := true;
  sizeof_T := 4
|}.

Definition debug_build : Build := {| NDEBUG := false |}.
Definition release_build : Build := {| NDEBUG := true |}.

(** A free store that serves every request for up to [2^32] bytes and no
    larger one. *)
Definition store_4GiB : FreeStore :=
  {| new_succeeds := fun _ size => size <=? 2 ^ 32 |}.

(** A free store that serves no request. *)
Definition exhausted_store : FreeStore :=
  {| new_succeeds := fun _ _ => false |}.

(** No object, no block, no event. *)
Definition empty_world {E : Element} : world := mkworld [] [] [].

(** The vector 0 holds 1, 2, 3 in the block 0 of four cells. *)
Definition world_123 {E : Element} (one two three : T) : world :=
  mkworld [Some (mkVector (mkRawMemory (Some 0%nat) 4) 3)]
          [Some [Live one; Live two; Live three; Raw]] [].

(** The vector 0 holds 1, 2, 3 in the block 0; the vector 1 holds 7, 8 in
    the block 1. *)
Definition world_two {E : Element} (one two three seven eight : T) : world :=
  mkworld [Some (mkVector (mkRawMemory (Some 0%nat) 4) 3);
           Some (mkVector (mkRawMemory (Some 1%nat) 2) 2)]
          [Some [Live one; Live two; Live three; Raw];
           Some [Live seven; Live eight]] [].

(** The vector 0 is empty and has no block; the vector 1 holds 7, 8 in
    the block 0 of two cells. *)
Definition world_empty_78 : @world Moved :=
  @mkworld Moved
    [Some (mkVector (mkRawMemory None 0) 0);
     Some (mkVector (mkRawMemory (Some 0%nat) 2) 2)]
    [Some [@Live Moved 7; @Live Moved 8]] [].

(** Three calls that append 1, 2 and 3. *)
Definition three_calls : list (@push_call Moved) :=
  [@Call_PushBack Moved 1; @Call_PushBack_rv Moved 2; @Call_EmplaceBack Moved 3].

(** * Evaluation of the primitives *)

Section Evaluation.
Context {E : Element} {B : Build} {F : FreeStore}.

Implicit Types (o : list (option Vector)) (h : list (option (list slot)))
  (t : list event) (cs cd : list slot) (b : nat) (k i : Z) (v x : T)
  (vs l : list T).

Lemma wrap_small z : 0 <= z < 2 ^ 64 -> wrap z = z.
Proof. intros H. unfold wrap. now apply Z.mod_small. Qed.

Lemma bind_Ok {A C} (m : M A) (f : A -> M C) w a w' :
  m w = Ok a w' -> bind m f w = f a w'.
Proof. intros H. unfold bind. now rewrite H. Qed.

Lemma bind_Throw {A C} (m : M A) (f : A -> M C) w w' :
  m w = Throw w' -> bind m f w = Throw w'.
Proof. intros H. unfold bind. now rewrite H. Qed.

Lemma bind_Undefined {A C} (m : M A) (f : A -> M C) w :
  m w = Undefined -> bind m f w = Undefined.
Proof. intros H. unfold bind. now rewrite H. Qed.

Lemma unwinding_Ok {A} (c : M unit) (m : M A) w a w' :
  m w = Ok a w' -> unwinding c m w = Ok a w'.
Proof. intros H. unfold unwinding. now rewrite H. Qed.

Lemma unwinding_Throw {A} (c : M unit) (m : M A) w w' w'' :
  m w = Throw w' -> c w' = Ok tt w'' -> unwinding c m w = Throw w''.
Proof. intros H H'. unfold unwinding. now rewrite H, H'. Qed.

Lemma block_lookup o h t b cs :
  h !! b = Some (Some cs) -> block (mkworld o h t) b = Some cs.
Proof. intros H. unfold block. simpl. now rewrite H. Qed.

Lemma load_Ok o h t b cs k s :
  h !! b = Some (Some cs) -> 0 <= k -> cs !! Z.to_nat k = Some s ->
  load (mkptr (Some b) k) (mkworld o h t) = Ok s (mkworld o h t).
Proof.
  intros Hb Hk Hs. unfold load. cbn [base off].
  rewrite (block_lookup _ _ _ _ _ Hb).
  destruct (Z.leb_spec 0 k); [|lia]. now rewrite Hs.
Qed.

Lemma store_Ok o h t b cs k s :
  h !! b = Some (Some cs) -> 0 <= k < Z.of_nat (length cs) ->
  store (mkptr (Some b) k) s (mkworld o h t)
  = Ok tt (mkworld o (<[b := Some (<[Z.to_nat k := s]> cs)]> h) t).
Proof.
  intros Hb Hk. unfold store. cbn [base off].
  rewrite (block_lookup _ _ _ _ _ Hb).
  destruct (Z.leb_spec 0 k); [|lia].
  destruct (Z.ltb_spec k (Z.of_nat (length cs))); [|lia]. reflexivity.
Qed.

Lemma read_Ok o h t b cs k v :
  h !! b = Some (Some cs) -> 0 <= k -> cs !! Z.to_nat k = Some (Live v) ->
  read (mkptr (Some b) k) (mkworld o h t) = Ok v (mkworld o h t).
Proof.
  intros Hb Hk Hs. unfold read. now rewrite (bind_Ok _ _ _ _ _ (load_Ok _ _ _ _ _ _ _ Hb Hk Hs)).
Qed.

Lemma lookup_lt_length {A} (c : list A) (n : nat) (a : A) :
  c !! n = Some a -> (n < length c)%nat.
Proof. intros H. apply lookup_lt_is_Some. eauto. Qed.

Lemma construct_at_builds o h t b cs k args v ev :
  builds args v ev ->
  h !! b = Some (Some cs) -> 0 <= k < Z.of_nat (length cs) ->
  construct_at (mkptr (Some b) k) args (mkworld o h t)
  = Ok tt (mkworld o (<[b := Some (<[Z.to_nat k := Live v]> cs)]> h)
             (t ++ [ev (mkptr (Some b) k) v])).
Proof.
  intros Hargs Hb Hk. destruct Hargs as [v Hv|v Hv|v]; unfold construct_at.
  - unfold read_ref, bind, ret. rewrite Hv.
    now rewrite (store_Ok _ _ _ _ _ _ _ Hb Hk).
  - unfold read_ref, bind, ret. rewrite Hv.
    now rewrite (store_Ok _ _ _ _ _ _ _ Hb Hk).
  - unfold bind. now rewrite (store_Ok _ _ _ _ _ _ _ Hb Hk).
Qed.

(** Copy construction from a cell of another block. *)
Lemma construct_at_copy_cell o h t b cs k bs cs' ks v :
  bs <> b ->
  h !! b = Some (Some cs) -> 0 <= k < Z.of_nat (length cs) ->
  h !! bs = Some (Some cs') -> 0 <= ks -> cs' !! Z.to_nat ks = Some (Live v) ->
  copy_throws v = false ->
  construct_at (mkptr (Some b) k) (CopyOf (At (mkptr (Some bs) ks))) (mkworld o h t)
  = Ok tt (mkworld o (<[b := Some (<[Z.to_nat k := Live v]> cs)]> h)
             (t ++ [EvCopyConstruct (mkptr (Some b) k) v])).
Proof.
  intros Hne Hb Hk Hbs Hks Hv Hthrow. unfold construct_at, read_ref.
  rewrite (bind_Ok _ _ _ _ _ (read_Ok _ _ _ _ _ _ _ Hbs Hks Hv)).
  rewrite Hthrow. unfold bind. now rewrite (store_Ok _ _ _ _ _ _ _ Hb Hk).
Qed.

(** Move construction from a cell of another block. *)
Lemma construct_at_move_cell o h t b cs k bs cs' ks v :
  bs <> b ->
  h !! b = Some (Some cs) -> 0 <= k < Z.of_nat (length cs) ->
  h !! bs = Some (Some cs') -> 0 <= ks -> cs' !! Z.to_nat ks = Some (Live v) ->
  move_throws v = false ->
  construct_at (mkptr (Some b) k) (MoveOf (At (mkptr (Some bs) ks))) (mkworld o h t)
  = Ok tt (mkworld o
             (<[bs := Some (<[Z.to_nat ks := Live (moved_from v)]> cs')]>
                (<[b := Some (<[Z.to_nat k := Live v]> cs)]> h))
             (t ++ [EvMoveConstruct (mkptr (Some b) k) v])).
Proof.
  intros Hne Hb Hk Hbs Hks Hv Hthrow. unfold construct_at, read_ref.
  rewrite (bind_Ok _ _ _ _ _ (read_Ok _ _ _ _ _ _ _ Hbs Hks Hv)).
  rewrite Hthrow. unfold bind at 1.
  rewrite (store_Ok _ _ _ _ _ _ _ Hb Hk). unfold bind at 1. unfold moved_out.
  assert (Hbs' : <[b := Some (<[Z.to_nat k := Live v]> cs)]> h !! bs = Some (Some cs'))
    by now rewrite list_lookup_insert_ne.
  rewrite (store_Ok _ _ _ _ _ _ _ Hbs').
  - reflexivity.
  - apply lookup_lt_length in Hv. lia.
Qed.

Lemma destroy_at_Ok o h t b cs k v :
  h !! b = Some (Some cs) -> 0 <= k -> cs !! Z.to_nat k = Some (Live v) ->
  destroy_at (mkptr (Some b) k) (mkworld o h t)
  = Ok tt (mkworld o (<[b := Some (<[Z.to_nat k := Raw]> cs)]> h)
             (t ++ [EvDestroy (mkptr (Some b) k) v])).
Proof.
  intros Hb Hk Hv. unfold destroy_at.
  rewrite (bind_Ok _ _ _ _ _ (read_Ok _ _ _ _ _ _ _ Hb Hk Hv)).
  unfold bind. rewrite (store_Ok _ _ _ _ _ _ _ Hb); [reflexivity|].
  apply lookup_lt_length in Hv. lia.
Qed.

(** ** Ranges of cells and the loops over them *)

Lemma live_at_cons cs (k : nat) v vs :
  live_at cs k (v :: vs) -> cs !! k = Some (Live v) /\ live_at cs (S k) vs.
Proof.
  intros H. split.
  - specialize (H 0%nat v eq_refl). now rewrite Nat.add_0_r in H.
  - intros j u Hu. specialize (H (S j) u Hu).
    now replace (S k + j)%nat with (k + S j)%nat by lia.
Qed.

Lemma live_at_insert_lt cs (k j : nat) s vs :
  (j < k)%nat -> live_at cs k vs -> live_at (<[j := s]> cs) k vs.
Proof.
  intros Hlt H n u Hu. rewrite list_lookup_insert_ne by lia. now apply H.
Qed.

Lemma live_at_app cs (k : nat) vs rest :
  length cs = k -> live_at (cs ++ (Live <$> vs) ++ rest) k vs.
Proof.
  intros Hk j u Hu. rewrite lookup_app_r by lia.
  replace (k + j - length cs)%nat with j by lia.
  rewrite lookup_app_l.
  - rewrite list_lookup_fmap, Hu. reflexivity.
  - rewrite length_fmap. now apply lookup_lt_length in Hu.
Qed.

Lemma live_at_length cs (k : nat) vs :
  live_at cs k vs -> vs <> [] -> (k + length vs <= length cs)%nat.
Proof.
  intros H Hne. destruct (list.last vs) as [u|] eqn:Hl.
  - rewrite last_lookup in Hl. apply H in Hl. apply lookup_lt_length in Hl.
    destruct vs; [congruence|]. simpl in *. lia.
  - apply last_None in Hl. congruence.
Qed.

Lemma live_at_inserts_id cs (k : nat) vs :
  live_at cs k vs -> list_inserts k (Live <$> vs) cs = cs.
Proof.
  revert k. induction vs as [|v vs IH]; intros k H; [reflexivity|].
  apply live_at_cons in H as [H0 H]. rewrite fmap_cons. cbn [list_inserts].
  rewrite (IH _ H). now apply list_insert_id.
Qed.

Lemma heap_insert_twice h (b1 b2 : nat) (c1 c2 c3 c4 : option (list slot)) :
  b1 <> b2 ->
  <[b2 := c1]> (<[b1 := c2]> (<[b1 := c3]> (<[b2 := c4]> h)))
  = <[b2 := c1]> (<[b1 := c2]> h).
Proof.
  intros Hne. rewrite list_insert_insert_eq.
  rewrite (list_insert_insert_ne _ b1 b2) by done.
  now rewrite list_insert_insert_eq.
Qed.

Lemma destroy_loop_Ok vs : forall o h t b cs fo i,
  h !! b = Some (Some cs) -> 0 <= fo -> 0 <= i ->
  live_at cs (Z.to_nat (fo + i)) vs ->
  destroy_loop (mkptr (Some b) fo) i (length vs) (mkworld o h t)
  = Ok tt (mkworld o
      (<[b := Some (list_inserts (Z.to_nat (fo + i)) (replicate (length vs) Raw) cs)]> h)
      (t ++ events_from EvDestroy (mkptr (Some b) fo) i vs)).
Proof.
  induction vs as [|v vs IH]; intros o h t b cs fo i Hb Hfo Hi Hlive.
  - simpl. unfold ret. rewrite app_nil_r. now rewrite list_insert_id.
  - apply live_at_cons in Hlive as [Hv Hlive]. simpl length. simpl destroy_loop.
    unfold ptr_add at 1. cbn [base off].
    assert (Hlt : (b < length h)%nat) by now apply lookup_lt_length in Hb.
    assert (Hk : 0 <= fo + i) by lia.
    rewrite (bind_Ok _ _ _ _ _ (destroy_at_Ok _ _ _ _ _ _ _ Hb Hk Hv)).
    rewrite (IH _ _ _ b (<[Z.to_nat (fo + i) := Raw]> cs) fo (i + 1)); try lia.
    + rewrite list_insert_insert_eq, <- app_assoc. simpl.
      replace (Z.to_nat (fo + (i + 1))) with (S (Z.to_nat (fo + i))) by lia.
      rewrite list_insert_inserts_lt by lia. reflexivity.
    + now apply list_lookup_insert_eq.
    + replace (Z.to_nat (fo + (i + 1))) with (S (Z.to_nat (fo + i))) by lia.
      apply live_at_insert_lt; [lia|done].
Qed.

Lemma DestroyN_loop_eq (buf : ptr) n : forall i,
  DestroyN_loop buf i n = destroy_loop buf i n.
Proof. induction n as [|n IH]; intros i; simpl; [done|]. now rewrite IH. Qed.

Lemma uninitialized_copy_loop_Ok vs : forall o h t bs bd cs cd fo dO i,
  bs <> bd -> h !! bs = Some (Some cs) -> h !! bd = Some (Some cd) ->
  0 <= fo -> 0 <= dO -> 0 <= i ->
  live_at cs (Z.to_nat (fo + i)) vs ->
  dO + i + Z.of_nat (length vs) <= Z.of_nat (length cd) ->
  Forall (fun v => copy_throws v = false) vs ->
  uninitialized_copy_loop (mkptr (Some bs) fo) (mkptr (Some bd) dO) i (length vs)
    (mkworld o h t)
  = Ok tt (mkworld o
      (<[bd := Some (list_inserts (Z.to_nat (dO + i)) (Live <$> vs) cd)]> h)
      (t ++ events_from EvCopyConstruct (mkptr (Some bd) dO) i vs)).
Proof.
  induction vs as [|v vs IH];
    intros o h t bs bd cs cd fo dO i Hne Hbs Hbd Hfo HdO Hi Hlive Hroom Hthrow.
  - simpl. unfold ret. rewrite app_nil_r. now rewrite list_insert_id.
  - apply live_at_cons in Hlive as [Hv Hlive]. simpl length in *.
    inversion Hthrow as [|? ? Hv' Hthrow']; subst.
    simpl uninitialized_copy_loop. unfold ptr_add at 1 2. cbn [base off].
    assert (Hlt : (bd < length h)%nat) by now apply lookup_lt_length in Hbd.
    assert (Hk : 0 <= fo + i) by lia.
    assert (Hk' : 0 <= dO + i < Z.of_nat (length cd)) by lia.
    rewrite (bind_Ok _ _ _ _ _ (unwinding_Ok _ _ _ _ _
      (construct_at_copy_cell _ _ _ _ _ _ _ _ _ _ Hne Hbd Hk' Hbs Hk Hv Hv'))).
    rewrite (IH _ _ _ bs bd cs (<[Z.to_nat (dO + i) := Live v]> cd) fo dO (i + 1));
      try lia; try done.
    + rewrite list_insert_insert_eq, <- app_assoc. simpl.
      replace (Z.to_nat (dO + (i + 1))) with (S (Z.to_nat (dO + i))) by lia.
      rewrite list_insert_inserts_lt by lia. reflexivity.
    + now rewrite list_lookup_insert_ne.
    + now apply list_lookup_insert_eq.
    + now replace (Z.to_nat (fo + (i + 1))) with (S (Z.to_nat (fo + i))) by lia.
    + rewrite length_insert. lia.
Qed.

Lemma uninitialized_move_loop_Ok vs : forall o h t bs bd cs cd fo dO i,
  bs <> bd -> h !! bs = Some (Some cs) -> h !! bd = Some (Some cd) ->
  0 <= fo -> 0 <= dO -> 0 <= i ->
  live_at cs (Z.to_nat (fo + i)) vs ->
  dO + i + Z.of_nat (length vs) <= Z.of_nat (length cd) ->
  Forall (fun v => move_throws v = false) vs ->
  uninitialized_move_loop (mkptr (Some bs) fo) (mkptr (Some bd) dO) i (length vs)
    (mkworld o h t)
  = Ok tt (mkworld o
      (<[bs := Some (list_inserts (Z.to_nat (fo + i)) (Live <$> (moved_from <$> vs)) cs)]>
         (<[bd := Some (list_inserts (Z.to_nat (dO + i)) (Live <$> vs) cd)]> h))
      (t ++ events_from EvMoveConstruct (mkptr (Some bd) dO) i vs)).
Proof.
  induction vs as [|v vs IH];
    intros o h t bs bd cs cd fo dO i Hne Hbs Hbd Hfo HdO Hi Hlive Hroom Hthrow.
  - simpl. unfold ret. rewrite app_nil_r.
    rewrite (list_insert_id h bd) by done. now rewrite list_insert_id.
  - apply live_at_cons in Hlive as [Hv Hlive]. simpl length in *.
    inversion Hthrow as [|? ? Hv' Hthrow']; subst.
    simpl uninitialized_move_loop. unfold ptr_add at 1 2. cbn [base off].
    assert (Hlt : (bd < length h)%nat) by now apply lookup_lt_length in Hbd.
    assert (Hlt' : (bs < length h)%nat) by now apply lookup_lt_length in Hbs.
    assert (Hk : 0 <= fo + i) by lia.
    assert (Hk' : 0 <= dO + i < Z.of_nat (length cd)) by lia.
    rewrite (bind_Ok _ _ _ _ _ (unwinding_Ok _ _ _ _ _
      (construct_at_move_cell _ _ _ _ _ _ _ _ _ _ Hne Hbd Hk' Hbs Hk Hv Hv'))).
    rewrite (IH _ _ _ bs bd (<[Z.to_nat (fo + i) := Live (moved_from v)]> cs)
               (<[Z.to_nat (dO + i) := Live v]> cd) fo dO (i + 1));
      try lia; try done.
    + rewrite (list_insert_insert_ne _ bs bd) by done.
      rewrite heap_insert_twice by done.
      rewrite <- app_assoc. simpl.
      replace (Z.to_nat (dO + (i + 1))) with (S (Z.to_nat (dO + i))) by lia.
      replace (Z.to_nat (fo + (i + 1))) with (S (Z.to_nat (fo + i))) by lia.
      rewrite !list_insert_inserts_lt by lia.
      now rewrite (list_insert_insert_ne _ bs bd) by done.
    + apply list_lookup_insert_eq. now rewrite length_insert.
    + rewrite list_lookup_insert_ne by done. now apply list_lookup_insert_eq.
    + replace (Z.to_nat (fo + (i + 1))) with (S (Z.to_nat (fo + i))) by lia.
      apply live_at_insert_lt; [lia|done].
    + rewrite length_insert. lia.
Qed.

(** *** The same loops on a block written as [pre ++ range ++ post] *)

Lemma inserts_middle {A} (pre mid post new : list A) (k : nat) :
  k = length pre -> length new = length mid ->
  list_inserts k new (pre ++ mid ++ post) = pre ++ new ++ post.
Proof.
  intros -> Hlen. replace (length pre) with (length pre + 0)%nat by lia.
  rewrite list_inserts_app_r. now rewrite list_inserts_0_r.
Qed.

Lemma destroy_n_Ok o h t b pre vs post fo n :
  h !! b = Some (Some (pre ++ (Live <$> vs) ++ post)) ->
  fo = Z.of_nat (length pre) -> n = Z.of_nat (length vs) ->
  destroy_n (mkptr (Some b) fo) n (mkworld o h t)
  = Ok tt (mkworld o
      (<[b := Some (pre ++ replicate (length vs) Raw ++ post)]> h)
      (t ++ events_from EvDestroy (mkptr (Some b) fo) 0 vs)).
Proof.
  intros Hb -> ->. unfold destroy_n. rewrite Nat2Z.id.
  rewrite (destroy_loop_Ok vs _ _ _ _ _ _ _ Hb); try lia.
  - rewrite inserts_middle; [done|lia|]. now rewrite length_replicate, length_fmap.
  - replace (Z.to_nat (Z.of_nat (length pre) + 0)) with (length pre) by lia.
    now apply live_at_app.
Qed.

Lemma DestroyN_Ok o h t b pre vs post fo n :
  h !! b = Some (Some (pre ++ (Live <$> vs) ++ post)) ->
  fo = Z.of_nat (length pre) -> n = Z.of_nat (length vs) ->
  DestroyN (mkptr (Some b) fo) n (mkworld o h t)
  = Ok tt (mkworld o
      (<[b := Some (pre ++ replicate (length vs) Raw ++ post)]> h)
      (t ++ events_from EvDestroy (mkptr (Some b) fo) 0 vs)).
Proof.
  intros Hb Hfo Hn. unfold DestroyN. rewrite DestroyN_loop_eq.
  now apply (destroy_n_Ok _ _ _ _ _ _ _ _ _ Hb).
Qed.

Lemma length_relocated_from vs : length (relocated_from vs) = length vs.
Proof. unfold relocated_from. destruct relocate_by_move; [apply length_fmap|done]. Qed.

Lemma relocate_Ok o h t bs bd pre vs post dpre dmid dpost fo dO n :
  bs <> bd ->
  h !! bs = Some (Some (pre ++ (Live <$> vs) ++ post)) ->
  h !! bd = Some (Some (dpre ++ dmid ++ dpost)) ->
  fo = Z.of_nat (length pre) -> dO = Z.of_nat (length dpre) ->
  n = Z.of_nat (length vs) -> length dmid = length vs ->
  Forall relocate_nothrow vs ->
  relocate (mkptr (Some bs) fo) n (mkptr (Some bd) dO) (mkworld o h t)
  = Ok tt (mkworld o
      (<[bs := Some (pre ++ (Live <$> relocated_from vs) ++ post)]>
         (<[bd := Some (dpre ++ (Live <$> vs) ++ dpost)]> h))
      (t ++ events_from relocate_event (mkptr (Some bd) dO) 0 vs)).
Proof.
  intros Hne Hbs Hbd -> -> -> Hmid Hthrow.
  assert (Hlive : live_at (pre ++ (Live <$> vs) ++ post)
                    (Z.to_nat (Z.of_nat (length pre) + 0)) vs).
  { replace (Z.to_nat (Z.of_nat (length pre) + 0)) with (length pre) by lia.
    now apply live_at_app. }
  assert (Hroom : Z.of_nat (length dpre) + 0 + Z.of_nat (length vs)
                  <= Z.of_nat (length (dpre ++ dmid ++ dpost))).
  { rewrite !length_app. lia. }
  unfold relocate, relocated_from, relocate_event, relocate_nothrow in *.
  destruct relocate_by_move.
  - unfold uninitialized_move_n. rewrite Nat2Z.id.
    rewrite (uninitialized_move_loop_Ok vs _ _ _ _ _ _ _ _ _ _ Hne Hbs Hbd);
      try lia; try done.
    rewrite !inserts_middle; try lia; try done.
    + now rewrite length_fmap.
    + now rewrite !length_fmap.
  - unfold uninitialized_copy_n. rewrite Nat2Z.id.
    rewrite (uninitialized_copy_loop_Ok vs _ _ _ _ _ _ _ _ _ _ Hne Hbs Hbd);
      try lia; try done.
    rewrite inserts_middle; try lia; [|now rewrite length_fmap].
    rewrite (list_insert_id _ bs); [done|].
    now rewrite list_lookup_insert_ne.
Qed.

(** Relocating no element touches nothing. *)
Lemma relocate_nil (first d_first : ptr) w : relocate first 0 d_first w = Ok tt w.
Proof. unfold relocate. now destruct relocate_by_move. Qed.

Lemma destroy_n_nil (first : ptr) w : destroy_n first 0 w = Ok tt w.
Proof. reflexivity. Qed.

(** ** The object store and the allocation functions *)

Lemma get_obj_Ok o h t this u :
  o !! this = Some (Some u) -> get_obj this (mkworld o h t) = Ok u (mkworld o h t).
Proof. intros H. unfold get_obj. simpl. now rewrite H. Qed.

Lemma put_obj_Ok o h t this u u' :
  o !! this = Some (Some u) ->
  put_obj this u' (mkworld o h t) = Ok tt (mkworld (<[this := Some u']> o) h t).
Proof. intros H. unfold put_obj. simpl. now rewrite H. Qed.

Lemma set_size__Ok o h t this u s :
  o !! this = Some (Some u) ->
  set_size_ this s (mkworld o h t)
  = Ok tt (mkworld (<[this := Some (mkVector (data_ u) s)]> o) h t).
Proof.
  intros H. unfold set_size_.
  rewrite (bind_Ok _ _ _ _ _ (get_obj_Ok _ _ _ _ _ H)).
  now apply put_obj_Ok with u.
Qed.

Lemma Swap_local_Ok o h t this u d :
  o !! this = Some (Some u) ->
  Swap_local this d (mkworld o h t)
  = Ok (data_ u) (mkworld (<[this := Some (mkVector d (size_ u))]> o) h t).
Proof.
  intros H. unfold Swap_local, get_data_, set_data_, bind, ret, get_obj, put_obj.
  repeat (simpl; rewrite H). reflexivity.
Qed.

Lemma RawMemory_new_Ok o h t n :
  0 < n -> allocates (mkworld o h t) n ->
  RawMemory_new n (mkworld o h t)
  = Ok (mkRawMemory (Some (length h)) n)
       (mkworld o (h ++ [Some (replicate (Z.to_nat n) Raw)])
          (t ++ [EvAllocate (length h) n])).
Proof.
  intros Hn [Hsize Hnew]. simpl in Hnew.
  unfold RawMemory_new, Allocate, bind, operator_new.
  destruct (Z.eqb_spec n 0); [lia|]. cbn [heap].
  rewrite wrap_small by lia. rewrite Hnew.
  now rewrite Z.div_mul by lia.
Qed.

(** The free store does not serve the request: [std::bad_alloc]. *)
Lemma RawMemory_new_Throw w n :
  n <> 0 ->
  new_succeeds (length (heap w)) (wrap (n * Z.pos sizeof_T)) = false ->
  RawMemory_new n w = Throw w.
Proof.
  intros Hn Hnew. unfold RawMemory_new, Allocate, bind, operator_new.
  destruct (Z.eqb_spec n 0); [done|]. now rewrite Hnew.
Qed.

Lemma allocates_serves w limit n :
  serves limit -> 0 <= n <= limit -> allocates w n.
Proof.
  intros [Hsize Hnew] Hn. split; [|now apply Hnew].
  apply Z.le_lt_trans with (limit * Z.pos sizeof_T); [|done].
  apply Z.mul_le_mono_nonneg_r; lia.
Qed.

Lemma serves_le (limit limit' : Z) :
  serves limit -> limit' <= limit -> serves limit'.
Proof.
  intros [Hsize Hnew] Hb. split.
  - apply Z.le_lt_trans with (limit * Z.pos sizeof_T); [|done].
    apply Z.mul_le_mono_nonneg_r; lia.
  - intros blocks n Hn. apply Hnew. lia.
Qed.

Lemma allocates_ext w w' n :
  length (heap w') = length (heap w) -> allocates w n -> allocates w' n.
Proof. intros Hlen [Hsize Hnew]. split; [done|]. now rewrite Hlen. Qed.

Lemma Deallocate_Ok o h t b cs :
  h !! b = Some (Some cs) ->
  Deallocate (Some b) (mkworld o h t)
  = Ok tt (mkworld o (<[b := None]> h) (t ++ [EvDeallocate b])).
Proof.
  intros H. unfold Deallocate, operator_delete.
  now rewrite (block_lookup _ _ _ _ _ H).
Qed.

(** ** Moves inside one block *)

Lemma insert_middle {A} (pre post : list A) (a a' : A) (k : nat) :
  k = length pre -> <[k := a']> (pre ++ a :: post) = pre ++ a' :: post.
Proof.
  intros ->. replace (length pre) with (length pre + 0)%nat by lia.
  now rewrite insert_app_r.
Qed.

Lemma lookup_middle {A} (pre post : list A) (a : A) (k : nat) :
  k = length pre -> (pre ++ a :: post) !! k = Some a.
Proof. intros ->. now rewrite list_lookup_middle. Qed.

(** Move assignment to a cell without an object: the cell of an object
    that was destroyed, or one in which none was constructed. *)
Lemma move_assign_destroyed o h t b cs k r v :
  h !! b = Some (Some cs) -> 0 <= k -> cs !! Z.to_nat k = Some Raw ->
  read_ref r (mkworld o h t) = Ok v (mkworld o h t) ->
  move_assign (mkptr (Some b) k) r (mkworld o h t) = Undefined.
Proof.
  intros Hb Hk Hraw Hr. unfold move_assign.
  rewrite (bind_Ok _ _ _ _ _ Hr).
  unfold bind at 1. unfold read.
  now rewrite (bind_Ok _ _ _ _ _ (load_Ok _ _ _ _ _ _ _ Hb Hk Hraw)).
Qed.

(** Move assignment from the cell before the target. *)
Lemma move_assign_right o h t b pre d v post k :
  h !! b = Some (Some (pre ++ Live v :: Live d :: post)) ->
  k = Z.of_nat (length pre) -> move_assign_throws v = false ->
  move_assign (mkptr (Some b) (k + 1)) (At (mkptr (Some b) k)) (mkworld o h t)
  = Ok tt (mkworld o
      (<[b := Some (pre ++ Live (moved_from v) :: Live v :: post)]> h)
      (t ++ [EvMoveAssign (mkptr (Some b) (k + 1)) v])).
Proof.
  intros Hb -> Hthrow. unfold move_assign, read_ref.
  assert (Hlt : (b < length h)%nat) by now apply lookup_lt_length in Hb.
  erewrite bind_Ok; cycle 1.
  { eapply read_Ok; [exact Hb|lia|]. apply lookup_middle. lia. }
  erewrite bind_Ok; cycle 1.
  { eapply read_Ok; [exact Hb|lia|].
    replace (pre ++ Live v :: Live d :: post) with ((pre ++ [Live v]) ++ Live d :: post)
      by now rewrite <- app_assoc.
    apply lookup_middle. rewrite length_app. simpl. lia. }
  rewrite Hthrow.
  erewrite bind_Ok; cycle 1.
  { eapply store_Ok; [exact Hb|]. rewrite length_app. simpl. lia. }
  unfold moved_out.
  erewrite bind_Ok; cycle 1.
  { eapply store_Ok; [now apply list_lookup_insert_eq|].
    rewrite length_insert, length_app. simpl. lia. }
  unfold emit. rewrite list_insert_insert_eq. do 4 f_equal.
  replace (pre ++ Live v :: Live d :: post) with ((pre ++ [Live v]) ++ Live d :: post)
    by now rewrite <- app_assoc.
  rewrite insert_middle by (rewrite length_app; simpl; lia).
  rewrite <- app_assoc. simpl.
  now rewrite insert_middle by lia.
Qed.

(** Move construction from the cell before the target. *)
Lemma construct_at_move_right o h t b pre s v post k :
  h !! b = Some (Some (pre ++ Live v :: s :: post)) ->
  k = Z.of_nat (length pre) -> move_throws v = false ->
  construct_at (mkptr (Some b) (k + 1)) (MoveOf (At (mkptr (Some b) k))) (mkworld o h t)
  = Ok tt (mkworld o
      (<[b := Some (pre ++ Live (moved_from v) :: Live v :: post)]> h)
      (t ++ [EvMoveConstruct (mkptr (Some b) (k + 1)) v])).
Proof.
  intros Hb -> Hthrow. unfold construct_at, read_ref.
  assert (Hlt : (b < length h)%nat) by now apply lookup_lt_length in Hb.
  erewrite bind_Ok; cycle 1.
  { eapply read_Ok; [exact Hb|lia|]. apply lookup_middle. lia. }
  rewrite Hthrow.
  erewrite bind_Ok; cycle 1.
  { eapply store_Ok; [exact Hb|]. rewrite length_app. simpl. lia. }
  unfold moved_out.
  erewrite bind_Ok; cycle 1.
  { eapply store_Ok; [now apply list_lookup_insert_eq|].
    rewrite length_insert, length_app. simpl. lia. }
  unfold emit. rewrite list_insert_insert_eq. do 4 f_equal.
  replace (pre ++ Live v :: s :: post) with ((pre ++ [Live v]) ++ s :: post)
    by now rewrite <- app_assoc.
  rewrite insert_middle by (rewrite length_app; simpl; lia).
  rewrite <- app_assoc. simpl.
  now rewrite insert_middle by lia.
Qed.

(** Move assignment from an object outside the blocks. *)
Lemma move_assign_ext o h t b pre d post k x :
  h !! b = Some (Some (pre ++ Live d :: post)) ->
  k = Z.of_nat (length pre) -> move_assign_throws x = false ->
  move_assign (mkptr (Some b) k) (Ext x) (mkworld o h t)
  = Ok tt (mkworld o (<[b := Some (pre ++ Live x :: post)]> h)
             (t ++ [EvMoveAssign (mkptr (Some b) k) x])).
Proof.
  intros Hb -> Hthrow. unfold move_assign, read_ref.
  unfold bind at 1, ret at 1.
  erewrite bind_Ok; cycle 1.
  { eapply read_Ok; [exact Hb|lia|]. apply lookup_middle. lia. }
  rewrite Hthrow.
  erewrite bind_Ok; cycle 1.
  { eapply store_Ok; [exact Hb|]. rewrite length_app. simpl. lia. }
  unfold moved_out, emit, bind, ret. do 4 f_equal.
  now rewrite insert_middle by lia.
Qed.

(** [std::move] to a range that begins with a cell without an object. *)
Lemma std_move_destroyed o h t b pre v post k n :
  h !! b = Some (Some (pre ++ Raw :: Live v :: post)) ->
  k = Z.of_nat (length pre) -> 0 < n ->
  std_move (mkptr (Some b) (k + 1)) (mkptr (Some b) (k + 1 + n))
    (mkptr (Some b) k) (mkworld o h t)
  = Undefined.
Proof.
  intros Hb -> Hn. unfold std_move, range_length. cbn [base off].
  rewrite Nat.eqb_refl. simpl andb.
  destruct (Z.leb_spec (Z.of_nat (length pre) + 1)
              (Z.of_nat (length pre) + 1 + n)); [|lia].
  unfold bind at 1 2. unfold ret at 1.
  replace (Z.of_nat (length pre) + 1 + n - (Z.of_nat (length pre) + 1))
    with n by lia.
  destruct (Z.to_nat n) as [|m] eqn:Hm; [lia|].
  simpl move_loop. unfold ptr_add. cbn [base off]. rewrite !Z.add_0_r.
  unfold bind at 1.
  erewrite (move_assign_destroyed _ _ _ _ _ _ _ v); [reflexivity|exact Hb|lia| |].
  - rewrite Nat2Z.id. now apply lookup_middle.
  - unfold read_ref. eapply read_Ok; [exact Hb|lia|].
    replace (pre ++ Raw :: Live v :: post) with ((pre ++ [Raw]) ++ Live v :: post)
      by now rewrite <- app_assoc.
    apply lookup_middle. rewrite length_app. simpl. lia.
Qed.

Lemma move_backward_loop_Ok vs : forall o h t b pre d post la dl i,
  h !! b = Some (Some (pre ++ (Live <$> vs) ++ Live d :: post)) ->
  dl = la + 1 -> la - i = Z.of_nat (length pre + length vs) ->
  Forall (fun v => move_assign_throws v = false) vs ->
  move_backward_loop (mkptr (Some b) la) (mkptr (Some b) dl) i (length vs)
    (mkworld o h t)
  = Ok tt (mkworld o
      (<[b := Some (pre ++ shifted_right vs d ++ post)]> h)
      (t ++ events_back EvMoveAssign (mkptr (Some b) dl) i (rev vs))).
Proof.
  induction vs as [|v vs IH] using rev_ind;
    intros o h t b pre d post la dl i Hb -> Hpre Hthrow.
  - simpl. unfold ret. rewrite app_nil_r. now rewrite list_insert_id.
  - apply Forall_app in Hthrow as [Hthrow' Hv].
    inversion Hv as [|? ? Hv' _]; subst.
    assert (Hlt : (b < length h)%nat) by now apply lookup_lt_length in Hb.
    rewrite length_app in *. simpl length in *.
    replace (length vs + 1)%nat with (S (length vs)) by lia.
    simpl move_backward_loop. unfold ptr_add at 1 2. cbn [base off].
    replace (la + 1 + - (i + 1)) with (la - i - 1 + 1) by lia.
    replace (la + - (i + 1)) with (la - i - 1) by lia.
    rewrite fmap_app in Hb. simpl in Hb.
    rewrite <- app_assoc in Hb. simpl in Hb. rewrite app_assoc in Hb.
    erewrite bind_Ok; cycle 1.
    { eapply move_assign_right; [exact Hb| |exact Hv'].
      rewrite length_app, length_fmap. lia. }
    erewrite (IH _ _ _ b pre (moved_from v) (Live v :: post) la (la + 1) (i + 1));
      try done.
    + rewrite list_insert_insert_eq. f_equal. f_equal.
      * do 2 f_equal. unfold shifted_right.
        destruct vs as [|v0 vs']; [reflexivity|]. simpl.
        rewrite fmap_app. simpl. now rewrite <- app_assoc.
      * rewrite <- app_assoc. simpl. rewrite rev_app_distr. simpl. do 3 f_equal.
        unfold ptr_add. cbn [base off]. f_equal. lia.
    + rewrite list_lookup_insert_eq by done. now rewrite <- app_assoc.
    + lia.
Qed.

Lemma std_move_backward_Ok o h t b pre vs d post k :
  h !! b = Some (Some (pre ++ (Live <$> vs) ++ Live d :: post)) ->
  k = Z.of_nat (length pre) ->
  Forall (fun v => move_assign_throws v = false) vs ->
  std_move_backward (mkptr (Some b) k) (mkptr (Some b) (k + Z.of_nat (length vs)))
    (mkptr (Some b) (k + Z.of_nat (length vs) + 1)) (mkworld o h t)
  = Ok (mkptr (Some b) (k + 1))
      (mkworld o (<[b := Some (pre ++ shifted_right vs d ++ post)]> h)
         (t ++ events_back EvMoveAssign
                 (mkptr (Some b) (k + Z.of_nat (length vs) + 1)) 0 (rev vs))).
Proof.
  intros Hb -> Hthrow. unfold std_move_backward, range_length. cbn [base off].
  rewrite Nat.eqb_refl. simpl andb.
  destruct (Z.leb_spec (Z.of_nat (length pre))
              (Z.of_nat (length pre) + Z.of_nat (length vs))); [|lia].
  unfold bind at 1 2. unfold ret at 1.
  replace (Z.of_nat (length pre) + Z.of_nat (length vs) - Z.of_nat (length pre))
    with (Z.of_nat (length vs)) by lia.
  rewrite Nat2Z.id.
  erewrite move_backward_loop_Ok; [|exact Hb|reflexivity|lia|exact Hthrow].
  unfold bind, ret, ptr_add. cbn [base off]. do 2 f_equal. lia.
Qed.

Lemma assert__Ok (c : bool) w : c = true -> assert_ c w = Ok tt w.
Proof. intros ->. unfold assert_. now destruct NDEBUG. Qed.

Lemma RawMemory_plus_Ok (m : RawMemory) offset w :
  offset <= capacity_ m ->
  RawMemory_plus m offset w = Ok (mkptr (buffer_ m) offset) w.
Proof.
  intros H. apply Z.leb_le in H. unfold RawMemory_plus.
  now rewrite (bind_Ok _ _ _ _ _ (assert__Ok _ w H)).
Qed.

Lemma RawMemory_index_Ok (m : RawMemory) index w :
  index < capacity_ m ->
  RawMemory_index m index w = Ok (mkptr (buffer_ m) index) w.
Proof.
  intros H. apply Z.ltb_lt in H. unfold RawMemory_index.
  now rewrite (bind_Ok _ _ _ _ _ (assert__Ok _ w H)).
Qed.

Lemma uninitialized_copy_n_Ok o h t bs bd pre vs post dpre dmid dpost fo dO n :
  bs <> bd ->
  h !! bs = Some (Some (pre ++ (Live <$> vs) ++ post)) ->
  h !! bd = Some (Some (dpre ++ dmid ++ dpost)) ->
  fo = Z.of_nat (length pre) -> dO = Z.of_nat (length dpre) ->
  n = Z.of_nat (length vs) -> length dmid = length vs ->
  Forall (fun v => copy_throws v = false) vs ->
  uninitialized_copy_n (mkptr (Some bs) fo) n (mkptr (Some bd) dO) (mkworld o h t)
  = Ok tt (mkworld o
      (<[bd := Some (dpre ++ (Live <$> vs) ++ dpost)]> h)
      (t ++ events_from EvCopyConstruct (mkptr (Some bd) dO) 0 vs)).
Proof.
  intros Hne Hbs Hbd -> -> -> Hmid Hthrow.
  unfold uninitialized_copy_n. rewrite Nat2Z.id.
  rewrite (uninitialized_copy_loop_Ok vs _ _ _ _ _ _ _ _ _ _ Hne Hbs Hbd);
    try lia; try done.
  - rewrite inserts_middle; try lia; [done|]. now rewrite length_fmap.
  - replace (Z.to_nat (Z.of_nat (length pre) + 0)) with (length pre) by lia.
    now apply live_at_app.
  - rewrite !length_app. lia.
Qed.

(** Copy assignment from a cell of another block. *)
Lemma copy_assign_cell o h t b pre d post k bs cs' ks v :
  bs <> b ->
  h !! b = Some (Some (pre ++ Live d :: post)) -> k = Z.of_nat (length pre) ->
  h !! bs = Some (Some cs') -> 0 <= ks -> cs' !! Z.to_nat ks = Some (Live v) ->
  copy_assign_throws v = false ->
  copy_assign (mkptr (Some b) k) (At (mkptr (Some bs) ks)) (mkworld o h t)
  = Ok tt (mkworld o (<[b := Some (pre ++ Live v :: post)]> h)
             (t ++ [EvCopyAssign (mkptr (Some b) k) v])).
Proof.
  intros Hne Hb -> Hbs Hks Hv Hthrow. unfold copy_assign, read_ref.
  rewrite (bind_Ok _ _ _ _ _ (read_Ok _ _ _ _ _ _ _ Hbs Hks Hv)).
  erewrite bind_Ok; cycle 1.
  { eapply read_Ok; [exact Hb|lia|]. apply lookup_middle. lia. }
  rewrite Hthrow.
  erewrite bind_Ok; cycle 1.
  { eapply store_Ok; [exact Hb|]. rewrite length_app. simpl. lia. }
  unfold emit. do 4 f_equal. now rewrite insert_middle by lia.
Qed.

Lemma copy_assignment_loop_Ok vs : forall o h t bs br cap capr size rsize i fuel
    pre old post rpre rpost,
  bs <> br ->
  h !! bs = Some (Some (pre ++ (Live <$> old) ++ post)) ->
  h !! br = Some (Some (rpre ++ (Live <$> vs) ++ rpost)) ->
  length old = length vs ->
  i = Z.of_nat (length pre) -> i = Z.of_nat (length rpre) ->
  i + Z.of_nat (length vs) = Z.min size rsize ->
  size <= cap -> rsize <= capr -> size < 2 ^ 64 ->
  (length vs <= fuel)%nat ->
  Forall (fun v => copy_assign_throws v = false) vs ->
  copy_assignment_loop (mkRawMemory (Some bs) cap) (mkRawMemory (Some br) capr)
    size rsize i fuel (mkworld o h t)
  = Ok (i + Z.of_nat (length vs))
      (mkworld o (<[bs := Some (pre ++ (Live <$> vs) ++ post)]> h)
         (t ++ events_from EvCopyAssign (mkptr (Some bs) 0) i vs)).
Proof.
  induction vs as [|v vs IH];
    intros o h t bs br cap capr size rsize i fuel pre old post rpre rpost
      Hne Hbs Hbr Hold Hi Hi' Hmin Hcap Hcapr Hmax Hfuel Hthrow.
  - simpl in *. destruct old; [|discriminate]. simpl in Hbs.
    assert (Hcond : (i <? size) && (i <? rsize) = false).
    { destruct (Z.ltb_spec i size), (Z.ltb_spec i rsize); try reflexivity. lia. }
    destruct fuel; simpl; rewrite Hcond; unfold ret; rewrite app_nil_r, Z.add_0_r;
      now rewrite list_insert_id.
  - destruct old as [|d old]; [discriminate|]. simpl in Hold, Hmin, Hfuel, Hbs.
    pose proof (Forall_inv Hthrow) as Hv.
    pose proof (Forall_inv_tail Hthrow) as Hthrow'. simpl in Hv.
    destruct fuel as [|fuel]; [lia|].
    assert (Hlt : (bs < length h)%nat) by now apply lookup_lt_length in Hbs.
    simpl copy_assignment_loop.
    assert (Hcond : (i <? size) && (i <? rsize) = true).
    { destruct (Z.ltb_spec i size), (Z.ltb_spec i rsize); try reflexivity; lia. }
    rewrite Hcond.
    erewrite bind_Ok; cycle 1.
    { apply RawMemory_index_Ok. simpl. lia. }
    erewrite bind_Ok; cycle 1.
    { apply RawMemory_index_Ok. simpl. lia. }
    cbn [buffer_].
    erewrite bind_Ok; cycle 1.
    { eapply (copy_assign_cell _ _ _ bs pre d ((Live <$> old) ++ post) i br);
        [congruence|exact Hbs|exact Hi|exact Hbr|lia| |exact Hv].
      rewrite Hi', Nat2Z.id. now apply lookup_middle. }
    rewrite wrap_small by lia.
    erewrite (IH _ _ _ bs br cap capr size rsize (i + 1) fuel
                (pre ++ [Live v]) old post (rpre ++ [Live v]) rpost); try done.
    + rewrite list_insert_insert_eq, <- !app_assoc. simpl.
      replace (i + 1 + Z.of_nat (length vs)) with (i + Z.pos (Pos.of_succ_nat (length vs)))
        by lia.
      reflexivity.
    + rewrite list_lookup_insert_eq by done. now rewrite <- app_assoc.
    + rewrite list_lookup_insert_ne by done. rewrite Hbr.
      now rewrite <- app_assoc.
    + lia.
    + rewrite length_app. simpl. lia.
    + rewrite length_app. simpl. lia.
    + lia.
    + lia.
Qed.

End Evaluation.

(** * The representation of a vector *)

Section Representation.
Context {E : Element} {B : Build} {F : FreeStore}.

Implicit Types (o : list (option Vector)) (h : list (option (list slot)))
  (t : list event) (cs cd rest : list slot) (b : nat) (k i cap : Z) (v x : T)
  (vs l : list T) (buf : option nat).

Lemma repr_None w this cap l rest :
  repr w this None cap l rest -> l = [] /\ rest = [].
Proof.
  intros [_ Hcap _ Hb]. subst cap.
  destruct l, rest; simpl in *; try done; lia.
Qed.

Lemma grown_capacity_eq n :
  0 <= n < 2 ^ 63 -> grown_capacity n = Z.max 1 (n * 2).
Proof.
  intros H. unfold grown_capacity. destruct (Z.eqb_spec n 0) as [->|Hn]; [done|].
  rewrite wrap_small by lia. lia.
Qed.

(** The body of the growth path of [PushBack] and [EmplaceBack]: all of
    the old block [bs] is relocated to the fresh block [bd], the new
    element is constructed after it, the old elements are destroyed. *)
Lemma grow_body_Ok o h t bs bd l dmid s dpost args x ev n :
  bs <> bd ->
  h !! bs = Some (Some (Live <$> l)) ->
  h !! bd = Some (Some (dmid ++ s :: dpost)) ->
  length dmid = length l -> n = Z.of_nat (length l) ->
  Forall relocate_nothrow l -> builds args x ev ->
  (relocate (mkptr (Some bs) 0) n (mkptr (Some bd) 0) ;;
   construct_at (ptr_add (mkptr (Some bd) 0) n) args ;;
   destroy_n (mkptr (Some bs) 0) n) (mkworld o h t)
  = Ok tt (mkworld o
      (<[bs := Some (replicate (length l) Raw)]>
         (<[bd := Some ((Live <$> l) ++ Live x :: dpost)]> h))
      (t ++ events_from relocate_event (mkptr (Some bd) 0) 0 l
         ++ [ev (mkptr (Some bd) n) x]
         ++ events_from EvDestroy (mkptr (Some bs) 0) 0 (relocated_from l))).
Proof.
  intros Hne Hbs Hbd Hmid -> Hthrow Hargs.
  assert (Hlt : (bs < length h)%nat) by now apply lookup_lt_length in Hbs.
  assert (Hlt' : (bd < length h)%nat) by now apply lookup_lt_length in Hbd.
  assert (Hbs' : h !! bs = Some (Some ([] ++ (Live <$> l) ++ [])))
    by (now rewrite app_nil_r).
  rewrite (bind_Ok _ _ _ _ _
    (relocate_Ok _ _ _ bs bd [] l [] [] dmid (s :: dpost) 0 0 _ Hne
       Hbs' Hbd eq_refl eq_refl eq_refl Hmid Hthrow)).
  cbn [app]. rewrite app_nil_r.
  unfold ptr_add. cbn [base off]. rewrite Z.add_0_l.
  erewrite bind_Ok; cycle 1.
  { eapply construct_at_builds; [done| |].
    - rewrite list_lookup_insert_ne by done. now apply list_lookup_insert_eq.
    - rewrite length_app, length_fmap. simpl. lia. }
  erewrite destroy_n_Ok with (pre := []) (post := []) (vs := relocated_from l); cycle 1.
  - rewrite list_lookup_insert_ne by done. rewrite app_nil_r.
    apply list_lookup_insert_eq. now rewrite length_insert.
  - done.
  - now rewrite length_relocated_from.
  - f_equal. f_equal.
    + rewrite (list_insert_insert_ne _ bd bs) by done.
      rewrite !list_insert_insert_eq. cbn [app]. rewrite app_nil_r.
      rewrite length_relocated_from. do 3 f_equal.
      replace (Z.to_nat (Z.of_nat (length l))) with (length (Live <$> l) + 0)%nat
        by (rewrite length_fmap; lia).
      now rewrite insert_app_r.
    + now rewrite <- !app_assoc.
Qed.

Lemma replicate_split {A} (n m : nat) (a : A) :
  (n < m)%nat -> replicate m a = replicate n a ++ a :: replicate (m - n - 1) a.
Proof.
  intros H. replace m with (n + S (m - n - 1))%nat at 1 by lia.
  now rewrite replicate_add.
Qed.

Lemma EmplaceBack_spec w this buf cap l rest args x ev :
  repr w this buf cap l rest -> builds args x ev ->
  (Z.of_nat (length l) = cap ->
   Forall relocate_nothrow l /\ Z.of_nat (length l) < 2 ^ 63
   /\ allocates w (grown_capacity (Z.of_nat (length l)))) ->
  exists w' buf' rest',
    EmplaceBack this args w = Ok (mkptr buf' (Z.of_nat (length l))) w'
    /\ repr w' this buf' (pushed_capacity (Z.of_nat (length l)) cap) (l ++ [x]) rest'
    /\ length (objs w') = length (objs w)
    /\ (forall that, that <> this -> objs w' !! that = objs w !! that).
Proof.
  intros [Hobj Hcap Hmax Hblock] Hargs Hfull. destruct w as [o h t]. simpl in *.
  assert (Hthis : (this < length o)%nat) by now apply lookup_lt_length in Hobj.
  unfold EmplaceBack, pushed_capacity.
  rewrite (bind_Ok _ _ _ _ _ (get_obj_Ok _ _ _ _ _ Hobj)).
  unfold RawMemory_Capacity. cbn [size_ data_ capacity_ buffer_].
  destruct (Z.eqb_spec (Z.of_nat (length l)) cap) as [Heq|Hneq].
  - (* the vector is full: a new block *)
    destruct (Hfull Heq) as (Hthrow & Hsmall & Halloc). clear Hfull.
    assert (Hrest : rest = []) by (destruct rest; simpl in *; [done|lia]).
    subst rest. rewrite app_nil_r in Hblock.
    set (n := Z.of_nat (length l)) in *.
    assert (Hgrown : grown_capacity n = Z.max 1 (n * 2))
      by (apply grown_capacity_eq; lia).
    assert (Hnz : 0 < grown_capacity n) by lia.
    rewrite (bind_Ok _ _ _ _ _ (RawMemory_new_Ok _ _ _ _ Hnz Halloc)).
    unfold GetAddress. cbn [buffer_].
    assert (Hnew : (h ++ [Some (replicate (Z.to_nat (grown_capacity n)) Raw)])
                     !! length h
                   = Some (Some (replicate (length l) Raw
                                   ++ Raw :: replicate (Z.to_nat (grown_capacity n) - length l - 1) Raw))).
    { rewrite lookup_app_r by lia. rewrite Nat.sub_diag. simpl.
      rewrite <- replicate_split by lia. reflexivity. }
    exists (mkworld
      (<[this := Some (mkVector (mkRawMemory (Some (length h)) (grown_capacity n))
                        (wrap (n + 1)))]> o)
      (match buf with
       | Some bs =>
           <[bs := None]> (<[bs := Some (replicate (length l) Raw)]>
             (<[length h := Some ((Live <$> l) ++ Live x
                 :: replicate (Z.to_nat (grown_capacity n) - length l - 1) Raw)]>
                (h ++ [Some (replicate (Z.to_nat (grown_capacity n)) Raw)])))
       | None =>
           <[length h := Some ((Live <$> l) ++ Live x
                 :: replicate (Z.to_nat (grown_capacity n) - length l - 1) Raw)]>
                (h ++ [Some (replicate (Z.to_nat (grown_capacity n)) Raw)])
       end)
      (match buf with
       | Some bs =>
          ((t ++ [EvAllocate (length h) (grown_capacity n)])
            ++ events_from relocate_event (mkptr (Some (length h)) 0) 0 l
            ++ [ev (mkptr (Some (length h)) n) x]
            ++ events_from EvDestroy (mkptr (Some bs) 0) 0 (relocated_from l))
            ++ [EvDeallocate bs]
       | None => (t ++ [EvAllocate (length h) (grown_capacity n)])
                   ++ [ev (mkptr (Some (length h)) n) x]
       end)),
      (Some (length h)),
      (replicate (Z.to_nat (grown_capacity n) - length l - 1) Raw).
    split; [|split; [|split]].
    + destruct buf as [bs|].
      * assert (Hbs : (bs < length h)%nat) by now apply lookup_lt_length in Hblock.
        erewrite bind_Ok; cycle 1.
        { apply unwinding_Ok.
          eapply (grow_body_Ok _ _ _ bs (length h) l _ Raw _ args x ev n); try done.
          - lia.
          - now rewrite lookup_app_l.
          - now rewrite length_replicate. }
        rewrite (bind_Ok _ _ _ _ _ (Swap_local_Ok _ _ _ _ _ _ Hobj)).
        cbn [size_ data_].
        erewrite bind_Ok; cycle 1.
        { eapply set_size__Ok. now apply list_lookup_insert_eq. }
        rewrite list_insert_insert_eq. cbn [data_].
        unfold RawMemory_delete. cbn [buffer_].
        erewrite bind_Ok; cycle 1.
        { eapply Deallocate_Ok. apply list_lookup_insert_eq.
          rewrite length_insert, length_app. lia. }
        unfold ret, ptr_add. cbn [base off]. now rewrite Z.add_0_l.
      * assert (l = []) as -> by (destruct l; simpl in *; [done|lia]).
        erewrite bind_Ok; cycle 1.
        { apply unwinding_Ok. subst n. simpl length.
          rewrite (bind_Ok _ _ _ _ _ (relocate_nil _ _ _)).
          erewrite bind_Ok; cycle 1.
          { unfold ptr_add. cbn [base off]. rewrite Z.add_0_l.
            eapply construct_at_builds; [done|exact Hnew|].
            simpl. lia. }
          apply destroy_n_nil. }
        rewrite (bind_Ok _ _ _ _ _ (Swap_local_Ok _ _ _ _ _ _ Hobj)).
        cbn [size_ data_].
        erewrite bind_Ok; cycle 1.
        { eapply set_size__Ok. now apply list_lookup_insert_eq. }
        rewrite list_insert_insert_eq. cbn [data_].
        unfold RawMemory_delete, Deallocate, operator_delete. cbn [buffer_].
        unfold bind, ret, ptr_add. cbn [base off]. now rewrite Z.add_0_l.
    + split; simpl.
      * rewrite list_lookup_insert_eq by done. rewrite length_app. simpl.
        rewrite wrap_small by lia. do 4 f_equal. lia.
      * rewrite length_app, length_replicate. simpl. lia.
      * lia.
      * destruct buf as [bs|].
        -- assert (Hbs : (bs < length h)%nat) by now apply lookup_lt_length in Hblock.
           rewrite list_lookup_insert_ne by lia.
           rewrite list_lookup_insert_ne by lia.
           rewrite list_lookup_insert_eq by (rewrite length_app; simpl; lia).
           rewrite fmap_app. simpl. now rewrite <- app_assoc.
        -- rewrite list_lookup_insert_eq by (rewrite length_app; simpl; lia).
           rewrite fmap_app. simpl. now rewrite <- app_assoc.
    + simpl. now rewrite length_insert.
    + intros that Hthat. simpl. now rewrite list_lookup_insert_ne.
  - (* a spare cell *)
    clear Hfull.
    destruct rest as [|s rest]; [simpl in *; lia|].
    destruct buf as [bs|]; [|simpl in *; lia].
    assert (Hbs : (bs < length h)%nat) by now apply lookup_lt_length in Hblock.
    exists (mkworld
      (<[this := Some (mkVector (mkRawMemory (Some bs) cap)
                        (wrap (Z.of_nat (length l) + 1)))]> o)
      (<[bs := Some ((Live <$> l) ++ Live x :: rest)]> h)
      (t ++ [ev (mkptr (Some bs) (Z.of_nat (length l))) x])),
      (Some bs), rest.
    split; [|split; [|split]].
    + erewrite bind_Ok; cycle 1.
      { apply RawMemory_plus_Ok. simpl in *. lia. }
      cbn [buffer_].
      erewrite bind_Ok; cycle 1.
      { eapply construct_at_builds; [done|exact Hblock|].
        rewrite length_app, length_fmap. simpl. lia. }
      erewrite bind_Ok; cycle 1.
      { eapply set_size__Ok. exact Hobj. }
      unfold ret. cbn [data_]. do 3 f_equal.
      replace (Z.to_nat (Z.of_nat (length l))) with (length (Live <$> l) + 0)%nat
        by (rewrite length_fmap; lia).
      now rewrite insert_app_r.
    + split; simpl in *.
      * rewrite list_lookup_insert_eq by done. rewrite length_app. simpl.
        rewrite wrap_small by lia. do 4 f_equal. lia.
      * rewrite length_app. simpl. lia.
      * lia.
      * rewrite list_lookup_insert_eq by done.
        rewrite fmap_app. simpl. now rewrite <- app_assoc.
    + simpl. now rewrite length_insert.
    + intros that Hthat. simpl. now rewrite list_lookup_insert_ne.
Qed.

(** ** [PushBack] is [EmplaceBack] *)

Lemma bind_ext {A C} (m : M A) (f g : A -> M C) w :
  (forall a w', f a w' = g a w') -> bind m f w = bind m g w.
Proof. intros H. unfold bind. destruct (m w); auto. Qed.

Lemma bind_assoc {A C D} (m : M A) (f : A -> M C) (g : C -> M D) w :
  bind (bind m f) g w = bind m (fun a => bind (f a) g) w.
Proof. unfold bind. now destruct (m w). Qed.

(** Updating [size_] and releasing a block commute: the block of the
    local [new_data] of [PushBack] is released at the end of the [if]
    statement, before [++size_], that of [EmplaceBack] after it. *)
Lemma delete_set_size_ (d : RawMemory) this s w :
  (RawMemory_delete d ;; set_size_ this s) w
  = (set_size_ this s ;; RawMemory_delete d) w.
Proof.
  destruct w as [o h t].
  unfold RawMemory_delete, Deallocate, operator_delete, set_size_, get_obj,
    put_obj, bind, block.
  destruct (buffer_ d) as [b|]; simpl.
  - destruct (h !! b) as [[c|]|] eqn:Hb, (o !! this) as [[u|]|] eqn:Ho;
      simpl; rewrite ?Hb, ?Ho; simpl; rewrite ?Hb, ?Ho; reflexivity.
  - destruct (o !! this) as [[u|]|] eqn:Ho;
      simpl; rewrite ?Ho; reflexivity.
Qed.

Lemma push_back_eq this args w :
  (v <- get_obj this ;;
   (if size_ v =? RawMemory_Capacity (data_ v) then
      let new_capacity := grown_capacity (size_ v) in
      new_data <- RawMemory_new new_capacity ;;
      let new_buffer := GetAddress new_data in
      unwinding (RawMemory_delete new_data)
        (relocate (GetAddress (data_ v)) (size_ v) new_buffer ;;
         construct_at (ptr_add new_buffer (size_ v)) args ;;
         destroy_n (GetAddress (data_ v)) (size_ v)) ;;
      new_data' <- Swap_local this new_data ;;
      RawMemory_delete new_data'
    else
      p <- RawMemory_plus (data_ v) (size_ v) ;;
      construct_at p args) ;;
   set_size_ this (wrap (size_ v + 1))) w
  = (EmplaceBack this args ;; ret tt) w.
Proof.
  unfold EmplaceBack. rewrite bind_assoc. apply bind_ext. intros v w1.
  destruct (size_ v =? RawMemory_Capacity (data_ v)).
  - cbv zeta. rewrite !bind_assoc. apply bind_ext. intros nd w2.
    rewrite !bind_assoc. apply bind_ext. intros _ w3.
    rewrite !bind_assoc. apply bind_ext. intros nd' w4.
    rewrite delete_set_size_, !bind_assoc. apply bind_ext. intros _ w5.
    unfold bind, ret. now destruct (RawMemory_delete nd' w5) as [[]| | |].
  - rewrite !bind_assoc. apply bind_ext. intros p w2.
    rewrite !bind_assoc. apply bind_ext. intros _ w3.
    unfold bind, ret. now destruct (set_size_ this _ w3) as [[]| | |].
Qed.

Lemma PushBack_eq this value w :
  PushBack this value w = (EmplaceBack this (CopyOf value) ;; ret tt) w.
Proof. apply push_back_eq. Qed.

Lemma PushBack_rv_eq this value w :
  PushBack_rv this value w = (EmplaceBack this (MoveOf value) ;; ret tt) w.
Proof. apply push_back_eq. Qed.

(** ** Queries on a represented vector *)

Lemma Size_repr w this buf cap l rest :
  repr w this buf cap l rest -> Size this w = Ok (Z.of_nat (length l)) w.
Proof.
  intros [Hobj _ _ _]. destruct w as [o h t]. simpl in *.
  unfold Size, get_size_, bind, ret, get_obj. simpl. now rewrite Hobj.
Qed.

Lemma Capacity_repr w this buf cap l rest :
  repr w this buf cap l rest -> Capacity this w = Ok cap w.
Proof.
  intros [Hobj _ _ _]. destruct w as [o h t]. simpl in *.
  unfold Capacity, get_data_, bind, ret, get_obj. simpl. now rewrite Hobj.
Qed.

Lemma begin_repr w this buf cap l rest :
  repr w this buf cap l rest -> begin_ this w = Ok (mkptr buf 0) w.
Proof.
  intros [Hobj _ _ _]. destruct w as [o h t]. simpl in *.
  unfold begin_, get_data_, bind, ret, get_obj. simpl. now rewrite Hobj.
Qed.

Lemma end_repr w this buf cap l rest :
  repr w this buf cap l rest ->
  end_ this w = Ok (mkptr buf (Z.of_nat (length l))) w.
Proof.
  intros [Hobj _ _ _]. destruct w as [o h t]. simpl in *.
  unfold end_, get_data_, get_size_, bind, ret, get_obj.
  repeat (simpl; rewrite Hobj). reflexivity.
Qed.

(** [operator[](i)] refers to the element [i]. *)
Lemma index_op_repr w this buf cap l rest (i : nat) x :
  repr w this buf cap l rest -> l !! i = Some x ->
  index_op this (Z.of_nat i) w = Ok (mkptr buf (Z.of_nat i)) w
  /\ read (mkptr buf (Z.of_nat i)) w = Ok x w.
Proof.
  intros [Hobj Hcap Hmax Hblock] Hx. destruct w as [o h t]. simpl in *.
  assert (Hi : (i < length l)%nat) by now apply lookup_lt_length in Hx.
  split.
  - unfold index_op.
    rewrite (bind_Ok _ _ _ _ _ (get_obj_Ok _ _ _ _ _ Hobj)). cbn [size_ data_].
    erewrite bind_Ok; cycle 1.
    { apply assert__Ok. apply Z.ltb_lt. lia. }
    rewrite RawMemory_index_Ok; [done|]. simpl. lia.
  - destruct buf as [b|]; [|destruct l; simpl in *; [done|lia]].
    apply read_Ok with (cs := (Live <$> l) ++ rest); [done|lia|].
    rewrite Nat2Z.id, lookup_app_l by (rewrite length_fmap; lia).
    now rewrite list_lookup_fmap, Hx.
Qed.

End Representation.

(** * Appending elements *)

Section PushBack.
Context {E : Element} {B : Build} {F : FreeStore}.

Lemma run_push_call_spec w this buf cap l rest c :
  repr w this buf cap l rest -> call_nothrow c ->
  Forall relocate_nothrow l -> Z.of_nat (length l) < 2 ^ 63 ->
  allocates w (grown_capacity (Z.of_nat (length l))) ->
  exists w' buf' rest',
    run_push_call this c w = Ok tt w'
    /\ repr w' this buf' (pushed_capacity (Z.of_nat (length l)) cap)
         (l ++ [pushed c]) rest'.
Proof.
  intros Hrepr [Hreloc Hc] Hl Hsmall Halloc.
  assert (Hb : exists ev, builds
    (match c with
     | Call_PushBack x => CopyOf (Ext x)
     | Call_PushBack_rv x => MoveOf (Ext x)
     | Call_EmplaceBack x => Other (Some x)
     end) (pushed c) ev).
  { destruct c; eexists; constructor; assumption. }
  destruct Hb as [ev Hb].
  destruct (EmplaceBack_spec _ _ _ _ _ _ _ _ _ Hrepr Hb
              (fun _ => conj Hl (conj Hsmall Halloc)))
    as (w' & buf' & rest' & Hrun & Hrepr' & _).
  exists w', buf', rest'. split; [|exact Hrepr'].
  destruct c; simpl; rewrite ?PushBack_eq, ?PushBack_rv_eq;
    now rewrite (bind_Ok _ _ _ _ _ Hrun).
Qed.

Lemma grown_capacity_le n m :
  0 <= n < m -> m <= 2 ^ 63 -> 0 <= grown_capacity n <= 2 * m.
Proof. intros Hn Hm. rewrite grown_capacity_eq by lia. lia. Qed.

Lemma run_push_calls_spec calls : forall w this buf cap l rest,
  repr w this buf cap l rest -> Forall call_nothrow calls ->
  Forall relocate_nothrow l ->
  Z.of_nat (length l + length calls) <= 2 ^ 63 ->
  serves (2 * Z.of_nat (length l + length calls)) ->
  exists w' buf' cap' rest',
    run_push_calls this calls w = Ok tt w'
    /\ repr w' this buf' cap' (l ++ (pushed <$> calls)) rest'.
Proof.
  induction calls as [|c calls IH];
    intros w this buf cap l rest Hrepr Hcalls Hl Hlen Hserves.
  - exists w, buf, cap, rest. simpl. now rewrite app_nil_r.
  - inversion Hcalls as [|? ? Hc Hcalls']; subst. simpl length in Hlen, Hserves.
    destruct (run_push_call_spec _ _ _ _ _ _ _ Hrepr Hc Hl ltac:(lia))
      as (w1 & buf1 & rest1 & Hrun & Hrepr1).
    { eapply allocates_serves; [exact Hserves|].
      apply grown_capacity_le; lia. }
    destruct (IH _ _ _ _ _ _ Hrepr1 Hcalls') as (w' & buf' & cap' & rest' & Hrun' & Hrepr').
    + apply Forall_app. split; [done|]. constructor; [apply Hc|constructor].
    + rewrite length_app. simpl. lia.
    + rewrite length_app. simpl length.
      now replace (length l + 1 + length calls)%nat
        with (length l + S (length calls))%nat by lia.
    + exists w', buf', cap', rest'. split.
      * simpl. now rewrite (bind_Ok _ _ _ _ _ Hrun).
      * rewrite fmap_cons. now rewrite <- app_assoc in Hrepr'.
Qed.

Lemma Vector_default_repr w :
  Vector_default w
  = Ok (length (objs w))
       (set_objs (objs w ++ [Some (mkVector RawMemory_default 0)]) w)
  /\ repr (set_objs (objs w ++ [Some (mkVector RawMemory_default 0)]) w)
       (length (objs w)) None 0 [] [].
Proof.
  split; [reflexivity|]. split; simpl; try done.
  rewrite lookup_app_r by lia. now rewrite Nat.sub_diag.
Qed.

(** X24: after any [n] calls of [PushBack] (or [EmplaceBack]) on a
    default-constructed vector whose arguments do not refer to elements of
    the vector itself, [n <= 2^63], when no call throws and the free store
    serves the blocks: [Size()] is [n], [Capacity()] is at least [n] and
    [operator[](i)] refers to the value of the call [i]. *)
Theorem push_back_sequence w calls :
  Forall call_nothrow calls -> Z.of_nat (length calls) <= 2 ^ 63 ->
  serves (2 * Z.of_nat (length calls)) ->
  exists this w' cap,
    (this <- Vector_default ;; run_push_calls this calls ;; ret this) w = Ok this w'
    /\ Size this w' = Ok (Z.of_nat (length calls)) w'
    /\ Capacity this w' = Ok cap w' /\ Z.of_nat (length calls) <= cap
    /\ forall (i : nat) x, (pushed <$> calls) !! i = Some x ->
         (p <- index_op this (Z.of_nat i) ;; read p) w' = Ok x w'.
Proof.
  intros Hcalls Hlen Hserves.
  destruct (Vector_default_repr w) as [Hnew Hrepr].
  destruct (run_push_calls_spec calls _ _ _ _ _ _ Hrepr Hcalls)
    as (w' & buf' & cap' & rest' & Hrun & Hrepr');
    [constructor|simpl; lia|exact Hserves|].
  simpl in Hrepr'.
  exists (length (objs w)), w', cap'. repeat split.
  - rewrite (bind_Ok _ _ _ _ _ Hnew). now rewrite (bind_Ok _ _ _ _ _ Hrun).
  - rewrite (Size_repr _ _ _ _ _ _ Hrepr'). now rewrite length_fmap.
  - apply (Capacity_repr _ _ _ _ _ _ Hrepr').
  - destruct Hrepr' as [_ Hcap _ _]. rewrite length_fmap in Hcap. lia.
  - intros i x Hx.
    destruct (index_op_repr _ _ _ _ _ _ _ _ Hrepr' Hx) as [Hidx Hread].
    now rewrite (bind_Ok _ _ _ _ _ Hidx).
Qed.

End PushBack.

(** * Inserting an element *)

Section Emplace.
Context {E : Element} {B : Build} {F : FreeStore}.

Lemma nothrow_relocate v : nothrow v -> relocate_nothrow v.
Proof.
  intros (Hc & Hm & _). unfold relocate_nothrow. now destruct relocate_by_move.
Qed.

Lemma index_of_begin buf i w :
  0 <= i < 2 ^ 64 -> index_of (mkptr buf i) (mkptr buf 0) w = Ok i w.
Proof.
  intros Hi. unfold index_of. cbn [base off]. rewrite Z.sub_0_r.
  rewrite wrap_small by done. destruct buf; [|done]. now rewrite Nat.eqb_refl.
Qed.

Lemma ptr_eqb_same buf i j : ptr_eqb (mkptr buf i) (mkptr buf j) = (i =? j).
Proof. unfold ptr_eqb. cbn [base off]. destruct buf; [|done]. now rewrite Nat.eqb_refl. Qed.

(** The branch of [Emplace] that shifts the elements inside the block: the
    temporary is constructed first, whatever the arguments refer to. *)
Lemma Emplace_in_place w this bs cap l1 l2 u s rest args x :
  repr w this (Some bs) cap (l1 ++ l2 ++ [u]) (s :: rest) ->
  construct_temp args w = Ok x (add_trace [EvTempConstruct x] w) ->
  move_throws u = false ->
  Forall (fun v => move_assign_throws v = false) l2 ->
  move_assign_throws x = false ->
  let n := Z.of_nat (length (l1 ++ l2 ++ [u])) in
  let i := Z.of_nat (length l1) in
  exists w',
    Emplace this (mkptr (Some bs) i) args w = Ok (mkptr (Some bs) i) w'
    /\ repr w' this (Some bs) cap (l1 ++ x :: l2 ++ [u]) rest
    /\ trace w' = trace w
         ++ [EvTempConstruct x; EvMoveConstruct (mkptr (Some bs) n) u]
         ++ events_back EvMoveAssign (mkptr (Some bs) n) 0 (rev l2)
         ++ [EvMoveAssign (mkptr (Some bs) i) x; EvTempDestroy].
Proof.
  intros Hrepr Htmp Hu Hl2 Hx n i.
  pose proof (begin_repr _ _ _ _ _ _ Hrepr) as Hbegin.
  pose proof (end_repr _ _ _ _ _ _ Hrepr) as Hend.
  destruct Hrepr as [Hobj Hcap Hmax Hblock]. destruct w as [o h t]. simpl in *.
  assert (Hthis : (this < length o)%nat) by now apply lookup_lt_length in Hobj.
  assert (Hbs : (bs < length h)%nat) by now apply lookup_lt_length in Hblock.
  assert (Hn : n = Z.of_nat (length l1) + Z.of_nat (length l2) + 1).
  { unfold n. rewrite !length_app. simpl. lia. }
  fold n in Hobj, Hend.
  assert (Hi : i = Z.of_nat (length l1)) by reflexivity.
  assert (Hcapn : n < cap).
  { rewrite Hcap, Hn. simpl length. rewrite !length_app. simpl. lia. }
  clearbody n i.
  assert (Hi' : 0 <= i < 2 ^ 64) by lia.
  unfold Emplace.
  rewrite (bind_Ok _ _ _ _ _ Hbegin).
  rewrite (bind_Ok _ _ _ _ _ (index_of_begin _ _ _ Hi')).
  rewrite (bind_Ok _ _ _ _ _ (get_obj_Ok _ _ _ _ _ Hobj)).
  rewrite (bind_Ok _ _ _ _ _ Hend).
  unfold RawMemory_Capacity. cbn [size_ data_ capacity_ buffer_].
  destruct (Z.eqb_spec n cap) as [Heq|_]; [lia|].
  rewrite ptr_eqb_same. destruct (Z.eqb_spec i n) as [Heq|_]; [lia|].
  rewrite (bind_Ok _ _ _ _ _ Htmp). cbn [add_trace objs heap trace].
  destruct (Z.ltb_spec i n) as [_|Hge]; [|lia].
  eexists. split; [|split].
  - erewrite bind_Ok; cycle 1.
    { apply unwinding_Ok.
      erewrite bind_Ok; cycle 1.
      { erewrite bind_Ok; cycle 1.
        { apply RawMemory_plus_Ok. simpl. lia. }
        erewrite bind_Ok; cycle 1.
        { apply RawMemory_index_Ok. simpl. rewrite wrap_small by lia. lia. }
        cbn [buffer_]. rewrite wrap_small by lia.
        erewrite bind_Ok; cycle 1.
        { replace n with (n - 1 + 1) at 1 by lia.
          eapply (construct_at_move_right _ _ _ _ ((Live <$> l1) ++ (Live <$> l2)) s u rest);
            [|rewrite length_app, !length_fmap; lia|exact Hu].
          simpl. rewrite Hblock. rewrite !fmap_app. simpl. now rewrite <- !app_assoc. }
        erewrite bind_Ok; cycle 1.
        { apply RawMemory_plus_Ok. simpl. lia. }
        erewrite bind_Ok; cycle 1.
        { apply RawMemory_plus_Ok. simpl. lia. }
        erewrite bind_Ok; cycle 1.
        { apply RawMemory_plus_Ok. simpl. lia. }
        cbn [buffer_]. unfold ptr_add. cbn [base off].
        erewrite bind_Ok; cycle 1.
        { replace (n + -1) with (i + Z.of_nat (length l2)) by lia.
          replace n with (i + Z.of_nat (length l2) + 1) at 1 by lia.
          eapply (std_move_backward_Ok _ _ _ _ (Live <$> l1) l2
                    (moved_from u) (Live u :: rest));
            [|now rewrite length_fmap|exact Hl2].
          rewrite list_lookup_insert_eq by done. now rewrite <- app_assoc. }
        reflexivity. }
      erewrite bind_Ok; cycle 1.
      { apply RawMemory_index_Ok. simpl. lia. }
      cbn [buffer_].
      erewrite bind_Ok; cycle 1.
      { eapply (move_assign_ext _ _ _ _ (Live <$> l1)
                  (match l2 with v0 :: _ => moved_from v0 | [] => moved_from u end)
                  ((Live <$> l2) ++ Live u :: rest));
          [|now rewrite length_fmap|exact Hx].
        rewrite list_lookup_insert_eq by now rewrite length_insert.
        unfold shifted_right. destruct l2; simpl; reflexivity. }
      erewrite bind_Ok; cycle 1.
      { eapply set_size__Ok. exact Hobj. }
      apply RawMemory_plus_Ok. simpl. lia. }
    reflexivity.
  - split; simpl.
    + rewrite list_lookup_insert_eq by done. do 4 f_equal.
      rewrite wrap_small by lia. rewrite Hn, !length_app. simpl.
      rewrite length_app. simpl. lia.
    + rewrite !length_app in *. simpl in *. rewrite length_app in *. simpl in *. lia.
    + lia.
    + rewrite !list_insert_insert_eq. rewrite list_lookup_insert_eq by done.
      rewrite !fmap_app. simpl. rewrite fmap_app. simpl.
      rewrite <- !app_assoc. simpl. now rewrite <- !app_assoc.
  - simpl. rewrite <- !app_assoc. simpl.
    replace (i + Z.of_nat (length l2) + 1) with n by lia.
    replace (n - 1 + 1) with n by lia. reflexivity.
Qed.

Ltac heap_lookup :=
  repeat first
    [ rewrite list_lookup_insert_ne by (congruence || lia)
    | rewrite list_lookup_insert_eq
        by (rewrite ?length_insert, ?length_app; simpl; lia) ].

Lemma relocated_from_app l1 l2 :
  relocated_from (l1 ++ l2) = relocated_from l1 ++ relocated_from l2.
Proof. unfold relocated_from. destruct relocate_by_move; [apply fmap_app|done]. Qed.

(** The branch of [Emplace] that reallocates, at a position before the end. *)
Lemma Emplace_grow w this bs cap l1 l2 args x ev :
  repr w this (Some bs) cap (l1 ++ l2) [] -> l2 <> [] ->
  builds args x ev -> Forall relocate_nothrow (l1 ++ l2) ->
  Z.of_nat (length (l1 ++ l2)) < 2 ^ 63 ->
  allocates w (grown_capacity (Z.of_nat (length (l1 ++ l2)))) ->
  let n := Z.of_nat (length (l1 ++ l2)) in
  let i := Z.of_nat (length l1) in
  let bd := length (heap w) in
  exists w',
    Emplace this (mkptr (Some bs) i) args w = Ok (mkptr (Some bd) i) w'
    /\ repr w' this (Some bd) (grown_capacity n) (l1 ++ x :: l2)
         (replicate (Z.to_nat (grown_capacity n) - length (l1 ++ l2) - 1) Raw)
    /\ trace w' = trace w
         ++ [EvAllocate bd (grown_capacity n)]
         ++ events_from relocate_event (mkptr (Some bd) 0) 0 l1
         ++ [ev (mkptr (Some bd) i) x]
         ++ events_from relocate_event (mkptr (Some bd) (i + 1)) 0 l2
         ++ events_from EvDestroy (mkptr (Some bs) 0) 0 (relocated_from (l1 ++ l2))
         ++ [EvDeallocate bs].
Proof.
  intros Hrepr Hl2 Hargs Hthrow Hsmall Halloc n i bd.
  pose proof (begin_repr _ _ _ _ _ _ Hrepr) as Hbegin.
  pose proof (end_repr _ _ _ _ _ _ Hrepr) as Hend.
  destruct Hrepr as [Hobj Hcap Hmax Hblock]. destruct w as [o h t]. simpl in *.
  rewrite app_nil_r in Hblock.
  assert (Hthis : (this < length o)%nat) by now apply lookup_lt_length in Hobj.
  assert (Hbs : (bs < length h)%nat) by now apply lookup_lt_length in Hblock.
  assert (Hn : n = Z.of_nat (length l1) + Z.of_nat (length l2)).
  { unfold n. rewrite length_app. lia. }
  assert (Hl2' : (0 < length l2)%nat) by (destruct l2; simpl; [done|lia]).
  fold n in Hobj, Hend, Hsmall, Halloc.
  assert (Hi : i = Z.of_nat (length l1)) by reflexivity.
  assert (Hcapn : n = cap) by (rewrite Hcap; unfold n; lia).
  assert (Hlen : length (l1 ++ l2) = (length l1 + length l2)%nat) by apply length_app.
  rewrite Hlen.
  assert (Hgrown : grown_capacity n = Z.max 1 (n * 2))
    by (apply grown_capacity_eq; lia).
  assert (Hnz : 0 < grown_capacity n) by lia.
  clearbody n i. subst bd.
  assert (Hi' : 0 <= i < 2 ^ 64) by lia.
  assert (Hc' : (length l1 + length l2 < Z.to_nat (grown_capacity n))%nat) by lia.
  assert (Hc'z : Z.of_nat (Z.to_nat (grown_capacity n)) = grown_capacity n) by lia.
  set (c' := Z.to_nat (grown_capacity n)) in *.
  set (R3 := replicate (c' - (length l1 + length l2) - 1) Raw).
  assert (Hsplit : replicate c' Raw
    = [] ++ replicate (length l1) Raw ++ Raw :: replicate (length l2) Raw ++ R3).
  { unfold R3. rewrite (replicate_split (length l1) c') by lia. simpl. do 2 f_equal.
    rewrite <- replicate_add. f_equal. lia. }
  apply Forall_app in Hthrow as [Hthrow1 Hthrow2].
  unfold Emplace.
  rewrite (bind_Ok _ _ _ _ _ Hbegin).
  rewrite (bind_Ok _ _ _ _ _ (index_of_begin _ _ _ Hi')).
  rewrite (bind_Ok _ _ _ _ _ (get_obj_Ok _ _ _ _ _ Hobj)).
  rewrite (bind_Ok _ _ _ _ _ Hend).
  unfold RawMemory_Capacity. cbn [size_ data_ capacity_ buffer_].
  destruct (Z.eqb_spec n cap) as [_|Hneq]; [|lia].
  rewrite ptr_eqb_same. destruct (Z.eqb_spec i n) as [Heq|_]; [lia|].
  cbv zeta.
  rewrite (bind_Ok _ _ _ _ _ (RawMemory_new_Ok _ _ _ _ Hnz Halloc)).
  unfold GetAddress. cbn [buffer_]. unfold ptr_add. cbn [base off].
  eexists. split; [|split].
  - erewrite bind_Ok; cycle 1.
    { apply unwinding_Ok.
      erewrite bind_Ok; cycle 1.
      { eapply (relocate_Ok _ _ _ bs (length h) [] l1 (Live <$> l2) []
                  (replicate (length l1) Raw)
                  (Raw :: replicate (length l2) Raw ++ R3));
          try done; try lia.
        - rewrite lookup_app_l by done. rewrite Hblock, fmap_app. reflexivity.
        - rewrite lookup_app_r by lia. rewrite Nat.sub_diag. simpl.
          fold c'. now rewrite Hsplit.
        - now rewrite length_replicate. }
      erewrite bind_Ok; cycle 1.
      { rewrite Z.add_0_l.
        eapply construct_at_builds; [exact Hargs| |].
        - heap_lookup. reflexivity.
        - simpl. rewrite length_app, length_fmap. simpl. lia. }
      erewrite bind_Ok; cycle 1.
      { eapply (relocate_Ok _ _ _ bs (length h) (Live <$> relocated_from l1) l2 []
                  ((Live <$> l1) ++ [Live x])
                  (replicate (length l2) Raw) R3);
          try done; try lia.
        - heap_lookup. simpl. now rewrite app_nil_r.
        - heap_lookup. rewrite Hi. simpl app.
          rewrite insert_middle by (rewrite length_fmap; lia).
          rewrite <- !app_assoc. reflexivity.
        - rewrite length_fmap, length_relocated_from. lia.
        - rewrite length_app, length_fmap. simpl. lia.
        - rewrite wrap_small by lia. lia.
        - now rewrite length_replicate. }
      eapply (DestroyN_Ok _ _ _ bs [] (relocated_from l1 ++ relocated_from l2) []);
        try done.
      - heap_lookup. simpl. rewrite !app_nil_r, fmap_app. reflexivity.
      - rewrite length_app, !length_relocated_from. lia. }
    erewrite bind_Ok; cycle 1.
    { eapply Swap_local_Ok. exact Hobj. }
    cbn [size_ data_].
    erewrite bind_Ok; cycle 1.
    { eapply set_size__Ok. now apply list_lookup_insert_eq. }
    rewrite list_insert_insert_eq. cbn [data_].
    unfold RawMemory_delete. cbn [buffer_].
    erewrite bind_Ok; cycle 1.
    { eapply Deallocate_Ok. heap_lookup. reflexivity. }
    reflexivity.
  - split; simpl.
    + rewrite list_lookup_insert_eq by done. do 4 f_equal.
      rewrite wrap_small by lia. rewrite length_app. simpl. lia.
    + rewrite length_app. simpl. unfold R3. rewrite length_replicate. lia.
    + lia.
    + heap_lookup. rewrite fmap_app. simpl. rewrite <- !app_assoc. simpl.
      reflexivity.
  - simpl. rewrite <- !app_assoc. simpl. rewrite relocated_from_app.
    rewrite Z.add_0_l. reflexivity.
Qed.

Lemma construct_temp_builds args x ev w :
  builds args x ev ->
  construct_temp args w = Ok x (add_trace [EvTempConstruct x] w).
Proof.
  intros [v Hv|v Hv|v]; unfold construct_temp, read_ref, moved_out, bind, ret, emit;
    rewrite ?Hv; reflexivity.
Qed.

(** [Emplace] at [end()] is [EmplaceBack]. *)
Lemma Emplace_at_end w this buf cap l rest args x ev :
  repr w this buf cap l rest -> builds args x ev ->
  (Z.of_nat (length l) = cap ->
   Forall relocate_nothrow l /\ Z.of_nat (length l) < 2 ^ 63
   /\ allocates w (grown_capacity (Z.of_nat (length l)))) ->
  let n := Z.of_nat (length l) in
  exists w' buf' rest',
    Emplace this (mkptr buf n) args w = Ok (mkptr buf' n) w'
    /\ repr w' this buf' (pushed_capacity n cap) (l ++ [x]) rest'.
Proof.
  intros Hrepr Hargs Hfull n.
  pose proof (begin_repr _ _ _ _ _ _ Hrepr) as Hbegin.
  pose proof (end_repr _ _ _ _ _ _ Hrepr) as Hend.
  destruct (EmplaceBack_spec _ _ _ _ _ _ _ _ _ Hrepr Hargs Hfull)
    as (w' & buf' & rest' & Hrun & Hrepr' & _).
  exists w', buf', rest'. split; [|exact Hrepr'].
  pose proof (begin_repr _ _ _ _ _ _ Hrepr') as Hbegin'.
  destruct Hrepr as [Hobj Hcap Hmax Hblock]. destruct w as [o h t]. simpl in *.
  assert (Hn : 0 <= n < 2 ^ 64) by (unfold n; lia).
  fold n in Hend, Hobj, Hrun. clearbody n.
  unfold Emplace.
  rewrite (bind_Ok _ _ _ _ _ Hbegin).
  rewrite (bind_Ok _ _ _ _ _ (index_of_begin _ _ _ Hn)).
  rewrite (bind_Ok _ _ _ _ _ (get_obj_Ok _ _ _ _ _ Hobj)).
  rewrite (bind_Ok _ _ _ _ _ Hend).
  rewrite ptr_eqb_same, Z.eqb_refl.
  destruct (size_ _ =? _);
    rewrite (bind_Ok _ _ _ _ _ Hrun), (bind_Ok _ _ _ _ _ Hbegin');
    unfold ret, ptr_add; cbn [base off]; now rewrite Z.add_0_l.
Qed.

Lemma element_is_repr w this buf cap l rest (j : nat) y :
  repr w this buf cap l rest -> l !! j = Some y -> element_is w this j y.
Proof.
  intros Hrepr Hy. unfold element_is.
  destruct (index_op_repr _ _ _ _ _ _ _ _ Hrepr Hy) as [Hidx Hread].
  now rewrite (bind_Ok _ _ _ _ _ Hidx).
Qed.

Lemma Emplace_spec w this buf cap l rest (i : nat) args x ev :
  repr w this buf cap l rest -> (i <= length l)%nat ->
  builds args x ev -> Forall nothrow l -> nothrow x ->
  Z.of_nat (length l) < 2 ^ 63 ->
  (Z.of_nat (length l) = cap ->
   allocates w (grown_capacity (Z.of_nat (length l)))) ->
  exists w' buf' cap' rest',
    Emplace this (mkptr buf (Z.of_nat i)) args w = Ok (mkptr buf' (Z.of_nat i)) w'
    /\ repr w' this buf' cap' (take i l ++ x :: drop i l) rest'
    /\ cap' = pushed_capacity (Z.of_nat (length l)) cap.
Proof.
  intros Hrepr Hi Hargs Hl Hx Hsmall Halloc.
  assert (Hreloc : Forall relocate_nothrow l).
  { eapply Forall_impl; [|exact Hl]. apply nothrow_relocate. }
  destruct (decide (i = length l)) as [->|Hne].
  - (* at the end *)
    destruct (Emplace_at_end _ _ _ _ _ _ _ _ _ Hrepr Hargs
                (fun H => conj Hreloc (conj Hsmall (Halloc H))))
      as (w' & buf' & rest' & Hrun & Hrepr').
    exists w', buf', (pushed_capacity (Z.of_nat (length l)) cap), rest'.
    rewrite firstn_all, drop_all. auto.
  - assert (Hlt : (i < length l)%nat) by lia.
    assert (Hsplit : l = take i l ++ drop i l) by now rewrite take_drop.
    assert (Hlen1 : length (take i l) = i) by (rewrite length_take; lia).
    pose proof Hrepr as [_ Hcap _ Hblock].
    destruct buf as [bs|]; [|destruct l; simpl in *; lia].
    unfold pushed_capacity.
    destruct (Z.eqb_spec (Z.of_nat (length l)) cap) as [Heq|Hneq].
    + (* a new block *)
      assert (rest = []) as -> by (destruct rest; simpl in *; [done|lia]).
      specialize (Halloc Heq).
      rewrite Hsplit in Hrepr, Hreloc, Hsmall, Halloc.
      assert (Hl2 : drop i l <> []).
      { intros Hnil. apply (f_equal length) in Hnil. rewrite length_drop in Hnil.
        simpl in Hnil. lia. }
      destruct (Emplace_grow _ _ _ _ _ _ _ _ _ Hrepr Hl2 Hargs Hreloc Hsmall Halloc)
        as (w' & Hrun & Hrepr' & _).
      rewrite Hlen1 in Hrun. rewrite <- Hsplit in Hrepr'.
      eexists w', _, _, _. split; [exact Hrun|]. split; [exact Hrepr'|reflexivity].
    + (* inside the block *)
      destruct rest as [|s rest]; [simpl in *; lia|].
      destruct (drop i l) as [|d ds] eqn:Hdrop using rev_ind.
      { apply (f_equal length) in Hdrop. rewrite length_drop in Hdrop.
        simpl in Hdrop. lia. }
      clear IHds. rewrite Hsplit in Hrepr, Hl.
      apply Forall_app in Hl as [_ Hl2].
      apply Forall_app in Hl2 as [Hl2 Hd].
      inversion Hd as [|? ? Hd' _]; subst.
      destruct (Emplace_in_place _ _ _ _ _ _ _ _ _ _ _ Hrepr
                  (construct_temp_builds _ _ _ _ Hargs)) as (w' & Hrun & Hrepr' & _).
      * apply Hd'.
      * eapply Forall_impl; [|exact Hl2]. intros a Ha. apply Ha.
      * apply Hx.
      * rewrite Hlen1 in Hrun.
        eexists w', _, _, _. split; [exact Hrun|]. split; [exact Hrepr'|reflexivity].
Qed.

(** X25: [Insert] or [Emplace] at [begin() + i] of a vector of [n] elements,
    [i <= n < 2^63], of a value that is not an element of the vector itself,
    when no operation of the element type throws and the free store serves
    the block: the size becomes [n + 1], the element [i] is the new value,
    the elements before [i] stay and those from [i] on are found one
    position further, in the same order; the iterator returned is
    [begin() + i] and refers to the new element.  This holds at the end,
    with and without a reallocation. *)
Theorem insert_at_position w this buf cap l rest (i : nat) c :
  repr w this buf cap l rest -> (i <= length l)%nat ->
  Forall nothrow l -> nothrow (inserted c) ->
  Z.of_nat (length l) < 2 ^ 63 ->
  (Z.of_nat (length l) = cap ->
   allocates w (grown_capacity (Z.of_nat (length l)))) ->
  exists it w',
    run_insert_call this (mkptr buf (Z.of_nat i)) c w = Ok it w'
    /\ Size this w' = Ok (Z.of_nat (length l) + 1) w'
    /\ element_is w' this i (inserted c)
    /\ (forall (j : nat) y, (j < i)%nat -> l !! j = Some y -> element_is w' this j y)
    /\ (forall (j : nat) y, (i <= j)%nat -> l !! j = Some y ->
         element_is w' this (S j) y)
    /\ (b <- begin_ this ;; ret (ptr_add b (Z.of_nat i))) w' = Ok it w'
    /\ read it w' = Ok (inserted c) w'.
Proof.
  intros Hrepr Hi Hl Hx Hsmall Halloc.
  assert (Hb : exists ev, builds
    (match c with
     | Call_Insert x => CopyOf (Ext x)
     | Call_Insert_rv x => MoveOf (Ext x)
     | Call_Emplace x => Other (Some x)
     end) (inserted c) ev).
  { destruct Hx as (Hc & Hm & _). destruct c; eexists; constructor; assumption. }
  destruct Hb as [ev Hb].
  destruct (Emplace_spec _ _ _ _ _ _ _ _ _ _ Hrepr Hi Hb Hl Hx Hsmall Halloc)
    as (w' & buf' & cap' & rest' & Hrun & Hrepr' & _).
  assert (Hlen : length (take i l) = i) by (rewrite length_take; lia).
  assert (Hnew : (take i l ++ inserted c :: drop i l) !! i = Some (inserted c)).
  { now apply lookup_middle. }
  exists (mkptr buf' (Z.of_nat i)), w'. split; [|split; [|split; [|split; [|split; [|split]]]]].
  - destruct c; exact Hrun.
  - rewrite (Size_repr _ _ _ _ _ _ Hrepr'). do 2 f_equal.
    rewrite length_app. simpl. rewrite length_take, length_drop. lia.
  - apply (element_is_repr _ _ _ _ _ _ _ _ Hrepr' Hnew).
  - intros j y Hj Hy. apply (element_is_repr _ _ _ _ _ _ _ _ Hrepr').
    rewrite lookup_app_l by lia. rewrite lookup_take. now destruct (decide (j < i)%nat).
  - intros j y Hj Hy. apply (element_is_repr _ _ _ _ _ _ _ _ Hrepr').
    rewrite lookup_app_r by lia. rewrite Hlen.
    replace (S j - i)%nat with (S (j - i)) by lia. simpl.
    rewrite lookup_drop. now replace (i + (j - i))%nat with j by lia.
  - rewrite (bind_Ok _ _ _ _ _ (begin_repr _ _ _ _ _ _ Hrepr')).
    unfold ret, ptr_add. cbn [base off]. now rewrite Z.add_0_l.
  - apply (index_op_repr _ _ _ _ _ _ _ _ Hrepr' Hnew).
Qed.

(** C10: [Insert(begin() + i, v[k])] before an element, in a vector with a
    spare cell: the value is copied into the temporary first, which is the
    first event of the call, so the element inserted is the value [v[k]]
    had before the call, although the elements are shifted afterwards. *)
Theorem insert_own_element w this bs cap l s rest (i k : nat) x :
  repr w this (Some bs) cap l (s :: rest) ->
  (i < length l)%nat -> l !! k = Some x -> Forall nothrow l ->
  exists w' evs,
    Insert this (mkptr (Some bs) (Z.of_nat i)) (At (mkptr (Some bs) (Z.of_nat k))) w
    = Ok (mkptr (Some bs) (Z.of_nat i)) w'
    /\ repr w' this (Some bs) cap (take i l ++ x :: drop i l) rest
    /\ trace w' = trace w ++ EvTempConstruct x :: evs
    /\ element_is w' this i x.
Proof.
  intros Hrepr Hi Hk Hl.
  assert (Hx : nothrow x).
  { rewrite Forall_forall in Hl. apply Hl. apply list_elem_of_In.
    eapply list_elem_of_lookup_2. exact Hk. }
  assert (Hsplit : l = take i l ++ drop i l) by now rewrite take_drop.
  assert (Hlen1 : length (take i l) = i) by (rewrite length_take; lia).
  destruct (drop i l) as [|d ds] eqn:Hdrop using rev_ind.
  { apply (f_equal length) in Hdrop. rewrite length_drop in Hdrop.
    simpl in Hdrop. lia. }
  clear IHds.
  assert (Htmp : construct_temp (CopyOf (At (mkptr (Some bs) (Z.of_nat k)))) w
                 = Ok x (add_trace [EvTempConstruct x] w)).
  { destruct Hrepr as [_ _ _ Hblock]. destruct w as [o h t]. simpl in *.
    unfold construct_temp, read_ref.
    erewrite bind_Ok; cycle 1.
    { eapply read_Ok; [exact Hblock|lia|].
      rewrite Nat2Z.id, lookup_app_l.
      - now rewrite list_lookup_fmap, Hk.
      - rewrite length_fmap. now apply lookup_lt_length in Hk. }
    destruct Hx as (-> & _). reflexivity. }
  rewrite Hsplit in Hrepr, Hl.
  apply Forall_app in Hl as [_ Hl2].
  apply Forall_app in Hl2 as [Hl2 Hd].
  inversion Hd as [|? ? Hd' _]; subst.
  destruct (Emplace_in_place _ _ _ _ _ _ _ _ _ _ _ Hrepr Htmp)
    as (w' & Hrun & Hrepr' & Htrace).
  - apply Hd'.
  - eapply Forall_impl; [|exact Hl2]. intros a Ha. apply Ha.
  - apply Hx.
  - rewrite Hlen1 in Hrun. exists w'. eexists. split; [exact Hrun|].
    split; [exact Hrepr'|]. split; [exact Htrace|].
    apply (element_is_repr _ _ _ _ _ _ _ _ Hrepr'). now apply lookup_middle.
Qed.

End Emplace.

(** * Erasing an element *)

Section Erase.
Context {E : Element} {B : Build} {F : FreeStore}.

(** The last element: it is destroyed, nothing is moved. *)
Lemma Erase_last w this bs cap l d rest :
  repr w this (Some bs) cap (l ++ [d]) rest ->
  let i := Z.of_nat (length l) in
  Erase this (mkptr (Some bs) i) w
  = Ok (mkptr (Some bs) i)
      (mkworld
         (<[this := Some (mkVector (mkRawMemory (Some bs) cap) i)]> (objs w))
         (<[bs := Some ((Live <$> l) ++ Raw :: rest)]> (heap w))
         (trace w ++ [EvDestroy (mkptr (Some bs) i) d])).
Proof.
  intros Hrepr i.
  pose proof (begin_repr _ _ _ _ _ _ Hrepr) as Hbegin.
  destruct Hrepr as [Hobj Hcap Hmax Hblock]. destruct w as [o h t]. simpl in *.
  assert (Hthis : (this < length o)%nat) by now apply lookup_lt_length in Hobj.
  assert (Hbs : (bs < length h)%nat) by now apply lookup_lt_length in Hblock.
  rewrite length_app in *. simpl length in *.
  assert (Hi : i = Z.of_nat (length l)) by reflexivity. clearbody i.
  assert (Hi' : 0 <= i < 2 ^ 64) by lia.
  rewrite fmap_app, <- app_assoc in Hblock. simpl in Hblock.
  unfold Erase.
  rewrite (bind_Ok _ _ _ _ _ Hbegin).
  rewrite (bind_Ok _ _ _ _ _ (index_of_begin _ _ _ Hi')).
  rewrite (bind_Ok _ _ _ _ _ (get_obj_Ok _ _ _ _ _ Hobj)).
  cbn [size_ data_].
  erewrite bind_Ok; cycle 1.
  { apply RawMemory_plus_Ok. simpl. lia. }
  cbn [buffer_].
  erewrite bind_Ok; cycle 1.
  { eapply destroy_at_Ok; [exact Hblock|lia|]. apply lookup_middle.
    rewrite length_fmap. lia. }
  rewrite insert_middle by (rewrite length_fmap; lia).
  replace (Z.of_nat (length l + 1) - 1) with i by lia.
  rewrite wrap_small by lia.
  destruct (Z.ltb_spec i i) as [Hlt|_]; [lia|].
  unfold bind at 1. unfold ret at 1.
  erewrite bind_Ok; cycle 1.
  { eapply set_size__Ok. exact Hobj. }
  cbn [data_].
  unfold begin_, get_data_, bind, ret, get_obj, ptr_add. cbn [objs].
  rewrite list_lookup_insert_eq by done. cbn [data_ buffer_ base off].
  now rewrite Z.add_0_l.
Qed.

(** An element before the last: the elements after it are move-assigned
    one cell to the left, the first of them to the object that was just
    destroyed. *)
Lemma Erase_not_last w this bs cap l1 d v l2 rest :
  repr w this (Some bs) cap (l1 ++ d :: v :: l2) rest ->
  Erase this (mkptr (Some bs) (Z.of_nat (length l1))) w = Undefined.
Proof.
  intros Hrepr.
  pose proof (begin_repr _ _ _ _ _ _ Hrepr) as Hbegin.
  destruct Hrepr as [Hobj Hcap Hmax Hblock]. destruct w as [o h t]. simpl in *.
  assert (Hbs : (bs < length h)%nat) by now apply lookup_lt_length in Hblock.
  rewrite length_app in *. simpl length in *.
  set (i := Z.of_nat (length l1)) in *.
  assert (Hi' : 0 <= i < 2 ^ 64) by lia.
  set (n := Z.of_nat (length l1 + S (S (length l2)))) in *.
  assert (Hn : n = i + 1 + (1 + Z.of_nat (length l2))) by lia. clearbody n.
  rewrite fmap_app, !fmap_cons, <- app_assoc in Hblock. simpl in Hblock.
  unfold Erase.
  rewrite (bind_Ok _ _ _ _ _ Hbegin).
  rewrite (bind_Ok _ _ _ _ _ (index_of_begin _ _ _ Hi')).
  rewrite (bind_Ok _ _ _ _ _ (get_obj_Ok _ _ _ _ _ Hobj)).
  cbn [size_ data_].
  erewrite bind_Ok; cycle 1.
  { apply RawMemory_plus_Ok. simpl. lia. }
  cbn [buffer_].
  erewrite bind_Ok; cycle 1.
  { eapply destroy_at_Ok; [exact Hblock|lia|]. apply lookup_middle.
    rewrite length_fmap. lia. }
  rewrite insert_middle by (rewrite length_fmap; lia).
  rewrite wrap_small by lia.
  destruct (Z.ltb_spec i (n - 1)) as [_|Hge]; [|lia].
  apply bind_Undefined.
  erewrite bind_Ok; cycle 1.
  { apply RawMemory_plus_Ok. simpl. lia. }
  erewrite bind_Ok; cycle 1.
  { apply RawMemory_plus_Ok. simpl. lia. }
  erewrite bind_Ok; cycle 1.
  { apply RawMemory_plus_Ok. simpl. lia. }
  cbn [buffer_]. unfold ptr_add. cbn [base off].
  apply bind_Undefined. rewrite Hn.
  eapply (std_move_destroyed _ _ _ _ (Live <$> l1) v ((Live <$> l2) ++ rest));
    [|now rewrite length_fmap|lia].
  now apply list_lookup_insert_eq.
Qed.

End Erase.

(** * Copy assignment *)

Section CopyAssignment.
Context {E : Element} {B : Build} {F : FreeStore}.

Lemma copy_assignment_loop_nil (d rd : RawMemory) size fuel w :
  copy_assignment_loop d rd size 0 0 fuel w = Ok 0 w.
Proof.
  destruct fuel; simpl; destruct (0 <? size); reflexivity.
Qed.

Lemma events_from_nil_app (ev : ptr -> T -> event) (d : ptr) evs :
  evs ++ events_from ev d 0 [] = evs.
Proof. apply app_nil_r. Qed.

(** The branch of the copy assignment that reuses the block. *)
Lemma copy_assignment_in_place w this rhs buf cap l rest bufr capr lr restr :
  repr w this buf cap l rest -> repr w rhs bufr capr lr restr ->
  this <> rhs -> (forall b, buf = Some b -> bufr <> Some b) ->
  Z.of_nat (length lr) <= cap ->
  Forall nothrow lr ->
  exists w',
    copy_assignment this rhs w = Ok tt w'
    /\ repr w' this buf cap lr
         (replicate (length l - length lr) Raw ++ drop (length lr - length l) rest)
    /\ repr w' rhs bufr capr lr restr
    /\ trace w' = trace w
         ++ events_from EvCopyAssign (mkptr buf 0) 0 (take (length l) lr)
         ++ events_from EvCopyConstruct (mkptr buf (Z.of_nat (length l))) 0
              (drop (length l) lr)
         ++ events_from EvDestroy (mkptr buf (Z.of_nat (length lr))) 0
              (drop (length lr) l).
Proof.
  intros [Hobj Hcap Hmax Hblock] [Hobjr Hcapr Hmaxr Hblockr] Hne Hsep Hfit Hthrow.
  destruct w as [o h t]. simpl in *.
  assert (Hthis : (this < length o)%nat) by now apply lookup_lt_length in Hobj.
  unfold copy_assignment.
  destruct (Nat.eqb_spec this rhs) as [|_]; [done|]. cbn [negb].
  rewrite (bind_Ok _ _ _ _ _ (get_obj_Ok _ _ _ _ _ Hobjr)).
  rewrite (bind_Ok _ _ _ _ _ (get_obj_Ok _ _ _ _ _ Hobj)).
  unfold RawMemory_Capacity, GetAddress, ptr_add.
  cbn [size_ data_ capacity_ buffer_ base off].
  destruct (Z.gtb_spec (Z.of_nat (length lr)) cap) as [|_]; [lia|].
  destruct (decide (lr = [])) as [->|Hlr].
  - (* nothing to assign: the elements are destroyed *)
    simpl length. rewrite (bind_Ok _ _ _ _ _ (copy_assignment_loop_nil _ _ _ _ _)).
    change (0 <? Z.of_nat 0) with false. cbv iota.
    rewrite Z.sub_0_r, wrap_small by lia. rewrite Nat.sub_0_r.
    replace (0 - length l)%nat with 0%nat by lia. simpl drop.
    destruct buf as [bs|].
    + assert (Hbs : (bs < length h)%nat) by now apply lookup_lt_length in Hblock.
      eexists. split; [|split; [|split]].
      * erewrite bind_Ok; cycle 1.
        { eapply (destroy_n_Ok _ _ _ bs [] l rest); [exact Hblock|done|done]. }
        eapply set_size__Ok. exact Hobj.
      * split; simpl; try done.
        -- now rewrite list_lookup_insert_eq.
        -- rewrite length_app, length_replicate, drop_0. lia.
        -- rewrite list_lookup_insert_eq by done. now rewrite drop_0.
      * split; simpl; try done.
        -- now rewrite list_lookup_insert_ne.
        -- destruct bufr as [br|]; [|done].
           rewrite list_lookup_insert_ne; [done|]. intros ->. now apply (Hsep br).
      * simpl. rewrite take_nil, drop_nil, drop_0. reflexivity.
    + assert (l = []) as -> by (destruct l; simpl in *; [done|lia]).
      assert (rest = []) as -> by (destruct rest; simpl in *; [done|lia]).
      eexists. split; [|split; [|split]].
      * rewrite (bind_Ok _ _ _ _ _ (destroy_n_nil _ _)).
        eapply set_size__Ok. exact Hobj.
      * split; simpl; try done. now rewrite list_lookup_insert_eq.
      * split; simpl; try done. now rewrite list_lookup_insert_ne.
      * simpl. now rewrite app_nil_r.
  - (* both vectors have a block *)
    assert (Hlr' : (0 < length lr)%nat) by (destruct lr; simpl; [done|lia]).
    destruct buf as [bs|]; [|lia].
    destruct bufr as [br|]; [|lia].
    assert (Hbs : (bs < length h)%nat) by now apply lookup_lt_length in Hblock.
    assert (Hsep' : bs <> br) by (intros ->; now apply (Hsep br)).
    set (m := Nat.min (length l) (length lr)).
    assert (Hloop :
      copy_assignment_loop (mkRawMemory (Some bs) cap) (mkRawMemory (Some br) capr)
        (Z.of_nat (length l)) (Z.of_nat (length lr)) 0 (Z.to_nat (Z.of_nat (length l)))
        (mkworld o h t)
      = Ok (0 + Z.of_nat (length (take m lr)))
          (mkworld o
             (<[bs := Some ([] ++ (Live <$> take m lr) ++ ((Live <$> drop m l) ++ rest))]> h)
             (t ++ events_from EvCopyAssign (mkptr (Some bs) 0) 0 (take m lr)))).
    { eapply (copy_assignment_loop_Ok (take m lr) _ _ _ bs br cap capr _ _ 0 _
                [] (take m l) _ [] ((Live <$> drop m lr) ++ restr));
        try done.
      - simpl. rewrite Hblock. rewrite app_assoc, <- fmap_app, take_drop. reflexivity.
      - simpl. rewrite Hblockr. rewrite app_assoc, <- fmap_app, take_drop. reflexivity.
      - rewrite !length_take. lia.
      - rewrite length_take. lia.
      - lia.
      - lia.
      - lia.
      - rewrite length_take. lia.
      - eapply Forall_impl; [|apply Forall_take; exact Hthrow]. intros a Ha. apply Ha. }
    rewrite (bind_Ok _ _ _ _ _ Hloop). clear Hloop.
    rewrite length_take. fold m. simpl app.
    destruct (Z.ltb_spec (0 + Z.of_nat (Nat.min m (length lr))) (Z.of_nat (length lr)))
      as [Hlt|Hge].
    + (* the source is longer: the rest is copy-constructed *)
      assert (Hm : m = length l) by lia.
      assert (Hdropl : drop m l = []) by (apply drop_ge; lia).
      rewrite Hdropl. simpl app.
      replace (Nat.min m (length lr)) with (length l) by lia.
      replace (length l - length lr)%nat with 0%nat by lia. simpl replicate.
      rewrite (drop_ge l (length lr)) by lia. simpl app.
      rewrite Hm. rewrite !Z.add_0_l.
      eexists. split; [|split; [|split]].
      * erewrite bind_Ok; cycle 1.
        { eapply (uninitialized_copy_n_Ok _ _ _ br bs (Live <$> take (length l) lr)
                    (drop (length l) lr) restr
                    (Live <$> take (length l) lr)
                    (take (length lr - length l) rest)
                    (drop (length lr - length l) rest)); try done.
          - rewrite list_lookup_insert_ne by done. rewrite Hblockr.
            rewrite app_assoc, <- fmap_app, take_drop. reflexivity.
          - rewrite list_lookup_insert_eq by done. now rewrite take_drop.
          - rewrite length_fmap, length_take. lia.
          - rewrite length_fmap, length_take. lia.
          - rewrite wrap_small by lia. rewrite length_drop. lia.
          - rewrite length_take, length_drop. lia.
          - eapply Forall_impl; [|apply Forall_drop; exact Hthrow].
            intros a Ha. apply Ha. }
        eapply set_size__Ok. exact Hobj.
      * split; simpl; try done.
        -- now rewrite list_lookup_insert_eq.
        -- rewrite length_drop. lia.
        -- rewrite list_insert_insert_eq, list_lookup_insert_eq by done.
           rewrite app_assoc, <- fmap_app, take_drop. reflexivity.
      * split; simpl; try done.
        -- now rewrite list_lookup_insert_ne.
        -- rewrite !list_lookup_insert_ne by done. exact Hblockr.
      * simpl. rewrite <- app_assoc. now rewrite app_nil_r.
    + (* the source is not longer: the excess is destroyed *)
      assert (Hm : m = length lr) by lia.
      rewrite Hm. rewrite (take_ge lr (length lr)) by lia.
      rewrite (take_ge lr (length l)) by lia.
      rewrite (drop_ge lr (length l)) by lia.
      replace (Nat.min (length lr) (length lr)) with (length lr) by lia.
      replace (length lr - length l)%nat with 0%nat by lia. simpl drop.
      rewrite !Z.add_0_l.
      eexists. split; [|split; [|split]].
      * erewrite bind_Ok; cycle 1.
        { eapply (destroy_n_Ok _ _ _ bs (Live <$> lr) (drop (length lr) l) rest);
            try done.
          - now rewrite list_lookup_insert_eq.
          - now rewrite length_fmap.
          - rewrite wrap_small by lia. rewrite length_drop. lia. }
        eapply set_size__Ok. exact Hobj.
      * split; simpl; try done.
        -- now rewrite list_lookup_insert_eq.
        -- rewrite length_app, length_replicate, drop_0. lia.
        -- rewrite list_insert_insert_eq, list_lookup_insert_eq by done.
           rewrite length_drop, drop_0. reflexivity.
      * split; simpl; try done.
        -- now rewrite list_lookup_insert_ne.
        -- rewrite !list_lookup_insert_ne by done. exact Hblockr.
      * simpl. now rewrite <- app_assoc.
Qed.

(** C6: the copy assignment [a = b] of two different vectors, when [b] has
    no more elements than [a] has cells and nothing throws, reuses the block
    of [a]: the elements that both have are copy-assigned one by one, the
    further elements of [b] are copy-constructed in place, the further
    elements of [a] are destroyed, and no other event happens; the size of
    [a] becomes that of [b], its capacity and its block stay.  The
    assignment of a vector to itself does nothing. *)
Theorem copy_assignment_reuses_storage w this rhs buf cap l rest bufr capr lr restr :
  repr w this buf cap l rest -> repr w rhs bufr capr lr restr ->
  this <> rhs -> (forall b, buf = Some b -> bufr <> Some b) ->
  Z.of_nat (length lr) <= cap ->
  Forall nothrow lr ->
  exists w',
    copy_assignment this rhs w = Ok tt w'
    /\ trace w' = trace w
         ++ events_from EvCopyAssign (mkptr buf 0) 0 (take (length l) lr)
         ++ events_from EvCopyConstruct (mkptr buf (Z.of_nat (length l))) 0
              (drop (length l) lr)
         ++ events_from EvDestroy (mkptr buf (Z.of_nat (length lr))) 0
              (drop (length lr) l)
    /\ Size this w' = Ok (Z.of_nat (length lr)) w'
    /\ Capacity this w' = Ok cap w'
    /\ begin_ this w' = Ok (mkptr buf 0) w'
    /\ (forall (j : nat) y, lr !! j = Some y -> element_is w' this j y)
    /\ copy_assignment this this w = Ok tt w.
Proof.
  intros Hrepr Hreprr Hne Hsep Hfit Hthrow.
  destruct (copy_assignment_in_place _ _ _ _ _ _ _ _ _ _ _
              Hrepr Hreprr Hne Hsep Hfit Hthrow)
    as (w' & Hrun & Hrepr' & _ & Htrace).
  exists w'. split; [exact Hrun|]. split; [exact Htrace|].
  split; [apply (Size_repr _ _ _ _ _ _ Hrepr')|].
  split; [apply (Capacity_repr _ _ _ _ _ _ Hrepr')|].
  split; [apply (begin_repr _ _ _ _ _ _ Hrepr')|].
  split.
  - intros j y Hy. apply (element_is_repr _ _ _ _ _ _ _ _ Hrepr' Hy).
  - unfold copy_assignment. now rewrite Nat.eqb_refl.
Qed.

End CopyAssignment.

(** * Construction, destruction and exchange of vectors *)

Section Lifetime.
Context {E : Element} {B : Build} {F : FreeStore}.

Implicit Types (o : list (option Vector)) (h : list (option (list slot)))
  (t : list event) (cs cd rest : list slot) (b : nat) (k i cap : Z) (v x : T)
  (vs l : list T) (buf : option nat).

Lemma end_obj_Ok o h t this u :
  o !! this = Some (Some u) ->
  end_obj this (mkworld o h t) = Ok tt (mkworld (<[this := None]> o) h t).
Proof. intros H. unfold end_obj. simpl. now rewrite H. Qed.

Lemma Swap_data__Ok o h t a c ua uc :
  o !! a = Some (Some ua) -> o !! c = Some (Some uc) -> a <> c ->
  Swap_data_ a c (mkworld o h t)
  = Ok tt (mkworld
      (<[c := Some (mkVector (data_ ua) (size_ uc))]>
         (<[a := Some (mkVector (data_ uc) (size_ ua))]> o)) h t).
Proof.
  intros Ha Hc Hne.
  unfold Swap_data_, get_data_, set_data_, bind, ret, get_obj, put_obj.
  repeat (simpl; first [rewrite Ha|rewrite Hc|rewrite list_lookup_insert_ne by done]).
  reflexivity.
Qed.

Lemma get_size__Ok o h t this u :
  o !! this = Some (Some u) ->
  get_size_ this (mkworld o h t) = Ok (size_ u) (mkworld o h t).
Proof.
  intros H. unfold get_size_. now rewrite (bind_Ok _ _ _ _ _ (get_obj_Ok _ _ _ _ _ H)).
Qed.

Lemma repr_lt w this buf cap l rest :
  repr w this buf cap l rest -> (this < length (objs w))%nat.
Proof. intros [H _ _ _]. now apply lookup_lt_length in H. Qed.

Lemma repr_Some_lt w this b cap l rest :
  repr w this (Some b) cap l rest -> (b < length (heap w))%nat.
Proof. intros [_ _ _ H]. now apply lookup_lt_length in H. Qed.

(** A vector is represented as before where its object and its block are
    as before. *)
Lemma repr_frame w w' this buf cap l rest :
  repr w this buf cap l rest ->
  objs w' !! this = objs w !! this ->
  (forall b, buf = Some b -> heap w' !! b = heap w !! b) ->
  repr w' this buf cap l rest.
Proof.
  intros [Hobj Hcap Hmax Hblock] Ho Hh. split; try done.
  - now rewrite Ho.
  - destruct buf as [b|]; [|done]. now rewrite (Hh b eq_refl).
Qed.

(** ** The destructor *)

Lemma Vector_delete_spec w this buf cap l rest :
  repr w this buf cap l rest ->
  Vector_delete this w
  = Ok tt (mkworld (<[this := None]> (objs w))
      (match buf with Some b => <[b := None]> (heap w) | None => heap w end)
      (trace w ++ events_from EvDestroy (mkptr buf 0) 0 l
         ++ match buf with Some b => [EvDeallocate b] | None => [] end)).
Proof.
  intros Hrepr. pose proof Hrepr as [Hobj Hcap Hmax Hblock].
  destruct w as [o h t]. simpl in *.
  unfold Vector_delete.
  rewrite (bind_Ok _ _ _ _ _ (get_obj_Ok _ _ _ _ _ Hobj)).
  unfold GetAddress, RawMemory_delete. cbn [size_ data_ buffer_].
  destruct buf as [b|].
  - assert (Hb : (b < length h)%nat) by now apply lookup_lt_length in Hblock.
    erewrite bind_Ok; cycle 1.
    { apply (destroy_n_Ok _ _ _ b [] l rest); [exact Hblock|done|done]. }
    erewrite bind_Ok; cycle 1.
    { eapply Deallocate_Ok. now apply list_lookup_insert_eq. }
    rewrite list_insert_insert_eq.
    rewrite (end_obj_Ok _ _ _ _ _ Hobj). now rewrite <- app_assoc.
  - destruct (repr_None _ _ _ _ _ Hrepr) as [-> ->].
    rewrite (bind_Ok _ _ _ _ _ (destroy_n_nil _ _)).
    unfold Deallocate, operator_delete, bind.
    rewrite (end_obj_Ok _ _ _ _ _ Hobj). simpl. now rewrite app_nil_r.
Qed.

(** ** The move constructor *)

Lemma Vector_move_spec w other buf cap l rest :
  repr w other buf cap l rest ->
  exists w',
    Vector_move other w = Ok (length (objs w)) w'
    /\ repr w' (length (objs w)) buf cap l rest
    /\ repr w' other None 0 [] []
    /\ heap w' = heap w /\ trace w' = trace w.
Proof.
  intros [Hobj Hcap Hmax Hblock]. destruct w as [o h t]. simpl in *.
  assert (Hlt : (other < length o)%nat) by now apply lookup_lt_length in Hobj.
  unfold Vector_move, RawMemory_move.
  rewrite (bind_Ok _ _ _ _ _ (get_obj_Ok _ _ _ _ _ Hobj)).
  rewrite (bind_Ok _ _ _ _ _ (put_obj_Ok _ _ _ _ _ _ Hobj)).
  unfold new_obj. cbn [objs heap trace set_objs data_ size_ buffer_ capacity_].
  rewrite length_insert.
  eexists. split; [reflexivity|]. split; [|split; [|done]].
  - split; simpl; try done.
    rewrite lookup_app_r by (rewrite length_insert; lia).
    now rewrite length_insert, Nat.sub_diag.
  - split; simpl; try done.
    rewrite lookup_app_l by (rewrite length_insert; lia).
    now apply list_lookup_insert_eq.
Qed.

(** ** [Swap] and the move assignment *)

Lemma Swap_spec w a c bufa capa la resta bufc capc lc restc :
  repr w a bufa capa la resta -> repr w c bufc capc lc restc -> a <> c ->
  Swap a c w
  = Ok tt (mkworld
      (<[c := Some (mkVector (mkRawMemory bufa capa) (Z.of_nat (length la)))]>
         (<[a := Some (mkVector (mkRawMemory bufc capc) (Z.of_nat (length lc)))]>
            (objs w)))
      (heap w) (trace w)).
Proof.
  intros [Ha _ _ _] [Hc _ _ _] Hne. destruct w as [o h t]. simpl in *.
  assert (Hlta : (a < length o)%nat) by now apply lookup_lt_length in Ha.
  assert (Hltc : (c < length o)%nat) by now apply lookup_lt_length in Hc.
  unfold Swap.
  rewrite (bind_Ok _ _ _ _ _ (Swap_data__Ok _ _ _ _ _ _ _ Ha Hc Hne)).
  cbn [data_ size_].
  erewrite bind_Ok; cycle 1.
  { apply get_size__Ok. rewrite list_lookup_insert_ne by done.
    now apply list_lookup_insert_eq. }
  erewrite bind_Ok; cycle 1.
  { apply get_size__Ok. apply list_lookup_insert_eq. now rewrite length_insert. }
  cbn [size_].
  erewrite bind_Ok; cycle 1.
  { apply set_size__Ok. rewrite list_lookup_insert_ne by done.
    now apply list_lookup_insert_eq. }
  erewrite set_size__Ok; cycle 1.
  { rewrite list_lookup_insert_ne by done.
    apply list_lookup_insert_eq. now rewrite length_insert. }
  cbn [data_]. do 2 f_equal.
  rewrite (list_insert_insert_ne (<[c := _]> _) c a) by done.
  rewrite list_insert_insert_eq.
  rewrite (list_insert_insert_ne (<[a := _]> _) a c) by done.
  rewrite list_insert_insert_eq.
  now rewrite (list_insert_insert_ne _ c a) by done.
Qed.

Lemma move_assignment_spec w a c bufa capa la resta bufc capc lc restc :
  repr w a bufa capa la resta -> repr w c bufc capc lc restc -> a <> c ->
  move_assignment a c w
  = Ok tt (mkworld
      (<[a := Some (mkVector (mkRawMemory bufc capc) (Z.of_nat (length lc)))]>
         (<[c := Some (mkVector (mkRawMemory bufa capa) 0)]> (objs w)))
      (heap w) (trace w)).
Proof.
  intros [Ha _ _ _] [Hc _ _ _] Hne. destruct w as [o h t]. simpl in *.
  assert (Hlta : (a < length o)%nat) by now apply lookup_lt_length in Ha.
  assert (Hltc : (c < length o)%nat) by now apply lookup_lt_length in Hc.
  unfold move_assignment.
  destruct (Nat.eqb_spec a c) as [|_]; [done|]. cbn [negb].
  rewrite (bind_Ok _ _ _ _ _ (Swap_data__Ok _ _ _ _ _ _ _ Ha Hc Hne)).
  cbn [data_ size_].
  erewrite bind_Ok; cycle 1.
  { apply get_size__Ok. apply list_lookup_insert_eq. now rewrite length_insert. }
  cbn [size_].
  erewrite bind_Ok; cycle 1.
  { apply set_size__Ok. apply list_lookup_insert_eq. now rewrite length_insert. }
  erewrite set_size__Ok; cycle 1.
  { rewrite list_lookup_insert_ne by done.
    rewrite list_lookup_insert_ne by done.
    now apply list_lookup_insert_eq. }
  cbn [data_]. do 2 f_equal.
  rewrite list_insert_insert_eq.
  rewrite (list_insert_insert_ne o c a) by done.
  now rewrite list_insert_insert_eq.
Qed.

(** ** [PopBack] *)

Lemma PopBack_spec w this buf cap l x rest :
  repr w this buf cap (l ++ [x]) rest ->
  exists w',
    PopBack this w = Ok tt w'
    /\ repr w' this buf cap l (Raw :: rest)
    /\ trace w' = trace w ++ [EvDestroy (mkptr buf (Z.of_nat (length l))) x]
    /\ forall that, that <> this -> objs w' !! that = objs w !! that.
Proof.
  intros Hrepr. pose proof Hrepr as [Hobj Hcap Hmax Hblock].
  destruct buf as [b|]; [|apply repr_None in Hrepr as [H _]; now destruct l].
  destruct w as [o h t]. simpl in *.
  assert (Hthis : (this < length o)%nat) by now apply lookup_lt_length in Hobj.
  assert (Hb : (b < length h)%nat) by now apply lookup_lt_length in Hblock.
  rewrite length_app in Hobj, Hcap. simpl in Hobj, Hcap.
  unfold PopBack.
  rewrite (bind_Ok _ _ _ _ _ (get_obj_Ok _ _ _ _ _ Hobj)). cbn [size_ data_].
  erewrite bind_Ok; cycle 1.
  { apply assert__Ok. apply Z.gtb_lt. lia. }
  erewrite bind_Ok; cycle 1.
  { apply RawMemory_plus_Ok. simpl. lia. }
  unfold ptr_add. cbn [base off buffer_].
  replace (Z.of_nat (length l + 1) + -1) with (Z.of_nat (length l)) by lia.
  rewrite fmap_app, <- app_assoc in Hblock. simpl in Hblock.
  erewrite bind_Ok; cycle 1.
  { eapply destroy_at_Ok; [exact Hblock|lia|].
    apply lookup_middle. rewrite length_fmap. lia. }
  erewrite set_size__Ok by exact Hobj. cbn [data_].
  eexists. split; [reflexivity|]. split; [|split; [done|]].
  - split; simpl.
    + rewrite list_lookup_insert_eq by done. do 3 f_equal.
      rewrite wrap_small; lia.
    + lia.
    + lia.
    + rewrite list_lookup_insert_eq by done. do 2 f_equal.
      apply insert_middle. rewrite length_fmap. lia.
  - intros that Hthat. simpl. now rewrite list_lookup_insert_ne.
Qed.

Lemma PopBack_empty_eq w this u :
  objs w !! this = Some (Some u) -> size_ u = 0 ->
  PopBack this w = if NDEBUG then Undefined else AssertFail.
Proof.
  intros Hu Hs. unfold PopBack, bind, get_obj. rewrite Hu, Hs.
  unfold assert_, RawMemory_plus, bind, assert_, ret. simpl.
  destruct NDEBUG; [|reflexivity].
  unfold destroy_at, read, bind, load, ptr_add. cbn [base off].
  destruct (buffer_ (data_ u)) as [b|]; [|reflexivity].
  now destruct (block w b).
Qed.

(** ** The properties *)

(** X1: the destructor of a vector destroys its elements, the first one
    first, and nothing else: no destructor runs on a spare cell.  Then the
    block is released and the lifetime of the vector object ends. *)
Theorem destructor_destroys_the_elements w this buf cap l rest :
  repr w this buf cap l rest ->
  exists w',
    Vector_delete this w = Ok tt w'
    /\ trace w' = trace w ++ events_from EvDestroy (mkptr buf 0) 0 l
         ++ match buf with Some b => [EvDeallocate b] | None => [] end
    /\ objs w' !! this = Some None
    /\ (forall b, buf = Some b -> heap w' !! b = Some None)
    /\ (forall that, that <> this -> objs w' !! that = objs w !! that).
Proof.
  intros Hrepr. rewrite (Vector_delete_spec _ _ _ _ _ _ Hrepr).
  eexists. split; [reflexivity|]. cbn [objs heap trace].
  split; [done|]. split; [|split].
  - apply list_lookup_insert_eq. eapply repr_lt, Hrepr.
  - intros b ->. apply list_lookup_insert_eq. eapply repr_Some_lt, Hrepr.
  - intros that Hthat. now rewrite list_lookup_insert_ne.
Qed.

(** X2: the move constructor gives the new vector the block, the capacity
    and the elements of the source and leaves the source empty, without a
    block and with capacity 0; no element is constructed, moved or
    destroyed and no memory is allocated. *)
Theorem move_constructor_takes_the_block w other buf cap l rest :
  repr w other buf cap l rest ->
  exists new w',
    Vector_move other w = Ok new w'
    /\ new = length (objs w)
    /\ repr w' new buf cap l rest
    /\ repr w' other None 0 [] []
    /\ Size other w' = Ok 0 w' /\ Capacity other w' = Ok 0 w'
    /\ heap w' = heap w /\ trace w' = trace w.
Proof.
  intros Hrepr.
  destruct (Vector_move_spec _ _ _ _ _ _ Hrepr) as (w' & Hrun & Hnew & Hold & Hh & Ht).
  exists (length (objs w)), w'.
  split; [done|]. split; [done|]. split; [done|]. split; [done|].
  split; [apply (Size_repr _ _ _ _ _ _ Hold)|].
  split; [apply (Capacity_repr _ _ _ _ _ _ Hold)|]. done.
Qed.

(** X3: [Swap] exchanges the blocks, capacities and elements of two
    vectors; no element is touched and nothing is recorded.  Swapping
    twice, or swapping a vector with itself, changes nothing. *)
Theorem swap_exchanges_the_vectors w a c bufa capa la resta bufc capc lc restc :
  repr w a bufa capa la resta -> repr w c bufc capc lc restc -> a <> c ->
  exists w',
    Swap a c w = Ok tt w'
    /\ repr w' a bufc capc lc restc
    /\ repr w' c bufa capa la resta
    /\ heap w' = heap w /\ trace w' = trace w
    /\ (forall that, that <> a -> that <> c -> objs w' !! that = objs w !! that)
    /\ Swap a c w' = Ok tt w
    /\ Swap a a w = Ok tt w.
Proof.
  intros Ha Hc Hne.
  pose proof (repr_lt _ _ _ _ _ _ Ha) as Hlta.
  pose proof (repr_lt _ _ _ _ _ _ Hc) as Hltc.
  rewrite (Swap_spec _ _ _ _ _ _ _ _ _ _ _ Ha Hc Hne).
  set (w' := mkworld _ _ _).
  assert (Ha' : repr w' a bufc capc lc restc).
  { destruct Hc as [_ ? ? ?]. split; try done. subst w'. simpl.
    rewrite list_lookup_insert_ne by done. now apply list_lookup_insert_eq. }
  assert (Hc' : repr w' c bufa capa la resta).
  { destruct Ha as [_ ? ? ?]. split; try done. subst w'. simpl.
    apply list_lookup_insert_eq. now rewrite length_insert. }
  exists w'. split; [done|]. split; [done|]. split; [done|].
  split; [done|]. split; [done|]. split; [|split].
  - intros that H1 H2. subst w'. simpl. now rewrite !list_lookup_insert_ne.
  - rewrite (Swap_spec _ _ _ _ _ _ _ _ _ _ _ Ha' Hc' Hne).
    destruct Ha as [Hoa _ _ _], Hc as [Hoc _ _ _]. destruct w as [o h t].
    subst w'. simpl in *. do 2 f_equal.
    rewrite (list_insert_insert_ne (<[c := _]> _) c a) by done.
    rewrite list_insert_insert_eq.
    rewrite (list_insert_insert_ne (<[a := _]> _) a c) by done.
    rewrite list_insert_insert_eq.
    rewrite (list_insert_id o a) by done. now rewrite list_insert_id.
  - destruct Ha as [Hoa _ _ _]. destruct w as [o h t]. simpl in *.
    unfold Swap, Swap_data_, get_data_, set_data_, get_size_, set_size_,
      bind, ret, get_obj, put_obj.
    repeat (simpl; first [rewrite Hoa|rewrite list_lookup_insert_eq by
      (rewrite ?length_insert; done)]).
    rewrite !list_insert_insert_eq. now rewrite list_insert_id.
Qed.

(** X4: the move assignment [a = std::move(c)] of distinct vectors gives
    [a] the block and the elements of [c] and gives [c] the former block
    of [a] with size 0.  It destroys no element and releases no block:
    the former elements of [a] stay alive in cells that now are spare
    cells of [c], and the destructor of [c] releases that block without
    destroying them.  A self-assignment does nothing. *)
Theorem move_assignment_exchanges_the_blocks
    w a c bufa capa la resta bufc capc lc restc :
  repr w a bufa capa la resta -> repr w c bufc capc lc restc -> a <> c ->
  exists w',
    move_assignment a c w = Ok tt w'
    /\ repr w' a bufc capc lc restc
    /\ repr w' c bufa capa [] ((Live <$> la) ++ resta)
    /\ heap w' = heap w /\ trace w' = trace w
    /\ (exists w'',
          Vector_delete c w' = Ok tt w''
          /\ trace w'' = trace w
               ++ match bufa with Some b => [EvDeallocate b] | None => [] end)
    /\ move_assignment a a w = Ok tt w.
Proof.
  intros Ha Hc Hne.
  pose proof (repr_lt _ _ _ _ _ _ Ha) as Hlta.
  pose proof (repr_lt _ _ _ _ _ _ Hc) as Hltc.
  rewrite (move_assignment_spec _ _ _ _ _ _ _ _ _ _ _ Ha Hc Hne).
  set (w' := mkworld _ _ _).
  assert (Ha' : repr w' a bufc capc lc restc).
  { destruct Hc as [_ ? ? ?]. split; try done. subst w'. simpl.
    apply list_lookup_insert_eq. now rewrite length_insert. }
  assert (Hc' : repr w' c bufa capa [] ((Live <$> la) ++ resta)).
  { destruct Ha as [_ Hcap ? ?]. split; try done.
    - subst w'. simpl. rewrite list_lookup_insert_ne by done.
      now apply list_lookup_insert_eq.
    - rewrite length_app, length_fmap. simpl. lia. }
  exists w'. split; [done|]. split; [done|]. split; [done|].
  split; [done|]. split; [done|]. split.
  - rewrite (Vector_delete_spec _ _ _ _ _ _ Hc'). eexists. split; [reflexivity|].
    reflexivity.
  - unfold move_assignment. now rewrite Nat.eqb_refl.
Qed.

(** X5: [PopBack] on a vector that is not empty destroys the last element
    and no other; the other elements, the block and the capacity stay. *)
Theorem pop_back_removes_the_last w this buf cap l x rest :
  repr w this buf cap (l ++ [x]) rest ->
  exists w',
    PopBack this w = Ok tt w'
    /\ trace w' = trace w ++ [EvDestroy (mkptr buf (Z.of_nat (length l))) x]
    /\ Size this w' = Ok (Z.of_nat (length l)) w'
    /\ Capacity this w' = Ok cap w'
    /\ begin_ this w' = Ok (mkptr buf 0) w'
    /\ (forall (j : nat) y, l !! j = Some y -> element_is w' this j y).
Proof.
  intros Hrepr.
  destruct (PopBack_spec _ _ _ _ _ _ _ Hrepr) as (w' & Hrun & Hrepr' & Ht & _).
  exists w'. split; [done|]. split; [done|].
  split; [apply (Size_repr _ _ _ _ _ _ Hrepr')|].
  split; [apply (Capacity_repr _ _ _ _ _ _ Hrepr')|].
  split; [apply (begin_repr _ _ _ _ _ _ Hrepr')|].
  intros j y Hy. apply (element_is_repr _ _ _ _ _ _ _ _ Hrepr' Hy).
Qed.

End Lifetime.

(** * A copy constructor throws *)

Section Throwing.
Context {E : Element} {B : Build} {F : FreeStore}.

Implicit Types (o : list (option Vector)) (h : list (option (list slot)))
  (t : list event) (cs cd rest : list slot) (b : nat) (k i cap : Z) (v x : T)
  (vs l : list T) (buf : option nat).

Lemma uninitialized_copy_loop_app (first d_first : ptr) (n m : nat) : forall i w,
  uninitialized_copy_loop first d_first i (n + m) w
  = (uninitialized_copy_loop first d_first i n ;;
     uninitialized_copy_loop first d_first (i + Z.of_nat n) m) w.
Proof.
  induction n as [|n IH]; intros i w.
  - simpl. unfold bind, ret. now rewrite Z.add_0_r.
  - cbn [Nat.add uninitialized_copy_loop]. rewrite bind_assoc.
    apply bind_ext. intros _ w'. rewrite IH.
    now replace (i + 1 + Z.of_nat n) with (i + Z.of_nat (S n)) by lia.
Qed.

Lemma construct_at_copy_throws o h t (p : ptr) bs cs ks x :
  h !! bs = Some (Some cs) -> 0 <= ks -> cs !! Z.to_nat ks = Some (Live x) ->
  copy_throws x = true ->
  construct_at p (CopyOf (At (mkptr (Some bs) ks))) (mkworld o h t)
  = Throw (mkworld o h t).
Proof.
  intros Hbs Hks Hx Hthrow. unfold construct_at, read_ref.
  rewrite (bind_Ok _ _ _ _ _ (read_Ok _ _ _ _ _ _ _ Hbs Hks Hx)).
  now rewrite Hthrow.
Qed.

(** [std::uninitialized_copy_n] over cells that hold [vs], then [x], on
    which the copy constructor throws: the copies of [vs] are constructed
    and destroyed again, in this order. *)
Lemma uninitialized_copy_n_Throw o h t bs bd pre vs x post dpre dmid dpost fo dO n :
  bs <> bd ->
  h !! bs = Some (Some (pre ++ (Live <$> vs) ++ Live x :: post)) ->
  h !! bd = Some (Some (dpre ++ dmid ++ dpost)) ->
  fo = Z.of_nat (length pre) -> dO = Z.of_nat (length dpre) ->
  Z.of_nat (length vs) < n -> length dmid = length vs ->
  Forall (fun v => copy_throws v = false) vs -> copy_throws x = true ->
  uninitialized_copy_n (mkptr (Some bs) fo) n (mkptr (Some bd) dO) (mkworld o h t)
  = Throw (mkworld o
      (<[bd := Some (dpre ++ replicate (length vs) Raw ++ dpost)]> h)
      (t ++ events_from EvCopyConstruct (mkptr (Some bd) dO) 0 vs
         ++ events_from EvDestroy (mkptr (Some bd) dO) 0 vs)).
Proof.
  intros Hne Hbs Hbd -> -> Hn Hmid Hthrow Hx.
  assert (Hlt : (bd < length h)%nat) by now apply lookup_lt_length in Hbd.
  unfold uninitialized_copy_n.
  replace (Z.to_nat n) with (length vs + S (Z.to_nat n - length vs - 1))%nat by lia.
  rewrite uninitialized_copy_loop_app.
  erewrite bind_Ok; cycle 1.
  { pose proof (uninitialized_copy_n_Ok o h t bs bd pre vs (Live x :: post)
                  dpre dmid dpost _ _ _ Hne Hbs Hbd eq_refl eq_refl eq_refl
                  Hmid Hthrow) as H.
    unfold uninitialized_copy_n in H. rewrite Nat2Z.id in H. exact H. }
  cbn [uninitialized_copy_loop]. apply bind_Throw.
  eapply unwinding_Throw.
  - unfold ptr_add. cbn [base off].
    eapply construct_at_copy_throws; [| | |exact Hx].
    + rewrite list_lookup_insert_ne by done. exact Hbs.
    + lia.
    + rewrite app_assoc. apply lookup_middle.
      rewrite length_app, length_fmap. lia.
  - rewrite (destroy_n_Ok _ _ _ bd dpre vs dpost); try done.
    + rewrite list_insert_insert_eq. now rewrite <- app_assoc.
    + now apply list_lookup_insert_eq.
Qed.

End Throwing.

(** * [Reserve] and [Resize] *)

Section Reserve.
Context {E : Element} {B : Build} {F : FreeStore}.

Implicit Types (o : list (option Vector)) (h : list (option (list slot)))
  (t : list event) (cs cd rest : list slot) (b : nat) (k i cap : Z) (v x : T)
  (vs l : list T) (buf : option nat).

Lemma Reserve_eq this new_capacity w :
  Reserve this new_capacity w
  = (u <- get_obj this ;;
     if new_capacity <=? RawMemory_Capacity (data_ u) then ret tt
     else
       new_data <- RawMemory_new new_capacity ;;
       unwinding (RawMemory_delete new_data)
         (relocate (GetAddress (data_ u)) (size_ u) (GetAddress new_data) ;;
          destroy_n (GetAddress (data_ u)) (size_ u)) ;;
       new_data' <- Swap_local this new_data ;;
       RawMemory_delete new_data') w.
Proof. unfold Reserve, relocate. now destruct relocate_by_move. Qed.

Lemma Reserve_enough w this u n :
  objs w !! this = Some (Some u) -> n <= capacity_ (data_ u) ->
  Reserve this n w = Ok tt w.
Proof.
  intros Hu Hn. unfold Reserve, bind, get_obj. rewrite Hu.
  unfold RawMemory_Capacity. now destruct (Z.leb_spec n (capacity_ (data_ u))); [|lia].
Qed.

Lemma Reserve_spec w this buf cap l rest n :
  repr w this buf cap l rest -> cap < n < 2 ^ 64 -> Forall relocate_nothrow l ->
  allocates w n ->
  exists w',
    Reserve this n w = Ok tt w'
    /\ repr w' this (Some (length (heap w))) n l
         (replicate (Z.to_nat n - length l) Raw)
    /\ trace w' = trace w ++ [EvAllocate (length (heap w)) n]
         ++ events_from relocate_event (mkptr (Some (length (heap w))) 0) 0 l
         ++ events_from EvDestroy (mkptr buf 0) 0 (relocated_from l)
         ++ match buf with Some b => [EvDeallocate b] | None => [] end
    /\ (forall b, buf = Some b -> heap w' !! b = Some None)
    /\ (forall that, that <> this -> objs w' !! that = objs w !! that).
Proof.
  intros Hrepr Hn Hthrow Halloc. pose proof Hrepr as [Hobj Hcap Hmax Hblock].
  destruct w as [o h t]. simpl in *.
  assert (Hthis : (this < length o)%nat) by now apply lookup_lt_length in Hobj.
  rewrite Reserve_eq.
  rewrite (bind_Ok _ _ _ _ _ (get_obj_Ok _ _ _ _ _ Hobj)).
  unfold RawMemory_Capacity. cbn [size_ data_ capacity_].
  destruct (Z.leb_spec n cap) as [|_]; [lia|].
  assert (Hnz : 0 < n) by lia.
  rewrite (bind_Ok _ _ _ _ _ (RawMemory_new_Ok _ _ _ _ Hnz Halloc)).
  unfold GetAddress. cbn [buffer_].
  assert (Hnew : (h ++ [Some (replicate (Z.to_nat n) Raw)]) !! length h
                 = Some (Some ([] ++ replicate (length l) Raw
                                 ++ replicate (Z.to_nat n - length l) Raw))).
  { rewrite lookup_app_r by lia. rewrite Nat.sub_diag. simpl.
    rewrite <- replicate_add. do 3 f_equal. lia. }
  destruct buf as [b|].
  - assert (Hb : (b < length h)%nat) by now apply lookup_lt_length in Hblock.
    erewrite bind_Ok; cycle 1.
    { apply unwinding_Ok.
      erewrite bind_Ok; cycle 1.
      { apply (relocate_Ok _ _ _ b (length h) [] l rest []
                 (replicate (length l) Raw) (replicate (Z.to_nat n - length l) Raw));
          try done.
        - lia.
        - now rewrite lookup_app_l.
        - now rewrite length_replicate. }
      apply (destroy_n_Ok _ _ _ b [] (relocated_from l) rest); try done.
      - apply list_lookup_insert_eq. rewrite length_insert, length_app. lia.
      - now rewrite length_relocated_from. }
    rewrite (bind_Ok _ _ _ _ _ (Swap_local_Ok _ _ _ _ _ _ Hobj)).
    cbn [size_ data_]. unfold RawMemory_delete. cbn [buffer_].
    erewrite Deallocate_Ok; cycle 1.
    { apply list_lookup_insert_eq. rewrite !length_insert, length_app. lia. }
    eexists. split; [reflexivity|]. split; [|split; [|split]].
    + split; simpl.
      * now rewrite list_lookup_insert_eq.
      * rewrite length_replicate. lia.
      * lia.
      * rewrite !list_insert_insert_eq.
        rewrite list_lookup_insert_ne by lia.
        rewrite list_lookup_insert_eq by (rewrite length_app; simpl; lia).
        reflexivity.
    + simpl. now rewrite <- !app_assoc.
    + intros b0 [= <-]. simpl. apply list_lookup_insert_eq.
      rewrite !length_insert, length_app. lia.
    + intros that Hthat. simpl. now rewrite list_lookup_insert_ne.
  - destruct (repr_None _ _ _ _ _ Hrepr) as [-> ->].
    erewrite bind_Ok; cycle 1.
    { apply unwinding_Ok. simpl length.
      rewrite (bind_Ok _ _ _ _ _ (relocate_nil _ _ _)). apply destroy_n_nil. }
    rewrite (bind_Ok _ _ _ _ _ (Swap_local_Ok _ _ _ _ _ _ Hobj)).
    cbn [size_ data_]. unfold RawMemory_delete, Deallocate, operator_delete.
    cbn [buffer_].
    eexists. split; [reflexivity|]. split; [|split; [|split]].
    + split; simpl.
      * now rewrite list_lookup_insert_eq.
      * rewrite length_replicate. lia.
      * lia.
      * rewrite lookup_app_r by lia. rewrite Nat.sub_diag. simpl.
        do 3 f_equal. lia.
    + simpl. unfold relocated_from. now destruct relocate_by_move.
    + intros b0 [=].
    + intros that Hthat. simpl. now rewrite list_lookup_insert_ne.
Qed.

Lemma construct_at_fails (p : ptr) args w :
  fails args -> construct_at p args w = Throw w.
Proof.
  intros [v Hv|v Hv|]; unfold construct_at, read_ref, bind, ret;
    rewrite ?Hv; reflexivity.
Qed.

Lemma insert_new_block h (c c' : option (list slot)) :
  <[length h := c']> (h ++ [c]) = h ++ [c'].
Proof.
  rewrite insert_app_r_alt by lia. now rewrite Nat.sub_diag.
Qed.

(** A copy constructor throws while the elements are relocated to a new
    block: the copies made so far are destroyed, the new block is
    released, nothing else has changed. *)
Lemma Reserve_copy_throws w this buf cap l1 x l2 rest n :
  repr w this buf cap (l1 ++ x :: l2) rest -> cap < n < 2 ^ 64 ->
  allocates w n ->
  relocate_by_move = false ->
  Forall (fun v => copy_throws v = false) l1 -> copy_throws x = true ->
  Reserve this n w
  = Throw (mkworld (objs w) (heap w ++ [None])
      (trace w ++ [EvAllocate (length (heap w)) n]
         ++ events_from EvCopyConstruct (mkptr (Some (length (heap w))) 0) 0 l1
         ++ events_from EvDestroy (mkptr (Some (length (heap w))) 0) 0 l1
         ++ [EvDeallocate (length (heap w))])).
Proof.
  intros Hrepr Hn Halloc Hrel Hthrow Hx. pose proof Hrepr as [Hobj Hcap Hmax Hblock].
  destruct buf as [b|]; [|apply repr_None in Hrepr as [H _]; now destruct l1].
  destruct w as [o h t]. simpl in *.
  assert (Hb : (b < length h)%nat) by now apply lookup_lt_length in Hblock.
  rewrite length_app in Hcap. simpl in Hcap.
  rewrite Reserve_eq.
  rewrite (bind_Ok _ _ _ _ _ (get_obj_Ok _ _ _ _ _ Hobj)).
  unfold RawMemory_Capacity. cbn [size_ data_ capacity_].
  destruct (Z.leb_spec n cap) as [|_]; [lia|].
  assert (Hnz : 0 < n) by lia.
  rewrite (bind_Ok _ _ _ _ _ (RawMemory_new_Ok _ _ _ _ Hnz Halloc)).
  unfold GetAddress, relocate. rewrite Hrel. cbn [buffer_].
  apply bind_Throw. eapply unwinding_Throw.
  - apply bind_Throw.
    apply (uninitialized_copy_n_Throw _ _ _ b (length h) [] l1 x
             ((Live <$> l2) ++ rest) [] (replicate (length l1) Raw)
             (replicate (Z.to_nat n - length l1) Raw)); try done.
    + lia.
    + rewrite lookup_app_l by done. rewrite Hblock.
      now rewrite fmap_app, <- app_assoc.
    + rewrite lookup_app_r by lia. rewrite Nat.sub_diag. simpl.
      rewrite <- replicate_add. do 3 f_equal. lia.
    + rewrite length_app. simpl. lia.
    + now rewrite length_replicate.
  - unfold RawMemory_delete. cbn [buffer_].
    erewrite Deallocate_Ok; cycle 1.
    { apply list_lookup_insert_eq. rewrite length_app. simpl. lia. }
    rewrite list_insert_insert_eq, insert_new_block.
    now rewrite <- !app_assoc.
Qed.

(** ** The properties *)

(** The free store does not serve the request of [Reserve]. *)
Lemma Reserve_bad_alloc w this buf cap l rest n :
  repr w this buf cap l rest -> cap < n ->
  new_succeeds (length (heap w)) (wrap (n * Z.pos sizeof_T)) = false ->
  Reserve this n w = Throw w.
Proof.
  intros [Hobj Hcap _ _] Hgt Hnew. rewrite Reserve_eq.
  unfold bind at 1, get_obj. rewrite Hobj.
  unfold RawMemory_Capacity. cbn [data_ capacity_].
  destruct (Z.leb_spec n cap) as [|_]; [lia|].
  apply bind_Throw. apply RawMemory_new_Throw; [lia|done].
Qed.

(** X6: [Reserve(n)].  When [n] is at most the capacity it does nothing
    at all.  Otherwise it asks [operator new] for [n * sizeof(T)] bytes.
    When that throws [std::bad_alloc], the exception leaves [Reserve] and
    nothing has changed.  When the block for [n] elements is allocated
    and no relocation throws, the capacity becomes exactly [n]: the
    elements are relocated to the new block in order, the elements of the
    old block are destroyed and the old block is released; the size and
    the elements are kept. *)
Theorem reserve_keeps_the_elements w this buf cap l rest n :
  repr w this buf cap l rest -> n < 2 ^ 64 ->
  (n <= cap -> Reserve this n w = Ok tt w)
  /\ (cap < n ->
      new_succeeds (length (heap w)) (wrap (n * Z.pos sizeof_T)) = false ->
      Reserve this n w = Throw w)
  /\ (cap < n -> allocates w n -> Forall relocate_nothrow l ->
      exists w',
        Reserve this n w = Ok tt w'
        /\ Size this w' = Ok (Z.of_nat (length l)) w'
        /\ Capacity this w' = Ok n w'
        /\ (forall (j : nat) y, l !! j = Some y -> element_is w' this j y)
        /\ trace w' = trace w ++ [EvAllocate (length (heap w)) n]
             ++ events_from relocate_event (mkptr (Some (length (heap w))) 0) 0 l
             ++ events_from EvDestroy (mkptr buf 0) 0 (relocated_from l)
             ++ match buf with Some b => [EvDeallocate b] | None => [] end
        /\ begin_ this w' = Ok (mkptr (Some (length (heap w))) 0) w'
        /\ forall b, buf = Some b -> heap w' !! b = Some None).
Proof.
  intros Hrepr Hn. pose proof Hrepr as [Hobj Hcap _ _]. split; [|split].
  - intros Hle. now apply (Reserve_enough _ _ _ _ Hobj).
  - intros Hgt Hnew. now apply (Reserve_bad_alloc _ _ _ _ _ _ _ Hrepr).
  - intros Hgt Halloc Hthrow.
    destruct (Reserve_spec _ _ _ _ _ _ n Hrepr)
      as (w' & Hrun & Hrepr' & Ht & Hold & _); [lia|done|done|].
    exists w'. split; [done|].
    split; [apply (Size_repr _ _ _ _ _ _ Hrepr')|].
    split; [apply (Capacity_repr _ _ _ _ _ _ Hrepr')|].
    split; [|split; [done|split; [|done]]].
    + intros j y Hy. apply (element_is_repr _ _ _ _ _ _ _ _ Hrepr' Hy).
    + apply (begin_repr _ _ _ _ _ _ Hrepr').
Qed.

(** X7: the strong guarantee of [Reserve] when the elements are relocated
    by copy and [operator new] has returned the new block: if the copy
    constructor throws on an element, the copies made so far are
    destroyed, the new block is released, and the vector, its block and
    every other object and block are as before the call. *)
Theorem reserve_strong_guarantee w this buf cap l1 x l2 rest n :
  repr w this buf cap (l1 ++ x :: l2) rest -> cap < n < 2 ^ 64 ->
  allocates w n ->
  relocate_by_move = false ->
  Forall (fun v => copy_throws v = false) l1 -> copy_throws x = true ->
  exists w',
    Reserve this n w = Throw w'
    /\ objs w' = objs w
    /\ heap w' = heap w ++ [None]
    /\ repr w' this buf cap (l1 ++ x :: l2) rest
    /\ trace w' = trace w ++ [EvAllocate (length (heap w)) n]
         ++ events_from EvCopyConstruct (mkptr (Some (length (heap w))) 0) 0 l1
         ++ events_from EvDestroy (mkptr (Some (length (heap w))) 0) 0 l1
         ++ [EvDeallocate (length (heap w))].
Proof.
  intros Hrepr Hn Halloc Hrel Hthrow Hx.
  rewrite (Reserve_copy_throws _ _ _ _ _ _ _ _ _ Hrepr Hn Halloc Hrel Hthrow Hx).
  eexists. split; [reflexivity|]. cbn [objs heap trace].
  split; [done|]. split; [done|]. split; [|done].
  apply (repr_frame w); [done|done|].
  intros b ->. simpl. rewrite lookup_app_l; [done|]. eapply repr_Some_lt, Hrepr.
Qed.

End Reserve.

(** * An exception on the growth path of [PushBack] and [EmplaceBack] *)

Section GrowthThrows.
Context {E : Element} {B : Build} {F : FreeStore}.

Implicit Types (o : list (option Vector)) (h : list (option (list slot)))
  (t : list event) (cs cd rest : list slot) (b : nat) (k i cap : Z) (v x : T)
  (vs l : list T) (buf : option nat).

(** The constructor of the new element throws after the relocation. *)
Lemma EmplaceBack_construction_throws w this buf cap l args :
  repr w this buf cap l [] -> fails args ->
  Forall relocate_nothrow l -> Z.of_nat (length l) < 2 ^ 63 ->
  allocates w (grown_capacity (Z.of_nat (length l))) ->
  exists w',
    EmplaceBack this args w = Throw w'
    /\ objs w' = objs w
    /\ repr w' this buf cap (relocated_from l) []
    /\ heap w' !! length (heap w) = Some None
    /\ trace w' = trace w
         ++ [EvAllocate (length (heap w)) (grown_capacity (Z.of_nat (length l)))]
         ++ events_from relocate_event (mkptr (Some (length (heap w))) 0) 0 l
         ++ [EvDeallocate (length (heap w))].
Proof.
  intros Hrepr Hargs Hthrow Hsmall Halloc.
  pose proof Hrepr as [Hobj Hcap Hmax Hblock].
  destruct w as [o h t]. simpl in *. rewrite Nat.add_0_r in Hcap.
  rewrite app_nil_r in Hblock.
  unfold EmplaceBack.
  rewrite (bind_Ok _ _ _ _ _ (get_obj_Ok _ _ _ _ _ Hobj)).
  unfold RawMemory_Capacity. cbn [size_ data_ capacity_ buffer_].
  destruct (Z.eqb_spec (Z.of_nat (length l)) cap) as [_|]; [|lia].
  set (n := Z.of_nat (length l)) in *.
  assert (Hgrown : grown_capacity n = Z.max 1 (n * 2))
    by (apply grown_capacity_eq; lia).
  assert (Hnz : 0 < grown_capacity n) by lia.
  rewrite (bind_Ok _ _ _ _ _ (RawMemory_new_Ok _ _ _ _ Hnz Halloc)).
  unfold GetAddress. cbn [buffer_].
  assert (Hnew : (h ++ [Some (replicate (Z.to_nat (grown_capacity n)) Raw)])
                   !! length h
                 = Some (Some ([] ++ replicate (length l) Raw
                     ++ replicate (Z.to_nat (grown_capacity n) - length l) Raw))).
  { rewrite lookup_app_r by lia. rewrite Nat.sub_diag. simpl.
    rewrite <- replicate_add. do 3 f_equal. lia. }
  destruct buf as [b|].
  - assert (Hb : (b < length h)%nat) by now apply lookup_lt_length in Hblock.
    eexists. split.
    { apply bind_Throw. eapply unwinding_Throw.
      - erewrite bind_Ok; cycle 1.
        { apply (relocate_Ok _ _ _ b (length h) [] l [] []
                   (replicate (length l) Raw)
                   (replicate (Z.to_nat (grown_capacity n) - length l) Raw));
            try done.
          - lia.
          - rewrite lookup_app_l by done. now rewrite app_nil_r.
          - now rewrite length_replicate. }
        apply bind_Throw. now apply construct_at_fails.
      - unfold RawMemory_delete. cbn [buffer_].
        eapply Deallocate_Ok.
        rewrite list_lookup_insert_ne by lia.
        apply list_lookup_insert_eq. rewrite length_app. simpl. lia. }
    split; [done|]. split; [|split].
    + split; simpl.
      * rewrite length_relocated_from. exact Hobj.
      * rewrite length_relocated_from. lia.
      * lia.
      * rewrite list_lookup_insert_ne by lia.
        rewrite list_lookup_insert_eq by (rewrite length_insert, length_app; lia).
        now rewrite !app_nil_r.
    + simpl. apply list_lookup_insert_eq.
      rewrite !length_insert, length_app. simpl. lia.
    + simpl. now rewrite <- !app_assoc.
  - destruct (repr_None _ _ _ _ _ Hrepr) as [-> _].
    eexists. split.
    { apply bind_Throw. eapply unwinding_Throw.
      - subst n. simpl length.
        rewrite (bind_Ok _ _ _ _ _ (relocate_nil _ _ _)).
        apply bind_Throw. now apply construct_at_fails.
      - unfold RawMemory_delete. cbn [buffer_].
        eapply Deallocate_Ok. rewrite lookup_app_r by lia.
        now rewrite Nat.sub_diag. }
    split; [done|]. split; [|split].
    + assert (relocated_from [] = []) as ->
        by (unfold relocated_from; now destruct relocate_by_move).
      split; simpl; try done; lia.
    + simpl. now rewrite insert_new_block, lookup_app_r, Nat.sub_diag by lia.
    + simpl. now rewrite <- !app_assoc.
Qed.

(** A copy constructor throws during the relocation. *)
Lemma EmplaceBack_relocation_throws w this buf cap l1 x l2 args :
  repr w this buf cap (l1 ++ x :: l2) [] ->
  relocate_by_move = false ->
  Forall (fun v => copy_throws v = false) l1 -> copy_throws x = true ->
  Z.of_nat (length (l1 ++ x :: l2)) < 2 ^ 63 ->
  allocates w (grown_capacity (Z.of_nat (length (l1 ++ x :: l2)))) ->
  EmplaceBack this args w
  = Throw (mkworld (objs w) (heap w ++ [None])
      (trace w
         ++ [EvAllocate (length (heap w))
               (grown_capacity (Z.of_nat (length (l1 ++ x :: l2))))]
         ++ events_from EvCopyConstruct (mkptr (Some (length (heap w))) 0) 0 l1
         ++ events_from EvDestroy (mkptr (Some (length (heap w))) 0) 0 l1
         ++ [EvDeallocate (length (heap w))])).
Proof.
  intros Hrepr Hrel Hthrow Hx Hsmall Halloc.
  pose proof Hrepr as [Hobj Hcap Hmax Hblock].
  destruct buf as [b|]; [|apply repr_None in Hrepr as [H _]; now destruct l1].
  destruct w as [o h t]. simpl in *. rewrite Nat.add_0_r in Hcap.
  rewrite app_nil_r in Hblock.
  assert (Hb : (b < length h)%nat) by now apply lookup_lt_length in Hblock.
  unfold EmplaceBack.
  rewrite (bind_Ok _ _ _ _ _ (get_obj_Ok _ _ _ _ _ Hobj)).
  unfold RawMemory_Capacity. cbn [size_ data_ capacity_ buffer_].
  destruct (Z.eqb_spec (Z.of_nat (length (l1 ++ x :: l2))) cap) as [_|]; [|lia].
  set (n := Z.of_nat (length (l1 ++ x :: l2))) in *.
  assert (Hlen : n = Z.of_nat (length l1 + S (length l2)))
    by (subst n; now rewrite length_app).
  assert (Hgrown : grown_capacity n = Z.max 1 (n * 2))
    by (apply grown_capacity_eq; lia).
  assert (Hnz : 0 < grown_capacity n) by lia.
  rewrite (bind_Ok _ _ _ _ _ (RawMemory_new_Ok _ _ _ _ Hnz Halloc)).
  unfold GetAddress, relocate. rewrite Hrel. cbn [buffer_].
  apply bind_Throw. eapply unwinding_Throw.
  - apply bind_Throw.
    apply (uninitialized_copy_n_Throw _ _ _ b (length h) [] l1 x
             (Live <$> l2) [] (replicate (length l1) Raw)
             (replicate (Z.to_nat (grown_capacity n) - length l1) Raw)); try done.
    + lia.
    + rewrite lookup_app_l by done. rewrite Hblock. now rewrite fmap_app.
    + rewrite lookup_app_r by lia. rewrite Nat.sub_diag. simpl.
      rewrite <- replicate_add. do 3 f_equal. lia.
    + lia.
    + now rewrite length_replicate.
  - unfold RawMemory_delete. cbn [buffer_].
    erewrite Deallocate_Ok; cycle 1.
    { apply list_lookup_insert_eq. rewrite length_app. simpl. lia. }
    rewrite list_insert_insert_eq, insert_new_block.
    now rewrite <- !app_assoc.
Qed.

(** ** The properties *)

(** X8: [PushBack] and [EmplaceBack] on a full vector whose elements are
    relocated by copy, once [operator new] has returned the new block: if
    the copy constructor throws on an element during the relocation, the
    copies made so far are destroyed, the new block is released, and the
    vector, its block and every other object and block are as before the
    call. *)
Theorem push_back_relocation_throws w this buf cap l1 x l2 args :
  repr w this buf cap (l1 ++ x :: l2) [] ->
  relocate_by_move = false ->
  Forall (fun v => copy_throws v = false) l1 -> copy_throws x = true ->
  Z.of_nat (length (l1 ++ x :: l2)) < 2 ^ 63 ->
  allocates w (grown_capacity (Z.of_nat (length (l1 ++ x :: l2)))) ->
  exists w',
    EmplaceBack this args w = Throw w'
    /\ (forall value, args = CopyOf value -> PushBack this value w = Throw w')
    /\ (forall value, args = MoveOf value -> PushBack_rv this value w = Throw w')
    /\ objs w' = objs w
    /\ heap w' = heap w ++ [None]
    /\ repr w' this buf cap (l1 ++ x :: l2) []
    /\ trace w' = trace w
         ++ [EvAllocate (length (heap w))
               (grown_capacity (Z.of_nat (length (l1 ++ x :: l2))))]
         ++ events_from EvCopyConstruct (mkptr (Some (length (heap w))) 0) 0 l1
         ++ events_from EvDestroy (mkptr (Some (length (heap w))) 0) 0 l1
         ++ [EvDeallocate (length (heap w))].
Proof.
  intros Hrepr Hrel Hthrow Hx Hsmall Halloc.
  pose proof (EmplaceBack_relocation_throws _ _ _ _ _ _ _ args
                Hrepr Hrel Hthrow Hx Hsmall Halloc) as Hrun.
  eexists. split; [exact Hrun|]. split; [|split].
  - intros value ->. rewrite PushBack_eq. now apply bind_Throw.
  - intros value ->. rewrite PushBack_rv_eq. now apply bind_Throw.
  - cbn [objs heap trace]. split; [done|]. split; [done|]. split; [|done].
    apply (repr_frame w); [done|done|].
    intros b ->. simpl. rewrite lookup_app_l; [done|]. eapply repr_Some_lt, Hrepr.
Qed.

(** X9: [PushBack] and [EmplaceBack] on a full vector when [operator new]
    returns the new block and the constructor of the new element throws: the
    exception leaves the call after the elements were relocated to the new
    block.  The size, the capacity and the block of the vector are as
    before, but its elements are what the relocation left of them
    (moved-from objects when it moves), and the objects constructed in the
    new block are not destroyed before that block is released: no destructor
    runs at all. *)
Theorem push_back_construction_throws w this buf cap l args :
  repr w this buf cap l [] -> fails args ->
  Forall relocate_nothrow l -> Z.of_nat (length l) < 2 ^ 63 ->
  allocates w (grown_capacity (Z.of_nat (length l))) ->
  exists w',
    EmplaceBack this args w = Throw w'
    /\ (forall value, args = CopyOf value -> PushBack this value w = Throw w')
    /\ (forall value, args = MoveOf value -> PushBack_rv this value w = Throw w')
    /\ Size this w' = Ok (Z.of_nat (length l)) w'
    /\ Capacity this w' = Ok cap w'
    /\ begin_ this w' = Ok (mkptr buf 0) w'
    /\ (forall (j : nat) y, relocated_from l !! j = Some y -> element_is w' this j y)
    /\ trace w' = trace w
         ++ [EvAllocate (length (heap w)) (grown_capacity (Z.of_nat (length l)))]
         ++ events_from relocate_event (mkptr (Some (length (heap w))) 0) 0 l
         ++ [EvDeallocate (length (heap w))].
Proof.
  intros Hrepr Hargs Hthrow Hsmall Halloc.
  destruct (EmplaceBack_construction_throws _ _ _ _ _ _ Hrepr Hargs Hthrow Hsmall
              Halloc)
    as (w' & Hrun & _ & Hrepr' & _ & Ht).
  exists w'. split; [exact Hrun|]. split; [|split].
  - intros value ->. rewrite PushBack_eq. now apply bind_Throw.
  - intros value ->. rewrite PushBack_rv_eq. now apply bind_Throw.
  - split.
    { rewrite (Size_repr _ _ _ _ _ _ Hrepr'). now rewrite length_relocated_from. }
    split; [apply (Capacity_repr _ _ _ _ _ _ Hrepr')|].
    split; [apply (begin_repr _ _ _ _ _ _ Hrepr')|]. split; [|done].
    intros j y Hy. apply (element_is_repr _ _ _ _ _ _ _ _ Hrepr' Hy).
Qed.

End GrowthThrows.

(** * The copy constructor and the copy assignment to a larger vector *)

Section CopyConstruction.
Context {E : Element} {B : Build} {F : FreeStore}.

Implicit Types (o : list (option Vector)) (h : list (option (list slot)))
  (t : list event) (cs cd rest : list slot) (b : nat) (k i cap : Z) (v x : T)
  (vs l : list T) (buf : option nat).

Lemma Vector_copy_spec w other b cap l rest :
  repr w other (Some b) cap l rest -> l <> [] ->
  Forall (fun v => copy_throws v = false) l ->
  allocates w (Z.of_nat (length l)) ->
  Vector_copy other w
  = Ok (length (objs w))
      (mkworld
         (objs w ++ [Some (mkVector (mkRawMemory (Some (length (heap w)))
                                        (Z.of_nat (length l)))
                             (Z.of_nat (length l)))])
         (heap w ++ [Some (Live <$> l)])
         (trace w ++ [EvAllocate (length (heap w)) (Z.of_nat (length l))]
            ++ events_from EvCopyConstruct (mkptr (Some (length (heap w))) 0) 0 l)).
Proof.
  intros [Hobj Hcap Hmax Hblock] Hne Hthrow Halloc. destruct w as [o h t].
  simpl in *.
  assert (Hb : (b < length h)%nat) by now apply lookup_lt_length in Hblock.
  assert (Hnz : 0 < Z.of_nat (length l)) by (destruct l; simpl; [done|lia]).
  unfold Vector_copy.
  rewrite (bind_Ok _ _ _ _ _ (get_obj_Ok _ _ _ _ _ Hobj)). cbn [size_ data_].
  rewrite (bind_Ok _ _ _ _ _ (RawMemory_new_Ok _ _ _ _ Hnz Halloc)).
  unfold GetAddress. cbn [buffer_].
  erewrite bind_Ok; cycle 1.
  { apply unwinding_Ok.
    apply (uninitialized_copy_n_Ok _ _ _ b (length h) [] l rest []
             (replicate (length l) Raw) []); try done.
    - lia.
    - now rewrite lookup_app_l.
    - rewrite lookup_app_r by lia. rewrite Nat.sub_diag. simpl.
      now rewrite Nat2Z.id, app_nil_r.
    - now rewrite length_replicate. }
  unfold new_obj. cbn [objs heap trace set_objs].
  rewrite insert_new_block. cbn [app]. rewrite app_nil_r.
  now rewrite <- app_assoc.
Qed.

Lemma Vector_copy_empty w other u :
  objs w !! other = Some (Some u) -> size_ u = 0 ->
  Vector_copy other w
  = Ok (length (objs w))
      (set_objs (objs w ++ [Some (mkVector (mkRawMemory None 0) 0)]) w).
Proof.
  intros Hu Hs. unfold Vector_copy, bind, get_obj. rewrite Hu, Hs. reflexivity.
Qed.

Lemma Vector_copy_throws w other buf cap l1 x l2 rest :
  repr w other buf cap (l1 ++ x :: l2) rest ->
  Forall (fun v => copy_throws v = false) l1 -> copy_throws x = true ->
  allocates w (Z.of_nat (length (l1 ++ x :: l2))) ->
  Vector_copy other w
  = Throw (mkworld (objs w) (heap w ++ [None])
      (trace w
         ++ [EvAllocate (length (heap w)) (Z.of_nat (length (l1 ++ x :: l2)))]
         ++ events_from EvCopyConstruct (mkptr (Some (length (heap w))) 0) 0 l1
         ++ events_from EvDestroy (mkptr (Some (length (heap w))) 0) 0 l1
         ++ [EvDeallocate (length (heap w))])).
Proof.
  intros Hrepr Hthrow Hx Halloc. pose proof Hrepr as [Hobj Hcap Hmax Hblock].
  destruct buf as [b|]; [|apply repr_None in Hrepr as [H _]; now destruct l1].
  destruct w as [o h t]. simpl in *.
  assert (Hb : (b < length h)%nat) by now apply lookup_lt_length in Hblock.
  set (n := Z.of_nat (length (l1 ++ x :: l2))) in *.
  assert (Hlen : n = Z.of_nat (length l1 + S (length l2)))
    by (subst n; now rewrite length_app).
  assert (Hnz : 0 < n) by lia.
  unfold Vector_copy.
  rewrite (bind_Ok _ _ _ _ _ (get_obj_Ok _ _ _ _ _ Hobj)). cbn [size_ data_].
  rewrite (bind_Ok _ _ _ _ _ (RawMemory_new_Ok _ _ _ _ Hnz Halloc)).
  unfold GetAddress. cbn [buffer_].
  apply bind_Throw. eapply unwinding_Throw.
  - apply (uninitialized_copy_n_Throw _ _ _ b (length h) [] l1 x
             ((Live <$> l2) ++ rest) [] (replicate (length l1) Raw)
             (replicate (Z.to_nat n - length l1) Raw)); try done.
    + lia.
    + rewrite lookup_app_l by done. rewrite Hblock.
      now rewrite fmap_app, <- app_assoc.
    + rewrite lookup_app_r by lia. rewrite Nat.sub_diag. simpl.
      rewrite <- replicate_add. do 3 f_equal. lia.
    + lia.
    + now rewrite length_replicate.
  - unfold RawMemory_delete. cbn [buffer_].
    erewrite Deallocate_Ok; cycle 1.
    { apply list_lookup_insert_eq. rewrite length_app. simpl. lia. }
    rewrite list_insert_insert_eq, insert_new_block.
    now rewrite <- !app_assoc.
Qed.

(** [*this = rhs] when [rhs] has more elements than [*this] has cells: a
    copy of [rhs] is constructed and exchanged with [*this]; the
    destructor of the copy then destroys the former elements. *)
Lemma copy_assignment_grows w this rhs buf cap l rest br capr lr restr :
  repr w this buf cap l rest -> repr w rhs (Some br) capr lr restr ->
  this <> rhs -> buf <> Some br -> cap < Z.of_nat (length lr) ->
  Forall (fun v => copy_throws v = false) lr ->
  allocates w (Z.of_nat (length lr)) ->
  exists w',
    copy_assignment this rhs w = Ok tt w'
    /\ repr w' this (Some (length (heap w))) (Z.of_nat (length lr)) lr []
    /\ repr w' rhs (Some br) capr lr restr
    /\ objs w' !! length (objs w) = Some None
    /\ (forall b, buf = Some b -> heap w' !! b = Some None)
    /\ trace w' = trace w
         ++ [EvAllocate (length (heap w)) (Z.of_nat (length lr))]
         ++ events_from EvCopyConstruct (mkptr (Some (length (heap w))) 0) 0 lr
         ++ events_from EvDestroy (mkptr buf 0) 0 l
         ++ match buf with Some b => [EvDeallocate b] | None => [] end.
Proof.
  intros Hrepr Hreprr Hne Hsep Hfit Hthrow Halloc.
  pose proof Hrepr as [Hobj Hcap Hmax Hblock].
  pose proof Hreprr as [Hobjr Hcapr Hmaxr Hblockr].
  assert (Hlr : lr <> []) by (intros ->; simpl in *; lia).
  pose proof (repr_lt _ _ _ _ _ _ Hrepr) as Hthis.
  pose proof (repr_lt _ _ _ _ _ _ Hreprr) as Hrhs.
  pose proof (repr_Some_lt _ _ _ _ _ _ Hreprr) as Hbr.
  unfold copy_assignment.
  destruct (Nat.eqb_spec this rhs) as [|_]; [done|]. cbn [negb].
  unfold bind at 1, get_obj at 1. rewrite Hobjr.
  unfold bind at 1, get_obj at 1. rewrite Hobj.
  unfold RawMemory_Capacity. cbn [size_ data_ capacity_].
  destruct (Z.gtb_spec (Z.of_nat (length lr)) cap) as [_|]; [|lia].
  rewrite (bind_Ok _ _ _ _ _ (Vector_copy_spec _ _ _ _ _ _ Hreprr Hlr Hthrow Halloc)).
  set (w1 := mkworld _ _ _).
  assert (Hrepr1 : repr w1 this buf cap l rest).
  { apply (repr_frame w); [done| |].
    - subst w1. simpl. now rewrite lookup_app_l.
    - intros b ->. subst w1. simpl. rewrite lookup_app_l; [done|].
      now apply repr_Some_lt in Hrepr. }
  assert (Hrepr1' : repr w1 (length (objs w)) (Some (length (heap w)))
                      (Z.of_nat (length lr)) lr []).
  { split; subst w1; simpl.
    - rewrite lookup_app_r by lia. now rewrite Nat.sub_diag.
    - lia.
    - lia.
    - rewrite lookup_app_r by lia. now rewrite Nat.sub_diag, app_nil_r. }
  assert (Hne1 : this <> length (objs w)) by lia.
  rewrite (bind_Ok _ _ _ _ _
             (Swap_spec _ _ _ _ _ _ _ _ _ _ _ Hrepr1 Hrepr1' Hne1)).
  set (w2 := mkworld _ _ _).
  assert (Hrepr2 : repr w2 (length (objs w)) buf cap l rest).
  { destruct Hrepr1 as [_ _ _ Hblock1]. split; subst w2; simpl; try done.
    apply list_lookup_insert_eq. rewrite length_insert. subst w1. simpl.
    rewrite length_app. simpl. lia. }
  rewrite (Vector_delete_spec _ _ _ _ _ _ Hrepr2).
  eexists. split; [reflexivity|]. subst w2 w1. cbn [objs heap trace].
  split; [|split; [|split; [|split]]].
  - split; simpl.
    + rewrite list_lookup_insert_ne by done.
      rewrite list_lookup_insert_ne by done.
      apply list_lookup_insert_eq. rewrite length_app. lia.
    + lia.
    + lia.
    + destruct buf as [b|].
      * apply repr_Some_lt in Hrepr.
        rewrite list_lookup_insert_ne by lia.
        rewrite lookup_app_r by lia. now rewrite Nat.sub_diag, app_nil_r.
      * rewrite lookup_app_r by lia. now rewrite Nat.sub_diag, app_nil_r.
  - split; simpl; try done.
    + rewrite list_lookup_insert_ne by lia.
      rewrite list_lookup_insert_ne by lia.
      rewrite list_lookup_insert_ne by done.
      now rewrite lookup_app_l.
    + destruct buf as [b|].
      * rewrite list_lookup_insert_ne by congruence. now rewrite lookup_app_l.
      * now rewrite lookup_app_l.
  - simpl. apply list_lookup_insert_eq.
    rewrite !length_insert, length_app. simpl. lia.
  - intros b ->. simpl. apply repr_Some_lt in Hrepr.
    apply list_lookup_insert_eq. rewrite length_app. lia.
  - simpl. now rewrite <- !app_assoc.
Qed.

(** ** The properties *)

(** X10: the copy constructor, when [operator new] returns the block it
    asks for, gives the new vector copies of the elements of the source,
    in order, in a new block of exactly as many cells as there are
    elements (no block at all for an empty source); the source is as
    before. *)
Theorem copy_constructor_copies_the_elements w other buf cap l rest :
  repr w other buf cap l rest ->
  Forall (fun v => copy_throws v = false) l ->
  (l <> [] -> allocates w (Z.of_nat (length l))) ->
  exists new w',
    Vector_copy other w = Ok new w'
    /\ new = length (objs w)
    /\ repr w' new (match l with [] => None | _ => Some (length (heap w)) end)
         (Z.of_nat (length l)) l []
    /\ repr w' other buf cap l rest
    /\ trace w' = trace w
         ++ match l with
            | [] => []
            | _ => EvAllocate (length (heap w)) (Z.of_nat (length l))
                   :: events_from EvCopyConstruct
                        (mkptr (Some (length (heap w))) 0) 0 l
            end.
Proof.
  intros Hrepr Hthrow Halloc. pose proof Hrepr as [Hobj Hcap Hmax Hblock].
  pose proof (repr_lt _ _ _ _ _ _ Hrepr) as Hlt.
  destruct l as [|v l'] eqn:Hl.
  - rewrite (Vector_copy_empty _ _ _ Hobj eq_refl).
    eexists _, _. split; [reflexivity|]. split; [done|]. split; [|split].
    + split; simpl; try done.
      rewrite lookup_app_r by lia. now rewrite Nat.sub_diag.
    + apply (repr_frame w); [done| |done].
      simpl. now rewrite lookup_app_l.
    + simpl. now rewrite app_nil_r.
  - rewrite <- Hl in *. assert (Hne : l <> []) by now rewrite Hl.
    destruct buf as [b|]; [|apply repr_None in Hrepr as [? _]; done].
    rewrite (Vector_copy_spec _ _ _ _ _ _ Hrepr Hne Hthrow (Halloc Hne)).
    eexists _, _. split; [reflexivity|]. split; [done|]. split; [|split].
    + split; simpl; try lia.
      * rewrite lookup_app_r by lia. now rewrite Nat.sub_diag.
      * rewrite lookup_app_r by lia. now rewrite Nat.sub_diag, app_nil_r.
    + apply (repr_frame w); [done| |].
      * simpl. now rewrite lookup_app_l.
      * intros b0 [= <-]. simpl. rewrite lookup_app_l; [done|].
        eapply repr_Some_lt, Hrepr.
    + reflexivity.
Qed.

(** X11: the strong guarantee of the copy constructor: if, after
    [operator new] returned the block, the copy constructor of the element
    throws, the copies made so far are destroyed, the new block is
    released, no vector object comes into being, and every object and
    block is as before. *)
Theorem copy_constructor_strong_guarantee w other buf cap l1 x l2 rest :
  repr w other buf cap (l1 ++ x :: l2) rest ->
  Forall (fun v => copy_throws v = false) l1 -> copy_throws x = true ->
  allocates w (Z.of_nat (length (l1 ++ x :: l2))) ->
  exists w',
    Vector_copy other w = Throw w'
    /\ objs w' = objs w
    /\ heap w' = heap w ++ [None]
    /\ repr w' other buf cap (l1 ++ x :: l2) rest
    /\ trace w' = trace w
         ++ [EvAllocate (length (heap w)) (Z.of_nat (length (l1 ++ x :: l2)))]
         ++ events_from EvCopyConstruct (mkptr (Some (length (heap w))) 0) 0 l1
         ++ events_from EvDestroy (mkptr (Some (length (heap w))) 0) 0 l1
         ++ [EvDeallocate (length (heap w))].
Proof.
  intros Hrepr Hthrow Hx Halloc.
  rewrite (Vector_copy_throws _ _ _ _ _ _ _ _ Hrepr Hthrow Hx Halloc).
  eexists. split; [reflexivity|]. cbn [objs heap trace].
  split; [done|]. split; [done|]. split; [|done].
  apply (repr_frame w); [done|done|].
  intros b ->. simpl. rewrite lookup_app_l; [done|]. eapply repr_Some_lt, Hrepr.
Qed.

(** X12: the copy assignment [a = c] when [c] has more elements than [a] has
    cells and [operator new] returns the new block: [a] gets copies of the
    elements of [c] in a new block of exactly as many cells; the former
    elements of [a] are destroyed, in order, after all copies were made, and
    the former block of [a] is released; [c] is as before. *)
Theorem copy_assignment_to_smaller_capacity
    w this rhs buf cap l rest br capr lr restr :
  repr w this buf cap l rest -> repr w rhs (Some br) capr lr restr ->
  this <> rhs -> buf <> Some br -> cap < Z.of_nat (length lr) ->
  Forall (fun v => copy_throws v = false) lr ->
  allocates w (Z.of_nat (length lr)) ->
  exists w',
    copy_assignment this rhs w = Ok tt w'
    /\ Size this w' = Ok (Z.of_nat (length lr)) w'
    /\ Capacity this w' = Ok (Z.of_nat (length lr)) w'
    /\ (forall (j : nat) y, lr !! j = Some y -> element_is w' this j y)
    /\ repr w' rhs (Some br) capr lr restr
    /\ (forall b, buf = Some b -> heap w' !! b = Some None)
    /\ trace w' = trace w
         ++ [EvAllocate (length (heap w)) (Z.of_nat (length lr))]
         ++ events_from EvCopyConstruct (mkptr (Some (length (heap w))) 0) 0 lr
         ++ events_from EvDestroy (mkptr buf 0) 0 l
         ++ match buf with Some b => [EvDeallocate b] | None => [] end.
Proof.
  intros Hrepr Hreprr Hne Hsep Hfit Hthrow Halloc.
  destruct (copy_assignment_grows _ _ _ _ _ _ _ _ _ _ _
              Hrepr Hreprr Hne Hsep Hfit Hthrow Halloc)
    as (w' & Hrun & Hrepr' & Hreprr' & _ & Hold & Ht).
  exists w'. split; [done|].
  split; [apply (Size_repr _ _ _ _ _ _ Hrepr')|].
  split; [apply (Capacity_repr _ _ _ _ _ _ Hrepr')|].
  split; [|done].
  intros j y Hy. apply (element_is_repr _ _ _ _ _ _ _ _ Hrepr' Hy).
Qed.

End CopyConstruction.

(** * Value-initialized elements: [Vector(size)] and [Resize] *)

Section ValueConstruction.
Context {E : Element} {B : Build} {F : FreeStore}.

Implicit Types (o : list (option Vector)) (h : list (option (list slot)))
  (t : list event) (cs cd rest : list slot) (b : nat) (k i cap : Z) (v x : T)
  (vs l : list T) (buf : option nat).

Lemma uninitialized_value_construct_loop_Ok (m : nat) : forall o h t b cs fo i v0,
  value_init = Some v0 -> h !! b = Some (Some cs) -> 0 <= fo -> 0 <= i ->
  fo + i + Z.of_nat m <= Z.of_nat (length cs) ->
  uninitialized_value_construct_loop (mkptr (Some b) fo) i m (mkworld o h t)
  = Ok tt (mkworld o
      (<[b := Some (list_inserts (Z.to_nat (fo + i)) (replicate m (Live v0)) cs)]> h)
      (t ++ events_from EvConstruct (mkptr (Some b) fo) i (replicate m v0))).
Proof.
  induction m as [|m IH]; intros o h t b cs fo i v0 Hv0 Hb Hfo Hi Hroom.
  - simpl. unfold ret. rewrite app_nil_r. now rewrite list_insert_id.
  - cbn [uninitialized_value_construct_loop replicate events_from list_inserts].
    unfold value_construct_at. rewrite Hv0.
    unfold ptr_add at 1. cbn [base off].
    assert (Hlt : (b < length h)%nat) by now apply lookup_lt_length in Hb.
    assert (Hk : 0 <= fo + i < Z.of_nat (length cs)) by lia.
    rewrite (bind_Ok _ _ _ _ _ (unwinding_Ok _ _ _ _ _
      (construct_at_builds _ _ _ _ _ _ _ _ _ (builds_other v0) Hb Hk))).
    rewrite (IH _ _ _ b (<[Z.to_nat (fo + i) := Live v0]> cs) fo (i + 1) v0);
      try lia; try done.
    + rewrite list_insert_insert_eq, <- app_assoc. simpl.
      replace (Z.to_nat (fo + (i + 1))) with (S (Z.to_nat (fo + i))) by lia.
      rewrite list_insert_inserts_lt by lia. reflexivity.
    + now apply list_lookup_insert_eq.
    + rewrite length_insert. lia.
Qed.

Lemma uninitialized_value_construct_n_Ok o h t b pre mid post fo n v0 :
  value_init = Some v0 -> h !! b = Some (Some (pre ++ mid ++ post)) ->
  fo = Z.of_nat (length pre) -> n = Z.of_nat (length mid) ->
  uninitialized_value_construct_n (mkptr (Some b) fo) n (mkworld o h t)
  = Ok tt (mkworld o
      (<[b := Some (pre ++ (Live <$> replicate (length mid) v0) ++ post)]> h)
      (t ++ events_from EvConstruct (mkptr (Some b) fo) 0
              (replicate (length mid) v0))).
Proof.
  intros Hv0 Hb -> ->. unfold uninitialized_value_construct_n. rewrite Nat2Z.id.
  rewrite (uninitialized_value_construct_loop_Ok _ _ _ _ _ _ _ _ _ Hv0 Hb);
    try lia.
  - rewrite Z.add_0_r, Nat2Z.id.
    rewrite inserts_middle; [|done|now rewrite length_replicate].
    now rewrite fmap_replicate.
  - rewrite !length_app. lia.
Qed.

Lemma uninitialized_value_construct_n_Throw (first : ptr) n w :
  value_init = None -> 0 < n ->
  uninitialized_value_construct_n first n w = Throw w.
Proof.
  intros Hv0 Hn. unfold uninitialized_value_construct_n.
  destruct (Z.to_nat n) as [|m] eqn:Hm; [lia|].
  cbn [uninitialized_value_construct_loop]. apply bind_Throw.
  eapply unwinding_Throw.
  - unfold value_construct_at. rewrite Hv0. reflexivity.
  - apply destroy_n_nil.
Qed.

(** ** [explicit Vector(size_t size)] *)

Lemma Vector_sized_spec w n v0 :
  value_init = Some v0 -> 0 < n -> allocates w n ->
  Vector_sized n w
  = Ok (length (objs w))
      (mkworld
         (objs w ++ [Some (mkVector (mkRawMemory (Some (length (heap w))) n) n)])
         (heap w ++ [Some (Live <$> replicate (Z.to_nat n) v0)])
         (trace w ++ [EvAllocate (length (heap w)) n]
            ++ events_from EvConstruct (mkptr (Some (length (heap w))) 0) 0
                 (replicate (Z.to_nat n) v0))).
Proof.
  intros Hv0 Hn Halloc. destruct w as [o h t]. simpl.
  assert (Hnz : 0 < n) by lia.
  unfold Vector_sized.
  rewrite (bind_Ok _ _ _ _ _ (RawMemory_new_Ok _ _ _ _ Hnz Halloc)).
  unfold GetAddress. cbn [buffer_].
  erewrite bind_Ok; cycle 1.
  { apply unwinding_Ok.
    apply (uninitialized_value_construct_n_Ok _ _ _ (length h) []
             (replicate (Z.to_nat n) Raw) [] 0 n v0 Hv0); try done.
    - rewrite lookup_app_r by lia. rewrite Nat.sub_diag. simpl.
      now rewrite app_nil_r.
    - rewrite length_replicate. lia. }
  unfold new_obj. cbn [objs heap trace set_objs].
  rewrite insert_new_block. cbn [app]. rewrite app_nil_r, length_replicate.
  now rewrite <- app_assoc.
Qed.

Lemma Vector_sized_zero w :
  Vector_sized 0 w
  = Ok (length (objs w))
      (set_objs (objs w ++ [Some (mkVector (mkRawMemory None 0) 0)]) w).
Proof. reflexivity. Qed.

Lemma Vector_sized_throws w n :
  value_init = None -> 0 < n -> allocates w n ->
  Vector_sized n w
  = Throw (mkworld (objs w) (heap w ++ [None])
      (trace w ++ [EvAllocate (length (heap w)) n; EvDeallocate (length (heap w))])).
Proof.
  intros Hv0 Hn Halloc. destruct w as [o h t]. simpl.
  assert (Hnz : 0 < n) by lia.
  unfold Vector_sized.
  rewrite (bind_Ok _ _ _ _ _ (RawMemory_new_Ok _ _ _ _ Hnz Halloc)).
  apply bind_Throw. eapply unwinding_Throw.
  - now apply uninitialized_value_construct_n_Throw.
  - unfold RawMemory_delete. cbn [buffer_].
    erewrite Deallocate_Ok; cycle 1.
    { rewrite lookup_app_r by lia. now rewrite Nat.sub_diag. }
    rewrite insert_new_block. now rewrite <- app_assoc.
Qed.

(** ** [Resize] *)

Lemma get_data__Ok o h t this u :
  o !! this = Some (Some u) ->
  get_data_ this (mkworld o h t) = Ok (data_ u) (mkworld o h t).
Proof.
  intros H. unfold get_data_. now rewrite (bind_Ok _ _ _ _ _ (get_obj_Ok _ _ _ _ _ H)).
Qed.

Lemma Resize_shrinks w this buf cap l1 l2 rest :
  repr w this buf cap (l1 ++ l2) rest -> l2 <> [] ->
  exists w',
    Resize this (Z.of_nat (length l1)) w = Ok tt w'
    /\ repr w' this buf cap l1 (replicate (length l2) Raw ++ rest)
    /\ trace w' = trace w
         ++ events_from EvDestroy (mkptr buf (Z.of_nat (length l1))) 0 l2.
Proof.
  intros Hrepr Hl2. pose proof Hrepr as [Hobj Hcap Hmax Hblock].
  destruct buf as [b|]; [|apply repr_None in Hrepr as [H _]; destruct l1, l2; done].
  destruct w as [o h t]. simpl in *.
  assert (Hthis : (this < length o)%nat) by now apply lookup_lt_length in Hobj.
  assert (Hb : (b < length h)%nat) by now apply lookup_lt_length in Hblock.
  assert (Hlen2 : (0 < length l2)%nat) by (destruct l2; simpl; [done|lia]).
  rewrite length_app in Hobj, Hcap.
  unfold Resize.
  rewrite (bind_Ok _ _ _ _ _ (get_size__Ok _ _ _ _ _ Hobj)). cbn [size_].
  destruct (Z.gtb_spec (Z.of_nat (length l1)) (Z.of_nat (length l1 + length l2)))
    as [|_]; [lia|].
  destruct (Z.ltb_spec (Z.of_nat (length l1)) (Z.of_nat (length l1 + length l2)))
    as [_|]; [|lia].
  erewrite bind_Ok; cycle 1.
  { rewrite (bind_Ok _ _ _ _ _ (get_data__Ok _ _ _ _ _ Hobj)).
    unfold GetAddress, ptr_add. cbn [data_ buffer_ base off].
    rewrite Z.add_0_l. rewrite fmap_app, <- app_assoc in Hblock.
    apply (destroy_n_Ok _ _ _ b (Live <$> l1) l2 rest); [exact Hblock| |].
    - now rewrite length_fmap.
    - rewrite wrap_small; lia. }
  erewrite set_size__Ok by exact Hobj. cbn [data_].
  eexists. split; [reflexivity|]. split; [|done].
  split; simpl.
  - now rewrite list_lookup_insert_eq.
  - rewrite length_app, length_replicate. lia.
  - lia.
  - now rewrite list_lookup_insert_eq.
Qed.

Lemma Resize_same w this buf cap l rest :
  repr w this buf cap l rest -> Resize this (Z.of_nat (length l)) w = Ok tt w.
Proof.
  intros [Hobj Hcap Hmax Hblock]. destruct w as [o h t]. simpl in *.
  unfold Resize.
  rewrite (bind_Ok _ _ _ _ _ (get_size__Ok _ _ _ _ _ Hobj)). cbn [size_].
  rewrite Z.gtb_ltb, !Z.ltb_irrefl.
  rewrite (bind_Ok _ _ _ _ _ (eq_refl : ret tt _ = Ok tt _)).
  erewrite set_size__Ok by exact Hobj. cbn [data_].
  now rewrite list_insert_id.
Qed.

Lemma Reserve_any w this buf cap l rest n :
  repr w this buf cap l rest -> n < 2 ^ 64 ->
  (cap < n -> Forall relocate_nothrow l /\ allocates w n) ->
  exists w' buf' rest',
    Reserve this n w = Ok tt w'
    /\ repr w' this buf' (Z.max cap n) l rest'
    /\ (n <= cap -> buf' = buf).
Proof.
  intros Hrepr Hn Hthrow. destruct (Z.le_gt_cases n cap) as [Hle|Hgt].
  - exists w, buf, rest. split; [|split; [|done]].
    + destruct Hrepr as [Hobj _ _ _]. now apply (Reserve_enough _ _ _ _ Hobj).
    + now rewrite Z.max_l.
  - destruct (Reserve_spec _ _ _ _ _ _ n Hrepr) as (w' & Hrun & Hrepr' & _);
      [lia|now apply Hthrow|now apply Hthrow|].
    eexists w', _, _. split; [exact Hrun|]. split; [|lia].
    rewrite Z.max_r by lia. exact Hrepr'.
Qed.

Lemma Resize_grows w this buf cap l rest n v0 :
  repr w this buf cap l rest -> Z.of_nat (length l) < n < 2 ^ 64 ->
  value_init = Some v0 ->
  (cap < n -> Forall relocate_nothrow l /\ allocates w n) ->
  exists w' buf' rest',
    Resize this n w = Ok tt w'
    /\ repr w' this buf' (Z.max cap n)
         (l ++ replicate (Z.to_nat n - length l) v0) rest'
    /\ (n <= cap -> buf' = buf).
Proof.
  intros Hrepr Hn Hv0 Hthrow. pose proof Hrepr as [Hobj _ _ _].
  destruct (Reserve_any _ _ _ _ _ _ n Hrepr) as (w1 & buf1 & rest1 & Hrun & Hrepr1 & Hbuf);
    [lia|done|].
  destruct Hrepr1 as [Hobj1 Hcap1 Hmax1 Hblock1].
  unfold Resize. destruct w as [o h t]. destruct w1 as [o1 h1 t1]. simpl in *.
  rewrite (bind_Ok _ _ _ _ _ (get_size__Ok _ _ _ _ _ Hobj)). cbn [size_].
  destruct (Z.gtb_spec n (Z.of_nat (length l))) as [_|]; [|lia].
  destruct buf1 as [b1|]; [|lia].
  assert (Hthis : (this < length o1)%nat) by now apply lookup_lt_length in Hobj1.
  assert (Hb : (b1 < length h1)%nat) by now apply lookup_lt_length in Hblock1.
  set (m := (Z.to_nat n - length l)%nat).
  assert (Hrest : rest1 = take m rest1 ++ drop m rest1)
    by now rewrite take_drop.
  assert (Hm : length (take m rest1) = m) by (rewrite length_take; lia).
  rewrite Hrest in Hblock1.
  erewrite bind_Ok; cycle 1.
  { rewrite (bind_Ok _ _ _ _ _ Hrun).
    rewrite (bind_Ok _ _ _ _ _ (get_data__Ok _ _ _ _ _ Hobj1)).
    unfold GetAddress, ptr_add. cbn [data_ buffer_ base off]. rewrite Z.add_0_l.
    apply (uninitialized_value_construct_n_Ok _ _ _ b1 (Live <$> l)
             (take m rest1) (drop m rest1) _ _ v0 Hv0 Hblock1).
    - now rewrite length_fmap.
    - rewrite wrap_small; lia. }
  erewrite set_size__Ok by exact Hobj1. cbn [data_].
  eexists _, (Some b1), (drop m rest1). split; [reflexivity|]. split; [|done].
  split; simpl.
  - rewrite list_lookup_insert_eq by done. rewrite length_app, length_replicate.
    do 3 f_equal. lia.
  - rewrite length_app, length_replicate, length_drop. lia.
  - lia.
  - rewrite list_lookup_insert_eq by done. rewrite Hm.
    now rewrite fmap_app, <- app_assoc.
Qed.

(** ** The properties *)

(** X13: [Vector(n)].  [Vector(0)] has no block and allocates nothing.
    Otherwise [operator new] is asked for [n * sizeof(T)] bytes: when it
    throws [std::bad_alloc], so does the constructor and nothing has
    changed.  When the block for [n] elements is allocated, the vector
    holds [n] value-initialized elements, constructed in order, in a block
    of exactly [n] cells; if the default constructor of the element
    throws, the block is released and no vector object comes into being. *)
Theorem sized_constructor_value_initializes w n :
  0 <= n < 2 ^ 64 ->
  (n = 0 ->
     Vector_sized n w
     = Ok (length (objs w))
         (set_objs (objs w ++ [Some (mkVector (mkRawMemory None 0) 0)]) w))
  /\ (0 < n ->
      new_succeeds (length (heap w)) (wrap (n * Z.pos sizeof_T)) = false ->
      Vector_sized n w = Throw w)
  /\ (forall v0, 0 < n -> allocates w n -> value_init = Some v0 ->
      exists new w',
        Vector_sized n w = Ok new w'
        /\ new = length (objs w)
        /\ repr w' new (Some (length (heap w))) n (replicate (Z.to_nat n) v0) []
        /\ trace w' = trace w
             ++ EvAllocate (length (heap w)) n
                :: events_from EvConstruct (mkptr (Some (length (heap w))) 0) 0
                     (replicate (Z.to_nat n) v0))
  /\ (0 < n -> allocates w n -> value_init = None ->
      Vector_sized n w
      = Throw (mkworld (objs w) (heap w ++ [None])
          (trace w ++ [EvAllocate (length (heap w)) n;
                       EvDeallocate (length (heap w))]))).
Proof.
  intros Hn. split; [|split; [|split]].
  - intros ->. apply Vector_sized_zero.
  - intros Hpos Hnew. unfold Vector_sized. apply bind_Throw.
    apply RawMemory_new_Throw; [lia|done].
  - intros v0 Hpos Halloc Hv0.
    rewrite (Vector_sized_spec _ _ _ Hv0) by done.
    eexists _, _. split; [reflexivity|]. split; [done|]. split; [|done].
    split; simpl.
    + rewrite lookup_app_r by lia. rewrite Nat.sub_diag. simpl.
      rewrite length_replicate. do 4 f_equal; lia.
    + rewrite length_replicate. lia.
    + lia.
    + rewrite lookup_app_r by lia. now rewrite Nat.sub_diag, app_nil_r.
  - intros Hpos Halloc Hv0. now apply Vector_sized_throws.
Qed.

(** X14: [Resize(n)], when no constructor throws, leaves the first [n]
    elements and appends value-initialized elements up to the size [n].
    When [n] is at most the size, the elements from [n] on are destroyed in
    order and nothing else happens.  When [n] is at most the capacity, the
    block stays.  Otherwise [Reserve(n)] asks [operator new] for
    [n * sizeof(T)] bytes: when it throws [std::bad_alloc], so does
    [Resize] and nothing has changed; when the block for [n] elements is
    allocated, the capacity becomes [n]. *)
Theorem resize_truncates_or_extends w this buf cap l rest n :
  repr w this buf cap l rest -> 0 <= n < 2 ^ 64 ->
  (cap < n ->
   new_succeeds (length (heap w)) (wrap (n * Z.pos sizeof_T)) = false ->
   Resize this n w = Throw w)
  /\ (forall v0,
      (Z.of_nat (length l) < n -> value_init = Some v0) ->
      (cap < n -> Forall relocate_nothrow l /\ allocates w n) ->
      exists w',
        Resize this n w = Ok tt w'
        /\ Size this w' = Ok n w'
        /\ Capacity this w' = Ok (Z.max cap n) w'
        /\ (forall (j : nat) y,
              (take (Z.to_nat n) l ++ replicate (Z.to_nat n - length l) v0) !! j
              = Some y -> element_is w' this j y)
        /\ (n <= cap -> begin_ this w' = Ok (mkptr buf 0) w')
        /\ (n <= Z.of_nat (length l) ->
            trace w' = trace w
              ++ events_from EvDestroy (mkptr buf n) 0 (drop (Z.to_nat n) l))).
Proof.
  intros Hrepr Hn. pose proof Hrepr as [Hobj Hcap _ _]. split.
  { intros Hgt Hnew.
    pose proof (Reserve_bad_alloc _ _ _ _ _ _ _ Hrepr Hgt Hnew) as Hrun.
    destruct w as [o h t]. simpl in Hobj. unfold Resize.
    rewrite (bind_Ok _ _ _ _ _ (get_size__Ok _ _ _ _ _ Hobj)). cbn [size_].
    destruct (Z.gtb_spec n (Z.of_nat (length l))) as [_|]; [|lia].
    apply bind_Throw. now apply bind_Throw. }
  intros v0 Hv0 Hthrow.
  assert (Hrepr_user : forall w' buf' l' rest',
            repr w' this buf' (Z.max cap n) l' rest' ->
            Z.of_nat (length l') = n ->
            l' = take (Z.to_nat n) l ++ replicate (Z.to_nat n - length l) v0 ->
            Size this w' = Ok n w'
            /\ Capacity this w' = Ok (Z.max cap n) w'
            /\ (forall (j : nat) y,
                  (take (Z.to_nat n) l ++ replicate (Z.to_nat n - length l) v0) !! j
                  = Some y -> element_is w' this j y)
            /\ (buf' = buf -> begin_ this w' = Ok (mkptr buf 0) w')).
  { intros w' buf' l' rest' Hrepr' Hlen Hl'.
    split; [rewrite <- Hlen; apply (Size_repr _ _ _ _ _ _ Hrepr')|].
    split; [apply (Capacity_repr _ _ _ _ _ _ Hrepr')|]. split.
    - rewrite <- Hl'. intros j y Hy.
      apply (element_is_repr _ _ _ _ _ _ _ _ Hrepr' Hy).
    - intros <-. apply (begin_repr _ _ _ _ _ _ Hrepr'). }
  destruct (Z.lt_trichotomy n (Z.of_nat (length l))) as [Hlt|[Heq|Hgt]].
  - (* fewer elements *)
    assert (Hsplit : l = take (Z.to_nat n) l ++ drop (Z.to_nat n) l)
      by now rewrite take_drop.
    assert (Hlen : Z.of_nat (length (take (Z.to_nat n) l)) = n)
      by (rewrite length_take; lia).
    assert (Hdrop : drop (Z.to_nat n) l <> []).
    { intros H. apply (f_equal length) in H. rewrite length_drop in H.
      simpl in H. lia. }
    rewrite Hsplit in Hrepr.
    destruct (Resize_shrinks _ _ _ _ _ _ _ Hrepr Hdrop) as (w' & Hrun & Hrepr' & Ht).
    rewrite Hlen in Hrun, Ht. exists w'. split; [done|].
    rewrite <- (Z.max_l cap n) in Hrepr' by lia.
    destruct (Hrepr_user _ _ _ _ Hrepr' Hlen) as (H1 & H2 & H3 & H4).
    { replace (Z.to_nat n - length l)%nat with 0%nat by lia.
      now rewrite app_nil_r. }
    split; [done|]. split; [done|]. split; [done|]. split; [auto|]. done.
  - (* as many elements *)
    subst n. rewrite (Resize_same _ _ _ _ _ _ Hrepr). exists w. split; [done|].
    rewrite <- (Z.max_l cap (Z.of_nat (length l))) in Hrepr by lia.
    destruct (Hrepr_user _ _ _ _ Hrepr eq_refl) as (H1 & H2 & H3 & H4).
    { rewrite Nat2Z.id, Nat.sub_diag, firstn_all. now rewrite app_nil_r. }
    split; [done|]. split; [done|]. split; [done|]. split; [auto|].
    intros _. rewrite Nat2Z.id, drop_all. simpl. now rewrite app_nil_r.
  - (* more elements *)
    destruct (Resize_grows _ _ _ _ _ _ n v0 Hrepr) as (w' & buf' & rest' & Hrun & Hrepr' & Hbuf);
      [lia|auto|done|].
    exists w'. split; [done|].
    destruct (Hrepr_user _ _ _ _ Hrepr') as (H1 & H2 & H3 & H4).
    { rewrite length_app, length_replicate. lia. }
    { now rewrite take_ge by lia. }
    split; [done|]. split; [done|]. split; [done|]. split; [auto|]. lia.
Qed.

End ValueConstruction.

(** * The assertions *)

Section Assertions.
Context {E : Element} {B : Build} {F : FreeStore}.

Lemma quiet_ret {A} (a : A) : quiet (ret a).
Proof. intros w. discriminate. Qed.

Lemma quiet_undefined {A} : quiet (@undefined E A).
Proof. intros w. discriminate. Qed.

Lemma quiet_throw {A} : quiet (@throw E A).
Proof. intros w. discriminate. Qed.

Lemma quiet_bind {A C} (m : M A) (k : A -> M C) :
  quiet m -> (forall a, quiet (k a)) -> quiet (bind m k).
Proof.
  intros Hm Hk w. unfold bind. specialize (Hm w).
  destruct (m w); try done. apply Hk.
Qed.

Lemma quiet_emit e : quiet (emit e).
Proof. intros w. discriminate. Qed.

Lemma quiet_load p : quiet (load p).
Proof. intros w. unfold load. repeat case_match; discriminate. Qed.

Lemma quiet_store p s : quiet (store p s).
Proof. intros w. unfold store. repeat case_match; discriminate. Qed.

Lemma quiet_get_obj this : quiet (get_obj this).
Proof. intros w. unfold get_obj. repeat case_match; discriminate. Qed.

Lemma quiet_put_obj this u : quiet (put_obj this u).
Proof. intros w. unfold put_obj. repeat case_match; discriminate. Qed.

Lemma quiet_assert_ c : c = true -> quiet (assert_ c).
Proof. intros -> w. unfold assert_. now destruct NDEBUG. Qed.

Ltac quiet_tac :=
  repeat first
    [ apply quiet_ret | apply quiet_undefined | apply quiet_throw
    | apply quiet_emit | apply quiet_load | apply quiet_store
    | apply quiet_get_obj | apply quiet_put_obj
    | apply quiet_bind; [|intros ?]
    | match goal with
      | |- quiet (match ?x with _ => _ end) => destruct x
      end ].

Lemma quiet_read p : quiet (read p).
Proof. unfold read. quiet_tac. Qed.

Lemma quiet_read_ref r : quiet (read_ref r).
Proof. destruct r; [apply quiet_ret|apply quiet_read]. Qed.

Lemma quiet_moved_out r v : quiet (moved_out r v).
Proof. destruct r; [apply quiet_ret|apply quiet_store]. Qed.

Lemma quiet_move_assign p r : quiet (move_assign p r).
Proof.
  unfold move_assign. apply quiet_bind; [apply quiet_read_ref|]. intros v.
  apply quiet_bind; [apply quiet_read|]. intros _.
  destruct (move_assign_throws v); [apply quiet_throw|].
  apply quiet_bind; [apply quiet_store|]. intros _.
  apply quiet_bind; [apply quiet_moved_out|]. intros _. apply quiet_emit.
Qed.

Lemma quiet_destroy_at p : quiet (destroy_at p).
Proof.
  unfold destroy_at. apply quiet_bind; [apply quiet_read|]. intros v.
  apply quiet_bind; [apply quiet_store|]. intros _. apply quiet_emit.
Qed.

Lemma quiet_move_loop first d_first n : forall i,
  quiet (move_loop first d_first i n).
Proof.
  induction n as [|n IH]; intros i; simpl; [apply quiet_ret|].
  apply quiet_bind; [apply quiet_move_assign|]. intros _. apply IH.
Qed.

Lemma quiet_range_length first last : quiet (range_length first last).
Proof. unfold range_length. quiet_tac. Qed.

Lemma quiet_std_move first last d_first : quiet (std_move first last d_first).
Proof.
  unfold std_move. apply quiet_bind; [apply quiet_range_length|]. intros n.
  apply quiet_bind; [apply quiet_move_loop|]. intros _. apply quiet_ret.
Qed.

Lemma quiet_RawMemory_plus d offset :
  offset <= capacity_ d -> quiet (RawMemory_plus d offset).
Proof.
  intros H. unfold RawMemory_plus.
  apply quiet_bind; [|intros _; apply quiet_ret].
  apply quiet_assert_. now apply Z.leb_le.
Qed.

Lemma quiet_set_size_ this s : quiet (set_size_ this s).
Proof. unfold set_size_. quiet_tac. Qed.

Lemma quiet_begin_ this : quiet (begin_ this).
Proof. unfold begin_, get_data_. quiet_tac. Qed.

Lemma quiet_index_of pos first : quiet (index_of pos first).
Proof. unfold index_of. quiet_tac. Qed.

Lemma begin__Ok w this u :
  objs w !! this = Some (Some u) -> begin_ this w = Ok (GetAddress (data_ u)) w.
Proof. intros H. unfold begin_, get_data_, bind, get_obj. now rewrite H. Qed.

Lemma get_obj_eq w this u :
  objs w !! this = Some (Some u) -> get_obj this w = Ok u w.
Proof. intros H. unfold get_obj. now rewrite H. Qed.

(** The body of [Erase] after the index was computed. *)
Lemma quiet_Erase_body this u index :
  index <= capacity_ (data_ u) -> size_ u <= capacity_ (data_ u) ->
  quiet (p <- RawMemory_plus (data_ u) index ;;
         destroy_at p ;;
         (if index <? wrap (size_ u - 1) then
            from <- RawMemory_plus (data_ u) index ;;
            to <- RawMemory_plus (data_ u) (size_ u) ;;
            d_first <- RawMemory_plus (data_ u) index ;;
            std_move (ptr_add from 1) to d_first ;;
            ret tt
          else ret tt) ;;
         set_size_ this (wrap (size_ u - 1)) ;;
         b <- begin_ this ;;
         ret (ptr_add b index)).
Proof.
  intros Hi Hs.
  apply quiet_bind; [now apply quiet_RawMemory_plus|]. intros p.
  apply quiet_bind; [apply quiet_destroy_at|]. intros _.
  apply quiet_bind.
  - destruct (index <? wrap (size_ u - 1)); [|apply quiet_ret].
    apply quiet_bind; [now apply quiet_RawMemory_plus|]. intros from.
    apply quiet_bind; [now apply quiet_RawMemory_plus|]. intros to.
    apply quiet_bind; [now apply quiet_RawMemory_plus|]. intros d_first.
    apply quiet_bind; [apply quiet_std_move|]. intros _. apply quiet_ret.
  - intros _. apply quiet_bind; [apply quiet_set_size_|]. intros _.
    apply quiet_bind; [apply quiet_begin_|]. intros b. apply quiet_ret.
Qed.

(** X15: what the assertions check.  In a build with assertions,
    [operator[]] with an index that is not below the size and [PopBack] on
    an empty vector fail an assertion ([PopBack] on an empty vector is
    undefined in a build without).  [Erase] has no assertion of its own:
    the only check on its position is the one of [RawMemory::operator+],
    against the capacity.  At a position between [end()] and
    [begin() + Capacity()] no assertion fails; beyond, one does. *)
Theorem assertions_check w this u index :
  objs w !! this = Some (Some u) ->
  0 <= index < 2 ^ 64 -> 0 <= size_ u <= capacity_ (data_ u) ->
  (NDEBUG = false -> size_ u <= index -> index_op this index w = AssertFail)
  /\ (size_ u = 0 -> PopBack this w = if NDEBUG then Undefined else AssertFail)
  /\ (index <= capacity_ (data_ u) ->
      Erase this (ptr_add (GetAddress (data_ u)) index) w <> AssertFail)
  /\ (NDEBUG = false -> capacity_ (data_ u) < index ->
      Erase this (ptr_add (GetAddress (data_ u)) index) w = AssertFail).
Proof.
  intros Hu Hi Hs. split; [|split; [|split]].
  - intros Hdebug Hge. unfold index_op, bind, get_obj. rewrite Hu.
    unfold assert_. rewrite Hdebug.
    now destruct (Z.ltb_spec index (size_ u)); [lia|].
  - intros H0. now apply (PopBack_empty_eq _ _ _ Hu).
  - intros Hle. unfold Erase.
    rewrite (bind_Ok _ _ _ _ _ (begin__Ok _ _ _ Hu)).
    unfold GetAddress, ptr_add. cbn [base off]. rewrite Z.add_0_l.
    rewrite (bind_Ok _ _ _ _ _ (index_of_begin _ _ _ Hi)).
    rewrite (bind_Ok _ _ _ _ _ (get_obj_eq _ _ _ Hu)).
    now apply quiet_Erase_body.
  - intros Hdebug Hgt. unfold Erase.
    rewrite (bind_Ok _ _ _ _ _ (begin__Ok _ _ _ Hu)).
    unfold GetAddress, ptr_add. cbn [base off]. rewrite Z.add_0_l.
    rewrite (bind_Ok _ _ _ _ _ (index_of_begin _ _ _ Hi)).
    rewrite (bind_Ok _ _ _ _ _ (get_obj_eq _ _ _ Hu)).
    unfold bind, RawMemory_plus, bind, assert_. rewrite Hdebug.
    now destruct (Z.leb_spec index (capacity_ (data_ u))); [lia|].
Qed.

End Assertions.

(** * The capacity after pushes *)

Section CapacitySequence.
Context {E : Element} {B : Build} {F : FreeStore}.

Lemma run_push_calls_app this (calls1 calls2 : list push_call) w :
  run_push_calls this (calls1 ++ calls2) w
  = (run_push_calls this calls1 ;; run_push_calls this calls2) w.
Proof.
  revert w. induction calls1 as [|c calls1 IH]; intros w; [reflexivity|].
  cbn [app run_push_calls]. rewrite bind_assoc. apply bind_ext.
  intros _ w'. apply IH.
Qed.

Lemma call_nothrow_relocate (calls : list push_call) :
  Forall call_nothrow calls -> Forall relocate_nothrow (pushed <$> calls).
Proof.
  intros H. apply Forall_fmap. eapply Forall_impl; [|exact H].
  intros c Hc. apply Hc.
Qed.

Lemma run_push_calls_default (calls : list push_call) : forall w this,
  repr w this None 0 [] [] -> Forall call_nothrow calls ->
  Z.of_nat (length calls) <= 2 ^ 63 ->
  serves (2 * Z.of_nat (length calls)) ->
  exists w' buf' rest',
    run_push_calls this calls w = Ok tt w'
    /\ repr w' this buf' (capacity_after (length calls)) (pushed <$> calls) rest'.
Proof.
  induction calls as [|c calls IH] using rev_ind;
    intros w this Hrepr Hcalls Hlen Hserves.
  - exists w, None, []. split; [reflexivity|exact Hrepr].
  - apply Forall_app in Hcalls as [Hcalls Hc].
    apply Forall_inv in Hc. rewrite length_app in Hlen, Hserves.
    simpl in Hlen, Hserves.
    destruct (IH w this Hrepr Hcalls) as (w1 & buf1 & rest1 & Hrun1 & Hrepr1);
      [lia|apply (serves_le _ _ Hserves); lia|].
    destruct (run_push_call_spec _ _ _ _ _ _ c Hrepr1 Hc) as (w' & buf' & rest' & Hrun & Hrepr').
    + now apply call_nothrow_relocate.
    + rewrite length_fmap. lia.
    + rewrite length_fmap. eapply allocates_serves; [exact Hserves|].
      apply grown_capacity_le; lia.
    + exists w', buf', rest'. split.
      * rewrite run_push_calls_app, (bind_Ok _ _ _ _ _ Hrun1). simpl.
        now rewrite (bind_Ok _ _ _ _ _ Hrun).
      * rewrite length_fmap in Hrepr'. rewrite fmap_app, length_app. simpl.
        now replace (length calls + 1)%nat with (S (length calls)) by lia.
Qed.

Lemma capacity_after_step (n : nat) :
  Z.of_nat n < 2 ^ 63 -> Z.of_nat n <= capacity_after n ->
  capacity_after n <= capacity_after (S n)
  /\ (capacity_after (S n) = capacity_after n
      \/ capacity_after (S n) = Z.max 1 (2 * capacity_after n)).
Proof.
  intros Hn Hle. cbn [capacity_after]. unfold pushed_capacity.
  destruct (Z.eqb_spec (Z.of_nat n) (capacity_after n)) as [Heq|Hne].
  - rewrite <- Heq. rewrite grown_capacity_eq by lia. split; [lia|right; lia].
  - split; [lia|now left].
Qed.

Lemma capacity_after_power (n : nat) :
  (0 < n)%nat -> Z.of_nat n <= 2 ^ 63 ->
  exists k, 0 <= k /\ capacity_after n = 2 ^ k
            /\ Z.of_nat n <= capacity_after n < 2 * Z.of_nat n.
Proof.
  induction n as [|n IH]; intros Hpos Hn; [lia|].
  destruct n as [|n].
  - assert (H1 : capacity_after 1 = 1) by reflexivity.
    exists 0. rewrite H1. split; [lia|]. split; [reflexivity|]. lia.
  - destruct IH as (k & Hk & Hc & Hlo & Hhi); [lia|lia|].
    remember (S n) as m eqn:Hm. cbn [capacity_after]. unfold pushed_capacity.
    destruct (Z.eqb_spec (Z.of_nat m) (capacity_after m)) as [Heq|Hne].
    + rewrite grown_capacity_eq by lia. exists (k + 1). split; [lia|]. split.
      * rewrite Z.pow_add_r by lia. lia.
      * lia.
    + exists k. split; [done|]. split; [done|]. lia.
Qed.

Lemma capacity_after_ge (n : nat) :
  Z.of_nat n <= 2 ^ 63 -> Z.of_nat n <= capacity_after n.
Proof.
  intros Hn. destruct n as [|n]; [simpl; lia|].
  destruct (capacity_after_power (S n)) as (k & _ & _ & H & _); [lia|done|done].
Qed.

(** X16: after [n] calls of [PushBack] or [EmplaceBack] on a
    default-constructed vector, none of which throws and with a free store
    that serves the blocks, the capacity is 0 for [n = 0] and otherwise
    the power of two with [n <= capacity < 2 n], whatever the element type
    and the values pushed: 0, 1, 2, 4, 4, 8, 8, 8, 8, 16, ...  From one
    call to the next it stays or, when the vector is full, becomes
    [max(1, 2 * capacity)]. *)
Theorem push_back_capacity_doubles w (calls : list push_call) :
  Forall call_nothrow calls -> Z.of_nat (length calls) <= 2 ^ 63 ->
  serves (2 * Z.of_nat (length calls)) ->
  exists this w',
    (this <- Vector_default ;; run_push_calls this calls ;; ret this) w = Ok this w'
    /\ Capacity this w' = Ok (capacity_after (length calls)) w'
    /\ (calls <> [] ->
        exists k, 0 <= k /\ capacity_after (length calls) = 2 ^ k
          /\ Z.of_nat (length calls) <= capacity_after (length calls)
             < 2 * Z.of_nat (length calls))
    /\ (forall m, (m < length calls)%nat ->
          capacity_after m <= capacity_after (S m)
          /\ (capacity_after (S m) = capacity_after m
              \/ capacity_after (S m) = Z.max 1 (2 * capacity_after m))).
Proof.
  intros Hcalls Hlen Hserves.
  destruct (Vector_default_repr w) as [Hnew Hrepr].
  destruct (run_push_calls_default calls _ _ Hrepr Hcalls Hlen Hserves)
    as (w' & buf' & rest' & Hrun & Hrepr').
  exists (length (objs w)), w'. split; [|split; [|split]].
  - rewrite (bind_Ok _ _ _ _ _ Hnew). now rewrite (bind_Ok _ _ _ _ _ Hrun).
  - apply (Capacity_repr _ _ _ _ _ _ Hrepr').
  - intros Hne. apply capacity_after_power; [|done].
    destruct calls; [done|simpl; lia].
  - intros m Hm. apply capacity_after_step; [lia|].
    apply capacity_after_ge. lia.
Qed.

End CapacitySequence.

(** * Operations that undo each other, and what [Erase] does *)

Section RoundTrips.
Context {E : Element} {B : Build} {F : FreeStore}.

Implicit Types (o : list (option Vector)) (h : list (option (list slot)))
  (t : list event) (cs cd rest : list slot) (b : nat) (k i cap : Z) (v x : T)
  (vs l : list T) (buf : option nat).

(** X17: [Erase] destroys the element at the position before it moves
    the later elements, so it works for the last element only.  At the
    last element it runs one destructor, on that element, and the
    iterator returned is [end()].  At every earlier position the behaviour
    is undefined: the next element is move-assigned to the object that
    was just destroyed. *)
Theorem erase_assigns_to_the_destroyed_object w this bs cap l rest (i : nat) d :
  repr w this (Some bs) cap l rest -> l !! i = Some d ->
  ((S i < length l)%nat ->
     Erase this (mkptr (Some bs) (Z.of_nat i)) w = Undefined)
  /\ (S i = length l ->
      exists w',
        Erase this (mkptr (Some bs) (Z.of_nat i)) w
        = Ok (mkptr (Some bs) (Z.of_nat i)) w'
        /\ trace w' = trace w ++ [EvDestroy (mkptr (Some bs) (Z.of_nat i)) d]
        /\ repr w' this (Some bs) cap (take i l) (Raw :: rest)
        /\ end_ this w' = Ok (mkptr (Some bs) (Z.of_nat i)) w').
Proof.
  intros Hrepr Hd.
  assert (Hi : (i < length l)%nat) by now apply lookup_lt_length in Hd.
  assert (Hsplit : l = take i l ++ d :: drop (S i) l)
    by now rewrite take_drop_middle.
  assert (Hlen1 : length (take i l) = i) by (rewrite length_take; lia).
  split.
  - intros Hlt. destruct (drop (S i) l) as [|v l2] eqn:Hdrop.
    { apply (f_equal length) in Hdrop. rewrite length_drop in Hdrop.
      simpl in Hdrop. lia. }
    rewrite Hsplit in Hrepr.
    pose proof (Erase_not_last _ _ _ _ _ _ _ _ _ Hrepr) as Hrun.
    now rewrite Hlen1 in Hrun.
  - intros Hlast.
    assert (Hdrop : drop (S i) l = []) by (apply drop_ge; lia).
    rewrite Hdrop in Hsplit. rewrite Hsplit in Hrepr.
    pose proof (Erase_last _ _ _ _ _ _ _ Hrepr) as Hrun.
    cbv zeta in Hrun. rewrite Hlen1 in Hrun.
    pose proof (repr_lt _ _ _ _ _ _ Hrepr) as Hthis.
    pose proof (repr_Some_lt _ _ _ _ _ _ Hrepr) as Hbs.
    destruct Hrepr as [Hobj Hcap Hmax Hblock].
    eexists. split; [exact Hrun|]. split; [reflexivity|].
    assert (Hrepr' : repr
      (mkworld
         (<[this := Some (mkVector (mkRawMemory (Some bs) cap) (Z.of_nat i))]> (objs w))
         (<[bs := Some ((Live <$> take i l) ++ Raw :: rest)]> (heap w))
         (trace w ++ [EvDestroy (mkptr (Some bs) (Z.of_nat i)) d]))
      this (Some bs) cap (take i l) (Raw :: rest)).
    { split; simpl.
      - rewrite list_lookup_insert_eq by done. now rewrite Hlen1.
      - rewrite length_app in Hcap. simpl in *. lia.
      - done.
      - now rewrite list_lookup_insert_eq. }
    split; [exact Hrepr'|].
    rewrite (end_repr _ _ _ _ _ _ Hrepr'). now rewrite Hlen1.
Qed.

Lemma EmplaceBack_spare w this bs cap l s rest args x ev :
  repr w this (Some bs) cap l (s :: rest) -> builds args x ev ->
  EmplaceBack this args w
  = Ok (mkptr (Some bs) (Z.of_nat (length l)))
      (mkworld
         (<[this := Some (mkVector (mkRawMemory (Some bs) cap)
                            (Z.of_nat (length l) + 1))]> (objs w))
         (<[bs := Some ((Live <$> l) ++ Live x :: rest)]> (heap w))
         (trace w ++ [ev (mkptr (Some bs) (Z.of_nat (length l))) x])).
Proof.
  intros [Hobj Hcap Hmax Hblock] Hargs. destruct w as [o h t]. simpl in *.
  unfold EmplaceBack.
  rewrite (bind_Ok _ _ _ _ _ (get_obj_Ok _ _ _ _ _ Hobj)).
  unfold RawMemory_Capacity. cbn [size_ data_ capacity_ buffer_].
  destruct (Z.eqb_spec (Z.of_nat (length l)) cap) as [|_]; [lia|].
  erewrite bind_Ok; cycle 1.
  { apply RawMemory_plus_Ok. simpl. lia. }
  cbn [buffer_].
  erewrite bind_Ok; cycle 1.
  { eapply construct_at_builds; [done|exact Hblock|].
    rewrite length_app, length_fmap. simpl. lia. }
  erewrite bind_Ok; cycle 1.
  { eapply set_size__Ok. exact Hobj. }
  unfold ret. cbn [data_]. rewrite wrap_small by lia. do 4 f_equal.
  apply insert_middle. rewrite length_fmap. lia.
Qed.

Lemma PopBack_eval w this b cap l x rest :
  repr w this (Some b) cap (l ++ [x]) rest ->
  PopBack this w
  = Ok tt
      (mkworld
         (<[this := Some (mkVector (mkRawMemory (Some b) cap)
                            (Z.of_nat (length l)))]> (objs w))
         (<[b := Some ((Live <$> l) ++ Raw :: rest)]> (heap w))
         (trace w ++ [EvDestroy (mkptr (Some b) (Z.of_nat (length l))) x])).
Proof.
  intros [Hobj Hcap Hmax Hblock]. destruct w as [o h t]. simpl in *.
  rewrite length_app in Hobj, Hcap. simpl in Hobj, Hcap.
  unfold PopBack.
  rewrite (bind_Ok _ _ _ _ _ (get_obj_Ok _ _ _ _ _ Hobj)). cbn [size_ data_].
  erewrite bind_Ok; cycle 1.
  { apply assert__Ok. apply Z.gtb_lt. lia. }
  erewrite bind_Ok; cycle 1.
  { apply RawMemory_plus_Ok. simpl. lia. }
  unfold ptr_add. cbn [base off buffer_].
  replace (Z.of_nat (length l + 1) + -1) with (Z.of_nat (length l)) by lia.
  rewrite fmap_app, <- app_assoc in Hblock. simpl in Hblock.
  erewrite bind_Ok; cycle 1.
  { eapply destroy_at_Ok; [exact Hblock|lia|].
    apply lookup_middle. rewrite length_fmap. lia. }
  erewrite set_size__Ok by exact Hobj. cbn [data_].
  rewrite wrap_small by lia. do 3 f_equal.
  - do 3 f_equal. lia.
  - do 2 f_equal. apply insert_middle. rewrite length_fmap. lia.
Qed.

(** X18: [EmplaceBack] (or [PushBack]) onto a vector with a spare cell, with
    arguments that refer to no element of a vector and on which the
    constructor does not throw, followed by [PopBack]: the vector object is
    as before the two calls, and so is every block but for the first spare
    cell, which holds no object afterwards.  If it held none before, the
    world is as before; an object it held (one that a move assignment left
    there) was overwritten without a destructor call.  The construction and
    the destruction of the new element are all that is recorded. *)
Theorem push_then_pop w this bs cap l s rest args x ev :
  repr w this (Some bs) cap l (s :: rest) -> builds args x ev ->
  (forall value, args = CopyOf value ->
     (PushBack this value ;; PopBack this) w
     = (EmplaceBack this args ;; PopBack this) w)
  /\ (EmplaceBack this args ;; PopBack this) w
     = Ok tt (mkworld (objs w)
         (<[bs := Some ((Live <$> l) ++ Raw :: rest)]> (heap w))
         (trace w ++ [ev (mkptr (Some bs) (Z.of_nat (length l))) x;
                      EvDestroy (mkptr (Some bs) (Z.of_nat (length l))) x]))
  /\ (s = Raw ->
      <[bs := Some ((Live <$> l) ++ Raw :: rest)]> (heap w) = heap w).
Proof.
  intros Hrepr Hargs. split.
  { intros value ->. unfold bind at 1. rewrite PushBack_eq.
    unfold bind. now destruct (EmplaceBack this (CopyOf value) w). }
  pose proof Hrepr as [Hobj Hcap Hmax Hblock].
  split; [|intros ->; now apply list_insert_id].
  rewrite (bind_Ok _ _ _ _ _ (EmplaceBack_spare _ _ _ _ _ _ _ _ _ _ Hrepr Hargs)).
  pose proof (repr_lt _ _ _ _ _ _ Hrepr) as Hthis.
  pose proof (repr_Some_lt _ _ _ _ _ _ Hrepr) as Hbs.
  set (w1 := mkworld _ _ _).
  assert (Hrepr1 : repr w1 this (Some bs) cap (l ++ [x]) rest).
  { split; subst w1; simpl in *.
    - rewrite list_lookup_insert_eq by done. rewrite length_app. simpl.
      do 4 f_equal. lia.
    - rewrite length_app. simpl. lia.
    - done.
    - rewrite list_lookup_insert_eq by done.
      now rewrite fmap_app, <- app_assoc. }
  rewrite (PopBack_eval _ _ _ _ _ _ _ Hrepr1). subst w1. cbn [objs heap trace].
  rewrite !list_insert_insert_eq. f_equal. f_equal.
  - now apply list_insert_id.
  - now rewrite <- app_assoc.
Qed.

(** X19: [Emplace] (or [Insert]) followed by [Erase] at the iterator it
    returned, for a value that is no element of the vector, when no
    operation of the element type throws and the block that a full vector
    needs is allocated.  At [end()] the two calls give back the elements, in
    order, and the size, and [Erase] destroys the element that was inserted
    and no other.  At an earlier position [Erase] is undefined behaviour:
    the element after the inserted one is assigned to the destroyed object. *)
Theorem insert_then_erase w this buf cap l rest (i : nat) args x ev :
  repr w this buf cap l rest -> (i <= length l)%nat ->
  builds args x ev -> Forall nothrow l -> nothrow x ->
  Z.of_nat (length l) < 2 ^ 63 ->
  (Z.of_nat (length l) = cap ->
   allocates w (grown_capacity (Z.of_nat (length l)))) ->
  exists it w1,
    Emplace this (mkptr buf (Z.of_nat i)) args w = Ok it w1
    /\ ((i < length l)%nat -> Erase this it w1 = Undefined)
    /\ (i = length l ->
        exists w2 buf' rest',
          Erase this it w1 = Ok it w2
          /\ trace w2 = trace w1 ++ [EvDestroy it x]
          /\ repr w2 this buf' (pushed_capacity (Z.of_nat (length l)) cap) l rest'
          /\ Size this w2 = Ok (Z.of_nat (length l)) w2
          /\ (forall (j : nat) y, l !! j = Some y -> element_is w2 this j y)).
Proof.
  intros Hrepr Hi Hargs Hl Hx Hsmall Halloc.
  destruct (Emplace_spec _ _ _ _ _ _ _ _ _ _ Hrepr Hi Hargs Hl Hx Hsmall Halloc)
    as (w1 & buf' & cap' & rest1 & Hrun1 & Hrepr1 & ->).
  destruct buf' as [bs|]; [|apply repr_None in Hrepr1 as [H _]; now destruct (take i l)].
  assert (Hlen : length (take i l) = i) by (rewrite length_take; lia).
  exists (mkptr (Some bs) (Z.of_nat i)), w1. split; [exact Hrun1|]. split.
  - intros Hlt. destruct (drop i l) as [|v l2] eqn:Hdrop.
    { apply (f_equal length) in Hdrop. rewrite length_drop in Hdrop.
      simpl in Hdrop. lia. }
    pose proof (Erase_not_last _ _ _ _ _ _ _ _ _ Hrepr1) as Hrun.
    now rewrite Hlen in Hrun.
  - intros ->. rewrite firstn_all, drop_all in Hrepr1.
    pose proof (Erase_last _ _ _ _ _ _ _ Hrepr1) as Hrun2. cbv zeta in Hrun2.
    pose proof (repr_lt _ _ _ _ _ _ Hrepr1) as Hthis.
    pose proof (repr_Some_lt _ _ _ _ _ _ Hrepr1) as Hbs.
    destruct Hrepr1 as [Hobj Hcap Hmax Hblock].
    set (w2 := mkworld _ _ _) in Hrun2.
    assert (Hrepr2 : repr w2 this (Some bs)
                       (pushed_capacity (Z.of_nat (length l)) cap) l (Raw :: rest1)).
    { split; subst w2; simpl.
      - now rewrite list_lookup_insert_eq.
      - rewrite length_app in Hcap. simpl in *. lia.
      - done.
      - now rewrite list_lookup_insert_eq. }
    exists w2, (Some bs), (Raw :: rest1).
    split; [exact Hrun2|]. split; [reflexivity|]. split; [exact Hrepr2|].
    split; [apply (Size_repr _ _ _ _ _ _ Hrepr2)|].
    intros j y Hy. apply (element_is_repr _ _ _ _ _ _ _ _ Hrepr2 Hy).
Qed.

End RoundTrips.

(** * [PushBack] of an element of the vector itself *)

Section OwnElement.
Context {E : Element} {B : Build} {F : FreeStore}.

(** The growth path of [PushBack] when [value] refers to the cell [k] of
    the old block: the new element is copied from what the relocation
    left in that cell. *)
Lemma grow_body_own o h t bs bd l dmid s dpost (k : nat) y n :
  bs <> bd ->
  h !! bs = Some (Some (Live <$> l)) ->
  h !! bd = Some (Some (dmid ++ s :: dpost)) ->
  length dmid = length l -> n = Z.of_nat (length l) ->
  Forall relocate_nothrow l ->
  relocated_from l !! k = Some y -> copy_throws y = false ->
  (relocate (mkptr (Some bs) 0) n (mkptr (Some bd) 0) ;;
   construct_at (ptr_add (mkptr (Some bd) 0) n)
     (CopyOf (At (mkptr (Some bs) (Z.of_nat k)))) ;;
   destroy_n (mkptr (Some bs) 0) n) (mkworld o h t)
  = Ok tt (mkworld o
      (<[bs := Some (replicate (length l) Raw)]>
         (<[bd := Some ((Live <$> l) ++ Live y :: dpost)]> h))
      (t ++ events_from relocate_event (mkptr (Some bd) 0) 0 l
         ++ [EvCopyConstruct (mkptr (Some bd) n) y]
         ++ events_from EvDestroy (mkptr (Some bs) 0) 0 (relocated_from l))).
Proof.
  intros Hne Hbs Hbd Hmid -> Hthrow Hy Hcopy.
  assert (Hlt : (bs < length h)%nat) by now apply lookup_lt_length in Hbs.
  assert (Hlt' : (bd < length h)%nat) by now apply lookup_lt_length in Hbd.
  assert (Hbs' : h !! bs = Some (Some ([] ++ (Live <$> l) ++ [])))
    by (now rewrite app_nil_r).
  rewrite (bind_Ok _ _ _ _ _
    (relocate_Ok _ _ _ bs bd [] l [] [] dmid (s :: dpost) 0 0 _ Hne
       Hbs' Hbd eq_refl eq_refl eq_refl Hmid Hthrow)).
  cbn [app]. rewrite app_nil_r.
  unfold ptr_add. cbn [base off]. rewrite Z.add_0_l.
  erewrite bind_Ok; cycle 1.
  { eapply (construct_at_copy_cell _ _ _ bd _ _ bs _ _ y); [done| | | |lia| |done].
    - rewrite list_lookup_insert_ne by done. now apply list_lookup_insert_eq.
    - rewrite length_app, length_fmap. simpl. lia.
    - apply list_lookup_insert_eq. now rewrite length_insert.
    - rewrite Nat2Z.id, list_lookup_fmap, Hy. reflexivity. }
  erewrite destroy_n_Ok with (pre := []) (post := []) (vs := relocated_from l); cycle 1.
  - rewrite list_lookup_insert_ne by done. rewrite app_nil_r.
    apply list_lookup_insert_eq. now rewrite length_insert.
  - done.
  - now rewrite length_relocated_from.
  - f_equal. f_equal.
    + rewrite (list_insert_insert_ne _ bd bs) by done.
      rewrite !list_insert_insert_eq. cbn [app]. rewrite app_nil_r.
      rewrite length_relocated_from. do 3 f_equal.
      replace (Z.to_nat (Z.of_nat (length l))) with (length (Live <$> l) + 0)%nat
        by (rewrite length_fmap; lia).
      now rewrite insert_app_r.
    + now rewrite <- !app_assoc.
Qed.

(** X22: [PushBack(v[k])], with a reference to an element of the vector
    itself.  With a spare cell the copy of [v[k]] is appended.  On a full
    vector, when [operator new] returns the new block, the elements are
    relocated before [value] is read: when the relocation copies, the copy
    of [v[k]] is appended; when it moves, the copy of the moved-from object
    that the relocation left in the cell [k] of the old block.  The other
    elements are kept. *)
Theorem push_back_of_own_element w this bs cap l rest (k : nat) x :
  repr w this (Some bs) cap l rest -> l !! k = Some x ->
  (Z.of_nat (length l) = cap ->
   Forall relocate_nothrow l /\ Z.of_nat (length l) < 2 ^ 63
   /\ allocates w (grown_capacity (Z.of_nat (length l)))) ->
  copy_throws
    (if (Z.of_nat (length l) =? cap) && relocate_by_move
     then moved_from x else x) = false ->
  exists w' buf' rest',
    PushBack this (At (mkptr (Some bs) (Z.of_nat k))) w = Ok tt w'
    /\ repr w' this buf' (pushed_capacity (Z.of_nat (length l)) cap)
         (l ++ [if (Z.of_nat (length l) =? cap) && relocate_by_move
                then moved_from x else x]) rest'.
Proof.
  intros [Hobj Hcap Hmax Hblock] Hk Hfull Hcopy. destruct w as [o h t]. simpl in *.
  assert (Hthis : (this < length o)%nat) by now apply lookup_lt_length in Hobj.
  assert (Hbs : (bs < length h)%nat) by now apply lookup_lt_length in Hblock.
  assert (Hkl : (k < length l)%nat) by now apply lookup_lt_length in Hk.
  rewrite PushBack_eq.
  cut (exists w' buf' rest' p,
         EmplaceBack this (CopyOf (At (mkptr (Some bs) (Z.of_nat k))))
           (mkworld o h t) = Ok p w'
         /\ repr w' this buf' (pushed_capacity (Z.of_nat (length l)) cap)
              (l ++ [if (Z.of_nat (length l) =? cap) && relocate_by_move
                     then moved_from x else x]) rest').
  { intros (w' & buf' & rest' & p & Hrun & Hrepr). exists w', buf', rest'.
    split; [|done]. unfold bind. now rewrite Hrun. }
  unfold EmplaceBack, pushed_capacity.
  rewrite (bind_Ok _ _ _ _ _ (get_obj_Ok _ _ _ _ _ Hobj)).
  unfold RawMemory_Capacity. cbn [size_ data_ capacity_ buffer_].
  destruct (Z.eqb_spec (Z.of_nat (length l)) cap) as [Heq|Hneq].
  - destruct (Hfull Heq) as (Hthrow & Hsmall & Halloc). clear Hfull.
    assert (Hrest : rest = []) by (destruct rest; simpl in *; [done|lia]).
    subst rest. rewrite app_nil_r in Hblock.
    set (n := Z.of_nat (length l)) in *.
    set (y := if true && relocate_by_move then moved_from x else x) in *.
    assert (Hy : relocated_from l !! k = Some y).
    { subst y. unfold relocated_from. simpl. destruct relocate_by_move; [|done].
      now rewrite list_lookup_fmap, Hk. }
    assert (Hgrown : grown_capacity n = Z.max 1 (n * 2))
      by (apply grown_capacity_eq; lia).
    assert (Hnz : 0 < grown_capacity n) by lia.
    assert (Hnew : (h ++ [Some (replicate (Z.to_nat (grown_capacity n)) Raw)])
                     !! length h
                   = Some (Some (replicate (length l) Raw
                                   ++ Raw :: replicate (Z.to_nat (grown_capacity n) - length l - 1) Raw))).
    { rewrite lookup_app_r by lia. rewrite Nat.sub_diag. simpl.
      rewrite <- replicate_split by lia. reflexivity. }
    exists (mkworld
      (<[this := Some (mkVector (mkRawMemory (Some (length h)) (grown_capacity n))
                        (wrap (n + 1)))]> o)
      (<[bs := None]> (<[bs := Some (replicate (length l) Raw)]>
         (<[length h := Some ((Live <$> l) ++ Live y
             :: replicate (Z.to_nat (grown_capacity n) - length l - 1) Raw)]>
            (h ++ [Some (replicate (Z.to_nat (grown_capacity n)) Raw)]))))
      (((t ++ [EvAllocate (length h) (grown_capacity n)])
         ++ events_from relocate_event (mkptr (Some (length h)) 0) 0 l
         ++ [EvCopyConstruct (mkptr (Some (length h)) n) y]
         ++ events_from EvDestroy (mkptr (Some bs) 0) 0 (relocated_from l))
         ++ [EvDeallocate bs])),
      (Some (length h)),
      (replicate (Z.to_nat (grown_capacity n) - length l - 1) Raw),
      (mkptr (Some (length h)) n).
    split.
    + rewrite (bind_Ok _ _ _ _ _ (RawMemory_new_Ok _ _ _ _ Hnz Halloc)).
      unfold GetAddress. cbn [buffer_].
      erewrite bind_Ok; cycle 1.
      { apply unwinding_Ok.
        eapply (grow_body_own _ _ _ bs (length h) l _ Raw _ k y n); try done.
        - lia.
        - now rewrite lookup_app_l.
        - now rewrite length_replicate. }
      rewrite (bind_Ok _ _ _ _ _ (Swap_local_Ok _ _ _ _ _ _ Hobj)).
      cbn [size_ data_].
      erewrite bind_Ok; cycle 1.
      { eapply set_size__Ok. now apply list_lookup_insert_eq. }
      rewrite list_insert_insert_eq. cbn [data_].
      unfold RawMemory_delete. cbn [buffer_].
      erewrite bind_Ok; cycle 1.
      { eapply Deallocate_Ok. apply list_lookup_insert_eq.
        rewrite length_insert, length_app. lia. }
      unfold ret, ptr_add. cbn [base off]. now rewrite Z.add_0_l.
    + split; simpl.
      * rewrite list_lookup_insert_eq by done. rewrite length_app. simpl.
        rewrite wrap_small by lia. do 4 f_equal. lia.
      * rewrite length_app, length_replicate. simpl. lia.
      * lia.
      * rewrite list_lookup_insert_ne by lia.
        rewrite list_lookup_insert_ne by lia.
        rewrite list_lookup_insert_eq by (rewrite length_app; simpl; lia).
        rewrite fmap_app. simpl. now rewrite <- app_assoc.
  - clear Hfull. simpl in Hcopy. simpl.
    destruct rest as [|s rest]; [simpl in *; lia|].
    exists (mkworld
      (<[this := Some (mkVector (mkRawMemory (Some bs) cap)
                        (wrap (Z.of_nat (length l) + 1)))]> o)
      (<[bs := Some ((Live <$> l) ++ Live x :: rest)]> h)
      (t ++ [EvCopyConstruct (mkptr (Some bs) (Z.of_nat (length l))) x])),
      (Some bs), rest, (mkptr (Some bs) (Z.of_nat (length l))).
    split.
    + erewrite bind_Ok; cycle 1.
      { apply RawMemory_plus_Ok. simpl in *. lia. }
      cbn [buffer_].
      erewrite bind_Ok; cycle 1.
      { unfold construct_at, read_ref.
        erewrite bind_Ok; cycle 1.
        { eapply read_Ok; [exact Hblock|lia|].
          rewrite Nat2Z.id, lookup_app_l by (rewrite length_fmap; lia).
          now rewrite list_lookup_fmap, Hk. }
        rewrite Hcopy. unfold bind.
        erewrite store_Ok; [reflexivity|exact Hblock|].
        rewrite length_app, length_fmap. simpl. lia. }
      erewrite bind_Ok; cycle 1.
      { eapply set_size__Ok. exact Hobj. }
      unfold ret. cbn [data_]. do 3 f_equal.
      replace (Z.to_nat (Z.of_nat (length l))) with (length (Live <$> l) + 0)%nat
        by (rewrite length_fmap; lia).
      now rewrite insert_app_r.
    + split; simpl in *.
      * rewrite list_lookup_insert_eq by done. rewrite length_app. simpl.
        rewrite wrap_small by lia. do 4 f_equal. lia.
      * rewrite length_app. simpl. lia.
      * lia.
      * rewrite list_lookup_insert_eq by done.
        rewrite fmap_app. simpl. now rewrite <- app_assoc.
Qed.

End OwnElement.

(** * [Emplace] when the constructor of the new element throws *)

Section EmplaceThrows.
Context {E : Element} {B : Build} {F : FreeStore}.

Lemma construct_temp_fails args w :
  fails args -> construct_temp args w = Throw w.
Proof.
  intros [v Hv|v Hv|]; unfold construct_temp, read_ref, bind, ret;
    rewrite ?Hv; reflexivity.
Qed.

(** X23: [Emplace] (or [Insert]) before the end when the constructor of the
    new element throws.  With a spare cell the temporary is constructed
    before anything else is done: the call throws and nothing at all has
    changed, no event is recorded.  On a full vector, when [operator new]
    returns the new block, the elements before the position were relocated
    to it first: the vector keeps its size, capacity and block, but these
    elements are what the relocation left of them (moved-from objects when
    it moves); the objects in the new block are not destroyed before the
    block is released. *)
Theorem insert_construction_throws w this bs cap l1 l2 rest args :
  repr w this (Some bs) cap (l1 ++ l2) rest -> l2 <> [] -> fails args ->
  (rest = [] ->
   Forall relocate_nothrow l1 /\ Z.of_nat (length (l1 ++ l2)) < 2 ^ 63
   /\ allocates w (grown_capacity (Z.of_nat (length (l1 ++ l2))))) ->
  exists w',
    Emplace this (mkptr (Some bs) (Z.of_nat (length l1))) args w = Throw w'
    /\ (forall value, args = CopyOf value ->
          Insert this (mkptr (Some bs) (Z.of_nat (length l1))) value w = Throw w')
    /\ (forall value, args = MoveOf value ->
          Insert_rv this (mkptr (Some bs) (Z.of_nat (length l1))) value w = Throw w')
    /\ (rest <> [] -> w' = w)
    /\ (rest = [] ->
          objs w' = objs w
          /\ repr w' this (Some bs) cap (relocated_from l1 ++ l2) []
          /\ trace w' = trace w
               ++ [EvAllocate (length (heap w))
                     (grown_capacity (Z.of_nat (length (l1 ++ l2))))]
               ++ events_from relocate_event
                    (mkptr (Some (length (heap w))) 0) 0 l1
               ++ [EvDeallocate (length (heap w))]).
Proof.
  intros Hrepr Hl2 Hargs Hfull.
  cut (exists w',
    Emplace this (mkptr (Some bs) (Z.of_nat (length l1))) args w = Throw w'
    /\ (rest <> [] -> w' = w)
    /\ (rest = [] ->
          objs w' = objs w
          /\ repr w' this (Some bs) cap (relocated_from l1 ++ l2) []
          /\ trace w' = trace w
               ++ [EvAllocate (length (heap w))
                     (grown_capacity (Z.of_nat (length (l1 ++ l2))))]
               ++ events_from relocate_event
                    (mkptr (Some (length (heap w))) 0) 0 l1
               ++ [EvDeallocate (length (heap w))])).
  { intros (w' & Hrun & H1 & H2). exists w'. split; [exact Hrun|].
    split; [intros value ->; exact Hrun|].
    split; [intros value ->; exact Hrun|]. auto. }
  pose proof (begin_repr _ _ _ _ _ _ Hrepr) as Hbegin.
  pose proof (end_repr _ _ _ _ _ _ Hrepr) as Hend.
  destruct Hrepr as [Hobj Hcap Hmax Hblock]. destruct w as [o h t]. simpl in *.
  assert (Hthis : (this < length o)%nat) by now apply lookup_lt_length in Hobj.
  assert (Hbs : (bs < length h)%nat) by now apply lookup_lt_length in Hblock.
  assert (Hl2' : (0 < length l2)%nat) by (destruct l2; simpl; [done|lia]).
  assert (Hlen : length (l1 ++ l2) = (length l1 + length l2)%nat) by apply length_app.
  set (n := Z.of_nat (length (l1 ++ l2))) in *.
  set (i := Z.of_nat (length l1)) in *.
  assert (Hi' : 0 <= i < 2 ^ 64) by lia.
  unfold Emplace.
  rewrite (bind_Ok _ _ _ _ _ Hbegin).
  rewrite (bind_Ok _ _ _ _ _ (index_of_begin _ _ _ Hi')).
  rewrite (bind_Ok _ _ _ _ _ (get_obj_Ok _ _ _ _ _ Hobj)).
  rewrite (bind_Ok _ _ _ _ _ Hend).
  unfold RawMemory_Capacity. cbn [size_ data_ capacity_ buffer_].
  rewrite ptr_eqb_same. destruct (Z.eqb_spec i n) as [Heq|_]; [lia|].
  destruct (Z.eqb_spec n cap) as [Heq|Hneq].
  - (* the vector is full *)
    assert (Hrest : rest = []) by (destruct rest; simpl in *; [done|lia]).
    subst rest. destruct (Hfull eq_refl) as (Hthrow & Hsmall & Halloc). clear Hfull.
    rewrite app_nil_r in Hblock.
    assert (Hgrown : grown_capacity n = Z.max 1 (n * 2))
      by (apply grown_capacity_eq; lia).
    assert (Hnz : 0 < grown_capacity n) by lia.
    cbv zeta.
    rewrite (bind_Ok _ _ _ _ _ (RawMemory_new_Ok _ _ _ _ Hnz Halloc)).
    unfold GetAddress. cbn [buffer_]. unfold ptr_add. cbn [base off].
    eexists. split; [|split; [intros Hne; now destruct Hne|intros _]].
    + apply bind_Throw. eapply unwinding_Throw.
      * erewrite bind_Ok; cycle 1.
        { eapply (relocate_Ok _ _ _ bs (length h) [] l1 (Live <$> l2) []
                    (replicate (length l1) Raw)
                    (replicate (Z.to_nat (grown_capacity n) - length l1) Raw));
            try done; try lia.
          - rewrite lookup_app_l by done. rewrite Hblock, fmap_app. reflexivity.
          - rewrite lookup_app_r by lia. rewrite Nat.sub_diag. simpl.
            rewrite <- replicate_add. do 3 f_equal. lia.
          - now rewrite length_replicate. }
        apply bind_Throw. now apply construct_at_fails.
      * unfold RawMemory_delete. cbn [buffer_].
        eapply Deallocate_Ok.
        rewrite list_lookup_insert_ne by lia.
        apply list_lookup_insert_eq. rewrite length_app. simpl. lia.
    + split; [done|]. split.
      * split; simpl.
        -- rewrite length_app, length_relocated_from, <- Hlen. exact Hobj.
        -- rewrite length_app, length_relocated_from. lia.
        -- lia.
        -- rewrite list_lookup_insert_ne by lia.
           rewrite list_lookup_insert_eq by (rewrite length_insert, length_app; lia).
           simpl. now rewrite !app_nil_r, fmap_app.
      * simpl. now rewrite <- !app_assoc.
  - (* a spare cell *)
    exists (mkworld o h t). split; [|split; [done|]].
    + apply bind_Throw. now apply construct_temp_fails.
    + intros ->. simpl in *. lia.
Qed.

End EmplaceThrows.

(** * When [operator new] throws, and when the size in bytes wraps around *)

Section FreeStoreLimits.
Context {E : Element} {B : Build} {F : FreeStore}.

(** The block that [RawMemory(n)] obtains when the free store serves the
    request: it has room for as many elements as fit into the bytes that
    were asked for. *)
Lemma RawMemory_new_served o h t n :
  n <> 0 ->
  new_succeeds (length h) (wrap (n * Z.pos sizeof_T)) = true ->
  RawMemory_new n (mkworld o h t)
  = Ok (mkRawMemory (Some (length h)) n)
       (mkworld o
          (h ++ [Some (replicate
                         (Z.to_nat (wrap (n * Z.pos sizeof_T) / Z.pos sizeof_T))
                         Raw)])
          (t ++ [EvAllocate (length h)
                   (wrap (n * Z.pos sizeof_T) / Z.pos sizeof_T)])).
Proof.
  intros Hn Hnew. unfold RawMemory_new, Allocate, bind, operator_new.
  destruct (Z.eqb_spec n 0); [done|]. cbn [heap]. now rewrite Hnew.
Qed.

(** X26: [Reserve(n)] asks [operator new] for [n * sizeof(T)] bytes, a
    product of [size_t] that wraps around and is not checked.  On an
    empty vector without a block, whenever the free store serves the
    request, [Reserve] returns and [Capacity()] is [n], but the block has
    room for [(n * sizeof(T) mod 2^64) / sizeof(T)] elements only: for
    fewer than [n] when the product wrapped around. *)
Theorem reserve_size_overflow w this n :
  repr w this None 0 [] [] -> 0 < n < 2 ^ 64 ->
  new_succeeds (length (heap w)) (wrap (n * Z.pos sizeof_T)) = true ->
  exists w',
    Reserve this n w = Ok tt w'
    /\ Size this w' = Ok 0 w'
    /\ Capacity this w' = Ok n w'
    /\ begin_ this w' = Ok (mkptr (Some (length (heap w))) 0) w'
    /\ block w' (length (heap w))
       = Some (replicate
                 (Z.to_nat (wrap (n * Z.pos sizeof_T) / Z.pos sizeof_T)) Raw)
    /\ (2 ^ 64 <= n * Z.pos sizeof_T ->
        wrap (n * Z.pos sizeof_T) / Z.pos sizeof_T < n).
Proof.
  intros Hrepr Hn Hnew. pose proof Hrepr as [Hobj _ _ _].
  destruct w as [o h t]. simpl in *.
  assert (Hthis : (this < length o)%nat) by now apply lookup_lt_length in Hobj.
  assert (Hnz : n <> 0) by lia.
  eexists. split; [|split; [|split; [|split; [|split]]]].
  - rewrite Reserve_eq.
    rewrite (bind_Ok _ _ _ _ _ (get_obj_Ok _ _ _ _ _ Hobj)).
    unfold RawMemory_Capacity. cbn [size_ data_ capacity_].
    destruct (Z.leb_spec n 0) as [|_]; [lia|].
    rewrite (bind_Ok _ _ _ _ _ (RawMemory_new_served _ _ _ _ Hnz Hnew)).
    unfold GetAddress. cbn [buffer_].
    erewrite bind_Ok; cycle 1.
    { apply unwinding_Ok.
      rewrite (bind_Ok _ _ _ _ _ (relocate_nil _ _ _)). apply destroy_n_nil. }
    rewrite (bind_Ok _ _ _ _ _ (Swap_local_Ok _ _ _ _ _ _ Hobj)).
    cbn [size_ data_]. unfold RawMemory_delete, Deallocate, operator_delete.
    cbn [buffer_]. reflexivity.
  - unfold Size, get_size_, bind, ret, get_obj. cbn [objs].
    now rewrite list_lookup_insert_eq.
  - unfold Capacity, get_data_, bind, ret, get_obj. cbn [objs].
    now rewrite list_lookup_insert_eq.
  - unfold begin_, get_data_, bind, ret, get_obj. cbn [objs].
    now rewrite list_lookup_insert_eq.
  - unfold block. cbn [heap]. rewrite lookup_app_r by lia.
    now rewrite Nat.sub_diag.
  - intros Hwrap. apply Z.div_lt_upper_bound; [lia|].
    assert (wrap (n * Z.pos sizeof_T) < 2 ^ 64)
      by (unfold wrap; apply Z.mod_pos_bound; lia).
    lia.
Qed.

(** X27: when the free store does not serve the block that a full vector
    needs to grow, [std::bad_alloc] leaves [EmplaceBack], [PushBack],
    [Emplace] and [Insert], and nothing at all has changed: no element is
    touched and no event is recorded.  The same holds for the copy
    constructor and for the copy assignment from a vector that has more
    elements than the target has cells. *)
Theorem bad_alloc_changes_nothing w this buf cap l :
  repr w this buf cap l [] -> Z.of_nat (length l) < 2 ^ 63 ->
  (new_succeeds (length (heap w))
     (wrap (grown_capacity (Z.of_nat (length l)) * Z.pos sizeof_T)) = false ->
   forall args,
     EmplaceBack this args w = Throw w
     /\ (forall value, args = CopyOf value -> PushBack this value w = Throw w)
     /\ (forall value, args = MoveOf value -> PushBack_rv this value w = Throw w)
     /\ (forall i : nat, (i <= length l)%nat ->
           Emplace this (mkptr buf (Z.of_nat i)) args w = Throw w)
     /\ (forall (i : nat) value, (i <= length l)%nat -> args = CopyOf value ->
           Insert this (mkptr buf (Z.of_nat i)) value w = Throw w))
  /\ (l <> [] ->
      new_succeeds (length (heap w))
        (wrap (Z.of_nat (length l) * Z.pos sizeof_T)) = false ->
      Vector_copy this w = Throw w
      /\ forall that u,
           that <> this -> objs w !! that = Some (Some u) ->
           capacity_ (data_ u) < Z.of_nat (length l) ->
           copy_assignment that this w = Throw w).
Proof.
  intros Hrepr Hsmall.
  pose proof (begin_repr _ _ _ _ _ _ Hrepr) as Hbegin.
  pose proof (end_repr _ _ _ _ _ _ Hrepr) as Hend.
  pose proof Hrepr as [Hobj Hcap Hmax Hblock].
  destruct w as [o h t]. simpl in *. rewrite Nat.add_0_r in Hcap.
  set (n := Z.of_nat (length l)) in *.
  assert (Hgrown : grown_capacity n = Z.max 1 (n * 2))
    by (apply grown_capacity_eq; lia).
  split.
  - intros Hnew args.
    assert (Hnz : grown_capacity n <> 0) by lia.
    assert (Hrun : EmplaceBack this args (mkworld o h t) = Throw (mkworld o h t)).
    { unfold EmplaceBack.
      rewrite (bind_Ok _ _ _ _ _ (get_obj_Ok _ _ _ _ _ Hobj)).
      unfold RawMemory_Capacity. cbn [size_ data_ capacity_ buffer_].
      destruct (Z.eqb_spec n cap) as [_|]; [|lia].
      apply bind_Throw. now apply RawMemory_new_Throw. }
    assert (Hemplace : forall i : nat, (i <= length l)%nat ->
              Emplace this (mkptr buf (Z.of_nat i)) args (mkworld o h t)
              = Throw (mkworld o h t)).
    { intros i Hi. unfold Emplace.
      assert (Hi' : 0 <= Z.of_nat i < 2 ^ 64) by lia.
      rewrite (bind_Ok _ _ _ _ _ Hbegin).
      rewrite (bind_Ok _ _ _ _ _ (index_of_begin _ _ _ Hi')).
      rewrite (bind_Ok _ _ _ _ _ (get_obj_Ok _ _ _ _ _ Hobj)).
      rewrite (bind_Ok _ _ _ _ _ Hend).
      unfold RawMemory_Capacity. cbn [size_ data_ capacity_ buffer_].
      destruct (Z.eqb_spec n cap) as [_|]; [|lia].
      rewrite ptr_eqb_same. destruct (Z.of_nat i =? n).
      - now apply bind_Throw.
      - cbv zeta. apply bind_Throw. now apply RawMemory_new_Throw. }
    split; [exact Hrun|]. split; [|split; [|split]].
    + intros value ->. rewrite PushBack_eq. now apply bind_Throw.
    + intros value ->. rewrite PushBack_rv_eq. now apply bind_Throw.
    + exact Hemplace.
    + intros i value Hi ->. now apply Hemplace.
  - intros Hne Hnew.
    assert (Hnz : n <> 0) by (subst n; destruct l; simpl; [done|lia]).
    assert (Hrun : Vector_copy this (mkworld o h t) = Throw (mkworld o h t)).
    { unfold Vector_copy.
      rewrite (bind_Ok _ _ _ _ _ (get_obj_Ok _ _ _ _ _ Hobj)). cbn [size_ data_].
      apply bind_Throw. now apply RawMemory_new_Throw. }
    split; [exact Hrun|].
    intros that u Hthat Hu Hfit. unfold copy_assignment.
    destruct (Nat.eqb_spec that this) as [|_]; [done|]. cbn [negb].
    rewrite (bind_Ok _ _ _ _ _ (get_obj_Ok _ _ _ _ _ Hobj)).
    rewrite (bind_Ok _ _ _ _ _ (get_obj_Ok _ _ _ _ _ Hu)).
    unfold RawMemory_Capacity. cbn [size_ data_].
    destruct (Z.gtb_spec n (capacity_ (data_ u))) as [_|]; [|lia].
    now apply bind_Throw.
Qed.

End FreeStoreLimits.

(** * What the operations may do, whatever their outcome *)

Section Footprint.
Context {E : Element} {B : Build} {F : FreeStore}.
Variable Phi : list event -> Prop.
Hypothesis Phi_nil : Phi [].
Hypothesis Phi_app : forall evs1 evs2, Phi evs1 -> Phi evs2 -> Phi (evs1 ++ evs2).
Hypothesis Phi_other : forall e, destroys e = None -> Phi [e].
Hypothesis Phi_undo : forall evs p v,
  Phi evs -> constructed p evs -> Phi (evs ++ [EvDestroy p v]).

Lemma wp_ret {A} (a : A) w (Q : A -> world -> Prop) X : Q a w -> wp (ret a) w Q X.
Proof. auto. Qed.

Lemma wp_bind {A C} (m : M A) (f : A -> M C) w Q X :
  wp m w (fun a w' => wp (f a) w' Q X) X -> wp (bind m f) w Q X.
Proof. unfold wp, bind. now destruct (m w). Qed.

Lemma wp_unwinding {A} (c : M unit) (m : M A) w Q X :
  wp m w Q (fun w' => wp c w' (fun _ w'' => X w'') X) ->
  wp (unwinding c m) w Q X.
Proof. unfold wp, unwinding. destruct (m w); auto. now destruct (c w0). Qed.

Lemma wp_mono {A} (m : M A) w (Q Q' : A -> world -> Prop) (X X' : world -> Prop) :
  wp m w Q X -> (forall a w', Q a w' -> Q' a w') -> (forall w', X w' -> X' w') ->
  wp m w Q' X'.
Proof. unfold wp. destruct (m w); auto. Qed.

Lemma wp_steps {A} (R : world -> world -> Prop) (m : M A) w Q X :
  steps R m -> (forall a w', R w w' -> Q a w') -> (forall w', R w w' -> X w') ->
  wp m w Q X.
Proof. intros Hm HQ HX. eapply wp_mono; [apply Hm|..]; auto. Qed.

Lemma evolves_refl w : evolves Phi w w.
Proof.
  split; [done|]. split; [done|]. exists []. now rewrite app_nil_r.
Qed.

Lemma evolves_trans w1 w2 w3 :
  evolves Phi w1 w2 -> evolves Phi w2 w3 -> evolves Phi w1 w3.
Proof.
  intros (Ho & Hh & evs & Ht & HP) (Ho' & Hh' & evs' & Ht' & HP').
  split; [congruence|]. split; [lia|]. exists (evs ++ evs'). split; [|auto].
  now rewrite Ht', Ht, app_assoc.
Qed.

Lemma steps_ret {A} (a : A) : steps (evolves Phi) (ret a).
Proof. intros w. apply evolves_refl. Qed.

Lemma steps_throw {A} : steps (evolves Phi) (@throw E A).
Proof. intros w. apply evolves_refl. Qed.

Lemma steps_undefined {A} : steps (evolves Phi) (@undefined E A).
Proof. intros w. exact I. Qed.

Lemma steps_bind {A C} (m : M A) (f : A -> M C) :
  steps (evolves Phi) m -> (forall a, steps (evolves Phi) (f a)) ->
  steps (evolves Phi) (bind m f).
Proof.
  intros Hm Hf w. apply wp_bind. eapply wp_mono; [apply Hm|..]; [|auto].
  intros a w' Hw. cbv beta in *. eapply wp_mono; [apply Hf|..];
    cbv beta; intros; eapply evolves_trans; eassumption.
Qed.

Lemma steps_unwinding {A} (c : M unit) (m : M A) :
  steps (evolves Phi) m -> steps (evolves Phi) c ->
  steps (evolves Phi) (unwinding c m).
Proof.
  intros Hm Hc w. apply wp_unwinding. eapply wp_mono; [apply Hm|..]; [auto|].
  intros w' Hw. cbv beta in *. eapply wp_mono; [apply Hc|..];
    cbv beta; intros; eapply evolves_trans; eassumption.
Qed.

Lemma steps_assert_ c : steps (evolves Phi) (assert_ c).
Proof.
  intros w. unfold wp, assert_. destruct NDEBUG; [|destruct c]; try exact I;
    apply evolves_refl.
Qed.

Lemma steps_emit e : destroys e = None -> steps (evolves Phi) (emit e).
Proof.
  intros He w. unfold wp, emit. split; [done|]. split; [done|].
  exists [e]. split; [done|]. now apply Phi_other.
Qed.

Lemma steps_load p : steps (evolves Phi) (load p).
Proof.
  intros w. unfold wp, load.
  destruct (base p); [|exact I]. destruct (block w n); [|exact I].
  destruct (0 <=? off p); [|exact I]. destruct (_ !! _); [|exact I].
  apply evolves_refl.
Qed.

Lemma steps_store p s : steps (evolves Phi) (store p s).
Proof.
  intros w. unfold wp, store.
  destruct (base p); [|exact I]. destruct (block w n); [|exact I].
  destruct (_ && _); [|exact I].
  split; [done|]. split; [simpl; now rewrite length_insert|].
  exists []. split; [simpl; now rewrite app_nil_r|done].
Qed.

Lemma steps_get_obj this : steps (evolves Phi) (get_obj this).
Proof.
  intros w. unfold wp, get_obj. destruct (_ !! _) as [[v|]|]; try exact I.
  apply evolves_refl.
Qed.

Lemma steps_read p : steps (evolves Phi) (read p).
Proof.
  unfold read. apply steps_bind; [apply steps_load|].
  intros [|v]; [apply steps_undefined|apply steps_ret].
Qed.

Lemma steps_read_ref r : steps (evolves Phi) (read_ref r).
Proof. destruct r; [apply steps_ret|apply steps_read]. Qed.

Lemma steps_moved_out r v : steps (evolves Phi) (moved_out r v).
Proof. destruct r; [apply steps_ret|apply steps_store]. Qed.

Ltac steps_tac :=
  repeat first
    [ apply steps_ret | apply steps_throw | apply steps_undefined
    | apply steps_assert_ | apply steps_load | apply steps_store
    | apply steps_get_obj | apply steps_read_ref | apply steps_read
    | apply steps_moved_out
    | apply steps_emit; reflexivity
    | apply steps_unwinding
    | apply steps_bind; [|intros ?]
    | match goal with
      | |- steps _ (match ?x with _ => _ end) => destruct x
      end ].

Lemma steps_construct_at p args : steps (evolves Phi) (construct_at p args).
Proof.
  unfold construct_at.
  destruct args as [r|r|[v|]]; steps_tac.
Qed.

Lemma steps_copy_assign p r : steps (evolves Phi) (copy_assign p r).
Proof. unfold copy_assign. steps_tac. Qed.

Lemma steps_move_assign p r : steps (evolves Phi) (move_assign p r).
Proof.
  unfold move_assign. steps_tac.
Qed.

Lemma steps_construct_temp args : steps (evolves Phi) (construct_temp args).
Proof.
  unfold construct_temp.
  destruct args as [r|r|[v|]]; steps_tac.
Qed.

Lemma steps_destroy_temp : steps (evolves Phi) destroy_temp.
Proof. unfold destroy_temp. steps_tac. Qed.

Lemma steps_emit_destroy p v :
  Phi [EvDestroy p v] -> steps (evolves Phi) (emit (EvDestroy p v)).
Proof.
  intros H w. unfold wp, emit. split; [done|]. split; [done|].
  now exists [EvDestroy p v].
Qed.

Lemma steps_destroy_at p :
  (forall v, Phi [EvDestroy p v]) -> steps (evolves Phi) (destroy_at p).
Proof.
  intros H. unfold destroy_at. apply steps_bind; [apply steps_read|]. intros v.
  apply steps_bind; [apply steps_store|]. intros _.
  now apply steps_emit_destroy.
Qed.

Lemma steps_destroy_loop first n : forall i,
  (forall j v, i <= j < i + Z.of_nat n -> Phi [EvDestroy (ptr_add first j) v]) ->
  steps (evolves Phi) (destroy_loop first i n).
Proof.
  induction n as [|n IH]; intros i H; simpl; [apply steps_ret|].
  apply steps_bind.
  - apply steps_destroy_at. intros v. apply H. lia.
  - intros _. apply IH. intros j v Hj. apply H. lia.
Qed.

Lemma steps_destroy_n first n :
  (forall j v, 0 <= j < n -> Phi [EvDestroy (ptr_add first j) v]) ->
  steps (evolves Phi) (destroy_n first n).
Proof.
  intros H. unfold destroy_n. apply steps_destroy_loop.
  intros j v Hj. apply H. lia.
Qed.

Lemma steps_DestroyN first n :
  (forall j v, 0 <= j < n -> Phi [EvDestroy (ptr_add first j) v]) ->
  steps (evolves Phi) (DestroyN first n).
Proof.
  intros H. unfold DestroyN. rewrite DestroyN_loop_eq. apply steps_destroy_loop.
  intros j v Hj. apply H. lia.
Qed.

Lemma steps_move_loop first d_first n : forall i,
  steps (evolves Phi) (move_loop first d_first i n).
Proof.
  induction n as [|n IH]; intros i; simpl; [apply steps_ret|].
  apply steps_bind; [apply steps_move_assign|]. intros _. apply IH.
Qed.

Lemma steps_move_backward_loop last d_last n : forall i,
  steps (evolves Phi) (move_backward_loop last d_last i n).
Proof.
  induction n as [|n IH]; intros i; simpl; [apply steps_ret|].
  apply steps_bind; [apply steps_move_assign|]. intros _. apply IH.
Qed.

Lemma steps_range_length first last : steps (evolves Phi) (range_length first last).
Proof. unfold range_length. steps_tac. Qed.

Lemma steps_std_move first last d_first :
  steps (evolves Phi) (std_move first last d_first).
Proof.
  unfold std_move. apply steps_bind; [apply steps_range_length|]. intros n.
  apply steps_bind; [apply steps_move_loop|]. intros _. apply steps_ret.
Qed.

Lemma steps_std_move_backward first last d_last :
  steps (evolves Phi) (std_move_backward first last d_last).
Proof.
  unfold std_move_backward. apply steps_bind; [apply steps_range_length|]. intros n.
  apply steps_bind; [apply steps_move_backward_loop|]. intros _. apply steps_ret.
Qed.

Lemma steps_RawMemory_plus d offset : steps (evolves Phi) (RawMemory_plus d offset).
Proof. unfold RawMemory_plus. steps_tac. Qed.

Lemma steps_RawMemory_index d index : steps (evolves Phi) (RawMemory_index d index).
Proof. unfold RawMemory_index. steps_tac. Qed.

Lemma steps_copy_assignment_loop d rd size rsize fuel : forall i,
  steps (evolves Phi) (copy_assignment_loop d rd size rsize i fuel).
Proof.
  induction fuel as [|fuel IH]; intros i; simpl;
    destruct ((i <? size) && (i <? rsize)); try apply steps_ret;
    try apply steps_undefined.
  apply steps_bind; [apply steps_RawMemory_index|]. intros p.
  apply steps_bind; [apply steps_RawMemory_index|]. intros q.
  apply steps_bind; [apply steps_copy_assign|]. intros _. apply IH.
Qed.

Lemma steps_index_of pos first : steps (evolves Phi) (index_of pos first).
Proof. unfold index_of. steps_tac. Qed.

Lemma steps_operator_delete buf : steps (evolves Phi) (operator_delete buf).
Proof.
  intros w. unfold wp, operator_delete. destruct buf as [b|]; [|apply evolves_refl].
  destruct (block w b); [|exact I].
  split; [done|]. split; [simpl; now rewrite length_insert|].
  exists [EvDeallocate b]. split; [done|]. now apply Phi_other.
Qed.

Lemma steps_RawMemory_delete d : steps (evolves Phi) (RawMemory_delete d).
Proof. apply steps_operator_delete. Qed.

Lemma steps_RawMemory_new n : steps (evolves Phi) (RawMemory_new n).
Proof.
  unfold RawMemory_new, Allocate. apply steps_bind; [|intros ?; apply steps_ret].
  destruct (n =? 0); [apply steps_ret|].
  intros w. unfold wp, operator_new.
  destruct (new_succeeds _ _); [|apply evolves_refl].
  split; [done|]. split; [simpl; rewrite length_app; lia|].
  eexists. split; [reflexivity|]. now apply Phi_other.
Qed.

(** *** The uninitialized algorithms: what they destroy, they constructed *)

Lemma uninitialized_copy_loop_eq first d_first n : forall i,
  uninitialized_copy_loop first d_first i n
  = uninit_loop (fun i => CopyOf (At (ptr_add first i))) d_first i n.
Proof. induction n as [|n IH]; intros i; simpl; [done|]. now rewrite IH. Qed.

Lemma uninitialized_move_loop_eq first d_first n : forall i,
  uninitialized_move_loop first d_first i n
  = uninit_loop (fun i => MoveOf (At (ptr_add first i))) d_first i n.
Proof. induction n as [|n IH]; intros i; simpl; [done|]. now rewrite IH. Qed.

Lemma uninitialized_value_construct_loop_eq first n : forall i,
  uninitialized_value_construct_loop first i n
  = uninit_loop (fun _ => Other value_init) first i n.
Proof. induction n as [|n IH]; intros i; simpl; [done|]. now rewrite IH. Qed.

Lemma load_inv p w :
  match load p w with
  | Ok _ w' => w' = w
  | Throw _ => False
  | _ => True
  end.
Proof.
  unfold load. destruct (base p); [|exact I]. destruct (block w n); [|exact I].
  destruct (0 <=? off p); [|exact I]. now destruct (_ !! _).
Qed.

Lemma read_ref_inv r w :
  match read_ref r w with
  | Ok _ w' => w' = w
  | Throw _ => False
  | _ => True
  end.
Proof.
  destruct r as [v|p]; [reflexivity|]. unfold read_ref, read, bind.
  pose proof (load_inv p w) as H. destruct (load p w) as [[|v] w'| | |]; auto.
  exact I.
Qed.

Lemma store_inv p s w :
  match store p s w with
  | Ok _ w' =>
      objs w' = objs w /\ length (heap w') = length (heap w) /\ trace w' = trace w
  | Throw _ => False
  | _ => True
  end.
Proof.
  unfold store. destruct (base p); [|exact I]. destruct (block w n); [|exact I].
  destruct (_ && _); [|exact I]. simpl. now rewrite length_insert.
Qed.

Lemma moved_out_inv r v w :
  match moved_out r v w with
  | Ok _ w' =>
      objs w' = objs w /\ length (heap w') = length (heap w) /\ trace w' = trace w
  | Throw _ => False
  | _ => True
  end.
Proof. destruct r; [done|apply store_inv]. Qed.

(** A construction that returns has recorded one event, at its cell; one
    that throws has changed nothing. *)
Lemma wp_construct_at p args w :
  wp (construct_at p args) w
    (fun _ w' => objs w' = objs w /\ length (heap w') = length (heap w)
                 /\ exists e, trace w' = trace w ++ [e] /\ constructs e = Some p)
    (fun w' => w' = w).
Proof.
  unfold wp, construct_at.
  destruct args as [r|r|[v|]]; unfold bind, throw, emit.
  - pose proof (read_ref_inv r w) as Hr.
    destruct (read_ref r w) as [v w1| | |]; try done. subst w1.
    destruct (copy_throws v); [done|].
    pose proof (store_inv p (Live v) w) as Hs.
    destruct (store p (Live v) w) as [[] w2| | |]; try done.
    destruct Hs as (Ho & Hh & Ht). simpl. rewrite Ht. eauto.
  - pose proof (read_ref_inv r w) as Hr.
    destruct (read_ref r w) as [v w1| | |]; try done. subst w1.
    destruct (move_throws v); [done|].
    pose proof (store_inv p (Live v) w) as Hs.
    destruct (store p (Live v) w) as [[] w2| | |]; try done.
    destruct Hs as (Ho & Hh & Ht).
    pose proof (moved_out_inv r v w2) as Hm.
    destruct (moved_out r v w2) as [[] w3| | |]; try done.
    destruct Hm as (Ho' & Hh' & Ht'). simpl. rewrite Ht', Ht.
    split; [congruence|]. split; [congruence|]. eauto.
  - pose proof (store_inv p (Live v) w) as Hs.
    destruct (store p (Live v) w) as [[] w2| | |]; try done.
    destruct Hs as (Ho & Hh & Ht). simpl. rewrite Ht. eauto.
  - reflexivity.
Qed.

Lemma wp_destroy_at p w :
  wp (destroy_at p) w
    (fun _ w' => objs w' = objs w /\ length (heap w') = length (heap w)
                 /\ exists v, trace w' = trace w ++ [EvDestroy p v])
    (fun _ => False).
Proof.
  unfold wp, destroy_at, read, bind, emit, ret, undefined.
  pose proof (load_inv p w) as Hl.
  destruct (load p w) as [[|v] w1| | |]; try done. subst w1.
  pose proof (store_inv p Raw w) as Hs.
  destruct (store p Raw w) as [[] w2| | |]; try done.
  destruct Hs as (Ho & Hh & Ht). simpl. rewrite Ht. eauto.
Qed.

Lemma constructed_app_l p evs evs' : constructed p evs -> constructed p (evs ++ evs').
Proof. intros (e & He & Hc). exists e. split; [|done]. apply in_or_app. auto. Qed.

Lemma constructed_app_r p evs evs' : constructed p evs' -> constructed p (evs ++ evs').
Proof. intros (e & He & Hc). exists e. split; [|done]. apply in_or_app. auto. Qed.

Lemma constructs_destroys e p : constructs e = Some p -> destroys e = None.
Proof. now destruct e. Qed.

(** The clean-up of a loop destroys what the loop constructed. *)
Lemma undo_loop d_first k : forall j0 w0 w evs,
  objs w = objs w0 -> (length (heap w0) <= length (heap w))%nat ->
  trace w = trace w0 ++ evs -> Phi evs ->
  (forall j, j0 <= j < j0 + Z.of_nat k -> constructed (ptr_add d_first j) evs) ->
  wp (destroy_loop d_first j0 k) w
    (fun _ w' => evolves Phi w0 w') (fun w' => evolves Phi w0 w').
Proof.
  induction k as [|k IH]; intros j0 w0 w evs Ho Hh Ht HP Hc.
  - simpl. apply wp_ret. split; [done|]. split; [done|]. eauto.
  - simpl. apply wp_bind. eapply wp_mono; [apply wp_destroy_at| |done].
    intros _ w1 (Ho1 & Hh1 & v & Ht1). cbv beta.
    apply (IH _ w0 w1 (evs ++ [EvDestroy (ptr_add d_first j0) v])).
    + congruence.
    + lia.
    + now rewrite Ht1, Ht, app_assoc.
    + apply Phi_undo; [done|]. apply Hc. lia.
    + intros j Hj. apply constructed_app_l. apply Hc. lia.
Qed.

Lemma uninit_loop_footprint args_at d_first n : forall i w0 w evs0,
  0 <= i ->
  objs w = objs w0 -> (length (heap w0) <= length (heap w))%nat ->
  trace w = trace w0 ++ evs0 -> Phi evs0 ->
  (forall j, 0 <= j < i -> constructed (ptr_add d_first j) evs0) ->
  wp (uninit_loop args_at d_first i n) w
    (fun _ w' =>
       objs w' = objs w0 /\ (length (heap w0) <= length (heap w'))%nat
       /\ exists evs, trace w' = trace w0 ++ evs /\ Phi evs
            /\ forall j, 0 <= j < i + Z.of_nat n ->
                  constructed (ptr_add d_first j) evs)
    (fun w' => evolves Phi w0 w').
Proof.
  induction n as [|n IH]; intros i w0 w evs0 Hi Ho Hh Ht HP Hc.
  - simpl. apply wp_ret. split; [done|]. split; [done|].
    exists evs0. split; [done|]. split; [done|]. intros j Hj. apply Hc. lia.
  - simpl uninit_loop. apply wp_bind. apply wp_unwinding.
    eapply wp_mono; [apply wp_construct_at|..].
    + intros _ w1 (Ho1 & Hh1 & e & Ht1 & He). cbv beta.
      eapply wp_mono; [apply (IH (i + 1) w0 w1 (evs0 ++ [e]))|..]; cycle 6.
      { intros _ w2 (Ho2 & Hh2 & evs & Ht2 & HP2 & Hc2).
        split; [done|]. split; [done|]. exists evs. split; [done|].
        split; [done|]. intros j Hj. apply Hc2. lia. }
      { auto. }
      * lia.
      * congruence.
      * lia.
      * now rewrite Ht1, Ht, app_assoc.
      * apply Phi_app; [done|]. apply Phi_other. eapply constructs_destroys; eauto.
      * intros j Hj. destruct (decide (j = i)) as [->|Hne].
        -- apply constructed_app_r. exists e. split; [now left|done].
        -- apply constructed_app_l. apply Hc. lia.
    + intros w1 ->. cbv beta. unfold destroy_n.
      eapply wp_mono; [eapply (undo_loop d_first (Z.to_nat i) 0 w0 w evs0); auto|..].
      * intros j Hj. apply Hc. lia.
      * auto.
      * auto.
Qed.

(** *** Runs that accumulate what is known of their events *)

Lemma stable_pure (phi : Prop) : stable (fun _ => phi).
Proof. intros ? ? ? H. exact H. Qed.

Lemma stable_and (P Q : list event -> Prop) :
  stable P -> stable Q -> stable (fun evs => P evs /\ Q evs).
Proof. intros HP HQ ? ? ? [? ?]. split; [now apply HP|now apply HQ]. Qed.

Lemma stable_or (P Q : list event -> Prop) :
  stable P -> stable Q -> stable (fun evs => P evs \/ Q evs).
Proof. intros HP HQ ? ? ? [?|?]; [left; now apply HP|right; now apply HQ]. Qed.

Lemma stable_forall {X} (P : X -> list event -> Prop) :
  (forall x, stable (P x)) -> stable (fun evs => forall x, P x evs).
Proof. intros HP ? ? ? H x. apply HP, H. Qed.

Lemma stable_impl (phi : Prop) (P : list event -> Prop) :
  stable P -> stable (fun evs => phi -> P evs).
Proof. intros HP ? ? ? H Hphi. apply HP, H, Hphi. Qed.

Lemma stable_In (e : event) : stable (In e).
Proof. intros ? ? ? H. apply in_or_app. right. apply in_or_app. now left. Qed.

Lemma stable_constructed p : stable (constructed p).
Proof.
  intros ? ? ? (e & He & Hc). exists e. split; [|done]. now apply stable_In.
Qed.

Lemma stable_released buf : stable (released buf).
Proof. destruct buf; [apply stable_In|apply stable_pure]. Qed.

Lemma stable_kept u u' : stable (kept u u').
Proof.
  apply stable_and; [apply stable_pure|].
  apply stable_forall. intros j. apply stable_impl, stable_constructed.
Qed.

Lemma stable_ext (P Q : list event -> Prop) :
  (forall evs, P evs <-> Q evs) -> stable P -> stable Q.
Proof. intros H HP ? ? ? HQ. apply H, HP, H, HQ. Qed.

Ltac stable_tac :=
  repeat match goal with
  | |- forall _, stable _ => intros ?
  | |- stable _ =>
      first
        [ assumption
        | exact (stable_kept _ _) | exact (stable_released _)
        | exact (stable_constructed _) | exact (stable_In _)
        | exact (stable_pure _)
        | refine (stable_and _ _ _ _) | refine (stable_or _ _ _ _)
        | refine (stable_impl _ _ _)
        | refine (stable_forall _ _); intros ? ]
  end.

Lemma accum_refl w : accum Phi w (objs w) (fun _ => True) w.
Proof.
  split; [done|]. split; [done|]. exists []. now rewrite app_nil_r.
Qed.

Lemma accum_mono w0 o (P Q : list event -> Prop) w :
  accum Phi w0 o P w -> (forall evs, P evs -> Q evs) -> accum Phi w0 o Q w.
Proof.
  intros (Ho & Hh & evs & Ht & HP & HQ) H.
  split; [done|]. split; [done|]. exists evs. auto.
Qed.

Lemma accum_set_objs w0 o o' P w :
  accum Phi w0 o P w -> accum Phi w0 o' P (set_objs o' w).
Proof. intros (Ho & Hh & evs & Ht & HP). split; [done|]. split; [done|]. eauto. Qed.

Lemma accum_trans w0 o (P G : list event -> Prop) w w' :
  stable P -> stable G ->
  accum Phi w0 o P w -> accum Phi w (objs w) G w' ->
  accum Phi w0 o (fun evs => P evs /\ G evs) w'.
Proof.
  intros HsP HsG (Ho & Hh & evs & Ht & HP & HQ) (Ho' & Hh' & evs' & Ht' & HP' & HG).
  split; [congruence|]. split; [lia|]. exists (evs ++ evs').
  split; [now rewrite Ht', Ht, app_assoc|]. split; [auto|]. split.
  - apply (HsP [] evs evs'), HQ.
  - specialize (HsG evs evs' [] HG). now rewrite app_nil_r in HsG.
Qed.

Lemma accum_evolves w0 o (P : list event -> Prop) w w' :
  stable P -> accum Phi w0 o P w -> evolves Phi w w' -> accum Phi w0 o P w'.
Proof.
  intros HsP (Ho & Hh & evs & Ht & HP & HQ) (Ho' & Hh' & evs' & Ht' & HP').
  split; [congruence|]. split; [lia|]. exists (evs ++ evs').
  split; [now rewrite Ht', Ht, app_assoc|]. split; [auto|].
  apply (HsP [] evs evs'), HQ.
Qed.

(** A step of a run. *)
Lemma wp_does {A} (m : M A) (G : A -> list event -> Prop) w0 o
    (P : list event -> Prop) w (Q : A -> world -> Prop) (X : world -> Prop) :
  does Phi m G -> accum Phi w0 o P w -> stable P -> (forall a, stable (G a)) ->
  (forall a w', accum Phi w0 o (fun evs => P evs /\ G a evs) w' -> Q a w') ->
  (forall w', accum Phi w0 o P w' -> X w') ->
  wp m w Q X.
Proof.
  intros Hm Hacc HsP HsG HQ HX. eapply wp_mono; [apply Hm|..]; cbv beta.
  - intros a w' H. apply HQ. eapply accum_trans; eauto.
  - intros w' H. apply HX. eapply accum_evolves; eauto.
Qed.

Lemma wp_does_nothrows {A} (m : M A) (G : A -> list event -> Prop) w0 o
    (P : list event -> Prop) w (Q : A -> world -> Prop) (X : world -> Prop) :
  does Phi m G -> nothrows m ->
  accum Phi w0 o P w -> stable P -> (forall a, stable (G a)) ->
  (forall a w', accum Phi w0 o (fun evs => P evs /\ G a evs) w' -> Q a w') ->
  wp m w Q X.
Proof.
  intros Hm Hn Hacc HsP HsG HQ. specialize (Hm w). specialize (Hn w).
  unfold wp in *. destruct (m w) as [a w'|w'| |]; try exact I.
  - apply HQ. eapply accum_trans; eauto.
  - now destruct (Hn w').
Qed.

Lemma nothrows_RawMemory_delete d : nothrows (RawMemory_delete d).
Proof.
  intros w w'. unfold RawMemory_delete, Deallocate, operator_delete.
  destruct (buffer_ d) as [b|]; [|done]. now destruct (block w b).
Qed.

Lemma does_steps {A} (m : M A) : steps (evolves Phi) m -> does Phi m (fun _ _ => True).
Proof.
  intros Hm w. eapply wp_mono; [apply Hm|..]; cbv beta; [|auto].
  intros _ w' (Ho & Hh & evs & Ht & HP). split; [done|]. split; [done|]. eauto.
Qed.

Lemma does_weaken {A} (m : M A) (G G' : A -> list event -> Prop) :
  does Phi m G -> (forall a evs, G a evs -> G' a evs) -> does Phi m G'.
Proof.
  intros Hm H w. eapply wp_mono; [apply Hm|..]; cbv beta; [|auto].
  intros a w' Hacc. eapply accum_mono; [exact Hacc|]. apply H.
Qed.

Lemma does_RawMemory_new n :
  does Phi (RawMemory_new n) (fun d _ => capacity_ d = n).
Proof.
  intros w. unfold wp, RawMemory_new, Allocate, bind, ret.
  destruct (n =? 0).
  - eapply accum_mono; [apply accum_refl|]. done.
  - unfold operator_new. destruct (new_succeeds _ _); [|apply evolves_refl].
    split; [done|]. split; [simpl; rewrite length_app; lia|].
    eexists. split; [reflexivity|]. split; [now apply Phi_other|done].
Qed.

Lemma does_RawMemory_delete d :
  does Phi (RawMemory_delete d) (fun _ evs => released (buffer_ d) evs).
Proof.
  intros w. unfold wp, RawMemory_delete, Deallocate, operator_delete.
  destruct (buffer_ d) as [b|].
  - destruct (block w b); [|exact I].
    split; [done|]. split; [simpl; now rewrite length_insert|].
    exists [EvDeallocate b]. split; [done|]. split; [now apply Phi_other|now left].
  - eapply accum_mono; [apply accum_refl|]. done.
Qed.

Lemma does_construct_at p args :
  does Phi (construct_at p args) (fun _ evs => constructed p evs).
Proof.
  intros w. eapply wp_mono; [apply wp_construct_at|..]; cbv beta.
  - intros _ w' (Ho & Hh & e & Ht & He). split; [done|]. split; [lia|].
    exists [e]. split; [done|]. split.
    + apply Phi_other. eapply constructs_destroys; eauto.
    + exists e. split; [now left|done].
  - intros w' ->. apply evolves_refl.
Qed.

Lemma does_uninit_loop args_at d_first n :
  does Phi (uninit_loop args_at d_first 0 n)
    (fun _ evs => forall j, 0 <= j < Z.of_nat n -> constructed (ptr_add d_first j) evs).
Proof.
  intros w.
  eapply wp_mono;
    [apply (uninit_loop_footprint args_at d_first n 0 w w []); auto|..]; cbv beta.
  - lia.
  - now rewrite app_nil_r.
  - intros j Hj. lia.
  - intros _ w' (Ho & Hh & evs & Ht & HP & Hc). split; [done|]. split; [done|].
    exists evs. split; [done|]. split; [done|]. intros j Hj. apply Hc. lia.
  - auto.
Qed.

Lemma does_uninitialized_copy_n first n d_first :
  does Phi (uninitialized_copy_n first n d_first)
    (fun _ evs => forall j, 0 <= j < n -> constructed (ptr_add d_first j) evs).
Proof.
  unfold uninitialized_copy_n. rewrite uninitialized_copy_loop_eq.
  eapply does_weaken; [apply does_uninit_loop|]. cbv beta.
  intros _ evs H j Hj. apply H. lia.
Qed.

Lemma does_uninitialized_move_n first n d_first :
  does Phi (uninitialized_move_n first n d_first)
    (fun _ evs => forall j, 0 <= j < n -> constructed (ptr_add d_first j) evs).
Proof.
  unfold uninitialized_move_n. rewrite uninitialized_move_loop_eq.
  eapply does_weaken; [apply does_uninit_loop|]. cbv beta.
  intros _ evs H j Hj. apply H. lia.
Qed.

Lemma does_uninitialized_value_construct_n first n :
  does Phi (uninitialized_value_construct_n first n)
    (fun _ evs => forall j, 0 <= j < n -> constructed (ptr_add first j) evs).
Proof.
  unfold uninitialized_value_construct_n.
  rewrite uninitialized_value_construct_loop_eq.
  eapply does_weaken; [apply does_uninit_loop|]. cbv beta.
  intros _ evs H j Hj. apply H. lia.
Qed.

Lemma does_relocate first n d_first :
  does Phi (relocate first n d_first)
    (fun _ evs => forall j, 0 <= j < n -> constructed (ptr_add d_first j) evs).
Proof.
  unfold relocate. destruct relocate_by_move;
    [apply does_uninitialized_move_n|apply does_uninitialized_copy_n].
Qed.

Lemma does_RawMemory_plus d offset :
  does Phi (RawMemory_plus d offset) (fun p _ => p = mkptr (buffer_ d) offset).
Proof.
  intros w. unfold wp, RawMemory_plus, bind, assert_, ret.
  destruct NDEBUG; [|destruct (offset <=? capacity_ d); [|exact I]];
    (eapply accum_mono; [apply accum_refl|]; done).
Qed.

Lemma does_RawMemory_index d index :
  does Phi (RawMemory_index d index) (fun p _ => p = mkptr (buffer_ d) index).
Proof.
  intros w. unfold wp, RawMemory_index, bind, assert_, ret.
  destruct NDEBUG; [|destruct (index <? capacity_ d); [|exact I]];
    (eapply accum_mono; [apply accum_refl|]; done).
Qed.

(** *** The object store *)

Lemma wp_get_obj {A} this u (k : Vector -> M A) w Q X :
  objs w !! this = Some (Some u) -> wp (k u) w Q X -> wp (bind (get_obj this) k) w Q X.
Proof. intros H. unfold wp, bind, get_obj. now rewrite H. Qed.

Lemma wp_get_data_ {A} this u (k : RawMemory -> M A) w Q X :
  objs w !! this = Some (Some u) -> wp (k (data_ u)) w Q X ->
  wp (bind (get_data_ this) k) w Q X.
Proof. intros H. unfold wp, bind, get_data_, bind, get_obj. now rewrite H. Qed.

Lemma wp_get_size_ {A} this u (k : Z -> M A) w Q X :
  objs w !! this = Some (Some u) -> wp (k (size_ u)) w Q X ->
  wp (bind (get_size_ this) k) w Q X.
Proof. intros H. unfold wp, bind, get_size_, bind, get_obj. now rewrite H. Qed.

Lemma wp_begin_ {A} this u (k : ptr -> M A) w Q X :
  objs w !! this = Some (Some u) -> wp (k (GetAddress (data_ u))) w Q X ->
  wp (bind (begin_ this) k) w Q X.
Proof. intros H. unfold wp, bind, begin_, get_data_, bind, get_obj. now rewrite H. Qed.

Lemma wp_end_ {A} this u (k : ptr -> M A) w Q X :
  objs w !! this = Some (Some u) ->
  wp (k (ptr_add (GetAddress (data_ u)) (size_ u))) w Q X ->
  wp (bind (end_ this) k) w Q X.
Proof.
  intros H. unfold wp, bind, end_, get_data_, get_size_, bind, get_obj, ret.
  rewrite H. cbn. now rewrite H.
Qed.

Lemma wp_put_obj {A} this u u' (k : unit -> M A) w Q X :
  objs w !! this = Some (Some u) ->
  wp (k tt) (set_objs (<[this := Some u']> (objs w)) w) Q X ->
  wp (bind (put_obj this u') k) w Q X.
Proof. intros H. unfold wp, bind, put_obj. now rewrite H. Qed.

Lemma wp_set_size_ {A} this u s (k : unit -> M A) w Q X :
  objs w !! this = Some (Some u) ->
  wp (k tt) (set_objs (<[this := Some (mkVector (data_ u) s)]> (objs w)) w) Q X ->
  wp (bind (set_size_ this s) k) w Q X.
Proof.
  intros H. unfold wp, bind, set_size_, bind, get_obj, put_obj.
  now repeat (rewrite H; cbv beta iota).
Qed.

Lemma wp_Swap_local {A} this u d (k : RawMemory -> M A) w Q X :
  objs w !! this = Some (Some u) ->
  wp (k (data_ u)) (set_objs (<[this := Some (mkVector d (size_ u))]> (objs w)) w) Q X ->
  wp (bind (Swap_local this d) k) w Q X.
Proof.
  intros H.
  unfold wp, bind, Swap_local, get_data_, set_data_, bind, get_obj, put_obj, ret.
  now repeat (rewrite H; cbv beta iota).
Qed.

Lemma wp_last {A} (m : M A) w Q X : wp (bind m ret) w Q X -> wp m w Q X.
Proof. unfold wp, bind, ret. now destruct (m w). Qed.

Lemma lookup_insert_objs (o : list (option Vector)) (this : nat) u u' :
  o !! this = Some u -> <[this := u']> o !! this = Some u'.
Proof. intros H. apply list_lookup_insert_eq. eapply lookup_lt_Some, H. Qed.

(** *** The operations *)

Lemma footprint_unchanged this u w (P : list event -> Prop) w' :
  objs w !! this = Some (Some u) -> size_ok u ->
  accum Phi w (objs w) P w' -> footprint Phi this u w w'.
Proof.
  intros Hu Hs Hacc. exists (objs w), u. split; [|split; [done|split; [done|lia]]].
  eapply accum_mono; [exact Hacc|]. intros evs _. left. split; [done|]. lia.
Qed.

Lemma footprint_intro this u w o' u' (P : list event -> Prop) w' :
  accum Phi w o' P w' -> o' !! this = Some (Some u') -> size_ok u' ->
  (size_ u < 2 ^ 63 -> capacity_ (data_ u) <= capacity_ (data_ u')) ->
  (forall evs, P evs -> kept u u' evs \/ released (buffer_ (data_ u)) evs) ->
  footprint Phi this u w w'.
Proof.
  intros Hacc Hu' Hs Hc HP. exists o', u'. split; [|done].
  eapply accum_mono; [exact Hacc|]. exact HP.
Qed.

Lemma acc_get_obj {A} this u (k : Vector -> M A) w0 o P w Q X :
  accum Phi w0 o P w -> o !! this = Some (Some u) ->
  wp (k u) w Q X -> wp (bind (get_obj this) k) w Q X.
Proof. intros (Ho & _) Hu. apply wp_get_obj. now rewrite Ho. Qed.

Lemma acc_get_data_ {A} this u (k : RawMemory -> M A) w0 o P w Q X :
  accum Phi w0 o P w -> o !! this = Some (Some u) ->
  wp (k (data_ u)) w Q X -> wp (bind (get_data_ this) k) w Q X.
Proof. intros (Ho & _) Hu. apply wp_get_data_. now rewrite Ho. Qed.

Lemma acc_get_size_ {A} this u (k : Z -> M A) w0 o P w Q X :
  accum Phi w0 o P w -> o !! this = Some (Some u) ->
  wp (k (size_ u)) w Q X -> wp (bind (get_size_ this) k) w Q X.
Proof. intros (Ho & _) Hu. apply wp_get_size_. now rewrite Ho. Qed.

Lemma acc_begin_ {A} this u (k : ptr -> M A) w0 o P w Q X :
  accum Phi w0 o P w -> o !! this = Some (Some u) ->
  wp (k (GetAddress (data_ u))) w Q X -> wp (bind (begin_ this) k) w Q X.
Proof. intros (Ho & _) Hu. apply wp_begin_. now rewrite Ho. Qed.

Lemma acc_end_ {A} this u (k : ptr -> M A) w0 o P w Q X :
  accum Phi w0 o P w -> o !! this = Some (Some u) ->
  wp (k (ptr_add (GetAddress (data_ u)) (size_ u))) w Q X ->
  wp (bind (end_ this) k) w Q X.
Proof. intros (Ho & _) Hu. apply wp_end_. now rewrite Ho. Qed.

Lemma acc_set_size_ {A} this u s (k : unit -> M A) w0 o P w Q X :
  accum Phi w0 o P w -> o !! this = Some (Some u) ->
  (forall w', accum Phi w0 (<[this := Some (mkVector (data_ u) s)]> o) P w' ->
              wp (k tt) w' Q X) ->
  wp (bind (set_size_ this s) k) w Q X.
Proof.
  intros Hacc Hu Hk. pose proof Hacc as (Ho & _).
  apply (wp_set_size_ this u); [now rewrite Ho|].
  apply Hk. rewrite Ho. eapply accum_set_objs, Hacc.
Qed.

Lemma acc_Swap_local {A} this u d (k : RawMemory -> M A) w0 o P w Q X :
  accum Phi w0 o P w -> o !! this = Some (Some u) ->
  (forall w', accum Phi w0 (<[this := Some (mkVector d (size_ u))]> o) P w' ->
              wp (k (data_ u)) w' Q X) ->
  wp (bind (Swap_local this d) k) w Q X.
Proof.
  intros Hacc Hu Hk. pose proof Hacc as (Ho & _).
  apply (wp_Swap_local this u); [now rewrite Ho|].
  apply Hk. rewrite Ho. eapply accum_set_objs, Hacc.
Qed.

Ltac step L :=
  apply wp_bind;
  eapply wp_does; [apply L|eassumption|stable_tac|stable_tac|cbv beta|cbv beta].

Ltac delete_step :=
  apply wp_bind;
  eapply wp_does_nothrows;
    [apply does_RawMemory_delete|apply nothrows_RawMemory_delete
    |eassumption|stable_tac|stable_tac|cbv beta].

Ltac quiet_step L :=
  apply wp_bind;
  eapply wp_does;
    [apply does_steps, L|eassumption|stable_tac|stable_tac|cbv beta|cbv beta].

Lemma own_destroys_n u :
  own_destroys Phi u ->
  forall j x, 0 <= j < size_ u ->
    Phi [EvDestroy (ptr_add (GetAddress (data_ u)) j) x].
Proof. intros H j x Hj. apply (H j x Hj). Qed.

(** An exception leaves the constructor of the new block: the block is
    released on the way. *)
Lemma cleanup_delete this u w (P : list event -> Prop) w' d :
  objs w !! this = Some (Some u) -> size_ok u -> stable P ->
  accum Phi w (objs w) P w' ->
  wp (RawMemory_delete d) w'
    (fun _ w'' => footprint Phi this u w w'')
    (fun w'' => footprint Phi this u w w'').
Proof.
  intros Hu Hs HP Hacc.
  eapply wp_does; [apply does_RawMemory_delete|eassumption|stable_tac|stable_tac|..];
    cbv beta; intros; eapply footprint_unchanged; eauto.
Qed.

Lemma wrap_range z : 0 <= wrap z < 2 ^ 64.
Proof. unfold wrap. apply Z.mod_pos_bound. lia. Qed.

Lemma wrap_succ_le z : 0 <= z -> wrap (z + 1) <= z + 1.
Proof. intros H. unfold wrap. apply Z.mod_le; lia. Qed.

Lemma wrap_pred_le z : 0 < z -> wrap (z - 1) <= z - 1.
Proof. intros H. unfold wrap. apply Z.mod_le; lia. Qed.

Lemma grown_capacity_ge n : 0 <= n < 2 ^ 63 -> n <= grown_capacity n.
Proof.
  intros H. unfold grown_capacity. destruct (n =? 0) eqn:H0; [lia|].
  rewrite wrap_small; lia.
Qed.

Lemma EmplaceBack_footprint this args u w :
  objs w !! this = Some (Some u) -> size_ok u -> own_destroys Phi u ->
  wp (EmplaceBack this args) w
    (fun _ w' => footprint Phi this u w w') (fun w' => footprint Phi this u w w').
Proof.
  intros Hu Hs Hown. pose proof (accum_refl w) as H0.
  unfold EmplaceBack. eapply acc_get_obj; [exact H0|exact Hu|].
  destruct (size_ u =? RawMemory_Capacity (data_ u)) eqn:Hfull; cbv zeta.
  - apply Z.eqb_eq in Hfull. unfold RawMemory_Capacity in Hfull.
    step does_RawMemory_new; [|intros; eapply footprint_unchanged; eauto].
    intros nd w1 H1.
    apply wp_bind, wp_unwinding.
    step does_relocate;
      [|intros; eapply cleanup_delete; eauto; stable_tac].
    intros _ w2 H2.
    step does_construct_at;
      [|intros; eapply cleanup_delete; eauto; stable_tac].
    intros _ w3 H3.
    eapply wp_does;
      [apply does_steps, steps_destroy_n, own_destroys_n, Hown
      |eassumption|stable_tac|stable_tac|cbv beta|cbv beta];
      [|intros; eapply cleanup_delete; eauto; stable_tac].
    intros _ w4 H4.
    eapply acc_Swap_local; [exact H4|exact Hu|]. intros w5 H5.
    eapply acc_set_size_; [exact H5|eapply lookup_insert_objs, Hu|]. intros w6 H6.
    delete_step.
    intros _ w7 H7. apply wp_ret. cbn [data_ size_] in H7.
    eapply footprint_intro; [exact H7|..].
    + eapply lookup_insert_objs, lookup_insert_objs, Hu.
    + apply wrap_range.
    + cbn [data_ size_]. intros Hlt.
      destruct H7 as (_ & _ & evs & _ & _ & ((((_ & Hcap) & _) & _) & _) & _).
      rewrite Hcap, <- Hfull. apply grown_capacity_ge. unfold size_ok in Hs. lia.
    + intros evs (_ & Hrel). now right.
  - step does_RawMemory_plus; [|intros; eapply footprint_unchanged; eauto].
    intros p w1 H1.
    step does_construct_at; [|intros; eapply footprint_unchanged; eauto].
    intros _ w2 H2.
    eapply acc_set_size_; [exact H2|exact Hu|]. intros w3 H3.
    apply wp_ret. eapply footprint_intro; [exact H3|..].
    + eapply lookup_insert_objs, Hu.
    + apply wrap_range.
    + cbn [data_]. lia.
    + intros evs ((_ & ->) & Hc). left. split; [done|]. cbn [size_].
      intros j Hj. unfold size_ok in Hs.
      pose proof (wrap_succ_le (size_ u)) as Hle.
      replace j with (size_ u) by lia. exact Hc.
Qed.

Lemma accum_fact w0 o (P : list event -> Prop) w (phi : Prop) :
  accum Phi w0 o P w -> (forall evs, P evs -> phi) -> phi.
Proof. intros (_ & _ & evs & _ & _ & HP) H. exact (H evs HP). Qed.

Lemma wp_ext {A} (m m' : M A) w Q X : m w = m' w -> wp m' w Q X -> wp m w Q X.
Proof. unfold wp. now intros ->. Qed.

Lemma wp_bind_Ok {A C} (m : M A) (k : A -> M C) w a Q X :
  m w = Ok a w -> wp (k a) w Q X -> wp (bind m k) w Q X.
Proof. intros H. unfold wp, bind. now rewrite H. Qed.

Lemma wp_discard {A} (m : M A) w (Q : world -> Prop) X :
  wp m w (fun _ w' => Q w') X -> wp (m ;; ret tt) w (fun _ w' => Q w') X.
Proof. intros H. apply wp_bind. eapply wp_mono; [exact H|..]; auto. Qed.

Lemma nothrows_RawMemory_plus d offset : nothrows (RawMemory_plus d offset).
Proof.
  intros w w'. unfold RawMemory_plus, bind, assert_, ret.
  destruct NDEBUG; [done|]. now destruct (offset <=? capacity_ d).
Qed.

Lemma nothrows_RawMemory_index d index : nothrows (RawMemory_index d index).
Proof.
  intros w w'. unfold RawMemory_index, bind, assert_, ret.
  destruct NDEBUG; [done|]. now destruct (index <? capacity_ d).
Qed.

Ltac facts :=
  cbv beta in *;
  repeat match goal with
         | H : _ /\ _ |- _ => destruct H
         end;
  try assumption.

Ltac plus_step :=
  apply wp_bind;
  eapply wp_does_nothrows;
    [apply does_RawMemory_plus|apply nothrows_RawMemory_plus
    |eassumption|stable_tac|stable_tac|cbv beta].

Ltac index_step :=
  apply wp_bind;
  eapply wp_does_nothrows;
    [apply does_RawMemory_index|apply nothrows_RawMemory_index
    |eassumption|stable_tac|stable_tac|cbv beta].

(** A step that does not throw and of which nothing is to be remembered. *)
Lemma wp_pass {A} (m : M A) w0 o (P : list event -> Prop) w
    (Q : A -> world -> Prop) (X : world -> Prop) :
  steps (evolves Phi) m -> nothrows m -> accum Phi w0 o P w -> stable P ->
  (forall a w', accum Phi w0 o P w' -> Q a w') ->
  wp m w Q X.
Proof.
  intros Hm Hn Hacc HP HQ.
  eapply wp_does_nothrows; [apply does_steps, Hm|exact Hn|exact Hacc|exact HP| |].
  - intros a. exact (stable_pure _).
  - intros a w' H. apply HQ. eapply accum_mono; [exact H|]. now intros evs [? _].
Qed.

Lemma nothrows_destroy_at p : nothrows (destroy_at p).
Proof.
  intros w w'. unfold destroy_at, read, bind, load, store, emit, ret, undefined.
  repeat case_match; discriminate.
Qed.

Lemma nothrows_bind {A C} (m : M A) (k : A -> M C) :
  nothrows m -> (forall a, nothrows (k a)) -> nothrows (bind m k).
Proof.
  intros Hm Hk w w'. unfold bind. specialize (Hm w).
  destruct (m w) as [a w1|w1| |]; try done.
  - apply Hk.
  - now destruct (Hm w1).
Qed.

Lemma nothrows_ret {A} (a : A) : nothrows (ret a).
Proof. intros w w'. discriminate. Qed.

Lemma nothrows_destroy_loop first n : forall i, nothrows (destroy_loop first i n).
Proof.
  induction n as [|n IH]; intros i; simpl; [apply nothrows_ret|].
  apply nothrows_bind; [apply nothrows_destroy_at|]. intros _. apply IH.
Qed.

Lemma nothrows_destroy_n first n : nothrows (destroy_n first n).
Proof. apply nothrows_destroy_loop. Qed.

Lemma nothrows_DestroyN first n : nothrows (DestroyN first n).
Proof. unfold DestroyN. rewrite DestroyN_loop_eq. apply nothrows_destroy_loop. Qed.

(** The destructor calls on the elements from [k] on. *)
Lemma own_destroys_from u k n :
  own_destroys Phi u -> 0 <= k -> k + n <= size_ u ->
  forall j x, 0 <= j < n ->
    Phi [EvDestroy (ptr_add (ptr_add (GetAddress (data_ u)) k) j) x].
Proof.
  intros H Hk Hn j x Hj. unfold ptr_add, GetAddress. cbn [base off].
  rewrite Z.add_0_l. apply H. lia.
Qed.

Lemma Reserve_footprint this n u w :
  objs w !! this = Some (Some u) -> size_ok u -> own_destroys Phi u ->
  wp (Reserve this n) w
    (fun _ w' => footprint Phi this u w w') (fun w' => footprint Phi this u w w').
Proof.
  intros Hu Hs Hown. pose proof (accum_refl w) as H0.
  eapply wp_ext; [apply Reserve_eq|].
  eapply acc_get_obj; [exact H0|exact Hu|].
  unfold RawMemory_Capacity.
  destruct (Z.leb_spec n (capacity_ (data_ u))) as [Hle|Hgt].
  - apply wp_ret. eapply footprint_unchanged; eauto.
  - step does_RawMemory_new; [|intros; eapply footprint_unchanged; eauto].
    intros nd w1 H1.
    apply wp_bind, wp_unwinding.
    step does_relocate;
      [|intros; eapply cleanup_delete; eauto; stable_tac].
    intros _ w2 H2.
    eapply wp_pass;
      [apply steps_destroy_n, own_destroys_n, Hown|apply nothrows_destroy_n
      |exact H2|stable_tac|].
    intros _ w3 H3. cbv beta.
    eapply acc_Swap_local; [exact H3|exact Hu|]. intros w4 H4.
    eapply wp_does_nothrows;
      [apply does_RawMemory_delete|apply nothrows_RawMemory_delete
      |exact H4|stable_tac|stable_tac|cbv beta].
    intros _ w5 H5.
    eapply footprint_intro; [exact H5|..].
    + eapply lookup_insert_objs, Hu.
    + exact Hs.
    + cbn [data_ size_]. intros _.
      apply (accum_fact _ _ _ _ (capacity_ nd = n)) in H5; [lia|].
      intros evs HP. facts.
    + intros evs (_ & Hrel). now right.
Qed.

Lemma PushBack_footprint this value u w :
  objs w !! this = Some (Some u) -> size_ok u -> own_destroys Phi u ->
  wp (PushBack this value) w
    (fun _ w' => footprint Phi this u w w') (fun w' => footprint Phi this u w w').
Proof.
  intros Hu Hs Hown. eapply wp_ext; [apply PushBack_eq|].
  apply wp_discard. now apply EmplaceBack_footprint.
Qed.

Lemma PushBack_rv_footprint this value u w :
  objs w !! this = Some (Some u) -> size_ok u -> own_destroys Phi u ->
  wp (PushBack_rv this value) w
    (fun _ w' => footprint Phi this u w w') (fun w' => footprint Phi this u w w').
Proof.
  intros Hu Hs Hown. eapply wp_ext; [apply PushBack_rv_eq|].
  apply wp_discard. now apply EmplaceBack_footprint.
Qed.

Lemma PopBack_footprint this u w :
  objs w !! this = Some (Some u) -> size_ok u -> 0 < size_ u ->
  own_destroys Phi u ->
  wp (PopBack this) w
    (fun _ w' => footprint Phi this u w w') (fun w' => footprint Phi this u w w').
Proof.
  intros Hu Hs Hpos Hown. pose proof (accum_refl w) as H0.
  unfold PopBack. eapply acc_get_obj; [exact H0|exact Hu|].
  step (does_steps _ (steps_assert_ (size_ u >? 0)));
    [|intros; eapply footprint_unchanged; eauto].
  intros _ w1 H1. plus_step. intros p w2 H2.
  assert (Hp : p = mkptr (buffer_ (data_ u)) (size_ u)).
  { apply (accum_fact _ _ _ _ _ H2). intros evs HP. facts. }
  subst p. unfold ptr_add. cbn [base off].
  apply wp_bind.
  eapply wp_pass; [apply steps_destroy_at|apply nothrows_destroy_at|exact H2|stable_tac|].
  { intros x. apply Hown. lia. }
  intros _ w3 H3. cbv beta. apply wp_last.
  eapply acc_set_size_; [exact H3|exact Hu|]. intros w4 H4.
  apply wp_ret. eapply footprint_intro; [exact H4|..].
  - eapply lookup_insert_objs, Hu.
  - apply wrap_range.
  - cbn [data_]. lia.
  - intros evs _. left. split; [done|]. cbn [size_]. intros j Hj.
    pose proof (wrap_pred_le (size_ u) Hpos). lia.
Qed.

Lemma reads_footprint {A} (m : M A) this u w :
  objs w !! this = Some (Some u) -> size_ok u ->
  steps (evolves Phi) m ->
  wp m w (fun _ w' => footprint Phi this u w w') (fun w' => footprint Phi this u w w').
Proof.
  intros Hu Hs Hm. eapply wp_mono; [apply Hm|..]; cbv beta.
  - intros _ w' (Ho & Hh & evs & Ht & HP).
    eapply (footprint_unchanged _ _ _ (fun _ => True)); [done|done|].
    split; [done|]. split; [done|]. eauto.
  - intros w' (Ho & Hh & evs & Ht & HP).
    eapply (footprint_unchanged _ _ _ (fun _ => True)); [done|done|].
    split; [done|]. split; [done|]. eauto.
Qed.

Lemma steps_get_data_ this : steps (evolves Phi) (get_data_ this).
Proof. unfold get_data_. steps_tac. Qed.

Lemma steps_get_size_ this : steps (evolves Phi) (get_size_ this).
Proof. unfold get_size_. steps_tac. Qed.

Lemma steps_begin_ this : steps (evolves Phi) (begin_ this).
Proof.
  unfold begin_. apply steps_bind; [apply steps_get_data_|]. intros d.
  apply steps_ret.
Qed.

Lemma steps_end_ this : steps (evolves Phi) (end_ this).
Proof.
  unfold end_. apply steps_bind; [apply steps_get_data_|]. intros d.
  apply steps_bind; [apply steps_get_size_|]. intros s. apply steps_ret.
Qed.

Lemma steps_Size this : steps (evolves Phi) (Size this).
Proof. apply steps_get_size_. Qed.

Lemma steps_Capacity this : steps (evolves Phi) (Capacity this).
Proof.
  unfold Capacity. apply steps_bind; [apply steps_get_data_|]. intros d.
  apply steps_ret.
Qed.

Lemma steps_index_op this index : steps (evolves Phi) (index_op this index).
Proof.
  unfold index_op. apply steps_bind; [apply steps_get_obj|]. intros v.
  apply steps_bind; [apply steps_assert_|]. intros _. apply steps_RawMemory_index.
Qed.

Lemma footprint_accum this u w w' :
  footprint Phi this u w w' ->
  exists o' u',
    accum Phi w o'
      (fun evs => kept u u' evs \/ released (buffer_ (data_ u)) evs) w'
    /\ o' !! this = Some (Some u') /\ size_ok u'
    /\ (size_ u < 2 ^ 63 -> capacity_ (data_ u) <= capacity_ (data_ u')).
Proof. intros H. exact H. Qed.

Lemma Resize_footprint this n u w :
  objs w !! this = Some (Some u) -> size_ok u -> 0 <= n < 2 ^ 64 ->
  own_destroys Phi u ->
  wp (Resize this n) w
    (fun _ w' => footprint Phi this u w w') (fun w' => footprint Phi this u w w').
Proof.
  intros Hu Hs Hn Hown. pose proof (accum_refl w) as H0.
  unfold Resize. eapply acc_get_size_; [exact H0|exact Hu|].
  destruct (Z.gtb_spec n (size_ u)) as [Hgt|Hle].
  - (* more elements *)
    apply wp_bind, wp_bind.
    eapply wp_mono; [apply (Reserve_footprint this n u w Hu Hs Hown)|..];
      cbv beta; [|auto].
    intros _ w1 Hw1.
    destruct (footprint_accum _ _ _ _ Hw1) as (o1 & u1 & H1 & Hu1 & Hs1 & Hc1).
    eapply acc_get_data_; [exact H1|exact Hu1|].
    eapply wp_does;
      [apply does_uninitialized_value_construct_n|exact H1
      |stable_tac|stable_tac|cbv beta|cbv beta].
    + intros _ w2 H2. apply wp_last.
      eapply acc_set_size_; [exact H2|exact Hu1|]. intros w3 H3.
      apply wp_ret. eapply footprint_intro; [exact H3|..].
      * eapply lookup_insert_objs, Hu1.
      * exact Hn.
      * exact Hc1.
      * intros evs [[[Hdata Hcells]|Hrel] Hnew]; [left|now right].
        split; [exact Hdata|]. cbn [size_]. intros j Hj.
        specialize (Hnew (j - size_ u)).
        rewrite wrap_small in Hnew by (unfold size_ok in Hs; lia).
        unfold ptr_add, GetAddress in Hnew. cbn [base off] in Hnew.
        rewrite Hdata in Hnew.
        replace (0 + size_ u + (j - size_ u)) with j in Hnew by lia.
        apply Hnew. lia.
    + intros w2 H2. eapply footprint_intro; [exact H2|exact Hu1|exact Hs1|exact Hc1|].
      auto.
  - destruct (Z.ltb_spec n (size_ u)) as [Hlt|Hge].
    + (* fewer elements *)
      apply wp_bind. eapply acc_get_data_; [exact H0|exact Hu|].
      eapply wp_pass; [apply steps_destroy_n|apply nothrows_destroy_n|exact H0|stable_tac|].
      { apply own_destroys_from; [exact Hown|lia|].
        rewrite wrap_small by (unfold size_ok in Hs; lia). lia. }
      intros _ w1 H1. cbv beta. apply wp_last.
      eapply acc_set_size_; [exact H1|exact Hu|]. intros w2 H2.
      apply wp_ret. eapply footprint_intro; [exact H2|..].
      * eapply lookup_insert_objs, Hu.
      * exact Hn.
      * cbn [data_]. lia.
      * intros evs _. left. split; [done|]. cbn [size_]. lia.
    + (* as many elements *)
      apply wp_bind, wp_ret. apply wp_last.
      eapply acc_set_size_; [exact H0|exact Hu|]. intros w2 H2.
      apply wp_ret. eapply footprint_intro; [exact H2|..].
      * eapply lookup_insert_objs, Hu.
      * exact Hn.
      * cbn [data_]. lia.
      * intros evs _. left. split; [done|]. cbn [size_]. lia.
Qed.

Lemma index_of_position u index w :
  0 <= index < 2 ^ 64 ->
  index_of (ptr_add (GetAddress (data_ u)) index) (GetAddress (data_ u)) w
  = Ok index w.
Proof.
  intros Hi. unfold ptr_add, GetAddress. cbn [base off]. rewrite Z.add_0_l.
  now apply index_of_begin.
Qed.

Lemma Erase_footprint this index u w :
  objs w !! this = Some (Some u) -> size_ok u -> 0 <= index < size_ u ->
  own_destroys Phi u ->
  wp (Erase this (ptr_add (GetAddress (data_ u)) index)) w
    (fun _ w' => footprint Phi this u w w') (fun w' => footprint Phi this u w w').
Proof.
  intros Hu Hs Hi Hown. pose proof (accum_refl w) as H0.
  unfold size_ok in Hs.
  unfold Erase. eapply acc_begin_; [exact H0|exact Hu|].
  eapply wp_bind_Ok; [apply index_of_position; lia|].
  eapply acc_get_obj; [exact H0|exact Hu|].
  plus_step. intros p w1 H1.
  assert (Hp : p = mkptr (buffer_ (data_ u)) index).
  { apply (accum_fact _ _ _ _ _ H1). intros evs HP. facts. }
  subst p. apply wp_bind.
  eapply wp_pass; [apply steps_destroy_at|apply nothrows_destroy_at|exact H1|stable_tac|].
  { intros x. apply Hown. lia. }
  intros _ w2 H2. cbv beta. apply wp_bind.
  eapply (wp_does _ (fun _ _ => True));
    [apply does_steps|exact H2|stable_tac|stable_tac|cbv beta|cbv beta].
  - destruct (index <? wrap (size_ u - 1)); [|apply steps_ret].
    apply steps_bind; [apply steps_RawMemory_plus|]. intros from.
    apply steps_bind; [apply steps_RawMemory_plus|]. intros to.
    apply steps_bind; [apply steps_RawMemory_plus|]. intros d_first.
    apply steps_bind; [apply steps_std_move|]. intros _. apply steps_ret.
  - intros _ w3 H3.
    eapply acc_set_size_; [exact H3|exact Hu|]. intros w4 H4.
    eapply acc_begin_; [exact H4|eapply lookup_insert_objs, Hu|].
    apply wp_ret. eapply footprint_intro; [exact H4|..].
    + eapply lookup_insert_objs, Hu.
    + apply wrap_range.
    + cbn [data_]. lia.
    + intros evs _. left. split; [done|]. cbn [size_]. intros j Hj.
      pose proof (wrap_pred_le (size_ u)). lia.
  - intros w3 H3. eapply footprint_unchanged; eauto.
Qed.

Lemma ptr_eqb_position (d : RawMemory) i j :
  ptr_eqb (ptr_add (GetAddress d) i) (ptr_add (GetAddress d) j) = (i =? j).
Proof.
  unfold ptr_add, GetAddress. cbn [base off]. rewrite !Z.add_0_l.
  apply ptr_eqb_same.
Qed.

Lemma cleanup_temp this u w (P : list event -> Prop) w' :
  objs w !! this = Some (Some u) -> size_ok u -> stable P ->
  accum Phi w (objs w) P w' ->
  wp destroy_temp w'
    (fun _ w'' => footprint Phi this u w w'')
    (fun w'' => footprint Phi this u w w'').
Proof.
  intros Hu Hs HP Hacc.
  eapply wp_does;
    [apply does_steps, steps_destroy_temp|eassumption|stable_tac|stable_tac|..];
    cbv beta; intros; eapply footprint_unchanged; eauto.
Qed.

Lemma Emplace_at_end_footprint this args index u w :
  objs w !! this = Some (Some u) -> size_ok u -> own_destroys Phi u ->
  wp (EmplaceBack this args ;; b <- begin_ this ;; ret (ptr_add b index)) w
    (fun _ w' => footprint Phi this u w w') (fun w' => footprint Phi this u w w').
Proof.
  intros Hu Hs Hown. apply wp_bind.
  eapply wp_mono; [apply (EmplaceBack_footprint this args u w Hu Hs Hown)|..];
    cbv beta; [|auto].
  intros _ w1 Hw1.
  destruct (footprint_accum _ _ _ _ Hw1) as (o1 & u1 & H1 & Hu1 & _).
  eapply acc_begin_; [exact H1|exact Hu1|]. apply wp_ret. exact Hw1.
Qed.

Lemma Emplace_footprint this index args u w :
  objs w !! this = Some (Some u) -> size_ok u -> 0 <= index <= size_ u ->
  own_destroys Phi u ->
  wp (Emplace this (ptr_add (GetAddress (data_ u)) index) args) w
    (fun _ w' => footprint Phi this u w w') (fun w' => footprint Phi this u w w').
Proof.
  intros Hu Hs Hi Hown. pose proof (accum_refl w) as H0.
  pose proof Hs as Hs'. unfold size_ok in Hs'.
  unfold Emplace. eapply acc_begin_; [exact H0|exact Hu|].
  eapply wp_bind_Ok; [apply index_of_position; lia|].
  eapply acc_get_obj; [exact H0|exact Hu|].
  eapply acc_end_; [exact H0|exact Hu|].
  rewrite ptr_eqb_position.
  destruct (Z.eqb_spec index (size_ u)) as [Hend|Hmid].
  { destruct (size_ u =? RawMemory_Capacity (data_ u));
      now apply Emplace_at_end_footprint. }
  destruct (size_ u =? RawMemory_Capacity (data_ u)) eqn:Hfull; cbv zeta.
  - (* a new block *)
    apply Z.eqb_eq in Hfull. unfold RawMemory_Capacity in Hfull.
    step does_RawMemory_new; [|intros; eapply footprint_unchanged; eauto].
    intros nd w1 H1.
    apply wp_bind, wp_unwinding.
    step does_relocate;
      [|intros; eapply cleanup_delete; eauto; stable_tac].
    intros _ w2 H2.
    step does_construct_at;
      [|intros; eapply cleanup_delete; eauto; stable_tac].
    intros _ w3 H3.
    step does_relocate;
      [|intros; eapply cleanup_delete; eauto; stable_tac].
    intros _ w4 H4.
    eapply wp_pass;
      [apply steps_DestroyN, own_destroys_n, Hown|apply nothrows_DestroyN
      |exact H4|stable_tac|].
    intros _ w5 H5. cbv beta.
    eapply acc_Swap_local; [exact H5|exact Hu|]. intros w6 H6.
    eapply acc_set_size_; [exact H6|eapply lookup_insert_objs, Hu|]. intros w7 H7.
    delete_step.
    intros _ w8 H8. apply wp_ret. cbn [data_ size_] in H8.
    eapply footprint_intro; [exact H8|..].
    + eapply lookup_insert_objs, lookup_insert_objs, Hu.
    + apply wrap_range.
    + cbn [data_ size_]. intros Hlt.
      apply (accum_fact _ _ _ _ (capacity_ nd = grown_capacity (size_ u))) in H8.
      * rewrite H8, <- Hfull. apply grown_capacity_ge. lia.
      * intros evs HP. facts.
    + intros evs (_ & Hrel). now right.
  - (* a shift inside the block *)
    step (does_steps _ (steps_construct_temp args));
      [|intros; eapply footprint_unchanged; eauto].
    intros tmp_copy w1 H1.
    apply wp_bind, wp_unwinding.
    destruct (Z.ltb_spec index (size_ u)) as [_|]; [|lia].
    apply wp_bind.
    (* the last element is moved to the first spare cell *)
    plus_step. intros p w2 H2.
    assert (Hp : p = mkptr (buffer_ (data_ u)) (size_ u)).
    { apply (accum_fact _ _ _ _ _ H2). intros evs HP. facts. }
    subst p.
    index_step. intros q w3 H3.
    step does_construct_at;
      [|intros; eapply cleanup_temp; eauto; stable_tac].
    intros _ w4 H4.
    plus_step. intros from w5 H5.
    plus_step. intros to w6 H6.
    plus_step. intros d_last w7 H7.
    step (does_steps _ (steps_std_move_backward from (ptr_add to (-1)) d_last));
      [|intros; eapply cleanup_temp; eauto; stable_tac].
    intros _ w8 H8. apply wp_ret.
    (* the new element is assigned *)
    index_step. intros p w9 H9.
    step (does_steps _ (steps_move_assign p (Ext tmp_copy)));
      [|intros; eapply cleanup_temp; eauto; stable_tac].
    intros _ w10 H10.
    eapply acc_set_size_; [exact H10|exact Hu|]. intros w11 H11.
    eapply wp_does_nothrows;
      [apply does_RawMemory_plus|apply nothrows_RawMemory_plus
      |exact H11|stable_tac|stable_tac|cbv beta].
    intros r w12 H12.
    step (does_steps _ steps_destroy_temp).
    + intros _ w13 H13. apply wp_ret. eapply footprint_intro; [exact H13|..].
      * eapply lookup_insert_objs, Hu.
      * apply wrap_range.
      * cbn [data_]. lia.
      * intros evs HP. left. split; [done|]. cbn [size_]. intros j Hj.
        pose proof (wrap_succ_le (size_ u)) as Hle.
        replace j with (size_ u) by lia. facts.
    + intros w13 H13. eapply footprint_intro; [exact H13|..].
      * eapply lookup_insert_objs, Hu.
      * apply wrap_range.
      * cbn [data_]. lia.
      * intros evs HP. left. split; [done|]. cbn [size_]. intros j Hj.
        pose proof (wrap_succ_le (size_ u)) as Hle.
        replace j with (size_ u) by lia. facts.
Qed.

Lemma evolves_accum w w1 w2 (G : list event -> Prop) :
  stable G -> evolves Phi w w1 -> accum Phi w1 (objs w1) G w2 ->
  accum Phi w (objs w) G w2.
Proof.
  intros HG (Ho & Hh & evs & Ht & HP) (Ho' & Hh' & evs' & Ht' & HP' & HG').
  split; [congruence|]. split; [lia|]. exists (evs ++ evs').
  split; [now rewrite Ht', Ht, app_assoc|]. split; [auto|].
  specialize (HG evs evs' [] HG'). now rewrite app_nil_r in HG.
Qed.

Lemma does_bind {A C} (m : M A) (k : A -> M C) (G : C -> list event -> Prop) :
  steps (evolves Phi) m -> (forall a, does Phi (k a) G) ->
  (forall c, stable (G c)) -> does Phi (bind m k) G.
Proof.
  intros Hm Hk HG w. apply wp_bind. eapply wp_mono; [apply Hm|..]; cbv beta.
  - intros a w1 Hw1. eapply wp_mono; [apply Hk|..]; cbv beta.
    + intros c w2 H2. eapply evolves_accum; eauto.
    + intros w2 H2. eapply evolves_trans; eauto.
  - auto.
Qed.

(** The loop of the copy assignment stops at an index that is at most the
    size. *)
Lemma does_copy_assignment_loop d rd size rsize fuel : forall i,
  0 <= i <= size -> size < 2 ^ 64 ->
  does Phi (copy_assignment_loop d rd size rsize i fuel)
    (fun r _ => 0 <= r <= size).
Proof.
  induction fuel as [|fuel IH]; intros i Hi Hs; cbn [copy_assignment_loop];
    destruct ((i <? size) && (i <? rsize)) eqn:Hc.
  - intros w. exact I.
  - intros w. eapply accum_mono; [apply accum_refl|]. done.
  - apply andb_true_iff in Hc as [Hlt _]. apply Z.ltb_lt in Hlt.
    apply does_bind; [apply steps_RawMemory_index| |stable_tac]. intros p.
    apply does_bind; [apply steps_RawMemory_index| |stable_tac]. intros q.
    apply does_bind; [apply steps_copy_assign| |stable_tac]. intros _.
    apply IH; [|done]. rewrite wrap_small; lia.
  - intros w. eapply accum_mono; [apply accum_refl|]. done.
Qed.

Lemma Swap_eval o h t a c ua uc :
  o !! a = Some (Some ua) -> o !! c = Some (Some uc) -> a <> c ->
  Swap a c (mkworld o h t)
  = Ok tt (mkworld
      (<[c := Some (mkVector (data_ ua) (size_ ua))]>
         (<[a := Some (mkVector (data_ uc) (size_ uc))]> o)) h t).
Proof.
  intros Ha Hc Hne.
  assert (Hlta : (a < length o)%nat) by now apply lookup_lt_length in Ha.
  assert (Hltc : (c < length o)%nat) by now apply lookup_lt_length in Hc.
  unfold Swap.
  rewrite (bind_Ok _ _ _ _ _ (Swap_data__Ok _ _ _ _ _ _ _ Ha Hc Hne)).
  erewrite bind_Ok; cycle 1.
  { apply get_size__Ok. rewrite list_lookup_insert_ne by done.
    now apply list_lookup_insert_eq. }
  erewrite bind_Ok; cycle 1.
  { apply get_size__Ok. apply list_lookup_insert_eq. now rewrite length_insert. }
  cbn [size_].
  erewrite bind_Ok; cycle 1.
  { apply set_size__Ok. rewrite list_lookup_insert_ne by done.
    now apply list_lookup_insert_eq. }
  erewrite set_size__Ok; cycle 1.
  { rewrite list_lookup_insert_ne by done.
    apply list_lookup_insert_eq. now rewrite length_insert. }
  cbn [data_]. do 2 f_equal.
  rewrite (list_insert_insert_ne (<[c := _]> _) c a) by done.
  rewrite list_insert_insert_eq.
  rewrite (list_insert_insert_ne (<[a := _]> _) a c) by done.
  rewrite list_insert_insert_eq.
  now rewrite (list_insert_insert_ne _ c a) by done.
Qed.

Lemma acc_Swap {A} a c ua uc (k : unit -> M A) w0 o P w Q X :
  accum Phi w0 o P w ->
  o !! a = Some (Some ua) -> o !! c = Some (Some uc) -> a <> c ->
  (forall w',
     accum Phi w0
       (<[c := Some (mkVector (data_ ua) (size_ ua))]>
          (<[a := Some (mkVector (data_ uc) (size_ uc))]> o)) P w' ->
     wp (k tt) w' Q X) ->
  wp (bind (Swap a c) k) w Q X.
Proof.
  intros Hacc Ha Hc Hne Hk. pose proof Hacc as (Ho & _).
  destruct w as [o1 h t]. simpl in Ho. subst o1.
  unfold wp, bind. rewrite (Swap_eval _ _ _ _ _ _ _ Ha Hc Hne).
  apply Hk. eapply (accum_set_objs _ _ _ _ _ Hacc).
Qed.

Lemma acc_new_obj {A} v (k : nat -> M A) w0 o P w Q X :
  accum Phi w0 o P w ->
  (forall w', accum Phi w0 (o ++ [Some v]) P w' -> wp (k (length o)) w' Q X) ->
  wp (bind (new_obj v) k) w Q X.
Proof.
  intros Hacc Hk. pose proof Hacc as (Ho & _).
  unfold wp, bind, new_obj. rewrite Ho.
  apply Hk. eapply accum_set_objs, Hacc.
Qed.

Lemma acc_end_obj this u w0 o P w (Q : unit -> world -> Prop) X :
  accum Phi w0 o P w -> o !! this = Some (Some u) ->
  (forall w', accum Phi w0 (<[this := None]> o) P w' -> Q tt w') ->
  wp (end_obj this) w Q X.
Proof.
  intros Hacc Hu Hk. pose proof Hacc as (Ho & _).
  unfold wp, end_obj. rewrite Ho, Hu.
  apply Hk. eapply accum_set_objs, Hacc.
Qed.

Lemma copy_assignment_footprint this rhs u w :
  objs w !! this = Some (Some u) -> size_ok u ->
  (forall r, objs w !! rhs = Some (Some r) -> size_ok r) ->
  own_destroys Phi u ->
  wp (copy_assignment this rhs) w
    (fun _ w' => footprint Phi this u w w') (fun w' => footprint Phi this u w w').
Proof.
  intros Hu Hs Hrhs Hown. pose proof (accum_refl w) as H0.
  pose proof Hs as Hs'. unfold size_ok in Hs'.
  unfold copy_assignment.
  destruct (Nat.eqb_spec this rhs) as [Heq|Hne]; cbn [negb].
  { apply wp_ret. eapply footprint_unchanged; eauto. }
  destruct (objs w !! rhs) as [[r|]|] eqn:Hr;
    [|unfold wp, bind, get_obj; now rewrite Hr..].
  specialize (Hrhs r eq_refl). pose proof Hrhs as Hrhs'. unfold size_ok in Hrhs'.
  eapply acc_get_obj; [exact H0|exact Hr|].
  eapply acc_get_obj; [exact H0|exact Hu|].
  unfold RawMemory_Capacity.
  destruct (Z.gtb_spec (size_ r) (capacity_ (data_ u))) as [Hgt|Hle].
  - (* a copy of [rhs] is exchanged with [*this] *)
    unfold Vector_copy. apply wp_bind.
    eapply acc_get_obj; [exact H0|exact Hr|].
    step does_RawMemory_new; [|intros; eapply footprint_unchanged; eauto].
    intros nd w1 H1.
    apply wp_bind, wp_unwinding.
    eapply wp_does;
      [apply does_uninitialized_copy_n|exact H1|stable_tac|stable_tac
      |cbv beta|cbv beta];
      [|intros; eapply cleanup_delete; eauto; stable_tac].
    intros _ w2 H2.
    apply wp_last.
    eapply acc_new_obj; [exact H2|]. intros w3 H3. apply wp_ret.
    assert (Hthis : (this < length (objs w))%nat) by now apply lookup_lt_length in Hu.
    assert (Hu3 : (objs w ++ [Some (mkVector nd (size_ r))]) !! this = Some (Some u))
      by now rewrite lookup_app_l.
    assert (Htmp : (objs w ++ [Some (mkVector nd (size_ r))]) !! length (objs w)
                   = Some (Some (mkVector nd (size_ r))))
      by (rewrite lookup_app_r by lia; now rewrite Nat.sub_diag).
    eapply acc_Swap; [exact H3|exact Hu3|exact Htmp|lia|]. intros w4 H4.
    cbn [data_ size_] in H4.
    unfold Vector_delete.
    eapply acc_get_obj; [exact H4| |].
    { apply list_lookup_insert_eq. rewrite length_insert, length_app. simpl. lia. }
    cbn [data_ size_].
    apply wp_bind.
    eapply wp_pass;
      [apply steps_destroy_n, own_destroys_n, Hown|apply nothrows_destroy_n
      |exact H4|stable_tac|].
    intros _ w5 H5. cbv beta.
    delete_step. intros _ w6 H6.
    eapply acc_end_obj; [exact H6| |].
    { apply list_lookup_insert_eq. rewrite length_insert, length_app. simpl. lia. }
    intros w7 H7. eapply footprint_intro; [exact H7|..].
    + rewrite list_lookup_insert_ne by lia.
      rewrite list_lookup_insert_ne by lia.
      apply list_lookup_insert_eq. rewrite length_app. lia.
    + exact Hrhs.
    + cbn [data_]. intros _.
      apply (accum_fact _ _ _ _ (capacity_ nd = size_ r)) in H7; [lia|].
      intros evs HP. facts.
    + intros evs HP. right. facts.
  - (* the elements are assigned in place *)
    step does_copy_assignment_loop; [lia|lia| |].
    2: { intros; eapply footprint_unchanged; eauto. }
    intros i w1 H1.
    assert (Hi : 0 <= i <= size_ u).
    { apply (accum_fact _ _ _ _ _ H1). intros evs HP. facts. lia. }
    apply wp_bind.
    destruct (Z.ltb_spec i (size_ r)) as [Hlt|Hge].
    + eapply wp_does;
        [apply does_uninitialized_copy_n|exact H1|stable_tac|stable_tac
        |cbv beta|cbv beta];
        [|intros; eapply footprint_unchanged; eauto].
      intros _ w2 H2. apply wp_last.
      eapply acc_set_size_; [exact H2|exact Hu|]. intros w3 H3.
      apply wp_ret. eapply footprint_intro; [exact H3|..].
      * eapply lookup_insert_objs, Hu.
      * exact Hrhs.
      * cbn [data_]. lia.
      * intros evs [_ Hnew]. left. split; [done|]. cbn [size_]. intros j Hj.
        specialize (Hnew (j - i)).
        rewrite wrap_small in Hnew by lia.
        unfold ptr_add, GetAddress in Hnew. cbn [base off] in Hnew.
        replace (0 + i + (j - i)) with j in Hnew by lia.
        apply Hnew. lia.
    + eapply wp_pass;
        [apply steps_destroy_n|apply nothrows_destroy_n|exact H1|stable_tac|].
      { apply own_destroys_from; [exact Hown|lia|].
        rewrite wrap_small by lia. lia. }
      intros _ w2 H2. cbv beta. apply wp_last.
      eapply acc_set_size_; [exact H2|exact Hu|]. intros w3 H3.
      apply wp_ret. eapply footprint_intro; [exact H3|..].
      * eapply lookup_insert_objs, Hu.
      * exact Hrhs.
      * cbn [data_]. lia.
      * intros evs _. left. split; [done|]. cbn [size_]. lia.
Qed.

(** Every operation, whatever its outcome. *)
Lemma run_op_footprint this op u w :
  objs w !! this = Some (Some u) -> size_ok u -> valid_op w u op ->
  own_destroys Phi u ->
  wp (run_op this op) w
    (fun _ w' => footprint Phi this u w w') (fun w' => footprint Phi this u w w').
Proof.
  intros Hu Hs Hvalid Hown. pose proof (accum_refl w) as H0.
  destruct op; cbn [run_op valid_op] in *.
  - apply wp_discard, reads_footprint; [done|done|apply steps_Size].
  - apply wp_discard, reads_footprint; [done|done|apply steps_Capacity].
  - apply wp_discard, reads_footprint; [done|done|apply steps_begin_].
  - apply wp_discard, reads_footprint; [done|done|apply steps_end_].
  - apply wp_discard, reads_footprint; [done|done|apply steps_index_op].
  - now apply Reserve_footprint.
  - now apply Resize_footprint.
  - now apply PushBack_footprint.
  - now apply PushBack_rv_footprint.
  - apply wp_discard. now apply EmplaceBack_footprint.
  - now apply PopBack_footprint.
  - eapply acc_begin_; [exact H0|exact Hu|].
    apply wp_discard. now apply Emplace_footprint.
  - eapply acc_begin_; [exact H0|exact Hu|].
    apply wp_discard. unfold Insert. now apply Emplace_footprint.
  - eapply acc_begin_; [exact H0|exact Hu|].
    apply wp_discard. unfold Insert_rv. now apply Emplace_footprint.
  - eapply acc_begin_; [exact H0|exact Hu|].
    apply wp_discard. now apply Erase_footprint.
  - now apply copy_assignment_footprint.
Qed.

(** The destructor. *)
Lemma Vector_delete_footprint this u w :
  objs w !! this = Some (Some u) -> own_destroys Phi u ->
  wp (Vector_delete this) w
    (fun _ w' => exists evs, trace w' = trace w ++ evs /\ Phi evs)
    (fun w' => exists evs, trace w' = trace w ++ evs /\ Phi evs).
Proof.
  intros Hu Hown. pose proof (accum_refl w) as H0.
  assert (Hend : forall o (P : list event -> Prop) w',
            accum Phi w o P w' -> exists evs, trace w' = trace w ++ evs /\ Phi evs).
  { intros o P w' (_ & _ & evs & Ht & HP & _). eauto. }
  unfold Vector_delete. eapply acc_get_obj; [exact H0|exact Hu|].
  apply wp_bind.
  eapply wp_pass;
    [apply steps_destroy_n, own_destroys_n, Hown|apply nothrows_destroy_n
    |exact H0|stable_tac|].
  intros _ w1 H1. cbv beta.
  delete_step. intros _ w2 H2.
  eapply acc_end_obj; [exact H2|exact Hu|]. intros w3 H3. eapply Hend, H3.
Qed.

(** *** The capacity after an insertion into a full vector *)

Lemma wp_any {A} (m : M A) w : wp m w (fun _ _ => True) (fun _ => True).
Proof. unfold wp. now destruct (m w). Qed.

(** The vector [this] has got the capacity [c]. *)
Lemma Capacity_objs this u w :
  objs w !! this = Some (Some u) -> Capacity this w = Ok (capacity_ (data_ u)) w.
Proof. intros H. unfold Capacity, get_data_, bind, get_obj. now rewrite H. Qed.

Lemma Capacity_begin_ {A} this c (k : ptr -> A) w (Q : A -> world -> Prop) X :
  Capacity this w = Ok c w ->
  (forall b, Q (k b) w) ->
  wp (b <- begin_ this ;; ret (k b)) w Q X.
Proof.
  intros Hc HQ. unfold wp, bind, begin_, get_data_, bind, ret.
  revert Hc. unfold Capacity, get_data_, bind.
  destruct (get_obj this w) as [u w1| | |] eqn:Hu; try done.
  unfold get_obj in Hu. destruct (objs w !! this) as [[u'|]|]; try done.
  injection Hu as -> ->. intros _. apply HQ.
Qed.

Lemma EmplaceBack_grows this args u w :
  objs w !! this = Some (Some u) -> size_ u = capacity_ (data_ u) ->
  own_destroys Phi u ->
  wp (EmplaceBack this args) w
    (fun _ w' => Capacity this w' = Ok (grown_capacity (size_ u)) w')
    (fun _ => True).
Proof.
  intros Hu Hfull Hown. pose proof (accum_refl w) as H0.
  unfold EmplaceBack. eapply acc_get_obj; [exact H0|exact Hu|].
  replace (size_ u =? RawMemory_Capacity (data_ u)) with true
    by (symmetry; now apply Z.eqb_eq).
  cbv zeta.
  step does_RawMemory_new; [|done].
  intros nd w1 H1.
  apply wp_bind, wp_unwinding.
  step does_relocate; [|intros; apply wp_any].
  intros _ w2 H2.
  step does_construct_at; [|intros; apply wp_any].
  intros _ w3 H3.
  eapply wp_does;
    [apply does_steps, steps_destroy_n, own_destroys_n, Hown
    |eassumption|stable_tac|stable_tac|cbv beta|cbv beta];
    [|intros; apply wp_any].
  intros _ w4 H4.
  eapply acc_Swap_local; [exact H4|exact Hu|]. intros w5 H5.
  eapply acc_set_size_; [exact H5|eapply lookup_insert_objs, Hu|]. intros w6 H6.
  delete_step.
  intros _ w7 H7. apply wp_ret. cbn [data_ size_] in H7.
  apply (accum_fact _ _ _ _ (capacity_ nd = grown_capacity (size_ u))) in H7 as Hcap.
  2: { intros evs HP. facts. }
  rewrite <- Hcap. destruct H7 as (Ho & _).
  apply (Capacity_objs this (mkVector nd (wrap (size_ u + 1)))).
  rewrite Ho. eapply lookup_insert_objs, lookup_insert_objs, Hu.
Qed.

Lemma Emplace_grows this index args u w :
  objs w !! this = Some (Some u) -> size_ok u -> 0 <= index <= size_ u ->
  size_ u = capacity_ (data_ u) -> own_destroys Phi u ->
  wp (Emplace this (ptr_add (GetAddress (data_ u)) index) args) w
    (fun _ w' => Capacity this w' = Ok (grown_capacity (size_ u)) w')
    (fun _ => True).
Proof.
  intros Hu Hs Hi Hfull Hown. pose proof (accum_refl w) as H0.
  pose proof Hs as Hs'. unfold size_ok in Hs'.
  unfold Emplace. eapply acc_begin_; [exact H0|exact Hu|].
  eapply wp_bind_Ok; [apply index_of_position; lia|].
  eapply acc_get_obj; [exact H0|exact Hu|].
  eapply acc_end_; [exact H0|exact Hu|].
  rewrite ptr_eqb_position.
  replace (size_ u =? RawMemory_Capacity (data_ u)) with true
    by (symmetry; now apply Z.eqb_eq).
  cbv zeta.
  destruct (Z.eqb_spec index (size_ u)) as [Hend|Hmid].
  { apply wp_bind.
    eapply wp_mono; [apply (EmplaceBack_grows this args u w Hu Hfull Hown)|..];
      cbv beta; [|auto].
    intros _ w1 Hw1. eapply Capacity_begin_; [exact Hw1|]. intros _. exact Hw1. }
  step does_RawMemory_new; [|done].
  intros nd w1 H1.
  apply wp_bind, wp_unwinding.
  step does_relocate; [|intros; apply wp_any].
  intros _ w2 H2.
  step does_construct_at; [|intros; apply wp_any].
  intros _ w3 H3.
  step does_relocate; [|intros; apply wp_any].
  intros _ w4 H4.
  eapply wp_pass;
    [apply steps_DestroyN, own_destroys_n, Hown|apply nothrows_DestroyN
    |exact H4|stable_tac|].
  intros _ w5 H5. cbv beta.
  eapply acc_Swap_local; [exact H5|exact Hu|]. intros w6 H6.
  eapply acc_set_size_; [exact H6|eapply lookup_insert_objs, Hu|]. intros w7 H7.
  delete_step.
  intros _ w8 H8. apply wp_ret. cbn [data_ size_] in H8.
  apply (accum_fact _ _ _ _ (capacity_ nd = grown_capacity (size_ u))) in H8 as Hcap.
  2: { intros evs HP. facts. }
  rewrite <- Hcap. destruct H8 as (Ho & _).
  apply (Capacity_objs this (mkVector nd (wrap (size_ u + 1)))).
  rewrite Ho. eapply lookup_insert_objs, lookup_insert_objs, Hu.
Qed.

(** Every call that inserts an element into a full vector and returns
    leaves the vector with the grown capacity. *)
Lemma run_op_grows this op u w :
  objs w !! this = Some (Some u) -> size_ok u -> valid_op w u op ->
  inserts op -> size_ u = capacity_ (data_ u) -> own_destroys Phi u ->
  wp (run_op this op) w
    (fun _ w' => Capacity this w' = Ok (grown_capacity (size_ u)) w')
    (fun _ => True).
Proof.
  intros Hu Hs Hvalid Hop Hfull Hown. pose proof (accum_refl w) as H0.
  destruct op; cbn [run_op valid_op inserts] in *; try done.
  - eapply wp_ext; [apply PushBack_eq|].
    apply wp_discard. now apply EmplaceBack_grows.
  - eapply wp_ext; [apply PushBack_rv_eq|].
    apply wp_discard. now apply EmplaceBack_grows.
  - apply wp_discard. now apply EmplaceBack_grows.
  - eapply acc_begin_; [exact H0|exact Hu|].
    apply wp_discard. now apply Emplace_grows.
  - eapply acc_begin_; [exact H0|exact Hu|].
    apply wp_discard. unfold Insert. now apply Emplace_grows.
  - eapply acc_begin_; [exact H0|exact Hu|].
    apply wp_discard. unfold Insert_rv. now apply Emplace_grows.
Qed.

End Footprint.

(** * What no operation does *)

Section Never.
Context {E : Element} {B : Build} {F : FreeStore}.

Lemma footprint_outcome (Phi : list event -> Prop) {A} (m : M A) this u w
    (r : result A) w' :
  wp m w (fun _ w' => footprint Phi this u w w')
         (fun w' => footprint Phi this u w w') ->
  m w = r -> (exists a, r = Ok a w') \/ r = Throw w' ->
  footprint Phi this u w w'.
Proof.
  unfold wp. intros H Hr [[a ->]| ->]; now rewrite Hr in H.
Qed.

(** X20: no operation on a vector other than [Swap], the move operations
    and the destructor decreases its capacity: after [Reserve], [Resize],
    [PushBack], [EmplaceBack], [PopBack], [Emplace], [Insert], [Erase],
    the copy assignment, [operator[]] and the observers, whether the call
    returns or throws, the vector has at least the capacity it had. *)
Theorem capacity_never_decreases w this u op w' :
  objs w !! this = Some (Some u) -> size_ok u -> size_ u < 2 ^ 63 ->
  valid_op w u op ->
  run_op this op w = Ok tt w' \/ run_op this op w = Throw w' ->
  exists c',
    Capacity this w' = Ok c' w' /\ capacity_ (data_ u) <= c'.
Proof.
  intros Hu Hs Hsmall Hvalid Hrun.
  assert (Hfp : footprint (fun _ => True) this u w w').
  { eapply (footprint_outcome _ (run_op this op));
      [apply run_op_footprint; try done|reflexivity|].
    destruct Hrun as [->| ->]; [left; now exists tt|now right]. }
  destruct Hfp as (o' & u' & (Ho & _) & Hu' & _ & Hcap).
  exists (capacity_ (data_ u')). split; [|auto].
  unfold Capacity, get_data_, bind, get_obj. now rewrite Ho, Hu'.
Qed.

(** C7, amended: a call of [PushBack], [EmplaceBack], [Emplace] or
    [Insert] on a full vector of fewer than [2^63] elements that returns
    leaves the vector with the capacity [max(1, 2 * size)], whatever the
    element type and the arguments; so after [n] pushes onto a
    default-constructed vector the capacity has followed 0, 1, 2, 4, 8, ...,
    from one push to the next staying or becoming [max(1, 2 * capacity)].
    No operation on a vector other than [Swap], the move assignment and
    the move constructor, which takes the block of its source, decreases
    its capacity, whether the call returns or throws. *)
Theorem capacity_doubles_and_never_shrinks w this u op w' :
  objs w !! this = Some (Some u) -> size_ok u -> size_ u < 2 ^ 63 ->
  valid_op w u op ->
  run_op this op w = Ok tt w' \/ run_op this op w = Throw w' ->
  (exists c',
     Capacity this w' = Ok c' w'
     /\ capacity_ (data_ u) <= c'
     /\ (inserts op -> size_ u = capacity_ (data_ u) ->
         run_op this op w = Ok tt w' -> c' = Z.max 1 (size_ u * 2)))
  /\ forall (pushes : list push_call) w0,
       Forall call_nothrow pushes -> Z.of_nat (length pushes) <= 2 ^ 63 ->
       serves (2 * Z.of_nat (length pushes)) ->
       exists v w1,
         (v <- Vector_default ;; run_push_calls v pushes ;; ret v) w0 = Ok v w1
         /\ Capacity v w1 = Ok (capacity_after (length pushes)) w1
         /\ capacity_after 0 = 0
         /\ forall m, (m < length pushes)%nat ->
              capacity_after m <= capacity_after (S m)
              /\ (capacity_after (S m) = capacity_after m
                  \/ capacity_after (S m) = Z.max 1 (2 * capacity_after m)).
Proof.
  intros Hu Hs Hsmall Hvalid Hrun. split.
  - assert (Hfp : footprint (fun _ => True) this u w w').
    { eapply (footprint_outcome _ (run_op this op));
        [apply run_op_footprint; try done|reflexivity|].
      destruct Hrun as [->| ->]; [left; now exists tt|now right]. }
    destruct Hfp as (o' & u' & (Ho & _) & Hu' & _ & Hcap).
    assert (Hc : Capacity this w' = Ok (capacity_ (data_ u')) w').
    { unfold Capacity, get_data_, bind, get_obj. now rewrite Ho, Hu'. }
    exists (capacity_ (data_ u')). split; [exact Hc|]. split; [auto|].
    intros Hop Hfull Hok.
    assert (Hg : wp (run_op this op) w
                   (fun _ w' => Capacity this w' = Ok (grown_capacity (size_ u)) w')
                   (fun _ => True)).
    { apply (run_op_grows (fun _ => True)); try done. }
    unfold wp in Hg. rewrite Hok, Hc in Hg. injection Hg as ->.
    unfold size_ok in Hs. rewrite grown_capacity_eq; lia.
  - intros pushes w0 Hcalls Hlen Hserves.
    destruct (Vector_default_repr w0) as [Hnew Hrepr].
    destruct (run_push_calls_default pushes _ _ Hrepr Hcalls Hlen Hserves)
      as (w1 & buf' & rest' & Hpush & Hrepr').
    exists (length (objs w0)), w1. split; [|split; [|split]].
    + rewrite (bind_Ok _ _ _ _ _ Hnew). now rewrite (bind_Ok _ _ _ _ _ Hpush).
    + apply (Capacity_repr _ _ _ _ _ _ Hrepr').
    + reflexivity.
    + intros m Hm. apply capacity_after_step; [lia|].
      apply capacity_after_ge. lia.
Qed.

(** ** The objects in the spare cells *)

Lemma spared_nil p : spared p [].
Proof. intros evs1 x evs2 H. now destruct evs1. Qed.

Lemma spared_app p evs evs' : spared p evs -> spared p evs' -> spared p (evs ++ evs').
Proof.
  intros H H' evs1 x evs2 Heq.
  apply app_eq_app in Heq as [k [[Hevs Heq]|[Hevs1 Heq]]].
  - destruct k as [|e k]; simpl in Heq.
    + symmetry in Heq.
      destruct (H' [] x evs2 Heq) as [(e & [] & _)|(b & _ & [])].
    + injection Heq as <- ->. exact (H evs1 x k Hevs).
  - subst evs1. destruct (H' k x evs2 Heq) as [(e & He & Hc)|(b & Hb & Hd)].
    + left. exists e. split; [apply in_or_app; now right|done].
    + right. exists b. split; [done|]. apply in_or_app. now right.
Qed.

Lemma spared_other p e : destroys e = None -> spared p [e].
Proof.
  intros He evs1 x evs2 Heq. destruct evs1 as [|e1 evs1].
  - injection Heq as -> _. discriminate.
  - injection Heq as _ Heq. now destruct evs1.
Qed.

Lemma spared_undo p evs q v :
  spared p evs -> constructed q evs -> spared p (evs ++ [EvDestroy q v]).
Proof.
  intros H Hq evs1 x evs2 Heq.
  apply app_eq_app in Heq as [k [[Hevs Heq]|[Hevs1 Heq]]].
  - destruct k as [|e k]; simpl in Heq.
    + injection Heq as -> _ _. rewrite app_nil_r in Hevs. subst evs1. now left.
    + injection Heq as <- _. exact (H evs1 x k Hevs).
  - destruct k as [|e k]; simpl in Heq.
    + injection Heq as -> _ _. rewrite app_nil_r in Hevs1. subst evs1. now left.
    + injection Heq as _ Heq. now destruct k.
Qed.

Lemma spared_own b (j s0 : Z) x :
  j <> s0 -> spared (mkptr (Some b) s0) [EvDestroy (mkptr (Some b) j) x].
Proof.
  intros Hne evs1 y evs2 Heq. destruct evs1 as [|e1 evs1].
  - injection Heq as -> _. done.
  - injection Heq as _ Heq. now destruct evs1.
Qed.

Lemma settled_app p evs evs' : settled p evs -> settled p (evs ++ evs').
Proof.
  intros [(e & He & Hc)|(b & Hb & Hd)].
  - left. exists e. split; [apply in_or_app; now left|done].
  - right. exists b. split; [done|]. apply in_or_app. now left.
Qed.

Lemma spared_settled p evs evs' :
  spared p evs -> settled p evs -> spared p (evs ++ evs').
Proof.
  intros H Hs evs1 x evs2 Heq.
  apply app_eq_app in Heq as [k [[Hevs Heq]|[Hevs1 Heq]]].
  - destruct k as [|e k]; simpl in Heq.
    + rewrite app_nil_r in Hevs. subst evs1. exact Hs.
    + injection Heq as <- _. exact (H evs1 x k Hevs).
  - subst evs1. now apply settled_app.
Qed.

(** The state of a vector with respect to the cell [p] after the events
    [evs]: the cell is after its elements, or it was settled. *)
Lemma spare_step this p op w u w1 evs :
  objs w !! this = Some (Some u) -> valid_op w u op ->
  run_op this op w = Ok tt w1 \/ run_op this op w = Throw w1 ->
  spared p evs ->
  after_the_elements w this p
  \/ (settled p evs /\ exists u, objs w !! this = Some (Some u) /\ size_ok u) ->
  exists evs1,
    trace w1 = trace w ++ evs1
    /\ spared p (evs ++ evs1)
    /\ (after_the_elements w1 this p
        \/ (settled p (evs ++ evs1)
            /\ exists u, objs w1 !! this = Some (Some u) /\ size_ok u)).
Proof.
  intros Hu Hvalid Hrun Hsp [Hafter|[Hset (u0 & Hu0 & Hs0)]].
  - destruct Hafter as (u1 & Hu1 & Hs & (b & Hb & Hbuf) & Hsize).
    rewrite Hu in Hu1. injection Hu1 as <-.
    destruct p as [pb s0]. simpl in Hb, Hsize. subst pb.
    assert (Hfp : footprint (spared (mkptr (Some b) s0)) this u w w1).
    { eapply (footprint_outcome _ (run_op this op));
        [apply run_op_footprint; try done|reflexivity|].
      - apply spared_nil.
      - apply spared_app.
      - apply spared_other.
      - apply spared_undo.
      - intros j x Hj. rewrite Hbuf. apply spared_own. lia.
      - destruct Hrun as [->| ->]; [left; now exists tt|now right]. }
    destruct Hfp as (o' & u' & (Ho & _ & evs1 & Ht & Hsp1 & HK) & Hu' & Hs' & _).
    exists evs1. split; [done|]. split; [now apply spared_app|].
    destruct HK as [[Hdata Hcells]|Hrel].
    + destruct (Z.le_gt_cases (size_ u') s0) as [Hle|Hgt].
      * left. exists u'. rewrite Ho. split; [done|]. split; [done|].
        split; [|done]. exists b. split; [done|]. now rewrite Hdata.
      * right. split; [|exists u'; now rewrite Ho].
        left. rewrite Hbuf in Hcells.
        destruct (Hcells s0) as (e & He & Hc); [lia|].
        exists e. split; [apply in_or_app; now right|done].
    + right. split; [|exists u'; now rewrite Ho].
      right. exists b. split; [done|]. rewrite Hbuf in Hrel.
      apply in_or_app. now right.
  - rewrite Hu in Hu0. injection Hu0 as <-.
    assert (Hfp : footprint (fun _ => True) this u w w1).
    { eapply (footprint_outcome _ (run_op this op));
        [apply run_op_footprint; try done|reflexivity|].
      destruct Hrun as [->| ->]; [left; now exists tt|now right]. }
    destruct Hfp as (o' & u' & (Ho & _ & evs1 & Ht & _) & Hu' & Hs' & _).
    exists evs1. split; [done|]. split; [now apply spared_settled|].
    right. split; [now apply settled_app|]. exists u'. now rewrite Ho.
Qed.

Lemma calls_spared this p ops : forall w w',
  calls this w ops w' -> forall evs,
  spared p evs ->
  after_the_elements w this p
  \/ (settled p evs /\ exists u, objs w !! this = Some (Some u) /\ size_ok u) ->
  exists evs',
    trace w' = trace w ++ evs'
    /\ spared p (evs ++ evs')
    /\ (after_the_elements w' this p
        \/ (settled p (evs ++ evs')
            /\ exists u, objs w' !! this = Some (Some u) /\ size_ok u)).
Proof.
  intros w w' Hcalls.
  induction Hcalls as [w|w op ops u w1 w2 Hu Hvalid Hrun Hcalls IH
                        |w op ops u w1 w2 Hu Hvalid Hrun Hcalls IH];
    intros evs Hsp Hst.
  - exists []. rewrite !app_nil_r. auto.
  - destruct (spare_step this p op w u w1 evs Hu Hvalid (or_introl Hrun) Hsp Hst)
      as (evs1 & Ht1 & Hsp1 & Hst1).
    destruct (IH _ Hsp1 Hst1) as (evs2 & Ht2 & Hsp2 & Hst2).
    exists (evs1 ++ evs2). rewrite !app_assoc, <- Ht1. rewrite <- !app_assoc in *.
    auto.
  - destruct (spare_step this p op w u w1 evs Hu Hvalid (or_intror Hrun) Hsp Hst)
      as (evs1 & Ht1 & Hsp1 & Hst1).
    destruct (IH _ Hsp1 Hst1) as (evs2 & Ht2 & Hsp2 & Hst2).
    exists (evs1 ++ evs2). rewrite !app_assoc, <- Ht1. rewrite <- !app_assoc in *.
    auto.
Qed.

(** X21: a vector never runs a destructor on what is in a cell after its
    elements.  Let [p] be such a cell of the vector (a spare cell: one of
    those a move assignment left the elements of the other vector in, the
    one of an element that [PopBack] destroyed, ...).  Whatever operations
    are then called on the vector, returning or throwing, and when its
    destructor runs after them: a destructor runs on [p] only after a new
    object was constructed in [p], or after the block was released. *)
Theorem spare_cells_are_never_destroyed w this p ops w' :
  after_the_elements w this p -> calls this w ops w' ->
  exists evs,
    trace w' = trace w ++ evs
    /\ spared p evs
    /\ forall w'', Vector_delete this w' = Ok tt w'' ->
         exists evs', trace w'' = trace w ++ evs ++ evs'
                      /\ spared p (evs ++ evs').
Proof.
  intros Hafter Hcalls.
  destruct (calls_spared this p ops w w' Hcalls [] (spared_nil p) (or_introl Hafter))
    as (evs & Ht & Hsp & Hst).
  simpl in Hsp, Hst. exists evs. split; [done|]. split; [done|].
  intros w'' Hdel. destruct Hst as [Hafter'|[Hset (u & Hu & Hs)]].
  - destruct Hafter' as (u & Hu & Hs & (b & Hb & Hbuf) & Hsize).
    destruct p as [pb s0]. simpl in Hb, Hsize. subst pb.
    pose proof (Vector_delete_footprint (spared (mkptr (Some b) s0))
                  (spared_nil _) (spared_app _) (spared_other _)
                  this u w' Hu) as Hfp.
    unfold wp in Hfp. rewrite Hdel in Hfp.
    destruct Hfp as (evs' & Ht' & Hsp').
    { intros j x Hj. rewrite Hbuf. apply spared_own. lia. }
    exists evs'. split; [now rewrite Ht', Ht, app_assoc|]. now apply spared_app.
  - pose proof (Vector_delete_footprint (fun _ => True) I (fun _ _ _ _ => I)
                  (fun _ _ => I) this u w' Hu) as Hfp.
    unfold wp in Hfp. rewrite Hdel in Hfp.
    destruct Hfp as (evs' & Ht' & _); [done|].
    exists evs'. split; [now rewrite Ht', Ht, app_assoc|]. now apply spared_settled.
Qed.

End Never.

(** * Calls that violate a precondition *)

Section Violations.
Context {E : Element} {B : Build} {F : FreeStore}.

Implicit Types (rest : list slot) (l : list T) (buf : option nat)
  (cap index : Z).

Lemma nothrows_assert_ c : nothrows (assert_ c).
Proof. intros w w'. unfold assert_. repeat case_match; discriminate. Qed.

Lemma nothrows_get_obj this : nothrows (get_obj this).
Proof. intros w w'. unfold get_obj. repeat case_match; discriminate. Qed.

Lemma nothrows_put_obj this u : nothrows (put_obj this u).
Proof. intros w w'. unfold put_obj. repeat case_match; discriminate. Qed.

Lemma nothrows_set_size_ this s : nothrows (set_size_ this s).
Proof.
  unfold set_size_. apply nothrows_bind; [apply nothrows_get_obj|].
  intros u. apply nothrows_put_obj.
Qed.

Lemma nothrows_begin_ this : nothrows (begin_ this).
Proof.
  unfold begin_, get_data_.
  repeat (apply nothrows_bind; [|intros ?]);
    first [apply nothrows_get_obj|apply nothrows_ret].
Qed.

Lemma nothrows_index_of pos first : nothrows (index_of pos first).
Proof.
  intros w w'. unfold index_of, ret, undefined. repeat case_match; discriminate.
Qed.

Lemma nothrows_range_length first last : nothrows (range_length first last).
Proof.
  intros w w'. unfold range_length, ret, undefined.
  repeat case_match; discriminate.
Qed.

Lemma nothrows_index_op this index : nothrows (index_op this index).
Proof.
  unfold index_op. apply nothrows_bind; [apply nothrows_get_obj|]. intros u.
  apply nothrows_bind; [apply nothrows_assert_|]. intros _.
  apply nothrows_RawMemory_index.
Qed.

Lemma nothrows_PopBack this : nothrows (PopBack this).
Proof.
  unfold PopBack. apply nothrows_bind; [apply nothrows_get_obj|]. intros u.
  apply nothrows_bind; [apply nothrows_assert_|]. intros _.
  apply nothrows_bind; [apply nothrows_RawMemory_plus|]. intros p.
  apply nothrows_bind; [apply nothrows_destroy_at|]. intros _.
  apply nothrows_set_size_.
Qed.

Lemma load_cases p w :
  load p w = Undefined \/ exists s, load p w = Ok s w.
Proof. unfold load. repeat case_match; eauto. Qed.

Lemma read_no_object {A} p (k : T -> M A) w :
  no_object p w -> (v <- read p ;; k v) w = Undefined.
Proof.
  intros Hp. unfold read, bind.
  destruct (load_cases p w) as [->|[s Hs]]; [done|]. rewrite Hs.
  destruct s as [|v]; [done|]. now destruct (Hp v).
Qed.

(** After [destroy_at(p)] there is no object in the cell [p]. *)
Lemma destroy_at_no_object p w w' :
  destroy_at p w = Ok tt w' -> no_object p w'.
Proof.
  unfold destroy_at, read, bind, load, store, emit, ret, undefined.
  intros H v. unfold load.
  destruct (base p) as [b|]; [|done].
  destruct (block w b) as [cells|] eqn:Hb; [|done].
  destruct (0 <=? off p) eqn:H0; [|done].
  destruct (cells !! Z.to_nat (off p)) as [[|x]|] eqn:Hc; try done.
  rewrite Hb in H. cbn [andb] in H.
  destruct (off p <? Z.of_nat (length cells)) eqn:Hlt; [|done].
  injection H as <-.
  assert (Hbl : (b < length (heap w))%nat).
  { unfold block in Hb. destruct (heap w !! b) eqn:Hh; [|done].
    now apply lookup_lt_Some in Hh. }
  apply lookup_lt_Some in Hc as Hlen.
  unfold block, add_trace, set_block, set_heap. cbn [heap].
  rewrite list_lookup_insert_eq by done.
  now rewrite list_lookup_insert_eq by done.
Qed.

Lemma no_object_ptr_add_0 p w : no_object p w -> no_object (ptr_add p 0) w.
Proof.
  intros H v. unfold load, ptr_add in *. cbn [base off].
  rewrite Z.add_0_r. apply H.
Qed.

Lemma bind_not_Throw {A C} (m : M A) (k : A -> M C) w w' :
  (forall w1, m w <> Throw w1) -> (forall a, nothrows (k a)) ->
  bind m k w <> Throw w'.
Proof.
  intros Hm Hk. unfold bind. destruct (m w) as [a w1|w1| |]; try done.
  - apply Hk.
  - now destruct (Hm w1).
Qed.

(** An assignment to a cell without an object does not get as far as the
    assignment operator. *)
Lemma move_assign_no_object p src w w' :
  no_object p w -> move_assign p src w <> Throw w'.
Proof.
  intros Hp. unfold move_assign. unfold bind at 1.
  pose proof (read_ref_inv src w) as Hinv.
  destruct (read_ref src w) as [v w1|w1| |]; try done. subst w1.
  now rewrite read_no_object.
Qed.

Lemma move_loop_no_object first d_first n w w' :
  no_object d_first w -> move_loop first d_first 0 n w <> Throw w'.
Proof.
  intros Hp. destruct n as [|n]; [done|]. cbn [move_loop]. unfold bind.
  pose proof (move_assign_no_object (ptr_add d_first 0) (At (ptr_add first 0)) w)
    as Hm.
  destruct (move_assign _ _ w) as [[] w1|w1| |] eqn:Hrun; try done.
  - exfalso. revert Hrun. unfold move_assign. unfold bind at 1.
    pose proof (read_ref_inv (At (ptr_add first 0)) w) as Hinv.
    destruct (read_ref _ w) as [v w2|w2| |]; try done. subst w2.
    now rewrite read_no_object by now apply no_object_ptr_add_0.
  - now destruct (Hm w1 (no_object_ptr_add_0 _ _ Hp)).
Qed.

Lemma std_move_no_object first last d_first w w' :
  no_object d_first w -> std_move first last d_first w <> Throw w'.
Proof.
  intros Hp. unfold std_move. unfold bind at 1.
  destruct (range_length first last w) as [n w1|w1| |] eqn:Hn; try done.
  - assert (w1 = w) as ->.
    { revert Hn. unfold range_length, ret, undefined.
      repeat case_match; congruence. }
    apply bind_not_Throw; [|intros _; apply nothrows_ret].
    intros w1. now apply move_loop_no_object.
  - now destruct (nothrows_range_length first last w w1).
Qed.

Lemma RawMemory_plus_cases d offset w :
  RawMemory_plus d offset w = AssertFail
  \/ RawMemory_plus d offset w = Ok (mkptr (buffer_ d) offset) w.
Proof.
  unfold RawMemory_plus, bind, assert_, ret.
  destruct NDEBUG; [now right|]. destruct (offset <=? capacity_ d); auto.
Qed.

(** [Erase] never throws: at a position where something is to be moved,
    it does not get as far as the assignment operator of the element. *)
Lemma nothrows_Erase this pos : nothrows (Erase this pos).
Proof.
  unfold Erase. apply nothrows_bind; [apply nothrows_begin_|]. intros first.
  apply nothrows_bind; [apply nothrows_index_of|]. intros index.
  apply nothrows_bind; [apply nothrows_get_obj|]. intros u.
  intros w w'. unfold bind at 1.
  destruct (RawMemory_plus_cases (data_ u) index w) as [->| ->]; [done|].
  unfold bind at 1.
  destruct (destroy_at _ w) as [[] w1|w1| |] eqn:Hd; try done.
  2: { now apply nothrows_destroy_at in Hd. }
  apply destroy_at_no_object in Hd.
  apply bind_not_Throw.
  - intros w2. destruct (index <? wrap (size_ u - 1)); [|done].
    unfold bind at 1.
    destruct (RawMemory_plus_cases (data_ u) index w1) as [->| ->]; [done|].
    unfold bind at 1.
    destruct (RawMemory_plus_cases (data_ u) (size_ u) w1) as [->| ->]; [done|].
    unfold bind at 1.
    destruct (RawMemory_plus_cases (data_ u) index w1) as [->| ->]; [done|].
    apply bind_not_Throw; [|intros _; apply nothrows_ret].
    intros w3. now apply std_move_no_object.
  - intros _. apply nothrows_bind; [apply nothrows_set_size_|]. intros _.
    apply nothrows_bind; [apply nothrows_begin_|]. intros b. apply nothrows_ret.
Qed.

(** The cells after the elements: what [rest] says of them.  Beyond the
    block there is no object. *)
Lemma no_object_spare w this buf cap l rest index :
  repr w this buf cap l rest -> Z.of_nat (length l) <= index ->
  (forall v, rest !! Z.to_nat (index - Z.of_nat (length l)) <> Some (Live v)) ->
  no_object (mkptr buf index) w.
Proof.
  intros [_ _ _ Hblock] Hi Hrest v. unfold load. cbn [base off].
  destruct buf as [b|]; [|done]. unfold block. rewrite Hblock.
  destruct (0 <=? index); [|done].
  rewrite lookup_app_r by (rewrite length_fmap; lia).
  rewrite length_fmap.
  replace (Z.to_nat index - length l)%nat
    with (Z.to_nat (index - Z.of_nat (length l))) by lia.
  destruct (rest !! _) as [s|] eqn:Hs; [|done].
  intros H. injection H as ->. now destruct (Hrest v).
Qed.

Lemma index_op_beyond w this u index :
  objs w !! this = Some (Some u) -> size_ u <= index ->
  index_op this index w
  = if NDEBUG then Ok (mkptr (buffer_ (data_ u)) index) w else AssertFail.
Proof.
  intros Hu Hi. unfold index_op, bind, get_obj. rewrite Hu.
  unfold RawMemory_index, bind, assert_, ret.
  destruct NDEBUG; [done|].
  now destruct (Z.ltb_spec index (size_ u)); [lia|].
Qed.

(** [Erase] at a position that holds no object. *)
Lemma Erase_no_object w this buf cap l rest index :
  repr w this buf cap l rest -> 0 <= index < 2 ^ 64 ->
  no_object (mkptr buf index) w ->
  Erase this (mkptr buf index) w
  = if NDEBUG then Undefined
    else if index <=? cap then Undefined else AssertFail.
Proof.
  intros Hrepr Hi Hp. unfold Erase.
  rewrite (bind_Ok _ _ _ _ _ (begin_repr _ _ _ _ _ _ Hrepr)).
  rewrite (bind_Ok _ _ _ _ _ (index_of_begin _ _ _ Hi)).
  destruct Hrepr as [Hobj _ _ _].
  unfold bind at 1. unfold get_obj. rewrite Hobj. cbn [data_ size_].
  unfold RawMemory_plus. cbn [capacity_ buffer_].
  unfold bind at 1. unfold bind at 1. unfold assert_, ret.
  assert (Hd : forall {A} (k : unit -> M A),
            bind (destroy_at (mkptr buf index)) k w = Undefined).
  { intros A k. unfold destroy_at. unfold bind at 1.
    now rewrite read_no_object. }
  destruct NDEBUG; [apply Hd|].
  destruct (index <=? cap); [apply Hd|done].
Qed.

(** C8, amended: a call that violates a precondition never throws (there
    is no recoverable error path), and this is what it does at an index or
    position [index >= Size()] whose cell holds no object.  [operator[]]
    fails an assertion in a build with assertions; in a build without, the
    access through the reference it returns is undefined.  [PopBack] on an
    empty vector fails an assertion or, without assertions, is undefined.
    [Erase] has no assertion of its own: the only check on its position is
    the one of [RawMemory::operator+], against the capacity.  So [Erase] is
    undefined without assertions and, up to [begin() + Capacity()]
    ([end()] for instance), with assertions too; beyond, an assertion
    fails. *)
Theorem precondition_violations w this buf cap l rest index :
  repr w this buf cap l rest -> Z.of_nat (length l) <= index < 2 ^ 64 ->
  (forall v, rest !! Z.to_nat (index - Z.of_nat (length l)) <> Some (Live v)) ->
  (NDEBUG = false -> index_op this index w = AssertFail)
  /\ (NDEBUG = true -> (p <- index_op this index ;; read p) w = Undefined)
  /\ (l = [] -> PopBack this w = if NDEBUG then Undefined else AssertFail)
  /\ Erase this (mkptr buf index) w
     = (if NDEBUG then Undefined
        else if index <=? cap then Undefined else AssertFail)
  /\ forall i pos w',
       index_op this i w <> Throw w'
       /\ PopBack this w <> Throw w'
       /\ Erase this pos w <> Throw w'.
Proof.
  intros Hrepr Hi Hrest.
  pose proof (no_object_spare _ _ _ _ _ _ _ Hrepr (proj1 Hi) Hrest) as Hp.
  pose proof (repr_obj _ _ _ _ _ _ Hrepr) as Hobj.
  pose proof (index_op_beyond _ _ _ index Hobj) as Hindex.
  cbn [size_ data_ buffer_] in Hindex.
  split; [|split; [|split; [|split]]].
  - intros Hdebug. rewrite Hindex by lia. now rewrite Hdebug.
  - intros Hrelease. unfold bind at 1. rewrite Hindex by lia. rewrite Hrelease.
    unfold read, bind.
    destruct (load_cases (mkptr buf index) w) as [->|[s Hs]]; [done|].
    rewrite Hs. destruct s as [|v]; [done|]. now destruct (Hp v).
  - intros ->. now apply (PopBack_empty_eq _ _ _ Hobj).
  - apply (Erase_no_object _ _ _ _ _ _ _ Hrepr); [lia|exact Hp].
  - intros i pos w'. split; [|split].
    + apply nothrows_index_op.
    + apply nothrows_PopBack.
    + apply nothrows_Erase.
Qed.

End Violations.

(** * The claims at concrete vectors *)

Section Examples.
Local Existing Instance debug_build.
Local Existing Instance Moved.
Local Existing Instance store_4GiB.

(** C1 at [v.PushBack(v[0])] for the full vector [v] that holds 7, of an
    element type with a [noexcept] move constructor: the element is moved
    to the new block before the argument is read, so that the copy is
    made of the moved-from object.  Afterwards [v[1]] is 0, not the 7 that
    was pushed. *)
Theorem push_back_own_element_evaluated :
  (v <- Vector_default ;;
   PushBack v (Ext 7) ;;
   p <- index_op v 0 ;;
   PushBack v (At p) ;;
   q <- index_op v 1 ;;
   read q) empty_world
  = Ok 0 (mkworld
      [Some (mkVector (mkRawMemory (Some 1%nat) 2) 2)]
      [None; Some [Live 7; Live 0]]
      [EvAllocate 0 1; EvCopyConstruct (mkptr (Some 0%nat) 0) 7;
       EvAllocate 1 2; EvMoveConstruct (mkptr (Some 1%nat) 0) 7;
       EvCopyConstruct (mkptr (Some 1%nat) 1) 0;
       EvDestroy (mkptr (Some 0%nat) 0) 0; EvDeallocate 0]).
Proof. reflexivity. Qed.

(** C4 at [v.Insert(v.begin() + 1, v[0])] for the full vector [v] that
    holds 7, 8 (the vector 1): the element 7 is moved to the new block
    before the argument is read; the vector holds 7, 0, 8 afterwards, not
    7, 7, 8. *)
Theorem insert_own_element_reallocating_evaluated :
  (p <- index_op 1 0 ;;
   b <- begin_ 1 ;;
   Insert 1 (ptr_add b 1) (At p)) (@world_two Moved 1 2 3 7 8)
  = Ok (mkptr (Some 2%nat) 1) (mkworld
      [Some (mkVector (mkRawMemory (Some 0%nat) 4) 3);
       Some (mkVector (mkRawMemory (Some 2%nat) 4) 3)]
      [Some [Live 1; Live 2; Live 3; Raw]; None;
       Some [Live 7; Live 0; Live 8; Raw]]
      [EvAllocate 2 4; EvMoveConstruct (mkptr (Some 2%nat) 0) 7;
       EvCopyConstruct (mkptr (Some 2%nat) 1) 0;
       EvMoveConstruct (mkptr (Some 2%nat) 2) 8;
       EvDestroy (mkptr (Some 1%nat) 0) 0; EvDestroy (mkptr (Some 1%nat) 1) 0;
       EvDeallocate 1]).
Proof. reflexivity. Qed.

(** C5 at [v.Erase(v.begin())] for [v] holding 1, 2, 3: the element 1 is
    destroyed, then 2 is move-assigned to the destroyed object. *)
Theorem erase_first_element_evaluated :
  Erase 0 (mkptr (Some 0%nat) 0) (@world_123 Moved 1 2 3) = Undefined.
Proof. reflexivity. Qed.

Lemma insert_own_element_witness :
  exists w' evs,
    Insert 0 (mkptr (Some 0%nat) 0) (At (mkptr (Some 0%nat) 2)) (@world_123 Moved 1 2 3)
    = Ok (mkptr (Some 0%nat) 0) w'
    /\ repr w' 0 (Some 0%nat) 4 [3; 1; 2; 3] []
    /\ trace w' = EvTempConstruct 3 :: evs
    /\ element_is w' 0 0 3.
Proof.
  apply (insert_own_element (E := Moved) (@world_123 Moved 1 2 3)
           0 0 4 [1; 2; 3] Raw [] 0 2 3).
  - split; reflexivity.
  - simpl. lia.
  - reflexivity.
  - repeat constructor.
Defined.

Lemma copy_assignment_reuses_storage_witness :
  exists w',
    copy_assignment 0 1 (@world_two Moved 1 2 3 7 8) = Ok tt w'
    /\ trace w' =
         [EvCopyAssign (mkptr (Some 0%nat) 0) 7; EvCopyAssign (mkptr (Some 0%nat) 1) 8;
          EvDestroy (mkptr (Some 0%nat) 2) 3]
    /\ Size 0 w' = Ok 2 w'
    /\ Capacity 0 w' = Ok 4 w'
    /\ begin_ 0 w' = Ok (mkptr (Some 0%nat) 0) w'
    /\ (forall (j : nat) y, ([7; 8] : list Z) !! j = Some y -> element_is w' 0 j y)
    /\ copy_assignment 0 0 (@world_two Moved 1 2 3 7 8)
       = Ok tt (@world_two Moved 1 2 3 7 8).
Proof.
  apply (copy_assignment_reuses_storage (E := Moved) (@world_two Moved 1 2 3 7 8)
           0 1 (Some 0%nat) 4 [1; 2; 3] [Raw] (Some 1%nat) 2 [7; 8] []).
  - split; reflexivity.
  - split; reflexivity.
  - discriminate.
  - intros b Hb. injection Hb as <-. discriminate.
  - simpl. lia.
  - repeat constructor.
Defined.

(** [PushBack(13)] onto the full vector that holds 1, when relocations
    move: after the exception the element of the vector is moved-from (0),
    and the object constructed in the new block 1 was never destroyed. *)
Lemma push_back_throw_moved :
  (v <- Vector_default ;; PushBack v (Ext 1) ;; PushBack v (Ext 13)) empty_world
  = Throw (mkworld
      [Some (mkVector (mkRawMemory (Some 0%nat) 1) 1)]
      [Some [Live 0]; None]
      [EvAllocate 0 1; EvCopyConstruct (mkptr (Some 0%nat) 0) 1;
       EvAllocate 1 2; EvMoveConstruct (mkptr (Some 1%nat) 0) 1;
       EvDeallocate 1]).
Proof. reflexivity. Qed.

(** C3 at [a = std::move(b)] for [a] holding 1, 2, 3 in the block 0 and [b]
    holding 7, 8, followed by the destruction of [b]: the block 0 is
    released and no destructor has run for 1, 2 and 3. *)
Theorem move_assignment_evaluated :
  (move_assignment 0 1 ;; Vector_delete 1) (@world_two Moved 1 2 3 7 8)
  = Ok tt (mkworld
      [Some (mkVector (mkRawMemory (Some 1%nat) 2) 2); None]
      [None; Some [Live 7; Live 8]]
      [EvDeallocate 0]).
Proof. reflexivity. Qed.

(** C7, as stated, at the move construction of a vector from the vector 0:
    the capacity of the vector 0 goes from 4 to 0. *)
Lemma move_construction_decreases_capacity :
  Capacity 0 (@world_123 Moved 1 2 3) = Ok 4 (@world_123 Moved 1 2 3)
  /\ exists w', (u <- Vector_move 0 ;; Capacity 0) (@world_123 Moved 1 2 3) = Ok 0 w'.
Proof. split; [reflexivity|]. eexists. reflexivity. Qed.

(** C8, as stated, at [Erase(end())] in a build with assertions, for the
    vector that holds 1, 2, 3: no assertion fails, the behaviour is
    undefined. *)
Lemma erase_at_end_no_assertion :
  NDEBUG = false
  /\ (e <- end_ 0 ;; Erase 0 e) (@world_123 Moved 1 2 3) = Undefined.
Proof. split; reflexivity. Qed.

End Examples.

Section ExamplesCopied.
Local Existing Instance debug_build.
Local Existing Instance Copied.
Local Existing Instance store_4GiB.

(** C2 at [PushBack(13)] onto the full vector that holds 1, for an element
    whose copy constructor throws on 13 and whose relocations copy: the
    vector is as before, but the copy of 1 that was constructed in the new
    block 1 is not destroyed before that block is released. *)
Theorem push_back_throw_evaluated :
  (v <- Vector_default ;; PushBack v (Ext 1) ;; PushBack v (Ext 13)) empty_world
  = Throw (mkworld
      [Some (mkVector (mkRawMemory (Some 0%nat) 1) 1)]
      [Some [Live 1]; None]
      [EvAllocate 0 1; EvCopyConstruct (mkptr (Some 0%nat) 0) 1;
       EvAllocate 1 2; EvCopyConstruct (mkptr (Some 1%nat) 0) 1;
       EvDeallocate 1]).
Proof. reflexivity. Qed.

End ExamplesCopied.

(** * The further properties at concrete vectors *)

(** The hypotheses on the free store, for [store_4GiB]. *)
Ltac serves_tac :=
  split; [vm_compute; reflexivity
         |intros ? ? ?; apply Z.leb_le; simpl in *; lia].
Ltac allocates_tac := split; vm_compute; reflexivity.

Section MoreExamples.
Local Existing Instance debug_build.
Local Existing Instance Moved.
Local Existing Instance store_4GiB.

Lemma destructor_destroys_the_elements_witness :
  exists w',
    Vector_delete 0 (@world_123 Moved 1 2 3) = Ok tt w'
    /\ trace w' =
         [EvDestroy (mkptr (Some 0%nat) 0) 1; EvDestroy (mkptr (Some 0%nat) 1) 2;
          EvDestroy (mkptr (Some 0%nat) 2) 3; EvDeallocate 0]
    /\ objs w' !! 0%nat = Some None
    /\ (forall b, Some 0%nat = Some b -> heap w' !! b = Some None)
    /\ (forall that, that <> 0%nat ->
          objs w' !! that = objs (@world_123 Moved 1 2 3) !! that).
Proof.
  apply (destructor_destroys_the_elements (E := Moved) (@world_123 Moved 1 2 3)
           0 (Some 0%nat) 4 [1; 2; 3] [Raw]).
  split; reflexivity.
Defined.

Lemma move_constructor_takes_the_block_witness :
  exists new w',
    Vector_move 0 (@world_123 Moved 1 2 3) = Ok new w'
    /\ new = 1%nat
    /\ repr w' new (Some 0%nat) 4 [1; 2; 3] [Raw]
    /\ repr w' 0 None 0 [] []
    /\ Size 0 w' = Ok 0 w' /\ Capacity 0 w' = Ok 0 w'
    /\ heap w' = heap (@world_123 Moved 1 2 3)
    /\ trace w' = [].
Proof.
  apply (move_constructor_takes_the_block (E := Moved) (@world_123 Moved 1 2 3)
           0 (Some 0%nat) 4 [1; 2; 3] [Raw]).
  split; reflexivity.
Defined.

Lemma swap_exchanges_the_vectors_witness :
  exists w',
    Swap 0 1 (@world_two Moved 1 2 3 7 8) = Ok tt w'
    /\ repr w' 0 (Some 1%nat) 2 [7; 8] []
    /\ repr w' 1 (Some 0%nat) 4 [1; 2; 3] [Raw]
    /\ heap w' = heap (@world_two Moved 1 2 3 7 8)
    /\ trace w' = []
    /\ (forall that, that <> 0%nat -> that <> 1%nat ->
          objs w' !! that = objs (@world_two Moved 1 2 3 7 8) !! that)
    /\ Swap 0 1 w' = Ok tt (@world_two Moved 1 2 3 7 8)
    /\ Swap 0 0 (@world_two Moved 1 2 3 7 8) = Ok tt (@world_two Moved 1 2 3 7 8).
Proof.
  apply (swap_exchanges_the_vectors (E := Moved) (@world_two Moved 1 2 3 7 8)
           0 1 (Some 0%nat) 4 [1; 2; 3] [Raw] (Some 1%nat) 2 [7; 8] []).
  - split; reflexivity.
  - split; reflexivity.
  - discriminate.
Defined.

Lemma move_assignment_exchanges_the_blocks_witness :
  exists w',
    move_assignment 0 1 (@world_two Moved 1 2 3 7 8) = Ok tt w'
    /\ repr w' 0 (Some 1%nat) 2 [7; 8] []
    /\ repr w' 1 (Some 0%nat) 4 [] [Live 1; Live 2; Live 3; Raw]
    /\ heap w' = heap (@world_two Moved 1 2 3 7 8)
    /\ trace w' = []
    /\ (exists w'', Vector_delete 1 w' = Ok tt w'' /\ trace w'' = [EvDeallocate 0])
    /\ move_assignment 0 0 (@world_two Moved 1 2 3 7 8)
       = Ok tt (@world_two Moved 1 2 3 7 8).
Proof.
  apply (move_assignment_exchanges_the_blocks (E := Moved)
           (@world_two Moved 1 2 3 7 8)
           0 1 (Some 0%nat) 4 [1; 2; 3] [Raw] (Some 1%nat) 2 [7; 8] []).
  - split; reflexivity.
  - split; reflexivity.
  - discriminate.
Defined.

Lemma pop_back_removes_the_last_witness :
  exists w',
    PopBack 0 (@world_123 Moved 1 2 3) = Ok tt w'
    /\ trace w' = [EvDestroy (mkptr (Some 0%nat) 2) 3]
    /\ Size 0 w' = Ok 2 w'
    /\ Capacity 0 w' = Ok 4 w'
    /\ begin_ 0 w' = Ok (mkptr (Some 0%nat) 0) w'
    /\ (forall (j : nat) y, ([1; 2] : list Z) !! j = Some y -> element_is w' 0 j y).
Proof.
  apply (pop_back_removes_the_last (E := Moved) (@world_123 Moved 1 2 3)
           0 (Some 0%nat) 4 [1; 2] 3 [Raw]).
  split; reflexivity.
Defined.

(** [Reserve(2)], [Reserve(2^61)] and [Reserve(6)] on the vector that holds
    1, 2, 3 in four cells, with elements of 4 bytes and a free store of
    [2^32] bytes. *)
Lemma reserve_keeps_the_elements_witness :
  Reserve 0 2 (@world_123 Moved 1 2 3) = Ok tt (@world_123 Moved 1 2 3)
  /\ Reserve 0 (2 ^ 61) (@world_123 Moved 1 2 3) = Throw (@world_123 Moved 1 2 3)
  /\ exists w',
       Reserve 0 6 (@world_123 Moved 1 2 3) = Ok tt w'
       /\ Size 0 w' = Ok 3 w'
       /\ Capacity 0 w' = Ok 6 w'
       /\ (forall (j : nat) y, ([1; 2; 3] : list Z) !! j = Some y ->
             element_is w' 0 j y)
       /\ trace w' =
            [EvAllocate 1 6;
             EvMoveConstruct (mkptr (Some 1%nat) 0) 1;
             EvMoveConstruct (mkptr (Some 1%nat) 1) 2;
             EvMoveConstruct (mkptr (Some 1%nat) 2) 3;
             EvDestroy (mkptr (Some 0%nat) 0) 0; EvDestroy (mkptr (Some 0%nat) 1) 0;
             EvDestroy (mkptr (Some 0%nat) 2) 0; EvDeallocate 0]
       /\ begin_ 0 w' = Ok (mkptr (Some 1%nat) 0) w'
       /\ forall b, Some 0%nat = Some b -> heap w' !! b = Some None.
Proof.
  split; [|split].
  - apply (reserve_keeps_the_elements (E := Moved) (@world_123 Moved 1 2 3)
             0 (Some 0%nat) 4 [1; 2; 3] [Raw] 2).
    + split; reflexivity.
    + lia.
    + lia.
  - apply (reserve_keeps_the_elements (E := Moved) (@world_123 Moved 1 2 3)
             0 (Some 0%nat) 4 [1; 2; 3] [Raw] (2 ^ 61)).
    + split; reflexivity.
    + lia.
    + lia.
    + reflexivity.
  - apply (reserve_keeps_the_elements (E := Moved) (@world_123 Moved 1 2 3)
             0 (Some 0%nat) 4 [1; 2; 3] [Raw] 6).
    + split; reflexivity.
    + lia.
    + lia.
    + allocates_tac.
    + repeat constructor.
Defined.

Lemma push_back_construction_throws_witness :
  exists w',
    EmplaceBack 1 (CopyOf (@Ext Moved 13)) (@world_two Moved 1 2 3 7 8) = Throw w'
    /\ (forall value, CopyOf (@Ext Moved 13) = CopyOf value ->
          PushBack 1 value (@world_two Moved 1 2 3 7 8) = Throw w')
    /\ (forall value, CopyOf (@Ext Moved 13) = MoveOf value ->
          PushBack_rv 1 value (@world_two Moved 1 2 3 7 8) = Throw w')
    /\ Size 1 w' = Ok 2 w'
    /\ Capacity 1 w' = Ok 2 w'
    /\ begin_ 1 w' = Ok (mkptr (Some 1%nat) 0) w'
    /\ (forall (j : nat) y, ([0; 0] : list Z) !! j = Some y -> element_is w' 1 j y)
    /\ trace w' =
         [EvAllocate 2 4; EvMoveConstruct (mkptr (Some 2%nat) 0) 7;
          EvMoveConstruct (mkptr (Some 2%nat) 1) 8; EvDeallocate 2].
Proof.
  apply (push_back_construction_throws (E := Moved) (@world_two Moved 1 2 3 7 8)
           1 (Some 1%nat) 2 [7; 8] (CopyOf (@Ext Moved 13))).
  - split; reflexivity.
  - now constructor.
  - repeat constructor.
  - simpl. lia.
  - allocates_tac.
Defined.

Lemma copy_constructor_copies_the_elements_witness :
  exists new w',
    Vector_copy 0 (@world_123 Moved 1 2 3) = Ok new w'
    /\ new = 1%nat
    /\ repr w' new (Some 1%nat) 3 [1; 2; 3] []
    /\ repr w' 0 (Some 0%nat) 4 [1; 2; 3] [Raw]
    /\ trace w' =
         [EvAllocate 1 3; EvCopyConstruct (mkptr (Some 1%nat) 0) 1;
          EvCopyConstruct (mkptr (Some 1%nat) 1) 2;
          EvCopyConstruct (mkptr (Some 1%nat) 2) 3].
Proof.
  apply (copy_constructor_copies_the_elements (E := Moved)
           (@world_123 Moved 1 2 3) 0 (Some 0%nat) 4 [1; 2; 3] [Raw]).
  - split; reflexivity.
  - repeat constructor.
  - intros _. allocates_tac.
Defined.

Lemma copy_constructor_strong_guarantee_witness :
  exists w',
    Vector_copy 0 (@world_123 Moved 1 2 13) = Throw w'
    /\ objs w' = objs (@world_123 Moved 1 2 13)
    /\ heap w' = heap (@world_123 Moved 1 2 13) ++ [None]
    /\ repr w' 0 (Some 0%nat) 4 [1; 2; 13] [Raw]
    /\ trace w' =
         [EvAllocate 1 3; EvCopyConstruct (mkptr (Some 1%nat) 0) 1;
          EvCopyConstruct (mkptr (Some 1%nat) 1) 2;
          EvDestroy (mkptr (Some 1%nat) 0) 1; EvDestroy (mkptr (Some 1%nat) 1) 2;
          EvDeallocate 1].
Proof.
  apply (copy_constructor_strong_guarantee (E := Moved)
           (@world_123 Moved 1 2 13) 0 (Some 0%nat) 4 [1; 2] 13 [] [Raw]).
  - split; reflexivity.
  - repeat constructor.
  - reflexivity.
  - allocates_tac.
Defined.

Lemma copy_assignment_to_smaller_capacity_witness :
  exists w',
    copy_assignment 1 0 (@world_two Moved 1 2 3 7 8) = Ok tt w'
    /\ Size 1 w' = Ok 3 w'
    /\ Capacity 1 w' = Ok 3 w'
    /\ (forall (j : nat) y, ([1; 2; 3] : list Z) !! j = Some y -> element_is w' 1 j y)
    /\ repr w' 0 (Some 0%nat) 4 [1; 2; 3] [Raw]
    /\ (forall b, Some 1%nat = Some b -> heap w' !! b = Some None)
    /\ trace w' =
         [EvAllocate 2 3; EvCopyConstruct (mkptr (Some 2%nat) 0) 1;
          EvCopyConstruct (mkptr (Some 2%nat) 1) 2;
          EvCopyConstruct (mkptr (Some 2%nat) 2) 3;
          EvDestroy (mkptr (Some 1%nat) 0) 7; EvDestroy (mkptr (Some 1%nat) 1) 8;
          EvDeallocate 1].
Proof.
  apply (copy_assignment_to_smaller_capacity (E := Moved)
           (@world_two Moved 1 2 3 7 8)
           1 0 (Some 1%nat) 2 [7; 8] [] 0%nat 4 [1; 2; 3] [Raw]).
  - split; reflexivity.
  - split; reflexivity.
  - discriminate.
  - discriminate.
  - simpl. lia.
  - repeat constructor.
  - allocates_tac.
Defined.

(** [Vector(0)], [Vector(2^61)] and [Vector(2)] for an element with a
    default constructor, and [Vector(2)] for one whose default constructor
    throws. *)
Lemma sized_constructor_value_initializes_witness :
  Vector_sized 0 (empty_world (E := Moved))
  = Ok 0%nat (set_objs [Some (mkVector (mkRawMemory None 0) 0)]
                (empty_world (E := Moved)))
  /\ Vector_sized (2 ^ 61) (empty_world (E := Moved))
     = Throw (empty_world (E := Moved))
  /\ (exists new w',
        Vector_sized 2 (empty_world (E := Moved)) = Ok new w'
        /\ new = 0%nat
        /\ repr w' new (Some 0%nat) 2 [0; 0] []
        /\ trace w' =
             [EvAllocate 0 2; EvConstruct (mkptr (Some 0%nat) 0) 0;
              EvConstruct (mkptr (Some 0%nat) 1) 0])
  /\ Vector_sized 2 (empty_world (E := NoDefault))
     = Throw (@mkworld NoDefault [] [None] [EvAllocate 0 2; EvDeallocate 0]).
Proof.
  split; [|split; [|split]].
  - apply (sized_constructor_value_initializes (E := Moved) empty_world 0);
      [lia|reflexivity].
  - apply (sized_constructor_value_initializes (E := Moved) empty_world (2 ^ 61));
      [lia|lia|reflexivity].
  - destruct (sized_constructor_value_initializes (E := Moved) empty_world 2)
      as (_ & _ & H & _); [lia|].
    apply (H 0); [lia|allocates_tac|reflexivity].
  - apply (sized_constructor_value_initializes (E := NoDefault) empty_world 2);
      [lia|lia|allocates_tac|reflexivity].
Defined.

(** [Resize(2^61)], [Resize(1)], [Resize(4)] and [Resize(6)] on the vector
    that holds 1, 2, 3 in four cells. *)
Lemma resize_truncates_or_extends_witness :
  Resize 0 (2 ^ 61) (@world_123 Moved 1 2 3) = Throw (@world_123 Moved 1 2 3)
  /\ (exists w',
        Resize 0 1 (@world_123 Moved 1 2 3) = Ok tt w'
        /\ Size 0 w' = Ok 1 w'
        /\ Capacity 0 w' = Ok 4 w'
        /\ (forall (j : nat) y, ([1] : list Z) !! j = Some y -> element_is w' 0 j y)
        /\ (1 <= 4 -> begin_ 0 w' = Ok (mkptr (Some 0%nat) 0) w')
        /\ (1 <= 3 ->
            trace w' = [EvDestroy (mkptr (Some 0%nat) 1) 2;
                        EvDestroy (mkptr (Some 0%nat) 2) 3]))
  /\ (exists w',
        Resize 0 4 (@world_123 Moved 1 2 3) = Ok tt w'
        /\ Size 0 w' = Ok 4 w'
        /\ Capacity 0 w' = Ok 4 w'
        /\ (forall (j : nat) y, ([1; 2; 3; 0] : list Z) !! j = Some y ->
              element_is w' 0 j y)
        /\ (4 <= 4 -> begin_ 0 w' = Ok (mkptr (Some 0%nat) 0) w')
        /\ (4 <= 3 -> trace w' = []))
  /\ (exists w',
        Resize 0 6 (@world_123 Moved 1 2 3) = Ok tt w'
        /\ Size 0 w' = Ok 6 w'
        /\ Capacity 0 w' = Ok 6 w'
        /\ (forall (j : nat) y, ([1; 2; 3; 0; 0; 0] : list Z) !! j = Some y ->
              element_is w' 0 j y)
        /\ (6 <= 4 -> begin_ 0 w' = Ok (mkptr (Some 0%nat) 0) w')
        /\ (6 <= 3 -> trace w' = [])).
Proof.
  split; [|split; [|split]].
  - apply (resize_truncates_or_extends (E := Moved) (@world_123 Moved 1 2 3)
             0 (Some 0%nat) 4 [1; 2; 3] [Raw] (2 ^ 61));
      [split; reflexivity|lia|lia|reflexivity].
  - destruct (resize_truncates_or_extends (E := Moved) (@world_123 Moved 1 2 3)
                0 (Some 0%nat) 4 [1; 2; 3] [Raw] 1) as [_ H];
      [split; reflexivity|lia|].
    apply (H 0); simpl; lia.
  - destruct (resize_truncates_or_extends (E := Moved) (@world_123 Moved 1 2 3)
                0 (Some 0%nat) 4 [1; 2; 3] [Raw] 4) as [_ H];
      [split; reflexivity|lia|].
    apply (H 0); [reflexivity|lia].
  - destruct (resize_truncates_or_extends (E := Moved) (@world_123 Moved 1 2 3)
                0 (Some 0%nat) 4 [1; 2; 3] [Raw] 6) as [_ H];
      [split; reflexivity|lia|].
    apply (H 0);
      [reflexivity|intros _; split; [repeat constructor|allocates_tac]].
Defined.

End MoreExamples.

Section MoreExamplesCopied.
Local Existing Instance debug_build.
Local Existing Instance Copied.
Local Existing Instance store_4GiB.

Lemma reserve_strong_guarantee_witness :
  exists w',
    Reserve 0 8 (@world_123 Copied 1 13 3) = Throw w'
    /\ objs w' = objs (@world_123 Copied 1 13 3)
    /\ heap w' = heap (@world_123 Copied 1 13 3) ++ [None]
    /\ repr w' 0 (Some 0%nat) 4 [1; 13; 3] [Raw]
    /\ trace w' =
         [EvAllocate 1 8; EvCopyConstruct (mkptr (Some 1%nat) 0) 1;
          EvDestroy (mkptr (Some 1%nat) 0) 1; EvDeallocate 1].
Proof.
  apply (reserve_strong_guarantee (E := Copied) (@world_123 Copied 1 13 3)
           0 (Some 0%nat) 4 [1] 13 [3] [Raw] 8).
  - split; reflexivity.
  - lia.
  - allocates_tac.
  - reflexivity.
  - repeat constructor.
  - reflexivity.
Defined.

Lemma push_back_relocation_throws_witness :
  exists w',
    EmplaceBack 1 (CopyOf (@Ext Copied 5)) (@world_two Copied 1 2 3 7 13) = Throw w'
    /\ (forall value, CopyOf (@Ext Copied 5) = CopyOf value ->
          PushBack 1 value (@world_two Copied 1 2 3 7 13) = Throw w')
    /\ (forall value, CopyOf (@Ext Copied 5) = MoveOf value ->
          PushBack_rv 1 value (@world_two Copied 1 2 3 7 13) = Throw w')
    /\ objs w' = objs (@world_two Copied 1 2 3 7 13)
    /\ heap w' = heap (@world_two Copied 1 2 3 7 13) ++ [None]
    /\ repr w' 1 (Some 1%nat) 2 [7; 13] []
    /\ trace w' =
         [EvAllocate 2 4; EvCopyConstruct (mkptr (Some 2%nat) 0) 7;
          EvDestroy (mkptr (Some 2%nat) 0) 7; EvDeallocate 2].
Proof.
  apply (push_back_relocation_throws (E := Copied) (@world_two Copied 1 2 3 7 13)
           1 (Some 1%nat) 2 [7] 13 [] (CopyOf (@Ext Copied 5))).
  - split; reflexivity.
  - reflexivity.
  - repeat constructor.
  - reflexivity.
  - simpl. lia.
  - allocates_tac.
Defined.

End MoreExamplesCopied.

Section MoreExamplesMoved.
Local Existing Instance debug_build.
Local Existing Instance Moved.
Local Existing Instance store_4GiB.

Lemma push_back_sequence_witness :
  exists this w' cap,
    (this <- Vector_default (E := Moved) ;;
     run_push_calls this three_calls ;;
     ret this) (empty_world (E := Moved)) = Ok this w'
    /\ Size this w' = Ok 3 w'
    /\ Capacity this w' = Ok cap w' /\ 3 <= cap
    /\ forall (i : nat) x,
         (pushed <$> three_calls) !! i = Some x ->
         (p <- index_op this (Z.of_nat i) ;; read p) w' = Ok x w'.
Proof.
  apply (push_back_sequence (E := Moved) (B := debug_build) empty_world
           three_calls).
  - repeat constructor.
  - vm_compute. discriminate.
  - serves_tac.
Defined.

Lemma insert_at_position_witness :
  exists it w',
    run_insert_call 1 (mkptr (Some 1%nat) 1)
      (@Call_Insert Moved 10) (@world_two Moved 1 2 3 7 8) = Ok it w'
    /\ Size 1 w' = Ok 3 w'
    /\ element_is w' 1 1 10
    /\ (forall (j : nat) y, (j < 1)%nat -> ([7; 8] : list Z) !! j = Some y ->
          element_is w' 1 j y)
    /\ (forall (j : nat) y, (1 <= j)%nat -> ([7; 8] : list Z) !! j = Some y ->
          element_is w' 1 (S j) y)
    /\ (b <- begin_ 1 ;; ret (ptr_add b 1)) w' = Ok it w'
    /\ read it w' = Ok 10 w'.
Proof.
  apply (insert_at_position (E := Moved) (B := debug_build)
           (@world_two Moved 1 2 3 7 8)
           1 (Some 1%nat) 2 [7; 8] [] 1 (@Call_Insert Moved 10)).
  - split; reflexivity.
  - simpl. lia.
  - repeat constructor.
  - repeat constructor.
  - vm_compute. reflexivity.
  - intros _. allocates_tac.
Defined.

Lemma assertions_check_witness :
  (NDEBUG = false -> 3 <= 4 -> index_op 0 4 (@world_123 Moved 1 2 3) = AssertFail)
  /\ (3 = 0 ->
      PopBack 0 (@world_123 Moved 1 2 3) = if NDEBUG then Undefined else AssertFail)
  /\ (4 <= 4 ->
      Erase 0 (mkptr (Some 0%nat) 4) (@world_123 Moved 1 2 3) <> AssertFail)
  /\ (NDEBUG = false -> 4 < 4 ->
      Erase 0 (mkptr (Some 0%nat) 4) (@world_123 Moved 1 2 3) = AssertFail).
Proof.
  apply (assertions_check (E := Moved) (B := debug_build) (@world_123 Moved 1 2 3)
           0 (mkVector (mkRawMemory (Some 0%nat) 4) 3) 4).
  - reflexivity.
  - lia.
  - simpl. lia.
Defined.

Lemma push_back_capacity_doubles_witness :
  exists this w',
    (this <- Vector_default (E := Moved) ;;
     run_push_calls this three_calls ;;
     ret this) (empty_world (E := Moved)) = Ok this w'
    /\ Capacity this w' = Ok (capacity_after 3) w'
    /\ (three_calls <> [] ->
        exists k, 0 <= k /\ capacity_after 3 = 2 ^ k
          /\ Z.of_nat 3 <= capacity_after 3 < 2 * Z.of_nat 3)
    /\ (forall m, (m < 3)%nat ->
          capacity_after m <= capacity_after (S m)
          /\ (capacity_after (S m) = capacity_after m
              \/ capacity_after (S m) = Z.max 1 (2 * capacity_after m))).
Proof.
  apply (push_back_capacity_doubles (E := Moved) (B := debug_build) empty_world
           three_calls).
  - repeat constructor.
  - vm_compute. discriminate.
  - serves_tac.
Defined.

(** [Erase] at the first and at the last element of 1, 2, 3. *)
Lemma erase_assigns_to_the_destroyed_object_witness :
  Erase 0 (mkptr (Some 0%nat) 0) (@world_123 Moved 1 2 3) = Undefined
  /\ exists w',
       Erase 0 (mkptr (Some 0%nat) 2) (@world_123 Moved 1 2 3)
       = Ok (mkptr (Some 0%nat) 2) w'
       /\ trace w' = [EvDestroy (mkptr (Some 0%nat) 2) 3]
       /\ repr w' 0 (Some 0%nat) 4 [1; 2] [Raw; Raw]
       /\ end_ 0 w' = Ok (mkptr (Some 0%nat) 2) w'.
Proof.
  split.
  - apply (erase_assigns_to_the_destroyed_object (E := Moved)
             (@world_123 Moved 1 2 3) 0 0 4 [1; 2; 3] [Raw] 0 1).
    + split; reflexivity.
    + reflexivity.
    + simpl. lia.
  - apply (erase_assigns_to_the_destroyed_object (E := Moved)
             (@world_123 Moved 1 2 3) 0 0 4 [1; 2; 3] [Raw] 2 3).
    + split; reflexivity.
    + reflexivity.
    + reflexivity.
Defined.

(** [PushBack(9)] and [PopBack] on the vector that holds 1, 3 and has a
    moved-from object in its first spare cell. *)
Lemma push_then_pop_witness :
  (forall value, CopyOf (@Ext Moved 9) = CopyOf value ->
     (PushBack 0 value ;; PopBack 0)
       (@mkworld Moved [Some (mkVector (mkRawMemory (Some 0%nat) 4) 2)]
          [Some [@Live Moved 1; Live 3; Live 0; Raw]] [])
     = (EmplaceBack 0 (CopyOf (@Ext Moved 9)) ;; PopBack 0)
         (@mkworld Moved [Some (mkVector (mkRawMemory (Some 0%nat) 4) 2)]
            [Some [@Live Moved 1; Live 3; Live 0; Raw]] []))
  /\ (EmplaceBack 0 (CopyOf (@Ext Moved 9)) ;; PopBack 0)
       (@mkworld Moved [Some (mkVector (mkRawMemory (Some 0%nat) 4) 2)]
          [Some [@Live Moved 1; Live 3; Live 0; Raw]] [])
     = Ok tt
         (@mkworld Moved [Some (mkVector (mkRawMemory (Some 0%nat) 4) 2)]
            [Some [@Live Moved 1; Live 3; Raw; Raw]]
            [@EvCopyConstruct Moved (mkptr (Some 0%nat) 2) 9;
             EvDestroy (mkptr (Some 0%nat) 2) 9])
  /\ (@Live Moved 0 = Raw ->
      [Some [@Live Moved 1; Live 3; Raw; Raw]]
      = [Some [@Live Moved 1; Live 3; Live 0; Raw]]).
Proof.
  apply (push_then_pop (E := Moved)
           (@mkworld Moved [Some (mkVector (mkRawMemory (Some 0%nat) 4) 2)]
              [Some [@Live Moved 1; @Live Moved 3; @Live Moved 0; Raw]] [])
           0 0 4 [1; 3] (@Live Moved 0) [Raw] (CopyOf (@Ext Moved 9)) 9
           EvCopyConstruct).
  - split; reflexivity.
  - now constructor.
Defined.

(** [Emplace(end(), 10)] and [Emplace(begin() + 1, 10)] on 1, 2, 3, each
    followed by [Erase] at the iterator returned. *)
Lemma insert_then_erase_witness :
  (exists it w1 w2 buf' rest',
     Emplace 0 (mkptr (Some 0%nat) 3) (@Other Moved (Some 10)) (@world_123 Moved 1 2 3)
     = Ok it w1
     /\ Erase 0 it w1 = Ok it w2
     /\ trace w2 = trace w1 ++ [EvDestroy it 10]
     /\ repr w2 0 buf' 4 [1; 2; 3] rest'
     /\ Size 0 w2 = Ok 3 w2
     /\ (forall (j : nat) y, ([1; 2; 3] : list Z) !! j = Some y ->
           element_is w2 0 j y))
  /\ (exists it w1,
        Emplace 0 (mkptr (Some 0%nat) 1) (@Other Moved (Some 10))
          (@world_123 Moved 1 2 3) = Ok it w1
        /\ Erase 0 it w1 = Undefined).
Proof.
  split.
  - destruct (insert_then_erase (E := Moved) (@world_123 Moved 1 2 3)
                0 (Some 0%nat) 4 [1; 2; 3] [Raw] 3 (@Other Moved (Some 10)) 10
                EvConstruct)
      as (it & w1 & Hrun & _ & Hlast).
    + split; reflexivity.
    + simpl. lia.
    + constructor.
    + repeat constructor.
    + repeat constructor.
    + simpl. lia.
    + simpl. lia.
    + destruct (Hlast eq_refl) as (w2 & buf' & rest' & H).
      exists it, w1, w2, buf', rest'. split; [exact Hrun|exact H].
  - destruct (insert_then_erase (E := Moved) (@world_123 Moved 1 2 3)
                0 (Some 0%nat) 4 [1; 2; 3] [Raw] 1 (@Other Moved (Some 10)) 10
                EvConstruct)
      as (it & w1 & Hrun & Hundef & _).
    + split; reflexivity.
    + simpl. lia.
    + constructor.
    + repeat constructor.
    + repeat constructor.
    + simpl. lia.
    + simpl. lia.
    + exists it, w1. split; [exact Hrun|]. apply Hundef. simpl. lia.
Defined.

Lemma capacity_never_decreases_witness :
  exists c',
    Capacity 0
      (@mkworld Moved [Some (mkVector (mkRawMemory (Some 1%nat) 8) 3)]
         [None; Some [Live 1; Live 2; Live 3; Raw; Raw; Raw; Raw; Raw]]
         [EvAllocate 1 8;
          EvMoveConstruct (mkptr (Some 1%nat) 0) 1;
          EvMoveConstruct (mkptr (Some 1%nat) 1) 2;
          EvMoveConstruct (mkptr (Some 1%nat) 2) 3;
          EvDestroy (mkptr (Some 0%nat) 0) 0;
          EvDestroy (mkptr (Some 0%nat) 1) 0;
          EvDestroy (mkptr (Some 0%nat) 2) 0;
          EvDeallocate 0])
    = Ok c'
        (@mkworld Moved [Some (mkVector (mkRawMemory (Some 1%nat) 8) 3)]
           [None; Some [Live 1; Live 2; Live 3; Raw; Raw; Raw; Raw; Raw]]
           [EvAllocate 1 8;
            EvMoveConstruct (mkptr (Some 1%nat) 0) 1;
            EvMoveConstruct (mkptr (Some 1%nat) 1) 2;
            EvMoveConstruct (mkptr (Some 1%nat) 2) 3;
            EvDestroy (mkptr (Some 0%nat) 0) 0;
            EvDestroy (mkptr (Some 0%nat) 1) 0;
            EvDestroy (mkptr (Some 0%nat) 2) 0;
            EvDeallocate 0])
    /\ 4 <= c'.
Proof.
  apply (capacity_never_decreases (E := Moved) (B := debug_build)
           (@world_123 Moved 1 2 3) 0
           (mkVector (mkRawMemory (Some 0%nat) 4) 3) (Op_Reserve 8)).
  - reflexivity.
  - unfold size_ok. simpl. lia.
  - simpl. lia.
  - simpl. lia.
  - left. reflexivity.
Defined.

Lemma spare_cells_are_never_destroyed_witness :
  exists evs,
    [@EvCopyConstruct Moved (mkptr (Some 0%nat) 2) 9;
     EvDestroy (mkptr (Some 0%nat) 2) 9]
    = [] ++ evs
    /\ spared (mkptr (Some 0%nat) 2) evs
    /\ forall w'',
         Vector_delete 0
           (@mkworld Moved [Some (mkVector (mkRawMemory (Some 0%nat) 4) 2)]
              [Some [@Live Moved 1; Live 3; Raw; Raw]]
              [@EvCopyConstruct Moved (mkptr (Some 0%nat) 2) 9;
               EvDestroy (mkptr (Some 0%nat) 2) 9])
         = Ok tt w'' ->
         exists evs',
           trace w'' = [] ++ evs ++ evs'
           /\ spared (mkptr (Some 0%nat) 2) (evs ++ evs').
Proof.
  apply (spare_cells_are_never_destroyed (E := Moved) (B := debug_build)
           (@mkworld Moved [Some (mkVector (mkRawMemory (Some 0%nat) 4) 2)]
              [Some [@Live Moved 1; @Live Moved 3; @Live Moved 0; Raw]] [])
           0 (mkptr (Some 0%nat) 2)
           [Op_PushBack (@Ext Moved 9); Op_PopBack]
           (@mkworld Moved [Some (mkVector (mkRawMemory (Some 0%nat) 4) 2)]
              [Some [@Live Moved 1; @Live Moved 3; Raw; Raw]]
              [@EvCopyConstruct Moved (mkptr (Some 0%nat) 2) 9;
               @EvDestroy Moved (mkptr (Some 0%nat) 2) 9])).
  - exists (mkVector (mkRawMemory (Some 0%nat) 4) 2).
    split; [reflexivity|]. split; [unfold size_ok; simpl; lia|].
    split; [exists 0%nat; split; reflexivity|simpl; lia].
  - eapply calls_returns; [reflexivity|exact I|reflexivity|].
    eapply calls_returns; [reflexivity|vm_compute; reflexivity|reflexivity|].
    apply calls_nil.
Defined.

Lemma push_back_of_own_element_witness :
  exists w' buf' rest',
    PushBack 1 (At (mkptr (Some 1%nat) (Z.of_nat 0)))
      (@world_two Moved 1 2 3 7 8) = Ok tt w'
    /\ repr w' 1 buf' (pushed_capacity (Z.of_nat (length [7; 8])) 2)
         ([7; 8] ++ [if (Z.of_nat (length [7; 8]) =? 2) && relocate_by_move
                     then moved_from 7 else 7]) rest'.
Proof.
  apply (push_back_of_own_element (E := Moved) (B := debug_build)
           (@world_two Moved 1 2 3 7 8) 1 1 2 [7; 8] [] 0 7).
  - split; reflexivity.
  - reflexivity.
  - intros _. split; [repeat constructor|split; [simpl; lia|allocates_tac]].
  - reflexivity.
Defined.

Lemma insert_construction_throws_witness :
  exists w',
    Emplace 1 (mkptr (Some 1%nat) 1) (@Other Moved None)
      (@world_two Moved 1 2 3 7 8) = Throw w'
    /\ (forall value, Other None = CopyOf value ->
          Insert 1 (mkptr (Some 1%nat) 1) value (@world_two Moved 1 2 3 7 8)
          = Throw w')
    /\ (forall value, Other None = MoveOf value ->
          Insert_rv 1 (mkptr (Some 1%nat) 1) value (@world_two Moved 1 2 3 7 8)
          = Throw w')
    /\ (@nil (@slot Moved) <> [] -> w' = @world_two Moved 1 2 3 7 8)
    /\ (@nil (@slot Moved) = [] ->
          objs w' = objs (@world_two Moved 1 2 3 7 8)
          /\ repr w' 1 (Some 1%nat) 2 (relocated_from [7] ++ [8]) []
          /\ trace w' = trace (@world_two Moved 1 2 3 7 8)
               ++ [EvAllocate 2 (grown_capacity 2)]
               ++ events_from relocate_event (mkptr (Some 2%nat) 0) 0 [7]
               ++ [EvDeallocate 2]).
Proof.
  apply (insert_construction_throws (E := Moved) (B := debug_build)
           (@world_two Moved 1 2 3 7 8) 1 1 2 [7] [8] [] (@Other Moved None)).
  - split; reflexivity.
  - discriminate.
  - constructor.
  - intros _. split; [repeat constructor|split; [simpl; lia|allocates_tac]].
Defined.

(** [PushBack(9)] onto the full vector that holds 7, 8, and three pushes
    onto a default-constructed vector. *)
Lemma capacity_doubles_and_never_shrinks_witness :
  let w' :=
    @mkworld Moved
      [Some (mkVector (mkRawMemory (Some 0%nat) 4) 3);
       Some (mkVector (mkRawMemory (Some 2%nat) 4) 3)]
      [Some [Live 1; Live 2; Live 3; Raw]; None;
       Some [Live 7; Live 8; Live 9; Raw]]
      [EvAllocate 2 4; EvMoveConstruct (mkptr (Some 2%nat) 0) 7;
       EvMoveConstruct (mkptr (Some 2%nat) 1) 8;
       EvCopyConstruct (mkptr (Some 2%nat) 2) 9;
       EvDestroy (mkptr (Some 1%nat) 0) 0; EvDestroy (mkptr (Some 1%nat) 1) 0;
       EvDeallocate 1] in
  run_op 1 (Op_PushBack (@Ext Moved 9)) (@world_two Moved 1 2 3 7 8) = Ok tt w'
  /\ Capacity 1 (@world_two Moved 1 2 3 7 8) = Ok 2 (@world_two Moved 1 2 3 7 8)
  /\ Capacity 1 w' = Ok 4 w'
  /\ exists v w1,
       (v <- Vector_default ;; run_push_calls v three_calls ;; ret v) empty_world
       = Ok v w1
       /\ Capacity v w1 = Ok 4 w1.
Proof.
  intros w'.
  destruct (capacity_doubles_and_never_shrinks (E := Moved) (B := debug_build)
              (F := store_4GiB) (@world_two Moved 1 2 3 7 8) 1
              (mkVector (mkRawMemory (Some 1%nat) 2) 2) (Op_PushBack (@Ext Moved 9)) w')
    as [(c' & Hc & Hle & Hgrow) Hseq].
  - reflexivity.
  - unfold size_ok. simpl. lia.
  - simpl. lia.
  - exact I.
  - left. reflexivity.
  - split; [reflexivity|]. split; [reflexivity|]. split.
    + rewrite Hc. now rewrite (Hgrow I eq_refl eq_refl).
    + destruct (Hseq three_calls empty_world) as (v & w1 & Hrun & Hcap & _).
      * repeat constructor.
      * vm_compute. discriminate.
      * serves_tac.
      * exists v, w1. split; [exact Hrun|exact Hcap].
Defined.

(** Calls on the empty vector 0 and on the vector that holds 1, 2, 3 in 4
    cells, with and without assertions. *)
Lemma precondition_violations_witness :
  (index_op 0 0 world_empty_78 = AssertFail
   /\ PopBack 0 world_empty_78 = AssertFail
   /\ Erase 0 (mkptr None 0) world_empty_78 = Undefined)
  /\ (Erase 0 (mkptr (Some 0%nat) 3) (@world_123 Moved 1 2 3) = Undefined
      /\ Erase 0 (mkptr (Some 0%nat) 5) (@world_123 Moved 1 2 3) = AssertFail)
  /\ ((p <- index_op (B := release_build) 0 3 ;; read p) (@world_123 Moved 1 2 3)
      = Undefined
      /\ PopBack (B := release_build) 0 world_empty_78 = Undefined
      /\ Erase (B := release_build) 0 (mkptr (Some 0%nat) 5) (@world_123 Moved 1 2 3)
         = Undefined).
Proof.
  split; [|split; [split|]].
  - destruct (precondition_violations (E := Moved) (B := debug_build)
                world_empty_78 0 None 0 [] [] 0) as (H1 & _ & H3 & H4 & _).
    + split; reflexivity.
    + simpl. lia.
    + discriminate.
    + split; [now apply H1|]. split; [now apply H3|exact H4].
  - destruct (precondition_violations (E := Moved) (B := debug_build)
                (@world_123 Moved 1 2 3) 0 (Some 0%nat) 4 [1; 2; 3] [Raw] 3)
      as (_ & _ & _ & H4 & _).
    + split; reflexivity.
    + simpl. lia.
    + discriminate.
    + exact H4.
  - destruct (precondition_violations (E := Moved) (B := debug_build)
                (@world_123 Moved 1 2 3) 0 (Some 0%nat) 4 [1; 2; 3] [Raw] 5)
      as (_ & _ & _ & H4 & _).
    + split; reflexivity.
    + simpl. lia.
    + discriminate.
    + exact H4.
  - destruct (precondition_violations (E := Moved) (B := release_build)
                (@world_123 Moved 1 2 3) 0 (Some 0%nat) 4 [1; 2; 3] [Raw] 3)
      as (_ & H2 & _ & _ & _).
    + split; reflexivity.
    + simpl. lia.
    + discriminate.
    + destruct (precondition_violations (E := Moved) (B := release_build)
                  world_empty_78 0 None 0 [] [] 0) as (_ & _ & H3 & _ & _).
      * split; reflexivity.
      * simpl. lia.
      * discriminate.
      * destruct (precondition_violations (E := Moved) (B := release_build)
                    (@world_123 Moved 1 2 3) 0 (Some 0%nat) 4 [1; 2; 3] [Raw] 5)
          as (_ & _ & _ & H4 & _).
        -- split; reflexivity.
        -- simpl. lia.
        -- discriminate.
        -- split; [now apply H2|]. split; [now apply H3|exact H4].
Defined.

End MoreExamplesMoved.

Section MoreExamplesLimits.
Local Existing Instance debug_build.
Local Existing Instance Moved.

(** [Reserve(2^62 + 1)] on an empty vector, for elements of 4 bytes: the
    size in bytes wraps around to 4, and the block has one cell. *)
Lemma reserve_size_overflow_witness :
  exists w',
    Reserve (F := store_4GiB) 0 (2 ^ 62 + 1)
      (@mkworld Moved [Some (mkVector (mkRawMemory None 0) 0)] [] []) = Ok tt w'
    /\ Size 0 w' = Ok 0 w'
    /\ Capacity 0 w' = Ok (2 ^ 62 + 1) w'
    /\ begin_ 0 w' = Ok (mkptr (Some 0%nat) 0) w'
    /\ block w' 0 = Some [Raw]
    /\ (2 ^ 64 <= (2 ^ 62 + 1) * 4 -> 1 < 2 ^ 62 + 1).
Proof.
  apply (reserve_size_overflow (E := Moved) (F := store_4GiB)
           (@mkworld Moved [Some (mkVector (mkRawMemory None 0) 0)] [] [])
           0 (2 ^ 62 + 1)).
  - split; reflexivity.
  - lia.
  - reflexivity.
Defined.

(** An empty vector (the vector 0) and the full vector that holds 7, 8
    (the vector 1) when the free store is exhausted. *)
Lemma bad_alloc_changes_nothing_witness :
  (EmplaceBack (F := exhausted_store) 1 (CopyOf (@Ext Moved 9)) world_empty_78
   = Throw world_empty_78
   /\ PushBack (F := exhausted_store) 1 (@Ext Moved 9) world_empty_78
      = Throw world_empty_78
   /\ Insert (F := exhausted_store) 1 (mkptr (Some 0%nat) 1) (@Ext Moved 9)
        world_empty_78 = Throw world_empty_78)
  /\ (Vector_copy (F := exhausted_store) 1 world_empty_78 = Throw world_empty_78
      /\ copy_assignment (F := exhausted_store) 0 1 world_empty_78
         = Throw world_empty_78).
Proof.
  destruct (bad_alloc_changes_nothing (E := Moved) (B := debug_build)
              (F := exhausted_store) world_empty_78
              1 (Some 0%nat) 2 [7; 8]) as [Hgrow Hcopy].
  - split; reflexivity.
  - simpl. lia.
  - split.
    + destruct (Hgrow eq_refl (CopyOf (@Ext Moved 9)))
        as (H1 & H2 & _ & _ & H5).
      split; [exact H1|]. split; [now apply H2|].
      apply (H5 1%nat); [simpl; lia|reflexivity].
    + destruct (Hcopy ltac:(discriminate) eq_refl) as [H1 H2].
      split; [exact H1|].
      apply (H2 0%nat (mkVector (mkRawMemory None 0) 0));
        [discriminate|reflexivity|simpl; lia].
Defined.

End MoreExamplesLimits.
